(** * GraphBLAS: a shallow embedding of selected kernels and their properties

    The development follows the C sources one file per module:

    - [SemiringBuiltin]  Source/GB_AxB_semiring_builtin.c
    - [Dot]              Source/GB_AxB_dot.c (generic dot-product path)
    - [Emult]            Source/Template/GB_emult_template.c
    - [Ewise]            Source/GB_ewise.c
    - [ExportCSC]        Source/GxB_Matrix_export_CSC.c
    - [ImportCSC]        Source/GxB_Matrix_import_CSC.c
    - [DenseAccum]       Source/GB_dense_accum_sparse.c, Source/GB_subassign_23.c

    Conventions.  [int64_t] and [GrB_Index] quantities are modelled as [Z];
    GraphBLAS bounds every dimension and entry count by [GB_INDEX_MAX = 2^60],
    so none of the index arithmetic below can wrap.  A C pointer that may be
    [NULL] is an [option].  *)

From Stdlib Require Import ZArith List Bool Lia Sorted.
Import ListNotations.
Local Open Scope Z_scope.

(** A C array that is only read, or written cell by cell, is a map from
    offsets to contents. *)
Definition array (T : Type) : Type := Z -> T.

Definition of_list {T : Type} (d : T) (l : list T) : array T :=
  fun p => nth (Z.to_nat p) l d.

(** The offsets [0, 1, ..., n-1] of a [for] loop. *)
Definition zrange (n : Z) : list Z := map Z.of_nat (seq 0 (Z.to_nat n)).

(* ===================================================================== *)
(** * Opcodes, type codes and operator descriptors (GB.h)                 *)
(* ===================================================================== *)

(** Modelled from the spec: the enumeration [GB_Opcode] is declared in GB.h,
    which is absent.  The constructors are the binary
    opcodes named by the sources and by section 3 of the specification, plus
    the two user-defined arms. *)
Inductive GB_Opcode : Type :=
| GB_FIRST_opcode | GB_SECOND_opcode | GB_PAIR_opcode | GB_ANY_opcode
| GB_MIN_opcode | GB_MAX_opcode | GB_PLUS_opcode | GB_MINUS_opcode
| GB_RMINUS_opcode | GB_TIMES_opcode | GB_DIV_opcode | GB_RDIV_opcode
| GB_ISEQ_opcode | GB_ISNE_opcode | GB_ISGT_opcode | GB_ISLT_opcode
| GB_ISGE_opcode | GB_ISLE_opcode
| GB_LOR_opcode | GB_LAND_opcode | GB_LXOR_opcode
| GB_EQ_opcode | GB_NE_opcode | GB_GT_opcode | GB_LT_opcode
| GB_GE_opcode | GB_LE_opcode
| GB_USER_C_opcode | GB_USER_R_opcode.

Definition GB_Opcode_eq_dec (a b : GB_Opcode) : {a = b} + {a <> b}.
Proof. decide equality. Defined.

Definition opcode_eqb (a b : GB_Opcode) : bool :=
  if GB_Opcode_eq_dec a b then true else false.

(** Modelled from the spec: the enumeration [GB_Type_code] of GB.h (absent).
    [GB_UCT_code] and [GB_UDT_code] are the user-defined types. *)
Inductive GB_Type_code : Type :=
| GB_BOOL_code | GB_INT8_code | GB_UINT8_code | GB_INT16_code | GB_UINT16_code
| GB_INT32_code | GB_UINT32_code | GB_INT64_code | GB_UINT64_code
| GB_FP32_code | GB_FP64_code | GB_UCT_code | GB_UDT_code.

Definition GB_Type_code_eq_dec (a b : GB_Type_code) : {a = b} + {a <> b}.
Proof. decide equality. Defined.

Definition code_eqb (a b : GB_Type_code) : bool :=
  if GB_Type_code_eq_dec a b then true else false.

(** A [GrB_Type] is compared by address in the C code; [type_addr] stands for
    the address of the descriptor. *)
Record GrB_Type : Type := mkType { type_addr : Z ; code : GB_Type_code }.

Definition type_eqb (s t : GrB_Type) : bool :=
  (type_addr s =? type_addr t) && code_eqb (code s) (code t).

Record GrB_BinaryOp : Type := mkBinaryOp
  { xtype : GrB_Type ; ytype : GrB_Type ; ztype : GrB_Type ;
    opcode : GB_Opcode }.

(** An operator together with the C function it points to, acting on
    scalars of type [val]. *)
Record binary_function (val : Type) : Type := mkFunction
  { descr : GrB_BinaryOp ; function : val -> val -> val }.

(** [GrB_Info], the status returned by every primitive. *)
Inductive GrB_Info : Type :=
| GrB_SUCCESS | GrB_NO_VALUE
| GrB_UNINITIALIZED_OBJECT | GrB_INVALID_OBJECT | GrB_NULL_POINTER
| GrB_INVALID_VALUE | GrB_INVALID_INDEX | GrB_DOMAIN_MISMATCH
| GrB_DIMENSION_MISMATCH | GrB_OUTPUT_NOT_EMPTY | GrB_OUT_OF_MEMORY
| GrB_INSUFFICIENT_SPACE | GrB_INDEX_OUT_OF_BOUNDS | GrB_PANIC.

Definition GrB_Info_eq_dec (a b : GrB_Info) : {a = b} + {a <> b}.
Proof. decide equality. Defined.

Record GrB_Monoid : Type := mkMonoid { op : GrB_BinaryOp }.

Record GrB_Semiring : Type := mkSemiring
  { add : GrB_Monoid ; multiply : GrB_BinaryOp }.

(** Modelled from the spec: [GB_boolean_rename] lives in a source file that
    is absent; the table is the one of section 4.4.3 of the specification, and
    of the comment that precedes its call in GB_AxB_semiring_builtin.c. *)
Definition GB_boolean_rename (opc : GB_Opcode) : GB_Opcode :=
  match opc with
  | GB_DIV_opcode => GB_FIRST_opcode
  | GB_RDIV_opcode => GB_SECOND_opcode
  | GB_MIN_opcode | GB_TIMES_opcode => GB_LAND_opcode
  | GB_MAX_opcode | GB_PLUS_opcode => GB_LOR_opcode
  | GB_NE_opcode | GB_ISNE_opcode | GB_RMINUS_opcode | GB_MINUS_opcode =>
      GB_LXOR_opcode
  | GB_ISEQ_opcode => GB_EQ_opcode
  | GB_ISGT_opcode => GB_GT_opcode
  | GB_ISLT_opcode => GB_LT_opcode
  | GB_ISGE_opcode => GB_GE_opcode
  | GB_ISLE_opcode => GB_LE_opcode
  | o => o
  end.

(** Modelled from the spec: the functions behind the built-in opcodes are
    absent; this is their reading on integers (section 3 of the
    specification and the operator lines of the generated kernels: "z = x >
    y", "z = (x != 0) && (y != 0)", "cij = GB_FC64_div (bij, aij)", "z =
    1").  Comparisons and logical operators yield 0 or 1.  ANY may return
    either argument and the user-defined arms are opaque: they get no
    reading. *)
Definition Z_of_bool (b : bool) : Z := if b then 1 else 0.

Definition opcode_function (o : GB_Opcode) : option (Z -> Z -> Z) :=
  match o with
  | GB_FIRST_opcode => Some (fun x _ => x)
  | GB_SECOND_opcode => Some (fun _ y => y)
  | GB_PAIR_opcode => Some (fun _ _ => 1)
  | GB_MIN_opcode => Some Z.min
  | GB_MAX_opcode => Some Z.max
  | GB_PLUS_opcode => Some Z.add
  | GB_MINUS_opcode => Some (fun x y => x - y)
  | GB_RMINUS_opcode => Some (fun x y => y - x)
  | GB_TIMES_opcode => Some Z.mul
  | GB_DIV_opcode => Some (fun x y => Z.quot x y)
  | GB_RDIV_opcode => Some (fun x y => Z.quot y x)
  | GB_ISEQ_opcode | GB_EQ_opcode => Some (fun x y => Z_of_bool (x =? y))
  | GB_ISNE_opcode | GB_NE_opcode =>
      Some (fun x y => Z_of_bool (negb (x =? y)))
  | GB_ISGT_opcode | GB_GT_opcode => Some (fun x y => Z_of_bool (x >? y))
  | GB_ISLT_opcode | GB_LT_opcode => Some (fun x y => Z_of_bool (x <? y))
  | GB_ISGE_opcode | GB_GE_opcode => Some (fun x y => Z_of_bool (x >=? y))
  | GB_ISLE_opcode | GB_LE_opcode => Some (fun x y => Z_of_bool (x <=? y))
  | GB_LOR_opcode =>
      Some (fun x y => Z_of_bool (negb (x =? 0) || negb (y =? 0)))
  | GB_LAND_opcode =>
      Some (fun x y => Z_of_bool (negb (x =? 0) && negb (y =? 0)))
  | GB_LXOR_opcode =>
      Some (fun x y => Z_of_bool (xorb (negb (x =? 0)) (negb (y =? 0))))
  | GB_ANY_opcode | GB_USER_C_opcode | GB_USER_R_opcode => None
  end.

(* ===================================================================== *)
(** * GB_AxB_semiring_builtin                                             *)
(* ===================================================================== *)

Module SemiringBuiltin.

(** Only the type of a matrix is inspected by this function. *)
Record GrB_Matrix : Type := mkMatrix { type : GrB_Type }.

(** The four output arguments; the caller owns the storage, so the function
    starts from whatever the caller left there. *)
Record outputs : Type := mkOutputs
  { mult_opcode : GB_Opcode ; add_opcode : GB_Opcode ;
    xycode : GB_Type_code ; zcode : GB_Type_code }.

Definition set_mult (o : outputs) (m : GB_Opcode) : outputs :=
  mkOutputs m (add_opcode o) (xycode o) (zcode o).
Definition set_add (o : outputs) (a : GB_Opcode) : outputs :=
  mkOutputs (mult_opcode o) a (xycode o) (zcode o).
Definition set_xycode (o : outputs) (c : GB_Type_code) : outputs :=
  mkOutputs (mult_opcode o) (add_opcode o) c (zcode o).
Definition set_zcode (o : outputs) (c : GB_Type_code) : outputs :=
  mkOutputs (mult_opcode o) (add_opcode o) (xycode o) c.

(** The [switch] of the flipxy block. *)
Definition flipxy_switch (m : GB_Opcode) : GB_Opcode :=
  match m with
  | GB_FIRST_opcode => GB_SECOND_opcode
  | GB_SECOND_opcode => GB_FIRST_opcode
  | GB_GT_opcode => GB_LT_opcode
  | GB_LT_opcode => GB_GT_opcode
  | GB_GE_opcode => GB_LE_opcode
  | GB_LE_opcode => GB_GE_opcode
  | GB_ISGT_opcode => GB_ISLT_opcode
  | GB_ISLT_opcode => GB_ISGT_opcode
  | GB_ISGE_opcode => GB_ISLE_opcode
  | GB_ISLE_opcode => GB_ISGE_opcode
  | GB_DIV_opcode => GB_RDIV_opcode
  | GB_RDIV_opcode => GB_DIV_opcode
  | GB_MINUS_opcode => GB_RMINUS_opcode
  | GB_RMINUS_opcode => GB_MINUS_opcode
  | o => o
  end.

Section Builtin.

(** The numeric values of the two enumerations are fixed by GB.h, which is
    absent: the function is modelled for any numbering. *)
Variable opcode_num : GB_Opcode -> Z.
Variable code_num : GB_Type_code -> Z.

Definition GB_AxB_semiring_builtin
    (A : GrB_Matrix) (A_is_pattern : bool)
    (B : GrB_Matrix) (B_is_pattern : bool)
    (semiring : GrB_Semiring) (flipxy : bool)
    (out : outputs) : bool * outputs :=
  let add := op (add semiring) in
  let mult := multiply semiring in
  let out := set_add out (opcode add) in
  let out := set_mult out (opcode mult) in
  if negb A_is_pattern &&
     (negb (type_eqb (type A) (if flipxy then ytype mult else xtype mult))
      || (code_num (code (type A)) >=? code_num GB_UCT_code))
  then (false, out)
  else if negb B_is_pattern &&
     (negb (type_eqb (type B) (if flipxy then xtype mult else ytype mult))
      || (code_num (code (type B)) >=? code_num GB_UCT_code))
  then (false, out)
  else if negb A_is_pattern && negb B_is_pattern
          && negb (type_eqb (type A) (type B))
  then (false, out)
  else if (opcode_num (add_opcode out) >=? opcode_num GB_USER_C_opcode)
          || (opcode_num (mult_opcode out) >=? opcode_num GB_USER_C_opcode)
  then (false, out)
  else
    let out := set_xycode out (code (xtype mult)) in
    let out := set_zcode out (code (ztype mult)) in
    let out :=
      if code_eqb (xycode out) GB_BOOL_code
      then set_mult out (GB_boolean_rename (mult_opcode out)) else out in
    let out :=
      if code_eqb (zcode out) GB_BOOL_code
      then set_add out (GB_boolean_rename (add_opcode out)) else out in
    let out :=
      if flipxy then set_mult out (flipxy_switch (mult_opcode out)) else out in
    (true, out).

End Builtin.

(** The multiply opcode as it stands when the flipxy block is entered. *)
Definition renamed_mult (semiring : GrB_Semiring) : GB_Opcode :=
  let mult := multiply semiring in
  if code_eqb (code (xtype mult)) GB_BOOL_code
  then GB_boolean_rename (opcode mult) else opcode mult.

(** The rewrite of section 4.4.4, written from the specification's list of
    exchanged pairs. *)
Definition flip_pairs : list (GB_Opcode * GB_Opcode) :=
  [ (GB_LT_opcode, GB_GT_opcode); (GB_LE_opcode, GB_GE_opcode);
    (GB_ISLT_opcode, GB_ISGT_opcode); (GB_ISLE_opcode, GB_ISGE_opcode);
    (GB_FIRST_opcode, GB_SECOND_opcode); (GB_DIV_opcode, GB_RDIV_opcode);
    (GB_MINUS_opcode, GB_RMINUS_opcode) ].

Fixpoint swap_in (ps : list (GB_Opcode * GB_Opcode)) (m : GB_Opcode)
  : GB_Opcode :=
  match ps with
  | [] => m
  | (a, b) :: ps' =>
      if opcode_eqb m a then b
      else if opcode_eqb m b then a
      else swap_in ps' m
  end.

Definition spec_flipxy (m : GB_Opcode) : GB_Opcode := swap_in flip_pairs m.

(** A concrete numbering, in the order of the constructors above. *)
Definition opcode_index (o : GB_Opcode) : Z :=
  match o with
  | GB_FIRST_opcode => 0 | GB_SECOND_opcode => 1 | GB_PAIR_opcode => 2
  | GB_ANY_opcode => 3 | GB_MIN_opcode => 4 | GB_MAX_opcode => 5
  | GB_PLUS_opcode => 6 | GB_MINUS_opcode => 7 | GB_RMINUS_opcode => 8
  | GB_TIMES_opcode => 9 | GB_DIV_opcode => 10 | GB_RDIV_opcode => 11
  | GB_ISEQ_opcode => 12 | GB_ISNE_opcode => 13 | GB_ISGT_opcode => 14
  | GB_ISLT_opcode => 15 | GB_ISGE_opcode => 16 | GB_ISLE_opcode => 17
  | GB_LOR_opcode => 18 | GB_LAND_opcode => 19 | GB_LXOR_opcode => 20
  | GB_EQ_opcode => 21 | GB_NE_opcode => 22 | GB_GT_opcode => 23
  | GB_LT_opcode => 24 | GB_GE_opcode => 25 | GB_LE_opcode => 26
  | GB_USER_C_opcode => 27 | GB_USER_R_opcode => 28
  end.

Definition code_index (c : GB_Type_code) : Z :=
  match c with
  | GB_BOOL_code => 0 | GB_INT8_code => 1 | GB_UINT8_code => 2
  | GB_INT16_code => 3 | GB_UINT16_code => 4 | GB_INT32_code => 5
  | GB_UINT32_code => 6 | GB_INT64_code => 7 | GB_UINT64_code => 8
  | GB_FP32_code => 9 | GB_FP64_code => 10 | GB_UCT_code => 11
  | GB_UDT_code => 12
  end.

(** Sample descriptors. *)
Definition GrB_BOOL : GrB_Type := mkType 100 GB_BOOL_code.
Definition GrB_INT8 : GrB_Type := mkType 101 GB_INT8_code.
Definition GrB_FP32 : GrB_Type := mkType 109 GB_FP32_code.

Definition binop_bool (o : GB_Opcode) : GrB_BinaryOp :=
  mkBinaryOp GrB_BOOL GrB_BOOL GrB_BOOL o.

(** The semiring (PLUS, DIV) over bool, and (EQ, GT) over int8 of
    Generated/GB_AxB__eq_gt_int8.c. *)
Definition plus_div_bool : GrB_Semiring :=
  mkSemiring (mkMonoid (binop_bool GB_PLUS_opcode)) (binop_bool GB_DIV_opcode).
Definition eq_gt_int8 : GrB_Semiring :=
  mkSemiring (mkMonoid (binop_bool GB_EQ_opcode))
             (mkBinaryOp GrB_INT8 GrB_INT8 GrB_BOOL GB_GT_opcode).

Definition out0 : outputs :=
  mkOutputs GB_USER_R_opcode GB_USER_R_opcode GB_UDT_code GB_UDT_code.

End SemiringBuiltin.

(* ===================================================================== *)
(** * GB_AxB_dot: the generic dot-product path                            *)
(* ===================================================================== *)

Module Dot.

(** Which value buffer a fetch touches, and at which offset. *)
Inductive operand : Type := OpA | OpB.
Definition read_event : Type := (operand * Z)%type.

Definition is_read_of (o : operand) (e : read_event) : bool :=
  match o, fst e with
  | OpA, OpA | OpB, OpB => true
  | _, _ => false
  end.

Section Generic.

(** Scalars of the generic path are untyped byte buffers ([GB_void *]);
    [val_eqb] is [memcmp (...) == 0]. *)
Variable val : Type.
Variable val_eqb : val -> val -> bool.

Record monoid : Type := mkDotMonoid
  { add_op : binary_function val ; identity : val ; terminal : option val }.

Record semiring : Type := mkDotSemiring
  { sr_add : monoid ; sr_multiply : binary_function val }.

(** Lines 76-96: which operand is used by pattern only. *)
Definition pattern_flags (mult : binary_function val) (flipxy : bool)
  : bool * bool :=
  let op_is_first := opcode_eqb (opcode (descr val mult)) GB_FIRST_opcode in
  let op_is_second := opcode_eqb (opcode (descr val mult)) GB_SECOND_opcode in
  if flipxy
  then (* z = fmult (b,a) will be computed *)
       (op_is_first, op_is_second)
  else (* z = fmult (a,b) will be computed *)
       (op_is_second, op_is_first).

Definition A_is_pattern mult flipxy : bool := fst (pattern_flags mult flipxy).
Definition B_is_pattern mult flipxy : bool := snd (pattern_flags mult flipxy).

(** The scalar workspace of one dot product, and the fetches made so far. *)
Record workspace : Type := mkWork
  { aki : val ; bkj : val ; t : val ; cij : val ;
    cij_exists : bool ; reads : list read_event }.

(** No fetch recorded in [w] touches the value buffer of operand [o]. *)
Definition no_reads_of (o : operand) (w : workspace) : bool :=
  forallb (fun e => negb (is_read_of o e)) (reads w).

Section Cell.

Variable S : semiring.
Variable flipxy : bool.
Variables cast_A cast_B : val -> val.
Variable Ai : array Z.
Variable Ax : array val.
Variable Bi : array Z.
Variable Bx : array val.
Variables pA_end pB_end : Z.

Let mult := sr_multiply S.
Let fmult := function val (sr_multiply S).
Let fadd := function val (add_op (sr_add S)).

(** [GB_GETA]: [if (!A_is_pattern) cast_A (aki, Ax +((pA)*asize), asize)]. *)
Definition GB_GETA (pA : Z) (w : workspace) : workspace :=
  if A_is_pattern mult flipxy then w
  else mkWork (cast_A (Ax pA)) (bkj w) (t w) (cij w) (cij_exists w)
              (reads w ++ [(OpA, pA)]).

(** [GB_GETB]: [if (!B_is_pattern) cast_B (bkj, Bx +((pB)*bsize), bsize)]. *)
Definition GB_GETB (pB : Z) (w : workspace) : workspace :=
  if B_is_pattern mult flipxy then w
  else mkWork (aki w) (cast_B (Bx pB)) (t w) (cij w) (cij_exists w)
              (reads w ++ [(OpB, pB)]).

(** [GB_MULTIPLY(z,x,y)] is [fmult (z,y,x)] under flipxy and
    [fmult (z,x,y)] otherwise; [GB_DOT_MULT] applies it to [aki], [bkj]. *)
Definition GB_MULTIPLY (x y : val) : val :=
  if flipxy then fmult y x else fmult x y.

Definition GB_DOT_MULT (w : workspace) : workspace :=
  mkWork (aki w) (bkj w) (GB_MULTIPLY (aki w) (bkj w)) (cij w)
         (cij_exists w) (reads w).

(** [GB_DOT_ADD]: [fadd (cij, cij, t)]. *)
Definition GB_DOT_ADD (w : workspace) : workspace :=
  mkWork (aki w) (bkj w) (t w) (fadd (cij w) (t w)) (cij_exists w) (reads w).

(** [GB_DOT_COPY]: [memcpy (cij, t, csize)]. *)
Definition GB_DOT_COPY (w : workspace) : workspace :=
  mkWork (aki w) (bkj w) (t w) (t w) true (reads w).

(** [GB_DOT_TERMINAL]: the condition under which the macro breaks. *)
Definition GB_DOT_TERMINAL (term : option val) (w : workspace) : bool :=
  match term with
  | Some T => val_eqb (cij w) T
  | None => false
  end.

(** Modelled from the spec: the loop body lives in GB_AxB_dot_meta.c, which
    is absent.  One multiply-add on the entries at [pA] and [pB]: fetch both
    operands, multiply, then start or extend the accumulation. *)
Definition dot_multadd (pA pB : Z) (w : workspace) : workspace :=
  let w := GB_GETA pA w in
  let w := GB_GETB pB w in
  let w := GB_DOT_MULT w in
  if cij_exists w then GB_DOT_ADD w else GB_DOT_COPY w.

(** Modelled from the spec: the inner loop of GB_AxB_dot_meta.c (absent),
    after sections 4.4.1 and 4.4.5: the merge of the sorted patterns of
    A(:,i) and B(:,j), accumulating over the common indices k, and leaving
    the loop as soon as the accumulator equals the terminal value. *)
Fixpoint dot_loop (term : option val) (fuel : nat) (pA pB : Z)
    (w : workspace) : workspace :=
  match fuel with
  | O => w
  | Datatypes.S fuel' =>
      if (pA <? pA_end) && (pB <? pB_end) then
        let ia := Ai pA in
        let ib := Bi pB in
        if ia <? ib then dot_loop term fuel' (pA + 1) pB w
        else if ib <? ia then dot_loop term fuel' pA (pB + 1) w
        else
          let w' := dot_multadd pA pB w in
          if GB_DOT_TERMINAL term w' then w'
          else dot_loop term fuel' (pA + 1) (pB + 1) w'
      else w
  end.

(** Every iteration advances [pA] or [pB], so this many iterations are
    enough to leave the loop through its condition. *)
Definition dot_fuel (pA pB : Z) : nat :=
  Z.to_nat (Z.max 0 (pA_end - pA) + Z.max 0 (pB_end - pB)).

(** The cell C(i,j): [scratch] is what the uninitialised workspace holds. *)
Definition dot_cij_with (term : option val) (scratch : val) (pA pB : Z)
  : workspace :=
  dot_loop term (dot_fuel pA pB) pA pB
           (mkWork scratch scratch scratch scratch false []).

Definition dot_cij (scratch : val) (pA pB : Z) : workspace :=
  dot_cij_with (terminal (sr_add S)) scratch pA pB.

(** The reduction that never leaves the loop early. *)
Definition dot_cij_full (scratch : val) (pA pB : Z) : workspace :=
  dot_cij_with None scratch pA pB.

End Cell.

(** Operand A is used by pattern only for the cell computed from [pA], [pB]:
    the flag is set, the result (fetches included) is the same whatever the
    value buffer of A holds, and no fetch touches that buffer. *)
Definition A_unused (S : semiring) (flipxy : bool) (cast_A cast_B : val -> val)
    (Ai Bi : array Z) (pA_end pB_end : Z) (scratch : val) (pA pB : Z) : Prop :=
  A_is_pattern (sr_multiply S) flipxy = true
  /\ forall Ax Ax' Bx,
       dot_cij S flipxy cast_A cast_B Ai Ax Bi Bx pA_end pB_end scratch pA pB
       = dot_cij S flipxy cast_A cast_B Ai Ax' Bi Bx pA_end pB_end
           scratch pA pB
       /\ no_reads_of OpA
            (dot_cij S flipxy cast_A cast_B Ai Ax Bi Bx pA_end pB_end
               scratch pA pB) = true.

Definition B_unused (S : semiring) (flipxy : bool) (cast_A cast_B : val -> val)
    (Ai Bi : array Z) (pA_end pB_end : Z) (scratch : val) (pA pB : Z) : Prop :=
  B_is_pattern (sr_multiply S) flipxy = true
  /\ forall Ax Bx Bx',
       dot_cij S flipxy cast_A cast_B Ai Ax Bi Bx pA_end pB_end scratch pA pB
       = dot_cij S flipxy cast_A cast_B Ai Ax Bi Bx' pA_end pB_end
           scratch pA pB
       /\ no_reads_of OpB
            (dot_cij S flipxy cast_A cast_B Ai Ax Bi Bx pA_end pB_end
               scratch pA pB) = true.

End Generic.

(** ** Sample semirings over [Z] *)

Definition int_type : GrB_Type := mkType 107 GB_INT64_code.
Definition int_binop (o : GB_Opcode) : GrB_BinaryOp :=
  mkBinaryOp int_type int_type int_type o.

Definition fn_first : binary_function Z :=
  mkFunction Z (int_binop GB_FIRST_opcode) (fun x _ => x).
Definition fn_second : binary_function Z :=
  mkFunction Z (int_binop GB_SECOND_opcode) (fun _ y => y).
Definition fn_pair : binary_function Z :=
  mkFunction Z (int_binop GB_PAIR_opcode) (fun _ _ => 1).
Definition fn_times : binary_function Z :=
  mkFunction Z (int_binop GB_TIMES_opcode) Z.mul.
Definition fn_plus : binary_function Z :=
  mkFunction Z (int_binop GB_PLUS_opcode) Z.add.

(** MAX over the int8 range: 127 absorbs every int8 value. *)
Definition int8_max (x y : Z) : Z := Z.min 127 (Z.max x y).
Definition fn_max_int8 : binary_function Z :=
  mkFunction Z (int_binop GB_MAX_opcode) int8_max.

Definition plus_monoid : monoid Z := mkDotMonoid Z fn_plus 0 None.
Definition max_int8_monoid : monoid Z :=
  mkDotMonoid Z fn_max_int8 (-128) (Some 127).

Definition plus_first : semiring Z := mkDotSemiring Z plus_monoid fn_first.
Definition plus_second : semiring Z := mkDotSemiring Z plus_monoid fn_second.
Definition plus_pair : semiring Z := mkDotSemiring Z plus_monoid fn_pair.
Definition max_first_int8 : semiring Z :=
  mkDotSemiring Z max_int8_monoid fn_first.
Definition plus_times : semiring Z := mkDotSemiring Z plus_monoid fn_times.

(** Sample vectors: A(:,i) has entries at k = 0, 2, 3 and B(:,j) at
    k = 0, 1, 2, 3. *)
Definition sample_Ai : array Z := of_list 0 [0; 2; 3].
Definition sample_Ax : array Z := of_list 0 [5; 127; 9].
Definition sample_Bi : array Z := of_list 0 [0; 1; 2; 3].
Definition sample_Bx : array Z := of_list 0 [1; 1; 1; 1].

End Dot.

(* ===================================================================== *)
(** * GB_dense_accum_sparse and GB_subassign_23: C += A, C dense          *)
(* ===================================================================== *)

Module DenseAccum.

Fixpoint list_upd {T : Type} (l : list T) (n : nat) (v : T) : list T :=
  match l, n with
  | [], _ => []
  | _ :: tl, O => v :: tl
  | hd :: tl, Datatypes.S n' => hd :: list_upd tl n' v
  end.

(** The first offset in [q, q+n) at which [l] holds [key]. *)
Fixpoint scan (l : list Z) (q : Z) (n : nat) (key : Z) : option Z :=
  match n with
  | O => None
  | Datatypes.S n' =>
      if nth (Z.to_nat q) l (-1) =? key then Some q
      else scan l (q + 1) n' key
  end.

(** Bits of the sparsity control (GraphBLAS.h). *)
Definition GxB_HYPERSPARSE : Z := 1.
Definition GxB_SPARSE : Z := 2.
Definition GxB_BITMAP : Z := 4.
Definition GxB_FULL : Z := 8.
Definition GxB_AUTO_SPARSITY : Z := 15.

(** Modelled from the spec: [GB_sparsity_control] (absent) keeps the valid
    bits of the control, reads 0 as "any format", and for matrices with at
    most one vector replaces hypersparse by sparse. *)
Definition GB_sparsity_control (control vdim : Z) : Z :=
  let c := Z.land control GxB_AUTO_SPARSITY in
  let c := if c =? 0 then GxB_AUTO_SPARSITY else c in
  if ((vdim =? 0) || (vdim =? 1)) && negb (c =? GxB_AUTO_SPARSITY)
     && negb (Z.land c GxB_HYPERSPARSE =? 0)
  then Z.lor (Z.land c (Z.lnot GxB_HYPERSPARSE)) GxB_SPARSE
  else c.

Section Accum.

Variable val : Type.

(** The content of a matrix: the arrays present determine the format
    ([h]: hypersparse; [p] without [h]: sparse; [b]: bitmap; none: full). *)
Record GrB_Matrix : Type := mkMatrix
  { type : GrB_Type ; vlen : Z ; vdim : Z ; nvec : Z ;
    h : option (list Z) ; p : option (list Z) ;
    b : option (list bool) ; i : option (list Z) ;
    x : list val ; iso : bool ; sparsity_control : Z }.

Definition GB_IS_FULL (C : GrB_Matrix) : bool :=
  match h C, p C, b C, i C with
  | None, None, None, None => true
  | _, _, _, _ => false
  end.

(** Modelled from the spec: [GB_convert_any_to_full] (absent) on a matrix
    with all entries present releases the pattern and keeps the values. *)
Definition GB_convert_any_to_full (C : GrB_Matrix) : GrB_Matrix :=
  if GB_IS_FULL C then C
  else mkMatrix (type C) (vlen C) (vdim C) (vdim C) None None None None
                (x C) (iso C) (sparsity_control C).

(** Modelled from the spec: the macro [GB_ENSURE_FULL] (absent) is, in the
    words of the source, "convert C to full, if sparsity control allows
    it". *)
Definition GB_ENSURE_FULL (C : GrB_Matrix) : GrB_Matrix :=
  if Z.land (GB_sparsity_control (sparsity_control C) (vdim C)) GxB_FULL =? 0
  then C
  else GB_convert_any_to_full C.

(** The value stored at offset [pos] ([GBX]): an iso matrix keeps one. *)
Definition GBX (C : GrB_Matrix) (pos : Z) : option val :=
  nth_error (x C) (Z.to_nat (if iso C then 0 else pos)).

(** The entry of inner index [ii] in vector [jj], in whichever format. *)
Definition entry (C : GrB_Matrix) (ii jj : Z) : option val :=
  if negb ((0 <=? ii) && (ii <? vlen C) && (0 <=? jj) && (jj <? vdim C))
  then None
  else
    match b C with
    | Some Cb =>
        if nth (Z.to_nat (jj * vlen C + ii)) Cb false
        then GBX C (jj * vlen C + ii) else None
    | None =>
        match p C with
        | None => GBX C (jj * vlen C + ii)
        | Some Cp =>
            let k := match h C with
                     | None => Some jj
                     | Some Ch => scan Ch 0 (Z.to_nat (nvec C)) jj
                     end in
            match k, i C with
            | Some k, Some Ci =>
                let pstart := nth (Z.to_nat k) Cp 0 in
                let pend := nth (Z.to_nat (k + 1)) Cp 0 in
                match scan Ci pstart (Z.to_nat (pend - pstart)) ii with
                | Some q => GBX C q
                | None => None
                end
            | _, _ => None
            end
        end
    end.

(** [GB_is_dense] with no pending work: every entry is present and the
    values lie in the order of the full format. *)
Definition as_if_full (C : GrB_Matrix) : Prop :=
  match b C with
  | Some Cb =>
      forall pos, 0 <= pos < vlen C * vdim C ->
                  nth (Z.to_nat pos) Cb false = true
  | None =>
      match p C with
      | None => True
      | Some Cp =>
          (forall k, 0 <= k <= vdim C -> nth (Z.to_nat k) Cp 0 = k * vlen C)
          /\ (exists Ci, i C = Some Ci
                /\ forall q, 0 <= q < vlen C * vdim C ->
                             nth (Z.to_nat q) Ci (-1) = q mod vlen C)
          /\ match h C with
             | None => True
             | Some Ch =>
                 nvec C = vdim C
                 /\ forall k, 0 <= k < vdim C -> nth (Z.to_nat k) Ch (-1) = k
             end
      end
  end.

(** Modelled from the spec: the templates GB_dense_accum_sparse_template.c
    and GB_subassign_23_template.c are absent.  For every entry A(i,j) the
    value of C at offset [j*vlen + i] becomes [accum (C(i,j), cast A(i,j))]. *)
Definition accumulate_entry (fadd : val -> val -> val) (cast_A : val -> val)
    (A : GrB_Matrix) (vl : Z) (Cx : list val) (ij : Z * Z) : list val :=
  let pos := Z.to_nat (snd ij * vl + fst ij) in
  match entry A (fst ij) (snd ij), nth_error Cx pos with
  | Some aij, Some cij => list_upd Cx pos (fadd cij (cast_A aij))
  | _, _ => Cx
  end.

Definition universe (A : GrB_Matrix) : list (Z * Z) :=
  flat_map (fun jj => map (fun ii => (ii, jj)) (zrange (vlen A)))
           (zrange (vdim A)).

Definition accum_kernel (fadd : val -> val -> val) (cast_A : val -> val)
    (C A : GrB_Matrix) : GrB_Matrix :=
  mkMatrix (type C) (vlen C) (vdim C) (nvec C) (h C) (p C) (b C) (i C)
           (fold_left (accumulate_entry fadd cast_A A (vlen C)) (universe A)
                      (x C))
           (iso C) (sparsity_control C).

(** The kernel of a built-in operator, [GB_Cdense_accumA_<op>_<type>]
    (absent): it works on C in place and reports [GrB_NO_VALUE] when it
    has been disabled. *)
Definition worker : Type := GrB_Matrix -> GrB_Matrix -> GrB_Info * GrB_Matrix.

(** [GB_dense_accum_sparse].  Absent, and taken as parameters: the
    compile-time flag [GBCOMPACT]; [GB_binop_builtin], which gives the
    opcode and the two type codes of an operator it finds built in; the
    switch of GB_binop_factory.c, which names the worker of that operator,
    if it has a case for it; [GB_cast_factory]; and [slice_ok], which
    tells whether [GB_ek_slice] finds the memory for its workspace. *)
Definition GB_dense_accum_sparse (C A : GrB_Matrix)
    (accum : binary_function val)
    (GBCOMPACT : bool)
    (GB_binop_builtin :
       GrB_Type -> GrB_Type -> GrB_BinaryOp
       -> option (GB_Opcode * GB_Type_code * GB_Type_code))
    (GB_binop_factory :
       GB_Opcode -> GB_Type_code -> GB_Type_code -> option worker)
    (GB_cast_factory : GB_Type_code -> GB_Type_code -> val -> val)
    (slice_ok : bool)
  : GrB_Info * GrB_Matrix :=
  if opcode_eqb (opcode (descr val accum)) GB_FIRST_opcode
  then (* nothing to do *) (GrB_SUCCESS, C)
  else if negb slice_ok then (* out of memory *) (GrB_OUT_OF_MEMORY, C)
  else
    (* launch the switch factory *)
    let launched :=
      if GBCOMPACT then (false, C)
      else
        match GB_binop_builtin (type C) (type A) (descr val accum) with
        | Some (opcode, xycode, zcode) =>
            match GB_binop_factory opcode xycode zcode with
            | Some GB_Cdense_accumA =>
                let r := GB_Cdense_accumA C A in
                (if GrB_Info_eq_dec (fst r) GrB_NO_VALUE then false else true,
                 snd r)
            | None => (false, C)
            end
        | None => (false, C)
        end in
    let done := fst launched in
    let C := snd launched in
    if negb done then
      (* C += A, with typecasting or user-defined op *)
      let cast_A :=
        GB_cast_factory (code (type A))
                        (code (ytype (descr val accum))) in
      (GrB_SUCCESS, accum_kernel (function val accum) cast_A C A)
    else (GrB_SUCCESS, C).

(** [GB_subassign_23].  The factory kernels are compiled out ([#if 0]).
    The JIT kernel (absent) is a parameter; when JIT is disabled [info]
    stays [GrB_NO_VALUE] and the generic kernel runs.  [GB_cast_factory]
    (absent) is a parameter. *)
Definition GB_subassign_23 (C A : GrB_Matrix)
    (accum : binary_function val)
    (GB_cast_factory : GB_Type_code -> GB_Type_code -> val -> val)
    (GB_JIT_ENABLED : bool)
    (GB_subassign_jit : GrB_Matrix -> GrB_Matrix -> GrB_Info * GrB_Matrix)
  : GrB_Info * GrB_Matrix :=
  let C := GB_ENSURE_FULL C in
  if opcode_eqb (opcode (descr val accum)) GB_FIRST_opcode || iso C
  then (* nothing to do *) (GrB_SUCCESS, C)
  else
    let r := if GB_JIT_ENABLED then GB_subassign_jit C A
             else (GrB_NO_VALUE, C) in
    if GrB_Info_eq_dec (fst r) GrB_NO_VALUE
    then
      (* A is typecasted to y *)
      let cast_A_to_Y :=
        GB_cast_factory (code (ytype (descr val accum)))
                        (code (type A)) in
      (GrB_SUCCESS,
       accum_kernel (function val accum) cast_A_to_Y (snd r) A)
    else r.

End Accum.

(** ** Samples: a 2-by-1 matrix with both entries present, held in sparse
    format, and the operators FIRST and PLUS on [Z]. *)
Definition fp_type : GrB_Type := mkType 110 GB_FP64_code.

Definition dense_as_sparse : GrB_Matrix Z :=
  mkMatrix Z fp_type 2 1 1 None (Some [0; 2]) None (Some [0; 1])
           [10; 20] false GxB_AUTO_SPARSITY.

Definition one_entry : GrB_Matrix Z :=
  mkMatrix Z fp_type 2 1 1 None (Some [0; 1]) None (Some [1])
           [7] false GxB_AUTO_SPARSITY.

Definition accum_first : binary_function Z :=
  mkFunction Z (mkBinaryOp fp_type fp_type fp_type GB_FIRST_opcode)
             (fun c _ => c).
Definition accum_plus : binary_function Z :=
  mkFunction Z (mkBinaryOp fp_type fp_type fp_type GB_PLUS_opcode) Z.add.

Definition no_jit (C _ : GrB_Matrix Z) : GrB_Info * GrB_Matrix Z :=
  (GrB_NO_VALUE, C).

(** No operator is built in, the switch has no case, and the cast between
    equal types copies the value. *)
Definition no_builtin (_ _ : GrB_Type) (_ : GrB_BinaryOp)
  : option (GB_Opcode * GB_Type_code * GB_Type_code) := None.
Definition no_case (_ : GB_Opcode) (_ _ : GB_Type_code)
  : option (worker Z) := None.
Definition copy_cast (_ _ : GB_Type_code) (v : Z) : Z := v.

End DenseAccum.

(* ===================================================================== *)
(** * GxB_Matrix_export_CSC                                               *)
(* ===================================================================== *)

(** The stamp in the header of every object (GB.h): [GB_MAGIC] marks a valid
    object, [GB_MAGIC2] one whose content is not yet in place, [GB_FREED] a
    released one. *)
Inductive GB_magic : Type := GB_MAGIC | GB_MAGIC2 | GB_FREED.

Module ExportCSC.

Inductive sparsity_format : Type :=
| GxB_HYPERSPARSE | GxB_SPARSE | GxB_BITMAP | GxB_FULL.

(** What the export looks at: orientation, format and the three kinds of
    pending work.  [content] stands for everything else. *)
Record GrB_Matrix (content : Type) : Type := mkMatrix
  { magic : GB_magic ; is_csc : bool ; sparsity : sparsity_format ;
    nzombies : Z ; npending : Z ; jumbled : bool ; body : content }.

Arguments mkMatrix {content}.
Arguments magic {content}.
Arguments is_csc {content}.
Arguments sparsity {content}.
Arguments nzombies {content}.
Arguments npending {content}.
Arguments jumbled {content}.
Arguments body {content}.

(** What the caller gets back. [exported] is the matrix as it stood when its
    arrays were handed over; [jumbled_out] is the caller's [*jumbled], when
    that argument is not [NULL]. *)
Record export_result (content : Type) : Type := mkResult
  { info : GrB_Info ;
    exported : option (GrB_Matrix content) ;
    jumbled_out : option bool }.

Arguments mkResult {content}.
Arguments info {content}.
Arguments exported {content}.
Arguments jumbled_out {content}.

Section Exporting.

Variable content : Type.
Abbreviation matrix := (GrB_Matrix content).

(** The callees, all absent.  Each may run out of
    memory, hence the [GrB_Info]. *)
Variable GB_transpose_to_csc : matrix -> GrB_Info * matrix.
Variable GB_Matrix_wait : matrix -> GrB_Info * matrix.
Variable GB_convert_any_to_sparse : matrix -> GrB_Info * matrix.
Variable GB_export : matrix -> option bool -> GrB_Info * option bool.

Definition GB_ZOMBIES (A : matrix) : bool := negb (nzombies A =? 0).
Definition GB_PENDING (A : matrix) : bool := negb (npending A =? 0).
Definition GB_JUMBLED (A : matrix) : bool := jumbled A.

Definition GB_PENDING_OR_ZOMBIES (A : matrix) : bool :=
  GB_PENDING A || GB_ZOMBIES A.
Definition GB_ANY_PENDING_WORK (A : matrix) : bool :=
  GB_PENDING A || GB_ZOMBIES A || GB_JUMBLED A.

(** Modelled from the spec: the macros [GB_MATRIX_WAIT] and
    [GB_MATRIX_WAIT_IF_PENDING_OR_ZOMBIES] of GB.h (absent) call the
    pending-work resolver of section 4.2 when there is work of the kinds
    they name, and leave the matrix alone otherwise. *)
Definition GB_MATRIX_WAIT (A : matrix) : GrB_Info * matrix :=
  if GB_ANY_PENDING_WORK A then GB_Matrix_wait A else (GrB_SUCCESS, A).

Definition GB_MATRIX_WAIT_IF_PENDING_OR_ZOMBIES (A : matrix)
  : GrB_Info * matrix :=
  if GB_PENDING_OR_ZOMBIES A then GB_Matrix_wait A else (GrB_SUCCESS, A).

Definition failed (i : GrB_Info) : export_result content :=
  mkResult i None None.

(** [GB_OK (f)]: leave with the status of [f] unless it is [GrB_SUCCESS]. *)
Definition GB_OK (r : GrB_Info * matrix)
    (k : matrix -> export_result content) : export_result content :=
  match fst r with
  | GrB_SUCCESS => k (snd r)
  | i => failed i
  end.

(** [A] is the handle [GrB_Matrix *A]: [None] is a [NULL] handle, [Some
    None] a handle on a [NULL] matrix.  [jumbled_arg] is [None] when the
    caller passes [NULL] for [jumbled].  [desc_info] is the verdict of
    [GB_GET_DESCRIPTOR]. *)
Definition GxB_Matrix_export_CSC (A : option (option matrix))
    (jumbled_arg : option bool) (desc_info : GrB_Info)
  : export_result content :=
  match A with
  | None => failed GrB_NULL_POINTER
  | Some None => failed GrB_NULL_POINTER
  | Some (Some A0) =>
      match magic A0 with
      | GB_MAGIC2 => failed GrB_INVALID_OBJECT
      | GB_FREED => failed GrB_UNINITIALIZED_OBJECT
      | GB_MAGIC =>
          match desc_info with
          | GrB_SUCCESS =>
              (* ensure the matrix is in CSC format *)
              GB_OK (if negb (is_csc A0) then GB_transpose_to_csc A0
                     else (GrB_SUCCESS, A0)) (fun A1 =>
              (* finish any pending work *)
              GB_OK (match jumbled_arg with
                     | None => GB_MATRIX_WAIT A1
                     | Some _ => GB_MATRIX_WAIT_IF_PENDING_OR_ZOMBIES A1
                     end) (fun A2 =>
              (* ensure the matrix is sparse *)
              GB_OK (GB_convert_any_to_sparse A2) (fun A3 =>
              (* export the matrix *)
              let r := GB_export A3 jumbled_arg in
              match fst r with
              | GrB_SUCCESS => mkResult GrB_SUCCESS (Some A3) (snd r)
              | i => failed i
              end)))
          | i => failed i
          end
      end
  end.

End Exporting.

(** ** Concrete callees

    Modelled from the spec: section 4.2 ("after wait, all three flags
    clear"), section 4.1 (format transitions do not change semantics) and
    section 4.7.  [ok] tells whether the callee finds the memory it needs. *)
Definition model_wait (ok : bool) (A : GrB_Matrix unit)
  : GrB_Info * GrB_Matrix unit :=
  if ok
  then (GrB_SUCCESS,
        mkMatrix (magic A) (is_csc A) (sparsity A) 0 0 false (body A))
  else (GrB_OUT_OF_MEMORY, A).

Definition model_transpose (ok : bool) (A : GrB_Matrix unit)
  : GrB_Info * GrB_Matrix unit :=
  if ok
  then (GrB_SUCCESS,
        mkMatrix (magic A) true (sparsity A) (nzombies A) (npending A)
                 (jumbled A) (body A))
  else (GrB_OUT_OF_MEMORY, A).

Definition model_to_sparse (ok : bool) (A : GrB_Matrix unit)
  : GrB_Info * GrB_Matrix unit :=
  if ok
  then (GrB_SUCCESS,
        mkMatrix (magic A) (is_csc A) GxB_SPARSE (nzombies A) (npending A)
                 (jumbled A) (body A))
  else (GrB_OUT_OF_MEMORY, A).

Definition model_export (A : GrB_Matrix unit) (jumbled_arg : option bool)
  : GrB_Info * option bool :=
  (GrB_SUCCESS,
   match jumbled_arg with
   | None => None
   | Some _ => Some (jumbled A)
   end).

(** A row-oriented hypersparse matrix with zombies, pending tuples and
    unsorted vectors; and a column-oriented one that is only jumbled. *)
Definition busy_csr : GrB_Matrix unit :=
  mkMatrix GB_MAGIC false GxB_HYPERSPARSE 3 5 true tt.
Definition jumbled_csc : GrB_Matrix unit :=
  mkMatrix GB_MAGIC true GxB_SPARSE 0 0 true tt.

End ExportCSC.

(* ===================================================================== *)
(** * GxB_Matrix_import_CSC                                               *)
(* ===================================================================== *)

Module ImportCSC.

(** An argument of type [T **]: [None] is a [NULL] handle; [Some c] is the
    address of a pointer variable of the caller that holds [c], itself
    [None] when that pointer is [NULL]. *)
Definition handle (T : Type) : Type := option (option T).

(** What a handle points to, [NULL] included. *)
Definition target {T : Type} (hd : handle T) : option T :=
  match hd with
  | Some c => c
  | None => None
  end.

Section Importing.

Variable val : Type.

Record GrB_Matrix : Type := mkMatrix
  { type : GrB_Type ; vlen : Z ; vdim : Z ;
    is_csc : bool ; is_hyper : bool ;
    h : option (list Z) ; p : option (list Z) ;
    i : option (list Z) ; x : option (list val) ;
    nzmax : Z ; plen : Z ; nvec : Z ; nvec_nonempty : Z ;
    magic : GB_magic }.

(** Modelled from the spec: [GB_NEW] (absent) with [GB_Ap_null] allocates a
    header without content, stamped [GB_MAGIC2] until its [p] is in place. *)
Definition GB_NEW (ty : GrB_Type) (vl vd : Z) (csc : bool) : GrB_Matrix :=
  mkMatrix ty vl vd csc false None None None None 0 0 0 0 GB_MAGIC2.

(** Modelled from the spec: [GB_nvec_nonempty] (absent) counts the vectors
    [k] with [p [k] < p [k+1]]. *)
Fixpoint count_nonempty (Ap : list Z) : Z :=
  match Ap with
  | a :: ((b :: _) as tl) => (if a <? b then 1 else 0) + count_nonempty tl
  | _ => 0
  end.

Definition GB_nvec_nonempty (A : GrB_Matrix) : Z :=
  match p A with
  | Some Ap => count_nonempty (firstn (Z.to_nat (nvec A) + 1) Ap)
  | None => 0
  end.

(** The state of the caller after the call: the status, [*A], the three
    pointer variables behind the handles, and the arrays released. *)
Record import_result : Type := mkResult
  { info : GrB_Info ;
    A_out : option GrB_Matrix ;
    Ap_out : handle (list Z) ;
    Ai_out : handle (list Z) ;
    Ax_out : handle (list val) ;
    freed_i : option (list Z) ;
    freed_x : option (list val) }.

(** [GB_FREE_MEMORY (p, ...)] releases the block and sets [p = NULL]. *)
Definition GB_FREE_MEMORY {T : Type} (hd : handle T) : handle T * option T :=
  match hd with
  | None => (None, None)
  | Some c => (Some None, c)
  end.

(** [check] is the verdict of the macro [GB_IMPORT_CHECK] (absent), which
    examines [A], [type], the dimensions and the descriptor; [new_ok] tells
    whether [GB_NEW] finds memory for the header. *)
Definition GxB_Matrix_import_CSC (check : GrB_Info) (new_ok : bool)
    (ty : GrB_Type) (nrows ncols nvals : Z)
    (Ap : handle (list Z)) (Ai : handle (list Z)) (Ax : handle (list val))
  : import_result :=
  let stop (e : GrB_Info) := mkResult e None Ap Ai Ax None None in
  match check with
  | GrB_SUCCESS =>
      match Ap with
      | None => stop GrB_NULL_POINTER
      | Some Ap_ptr =>
          if (nvals >? 0)
             && (match Ai with None => true | Some _ => false end
                 || match Ax with None => true | Some _ => false end)
          then stop GrB_NULL_POINTER
          else if negb new_ok then stop GrB_OUT_OF_MEMORY
          else
            (* allocate just the header of the matrix, not the content *)
            let A := GB_NEW ty nrows ncols true in
            (* transplant the user's content into the matrix *)
            let A := mkMatrix (type A) (vlen A) (vdim A) (is_csc A)
                       (is_hyper A) None Ap_ptr (i A) (x A)
                       nvals ncols ncols (nvec_nonempty A) GB_MAGIC in
            if nvals =? 0 then
              (* free the user input Ai and Ax arrays, if they exist *)
              let fi := GB_FREE_MEMORY Ai in
              let fx := GB_FREE_MEMORY Ax in
              mkResult GrB_SUCCESS (Some A) (Some None) (fst fi) (fst fx)
                       (snd fi) (snd fx)
            else
              (* transplant Ai and Ax into the matrix *)
              let Ai_ptr := match Ai with Some c => c | None => None end in
              let Ax_ptr := match Ax with Some c => c | None => None end in
              let A := mkMatrix (type A) (vlen A) (vdim A) (is_csc A)
                         (is_hyper A) (h A) (p A) Ai_ptr Ax_ptr
                         (nzmax A) (plen A) (nvec A) (nvec_nonempty A)
                         (magic A) in
              let A := mkMatrix (type A) (vlen A) (vdim A) (is_csc A)
                         (is_hyper A) (h A) (p A) (i A) (x A)
                         (nzmax A) (plen A) (nvec A) (GB_nvec_nonempty A)
                         (magic A) in
              mkResult GrB_SUCCESS (Some A) (Some None) (Some None)
                       (Some None) None None
      end
  | e => stop e
  end.

(** ** Validity of a sparse matrix (section 3 of the specification) *)

Fixpoint nondecreasing (l : list Z) : bool :=
  match l with
  | a :: ((b :: _) as tl) => (a <=? b) && nondecreasing tl
  | _ => true
  end.

Fixpoint increasing (l : list Z) : bool :=
  match l with
  | a :: ((b :: _) as tl) => (a <? b) && increasing tl
  | _ => true
  end.

Definition slice {T : Type} (l : list T) (lo hi : Z) : list T :=
  firstn (Z.to_nat (hi - lo)) (skipn (Z.to_nat lo) l).

(** Vector [k]: its inner indices lie in [0, vlen) and strictly increase. *)
Definition vector_ok (vl : Z) (Ap Ai : list Z) (k : nat) : bool :=
  let v := slice Ai (nth k Ap 0) (nth (Datatypes.S k) Ap 0) in
  forallb (fun ii => (0 <=? ii) && (ii <? vl)) v && increasing v.

(** The invariants of the sparse format: [0 = p[0] <= ... <= p[nvec] =
    nvals], with room for the [nvals] entries in [i] and [x]. *)
Definition arrays_ok (vl vd nvals : Z) (Ap : option (list Z))
    (Ai : option (list Z)) (Ax : option (list val)) : bool :=
  match Ap with
  | None => false
  | Some P =>
      (Z.of_nat (length P) >=? vd + 1)
      && (nth 0 P (-1) =? 0)
      && nondecreasing (firstn (Z.to_nat vd + 1) P)
      && (nth (Z.to_nat vd) P (-1) =? nvals)
      && (if nvals =? 0 then true
          else match Ai, Ax with
               | Some Il, Some Xl =>
                   (Z.of_nat (length Il) >=? nvals)
                   && (Z.of_nat (length Xl) >=? nvals)
                   && forallb (vector_ok vl P Il) (seq 0 (Z.to_nat vd))
               | _, _ => false
               end)
  end.

Definition matrix_ok (A : GrB_Matrix) : bool :=
  match magic A with
  | GB_MAGIC =>
      negb (is_hyper A)
      && match h A with None => true | Some _ => false end
      && (plen A =? vdim A) && (nvec A =? vdim A)
      && arrays_ok (vlen A) (vdim A) (nzmax A) (p A) (i A) (x A)
  | _ => false
  end.

End Importing.

Arguments GB_FREE_MEMORY {T}.

(** ** Samples: the 3-by-2 matrix with entries (0,0), (2,0), (1,1). *)
Definition fp_type : GrB_Type := mkType 110 GB_FP64_code.
Definition sample_Ap : list Z := [0; 2; 3].
Definition sample_Ai : list Z := [0; 2; 1].
Definition sample_Ax : list Z := [10; 20; 30].

End ImportCSC.

(* ===================================================================== *)
(** * GB_ewise: C<M> = accum (C, A+B) or A.*B                             *)
(* ===================================================================== *)

Module Ewise.

Section Ewise.

Variable val : Type.

(** A matrix as [GB_ewise] sees it: its descriptor and its entries.
    [content i j] is the entry of inner index [i] in vector [j];
    [nnz_bound] is [GB_NNZ_UPPER_BOUND]. *)
Record GrB_Matrix : Type := mkMatrix
  { type : GrB_Type ; vlen : Z ; vdim : Z ; is_csc : bool ;
    content : Z -> Z -> option val ; nnz_bound : Z }.

Definition GB_NROWS (A : GrB_Matrix) : Z := if is_csc A then vlen A else vdim A.
Definition GB_NCOLS (A : GrB_Matrix) : Z := if is_csc A then vdim A else vlen A.

(** The entry in row [r] and column [c], whatever the orientation. *)
Definition entry (A : GrB_Matrix) (r c : Z) : option val :=
  if is_csc A then content A r c else content A c r.

(** ** The masked accumulation protocol (section 4.3) *)

(** Typecasting between element types; nothing happens between equal
    types.  [GB_cast] stands for the cast table of the library and [to_bool]
    for the cast of a mask value to bool. *)
Variable GB_cast : GrB_Type -> GrB_Type -> val -> val.
Variable to_bool : GrB_Type -> val -> bool.

Definition typecast (to from : GrB_Type) (v : val) : val :=
  if type_eqb to from then v else GB_cast to from v.

(** Modelled from the spec: "m = M(i,j) under (Mask_struct, Mask_comp)",
    an absent mask being all true; [Mask_struct] takes presence for truth;
    [Mask_comp] inverts the mask. *)
Definition mask_value (M : option GrB_Matrix) (Mask_comp Mask_struct : bool)
    (r c : Z) : bool :=
  let m := match M with
           | None => true
           | Some Mm =>
               match entry Mm r c with
               | None => false
               | Some v => Mask_struct || to_bool (type Mm) v
               end
           end in
  if Mask_comp then negb m else m.

(** Modelled from the spec: one cell of the protocol of section 4.3. *)
Definition protocol_cell (ctype ttype : GrB_Type)
    (accum : option (binary_function val)) (C_replace : bool)
    (m : bool) (c z : option val) : option val :=
  if negb m then (if C_replace then None else c)
  else
    match accum with
    | None => option_map (typecast ctype ttype) z
    | Some f =>
        match c, z with
        | Some cv, Some zv =>
            Some (typecast ctype (ztype (descr val f))
                    (function val f
                       (typecast (xtype (descr val f)) ctype cv)
                       (typecast (ytype (descr val f)) ttype zv)))
        | None, Some zv => Some (typecast ctype ttype zv)
        | Some cv, None => Some cv
        | None, None => None
        end
    end.

(** Modelled from the spec: [GB_accum_mask] (absent) applies the protocol to
    every cell; C keeps its type, dimensions and orientation. *)
Definition GB_accum_mask (C : GrB_Matrix) (M : option GrB_Matrix)
    (accum : option (binary_function val)) (T : GrB_Matrix)
    (C_replace Mask_comp Mask_struct : bool) : GrB_Info * GrB_Matrix :=
  let cell r c :=
    protocol_cell (type C) (type T) accum C_replace
      (mask_value M Mask_comp Mask_struct r c) (entry C r c) (entry T r c) in
  (GrB_SUCCESS,
   mkMatrix (type C) (vlen C) (vdim C) (is_csc C)
            (fun i j => if is_csc C then cell i j else cell j i)
            (vlen C * vdim C)).

(** Modelled from the spec: [GB_transplant_conform] (absent): "C is
    discarded and Z is transplanted in place (typecast if needed)". *)
Definition GB_transplant_conform (C : GrB_Matrix) (ctype : GrB_Type)
    (T : GrB_Matrix) : GrB_Info * GrB_Matrix :=
  (GrB_SUCCESS,
   mkMatrix ctype (vlen T) (vdim T) (is_csc T)
            (fun i j => option_map (typecast ctype (type T)) (content T i j))
            (nnz_bound T)).

(** Modelled from the spec: [GB_clear] (absent) removes every entry. *)
Definition GB_clear (C : GrB_Matrix) : GrB_Info * GrB_Matrix :=
  (GrB_SUCCESS,
   mkMatrix (type C) (vlen C) (vdim C) (is_csc C) (fun _ _ => None) 0).

(** ** The function *)

(** The callees that are absent from the sources. *)
Variable GB_RETURN_IF_FAULTY_OR_POSITIONAL :
  option (binary_function val) -> GrB_Info.
Variable GB_compatible :
  GrB_Type -> GrB_Matrix -> option GrB_Matrix ->
  option (binary_function val) -> GrB_Type -> GrB_Info.
Variable GB_BinaryOp_compatible :
  binary_function val -> GrB_Type -> GrB_Type -> GrB_Info.
Variable GB_Type_compatible : GrB_Type -> GrB_Type -> bool.

(** Lines 120-395 (waits, transposes, dense special cases, [GB_add] or
    [GB_emult]) end in one of three ways. *)
Inductive stage : Type :=
| Failed (e : GrB_Info)                       (* a callee ran out of memory *)
| Returned (e : GrB_Info) (C' : GrB_Matrix)   (* a dense kernel did it all *)
| Tentative (T : GrB_Matrix) (mask_applied : bool).

Variable compute_T :
  GrB_Matrix -> bool -> option GrB_Matrix -> bool -> bool ->
  option (binary_function val) -> binary_function val ->
  GrB_Matrix -> bool -> GrB_Matrix -> bool -> bool -> stage.

(** Lines 402-424: C<M> = accum (C,T). *)
Definition GB_ewise_finish (C : GrB_Matrix) (C_replace : bool)
    (M : option GrB_Matrix) (Mask_comp Mask_struct : bool)
    (accum : option (binary_function val))
    (T : GrB_Matrix) (mask_applied : bool) : GrB_Info * GrB_Matrix :=
  if match accum with None => true | Some _ => false end
     && Bool.eqb (is_csc C) (is_csc T)
     && match M with None => true | Some _ => mask_applied end
     && (C_replace || (nnz_bound C =? 0))
  then GB_transplant_conform C (type C) T
  else GB_accum_mask C M accum T C_replace Mask_comp Mask_struct.

Definition dimensions_differ (C A B : GrB_Matrix)
    (A_transpose B_transpose : bool) : bool :=
  let anrows := if A_transpose then GB_NCOLS A else GB_NROWS A in
  let ancols := if A_transpose then GB_NROWS A else GB_NCOLS A in
  let bnrows := if B_transpose then GB_NCOLS B else GB_NROWS B in
  let bncols := if B_transpose then GB_NROWS B else GB_NCOLS B in
  let cnrows := GB_NROWS C in
  let cncols := GB_NCOLS C in
  negb (anrows =? bnrows) || negb (ancols =? bncols)
  || negb (cnrows =? anrows) || negb (cncols =? bncols).

Definition GB_ewise (C : GrB_Matrix) (C_replace : bool)
    (M : option GrB_Matrix) (Mask_comp Mask_struct : bool)
    (accum : option (binary_function val)) (op_in : binary_function val)
    (A : GrB_Matrix) (A_transpose : bool)
    (B : GrB_Matrix) (B_transpose : bool) (eWiseAdd : bool)
  : GrB_Info * GrB_Matrix :=
  match GB_RETURN_IF_FAULTY_OR_POSITIONAL accum with
  | GrB_SUCCESS =>
    let op := op_in in
    let T_type := ztype (descr val op) in
    (* check domains and dimensions for C<M> = accum (C,T) *)
    match GB_compatible (type C) C M accum T_type with
    | GrB_SUCCESS =>
      (* A and B must be compatible with z=op(a,b) *)
      match GB_BinaryOp_compatible op (type A) (type B) with
      | GrB_SUCCESS =>
        if eWiseAdd && negb (GB_Type_compatible (type C) (type A))
        then (GrB_DOMAIN_MISMATCH, C)
        else if eWiseAdd && negb (GB_Type_compatible (type C) (type B))
        then (GrB_DOMAIN_MISMATCH, C)
        (* check the dimensions *)
        else if dimensions_differ C A B A_transpose B_transpose
        then (GrB_DIMENSION_MISMATCH, C)
        (* quick return if an empty mask M is complemented *)
        else if Mask_comp && match M with None => true | Some _ => false end
        then (if C_replace then GB_clear C else (GrB_SUCCESS, C))
        else
          match compute_T C C_replace M Mask_comp Mask_struct accum op
                          A A_transpose B B_transpose eWiseAdd with
          | Failed e => (e, C)
          | Returned e C' => (e, C')
          | Tentative T mask_applied =>
              GB_ewise_finish C C_replace M Mask_comp Mask_struct accum
                              T mask_applied
          end
      | e => (e, C)
      end
    | e => (e, C)
    end
  | e => (e, C)
  end.

End Ewise.

(** ** Concrete checks

    Modelled from the spec: [GB_Type_compatible], [GB_BinaryOp_compatible]
    and [GB_compatible] are absent.  Built-in types cast to one another; a
    user-defined type is compatible with itself only.  An operator fits its
    operands when their types are compatible with its input types. *)
Definition is_user_code (c : GB_Type_code) : bool :=
  match c with
  | GB_UCT_code | GB_UDT_code => true
  | _ => false
  end.

Definition model_Type_compatible (a b : GrB_Type) : bool :=
  if is_user_code (code a) || is_user_code (code b)
  then type_eqb a b else true.

Definition model_BinaryOp_compatible {val : Type} (f : binary_function val)
    (atype btype : GrB_Type) : GrB_Info :=
  if negb (model_Type_compatible (xtype (descr val f)) atype)
  then GrB_DOMAIN_MISMATCH
  else if negb (model_Type_compatible (ytype (descr val f)) btype)
  then GrB_DOMAIN_MISMATCH
  else GrB_SUCCESS.

Definition model_compatible {val : Type} (ctype : GrB_Type)
    (C : GrB_Matrix val) (M : option (GrB_Matrix val))
    (accum : option (binary_function val)) (ttype : GrB_Type) : GrB_Info :=
  match match accum with
        | Some f =>
            if negb (model_Type_compatible ctype (ztype (descr val f)))
            then GrB_DOMAIN_MISMATCH
            else model_BinaryOp_compatible f ctype ttype
        | None => GrB_SUCCESS
        end with
  | GrB_SUCCESS =>
      if negb (model_Type_compatible ctype ttype) then GrB_DOMAIN_MISMATCH
      else
        match M with
        | Some Mm =>
            if is_user_code (code (type val Mm)) then GrB_DOMAIN_MISMATCH
            else if negb (GB_NROWS val Mm =? GB_NROWS val C)
                    || negb (GB_NCOLS val Mm =? GB_NCOLS val C)
            then GrB_DIMENSION_MISMATCH
            else GrB_SUCCESS
        | None => GrB_SUCCESS
        end
  | e => e
  end.

Definition model_check_accum {val : Type}
    (accum : option (binary_function val)) : GrB_Info := GrB_SUCCESS.

(** ** Samples *)
Definition fp64 : GrB_Type := mkType 110 GB_FP64_code.
Definition my_type : GrB_Type := mkType 500 GB_UDT_code.

Definition empty_matrix (ty : GrB_Type) (nr nc : Z) : GrB_Matrix Z :=
  mkMatrix Z ty nr nc true (fun _ _ => None) 0.

(** A full [nr]-by-[nc] matrix holding [v] everywhere. *)
Definition constant_matrix (ty : GrB_Type) (nr nc v : Z) : GrB_Matrix Z :=
  mkMatrix Z ty nr nc true
    (fun i j => if (0 <=? i) && (i <? nr) && (0 <=? j) && (j <? nc)
                then Some v else None)
    (nr * nc).

Definition plus_fp64 : binary_function Z :=
  mkFunction Z (mkBinaryOp fp64 fp64 fp64 GB_PLUS_opcode) Z.add.

(** A user-defined operator from [my_type] to double. *)
Definition user_op : binary_function Z :=
  mkFunction Z (mkBinaryOp my_type my_type fp64 GB_USER_R_opcode) Z.add.

(** A stand-in for lines 120-395 that builds T = A + B cell by cell and does
    not apply the mask. *)
Definition sample_compute_T (C : GrB_Matrix Z) (C_replace : bool)
    (M : option (GrB_Matrix Z)) (Mask_comp Mask_struct : bool)
    (accum : option (binary_function Z)) (op : binary_function Z)
    (A : GrB_Matrix Z) (A_transpose : bool)
    (B : GrB_Matrix Z) (B_transpose : bool) (eWiseAdd : bool)
  : stage Z :=
  Tentative Z
    (mkMatrix Z (ztype (descr Z op)) (vlen Z C) (vdim Z C) (is_csc Z C)
       (fun i j =>
          match content Z A i j, content Z B i j with
          | Some a, Some b => Some (function Z op a b)
          | Some a, None => if eWiseAdd then Some a else None
          | None, Some b => if eWiseAdd then Some b else None
          | None, None => None
          end)
       (vlen Z C * vdim Z C))
    false.

End Ewise.

(* ===================================================================== *)
(** * GB_emult_template: phase 1 and phase 2 of C=A.*B and C<M>=A.*B      *)
(* ===================================================================== *)

Module Emult.

(** Modelled from the spec: the macro [GB_BINARY_SEARCH] of GB.h (absent).
    It narrows [pleft..pright] by halving until one item is left, and
    leaves its result in [pleft], which the caller keeps. *)
Fixpoint GB_BINARY_TRIM_SEARCH (fuel : nat) (i : Z) (X : array Z)
    (pleft pright : Z) : Z * Z :=
  match fuel with
  | O => (pleft, pright)
  | Datatypes.S fuel' =>
      if pleft <? pright then
        let pmiddle := Z.quot (pleft + pright) 2 in
        if X pmiddle <? i
        then GB_BINARY_TRIM_SEARCH fuel' i X (pmiddle + 1) pright
        else GB_BINARY_TRIM_SEARCH fuel' i X pleft pmiddle
      else (pleft, pright)
  end.

(** The interval shrinks at every step, so its length bounds the number of
    steps.  The result is the new [pleft] and [found]. *)
Definition GB_BINARY_SEARCH (i : Z) (X : array Z) (pleft pright : Z)
  : Z * bool :=
  let r := GB_BINARY_TRIM_SEARCH (Z.to_nat (pright - pleft)) i X
             pleft pright in
  (fst r, (fst r =? snd r) && (X (fst r) =? i)).

(** Modelled from the spec: [GB_mcast] (absent) is the value of the mask
    entry at [pM]; a structural mask has [Mx = NULL] and is true wherever it
    has an entry. *)
Definition GB_mcast (Mx : option (array Z)) (pM : Z) : bool :=
  match Mx with
  | None => true
  | Some mx => negb (mx pM =? 0)
  end.

(** The arrays of the mask: [M->i], and [M->x] unless the mask is
    structural. *)
Record mask : Type := mkMask { Mi : array Z ; Mx : option (array Z) }.

(** A place where the template reaches "C (i,j) = A (i,j) .* B (i,j)": the
    row index and the offsets of the two entries. *)
Definition hit : Type := (Z * Z * Z)%type.
Definition hit_i (h : hit) : Z := fst (fst h).
Definition hit_pA (h : hit) : Z := snd (fst h).
Definition hit_pB (h : hit) : Z := snd h.

(** The part of the vectors A(:,j), B(:,j), M(:,j) that a task works on. *)
Record slice : Type := mkSlice
  { pA : Z ; pA_end : Z ; pB : Z ; pB_end : Z ;
    pM : Z ; pM_end : Z ; len : Z }.

Section Vector.

Variables Ai Bi : array Z.
Variable M : option mask.

(** *** The unmasked cases, lines 241-423 *)

(** A(:,j) and B(:,j) dense. *)
Definition both_dense (ajnz iA_first pA pB : Z) : list hit :=
  map (fun p => (p + iA_first, pA + p, pB + p)) (zrange ajnz).

(** A(:,j) is dense, B(:,j) is sparse. *)
Definition A_dense (bjnz iA_first pA pB : Z) : list hit :=
  map (fun p => let i := Bi (pB + p) in (i, pA + i - iA_first, pB + p))
      (zrange bjnz).

(** A(:,j) is sparse, B(:,j) is dense. *)
Definition B_dense (ajnz iB_first pA pB : Z) : list hit :=
  map (fun p => let i := Ai (pA + p) in (i, pA + p, pB + i - iB_first))
      (zrange ajnz).

(** A(:,j) is much denser than B(:,j): [for ( ; pB < pB_end ; pB++)] with a
    binary search in A that moves [pA]. *)
Fixpoint A_much_denser (fuel : nat) (pA pA_end pB pB_end : Z) : list hit :=
  match fuel with
  | O => []
  | Datatypes.S fuel' =>
      if pB <? pB_end then
        let i := Bi pB in
        let pright := pA_end - 1 in
        let s := GB_BINARY_SEARCH i Ai pA pright in
        (if snd s then [(i, fst s, pB)] else [])
        ++ A_much_denser fuel' (fst s) pA_end (pB + 1) pB_end
      else []
  end.

(** B(:,j) is much denser than A(:,j). *)
Fixpoint B_much_denser (fuel : nat) (pA pA_end pB pB_end : Z) : list hit :=
  match fuel with
  | O => []
  | Datatypes.S fuel' =>
      if pA <? pA_end then
        let i := Ai pA in
        let pright := pB_end - 1 in
        let s := GB_BINARY_SEARCH i Bi pB pright in
        (if snd s then [(i, pA, fst s)] else [])
        ++ B_much_denser fuel' (pA + 1) pA_end (fst s) pB_end
      else []
  end.

(** A(:,j) and B(:,j) have about the same number of entries: linear-time
    scan. *)
Fixpoint linear_scan (fuel : nat) (pA pA_end pB pB_end : Z) : list hit :=
  match fuel with
  | O => []
  | Datatypes.S fuel' =>
      if (pA <? pA_end) && (pB <? pB_end) then
        let iA := Ai pA in
        let iB := Bi pB in
        if iA <? iB then linear_scan fuel' (pA + 1) pA_end pB pB_end
        else if iB <? iA then linear_scan fuel' pA pA_end (pB + 1) pB_end
        else (iB, pA, pB)
             :: linear_scan fuel' (pA + 1) pA_end (pB + 1) pB_end
      else []
  end.

(** *** The masked case, lines 465-528 *)

(** "get A(i,j)": direct lookup in a dense vector, binary search
    otherwise.  The result is the new [pA] and whether A(i,j) exists. *)
Definition get_entry (X : array Z) (dense : bool)
    (p_start p_end iX_first : Z) (p i : Z) : Z * bool :=
  if dense then (p_start + i - iX_first, true)
  else GB_BINARY_SEARCH i X p (p_end - 1).

Fixpoint masked (m : mask) (adense bdense : bool)
    (pA_start pA_end iA_first pB_start pB_end iB_first pM_end : Z)
    (fuel : nat) (pM pA pB : Z) : list hit :=
  match fuel with
  | O => []
  | Datatypes.S fuel' =>
      let continue := masked m adense bdense pA_start pA_end iA_first
                        pB_start pB_end iB_first pM_end fuel' (pM + 1) in
      if pM <? pM_end then
        let i := Mi m pM in
        let mij := GB_mcast (Mx m) pM in
        if negb mij then continue pA pB
        else
          let a := get_entry Ai adense pA_start pA_end iA_first pA i in
          if negb (snd a) then continue (fst a) pB
          else
            let b := get_entry Bi bdense pB_start pB_end iB_first pB i in
            if negb (snd b) then continue (fst a) (fst b)
            else (i, fst a, fst b) :: continue (fst a) (fst b)
      else []
  end.

(** *** One vector *)

Definition ajnz (s : slice) : Z := pA_end s - pA s.
Definition bjnz (s : slice) : Z := pB_end s - pB s.
Definition adense (s : slice) : bool := ajnz s =? len s.
Definition bdense (s : slice) : bool := bjnz s =? len s.

Definition iA_first (s : slice) : Z := if ajnz s >? 0 then Ai (pA s) else -1.
Definition iA_last (s : slice) : Z :=
  if ajnz s >? 0 then Ai (pA_end s - 1) else -1.
Definition iB_first (s : slice) : Z := if bjnz s >? 0 then Bi (pB s) else -1.
Definition iB_last (s : slice) : Z :=
  if bjnz s >? 0 then Bi (pB_end s - 1) else -1.

(** Lines 238-533: every place where C(i,j) is produced, in order. *)
Definition vector_hits (s : slice) : list hit :=
  match M with
  | None =>
      if adense s && bdense s then
        both_dense (ajnz s) (iA_first s) (pA s) (pB s)
      else if adense s then
        A_dense (bjnz s) (iA_first s) (pA s) (pB s)
      else if bdense s then
        B_dense (ajnz s) (iB_first s) (pA s) (pB s)
      else if ajnz s >? 32 * bjnz s then
        A_much_denser (Z.to_nat (bjnz s)) (pA s) (pA_end s) (pB s) (pB_end s)
      else if bjnz s >? 32 * ajnz s then
        B_much_denser (Z.to_nat (ajnz s)) (pA s) (pA_end s) (pB s) (pB_end s)
      else
        linear_scan (Z.to_nat (Z.max 0 (ajnz s) + Z.max 0 (bjnz s)))
                    (pA s) (pA_end s) (pB s) (pB_end s)
  | Some m =>
      masked m (adense s) (bdense s)
             (pA s) (pA_end s) (iA_first s) (pB s) (pB_end s) (iB_first s)
             (pM_end s) (Z.to_nat (pM_end s - pM s)) (pM s) (pA s) (pB s)
  end.

(** Phase 1 ([GB_PHASE_1_OF_2]): [cjnz], the number of entries of C(:,j).
    The dense cases take the count from [ajnz] or [bjnz]; the others count
    the hits with [cjnz++]. *)
Definition phase1_cjnz (s : slice) : Z :=
  if (ajnz s =? 0) || (bjnz s =? 0) then 0
  else if (iA_last s <? iB_first s) || (iB_last s <? iA_first s) then 0
  else
    match M with
    | None =>
        if adense s && bdense s then ajnz s
        else if adense s then bjnz s
        else if bdense s then ajnz s
        else Z.of_nat (length (vector_hits s))
    | Some _ => Z.of_nat (length (vector_hits s))
    end.

End Vector.

(** ** What the template expects of its inputs, and what it promises *)

(** The indices [X [lo..hi-1]] strictly increase (a vector that is not
    jumbled), and lie in the window of [wlen] indices that starts at
    [wlo]. *)
Definition increasing (X : array Z) (lo hi : Z) : Prop :=
  forall q1 q2, lo <= q1 -> q1 < q2 -> q2 < hi -> X q1 < X q2.

Definition in_window (X : array Z) (lo hi wlo wlen : Z) : Prop :=
  forall q, lo <= q < hi -> wlo <= X q < wlo + wlen.

Definition range_ok (X : array Z) (lo hi wlo wlen : Z) : Prop :=
  lo <= hi /\ (lo < hi -> 0 <= lo)
  /\ increasing X lo hi /\ in_window X lo hi wlo wlen.

(** A slice handed to the template: a coarse task has whole vectors and the
    window [0, vlen); a fine task has the parts of the vectors that fall
    in a window of [len] row indices. *)
Definition slice_ok (Ai Bi : array Z) (M : option mask) (s : slice)
    (wlo : Z) : Prop :=
  range_ok Ai (pA s) (pA_end s) wlo (len s)
  /\ range_ok Bi (pB s) (pB_end s) wlo (len s)
  /\ match M with
     | None => True
     | Some m => range_ok (Mi m) (pM s) (pM_end s) wlo (len s)
     end.

(** [ht] is a place where both A(i,j) and B(i,j) exist in the slice and,
    under a mask, M(i,j) exists and is true. *)
Definition is_hit (Ai Bi : array Z) (M : option mask) (s : slice)
    (ht : hit) : Prop :=
  pA s <= hit_pA ht < pA_end s /\ pB s <= hit_pB ht < pB_end s
  /\ Ai (hit_pA ht) = hit_i ht /\ Bi (hit_pB ht) = hit_i ht
  /\ match M with
     | None => True
     | Some m =>
         exists pm, pM s <= pm < pM_end s /\ Mi m pm = hit_i ht
                    /\ GB_mcast (Mx m) pm = true
     end.

Definition hit_lt (h1 h2 : hit) : Prop := hit_i h1 < hit_i h2.


(** ** The tasks *)

(** Modelled from the spec: the task descriptor [GB_task_struct] of GB.h
    (absent), with the fields that the template uses.  A task is fine when
    [klast] is -1; it then works in the vector [kfirst] on the parts of
    A(:,j), B(:,j), M(:,j) named by [pA], [pB], [pM], which hold the entries
    of a window of [len] row indices, and writes its part of C(:,j) from
    [pC] on. *)
Module Task.
Record GB_task_struct : Type := mkTask
  { kfirst : Z ; klast : Z ; pC : Z ;
    pM : Z ; pM_end : Z ; pA : Z ; pA_end : Z ; pB : Z ; pB_end : Z ;
    len : Z }.
End Task.

(** [TaskList [taskid].pC = c]. *)
Definition set_pC (t : Task.GB_task_struct) (c : Z) : Task.GB_task_struct :=
  Task.mkTask (Task.kfirst t) (Task.klast t) c (Task.pM t) (Task.pM_end t)
              (Task.pA t) (Task.pA_end t) (Task.pB t) (Task.pB_end t)
              (Task.len t).

(** [bool fine_task = (klast == -1)], line 76. *)
Definition fine_task (t : Task.GB_task_struct) : bool := Task.klast t =? -1.

(** The last vector of a task: a fine task has [klast = kfirst], line 80. *)
Definition task_last (t : Task.GB_task_struct) : Z :=
  if fine_task t then Task.kfirst t else Task.klast t.

(** [for (int64_t k = kfirst ; k <= klast ; k++)], line 90. *)
Definition task_vectors (t : Task.GB_task_struct) : list Z :=
  map (fun d => Task.kfirst t + d) (zrange (task_last t - Task.kfirst t + 1)).

(** The two nested loops: every pair of a task and one of its vectors, in
    the order in which one thread meets them. *)
Definition units (TaskList : array Task.GB_task_struct) (ntasks : Z)
  : list (Z * Z) :=
  flat_map (fun taskid => map (pair taskid) (task_vectors (TaskList taskid)))
           (zrange ntasks).

Definition store (T : Type) (X : array T) (q : Z) (v : T) : array T :=
  fun q' => if q' =? q then v else X q'.

(** [GBH (Xh, k)]: the name of the [k]th vector. *)
Definition GBH (Xh : option (array Z)) (k : Z) : Z :=
  match Xh with
  | Some hh => hh k
  | None => k
  end.

(** [kA], [kB], [kM] of lines 133-134, 167-168 and 445-453: where the [k]th
    vector of C is found in A, B or M, or a negative number. *)
Definition vector_index (Ch : option (array Z)) (same_h : bool)
    (C_to_X : option (array Z)) (k : Z) : Z :=
  if same_h then k
  else match C_to_X with
       | None => GBH Ch k
       | Some m => m k
       end.

(** Modelled from the spec: between the phases the caller (GB_emult,
    absent) turns the counts into positions.  The count of a vector is what
    its coarse task left in [Cp [k]], or the sum of what its fine tasks left
    in their [pC]; [Cp] becomes the cumulative sum of the counts; a coarse
    task gets [pC = Cp [kfirst]], a fine task [Cp [kfirst]] plus the counts
    of the fine tasks before it in the same vector, and the entry after the
    last task gets [Cp [Cnvec]]. *)
Definition cumsum (count : array Z) : array Z :=
  fun k => fold_left Z.add (map count (zrange k)) 0.

Definition fine_on (TaskList : array Task.GB_task_struct) (k taskid : Z)
  : bool :=
  fine_task (TaskList taskid) && (Task.kfirst (TaskList taskid) =? k).

Definition fine_count (TaskList : array Task.GB_task_struct) (k : Z)
  : array Z :=
  cumsum (fun taskid =>
            if fine_on TaskList k taskid then Task.pC (TaskList taskid)
            else 0).

Definition vector_count (TaskList : array Task.GB_task_struct) (ntasks : Z)
    (Cp : array Z) : array Z :=
  fun k => if existsb (fine_on TaskList k) (zrange ntasks)
           then fine_count TaskList k ntasks
           else Cp k.

Definition GB_task_cumsum (Cp : array Z) (Cnvec : Z)
    (TaskList : array Task.GB_task_struct) (ntasks : Z)
  : array Z * array Task.GB_task_struct :=
  let Cp' := cumsum (vector_count TaskList ntasks Cp) in
  (Cp',
   fun taskid =>
     let t := TaskList taskid in
     if (0 <=? taskid) && (taskid <? ntasks) then
       if fine_task t
       then set_pC t (Cp' (Task.kfirst t)
                      + fine_count TaskList (Task.kfirst t) taskid)
       else set_pC t (Cp' (Task.kfirst t))
     else if taskid =? ntasks then set_pC t (Cp' Cnvec)
     else t).

Section Kernel.

(** The macros that a kernel file defines before it includes the template:
    [GB_GETA (aij, Ax, pA)], [GB_GETB (bij, Bx, pB)] and
    [GB_BINOP (z, aij, bij, i, j)]. *)
Variables atype btype ctype xtype ytype : Type.
Variable GB_GETA : array atype -> Z -> xtype.
Variable GB_GETB : array btype -> Z -> ytype.
Variable GB_BINOP : xtype -> ytype -> Z -> Z -> ctype.

(** A sparse or hypersparse matrix: [p], [i], [x], and [h] when
    hypersparse.  The arrays are there, so that [GBP (Ap, k, vlen)] is
    [Ap [k]] and [GBI (Ai, p, vlen)] is [Ai [p]]. *)
Record matrix (T : Type) : Type := mkSparse
  { vlen : Z ; vdim : Z ; nvec : Z ; h : option (array Z) ;
    p : array Z ; i : array Z ; x : array T }.

Arguments vlen {T}.
Arguments vdim {T}.
Arguments nvec {T}.
Arguments h {T}.
Arguments p {T}.
Arguments i {T}.
Arguments x {T}.

Variable A : matrix atype.
Variable B : matrix btype.

(** The mask: the matrix M with values read as integers, and
    [Mask_struct]. *)
Variable Mask : option (matrix Z * bool).

Definition mask_arrays : option mask :=
  match Mask with
  | None => None
  | Some (Mm, Mask_struct) =>
      Some (mkMask (i Mm) (if Mask_struct then None else Some (x Mm)))
  end.

(** Phase 2 ([GB_PHASE_2_OF_2]) on one vector: the pairs stored in
    [Ci [pC]], [Cx [pC]] for [pC], [pC+1], ... in this order.  Nothing is
    done when phase 1 counted no entry. *)
Definition phase2_entries (s : slice) (j cjnz : Z) : list (Z * ctype) :=
  if cjnz =? 0 then []
  else
    map (fun ht : hit =>
           (hit_i ht,
            GB_BINOP (GB_GETA (x A) (hit_pA ht)) (GB_GETB (x B) (hit_pB ht))
                     (hit_i ht) j))
        (vector_hits (i A) (i B) mask_arrays s).

(** The header of the output, built by phase 0 (absent): [Ch], and how the
    vectors of C map to those of A, B and M.  [Ch_is_Ah] is the test
    [Ch == Ah] on the two pointers, and so on. *)
Variable Ch : option (array Z).
Variables Ch_is_Ah Ch_is_Bh Ch_is_Mh : bool.
Variables C_to_A C_to_B C_to_M : option (array Z).

Definition vector_of (Xp : array Z) (same_h : bool)
    (C_to_X : option (array Z)) (k : Z) : Z * Z :=
  let kX := vector_index Ch same_h C_to_X k in
  if kX >=? 0 then (Xp kX, Xp (kX + 1)) else (-1, -1).

(** The slice of a coarse task for the [k]th vector of C: whole vectors. *)
Definition coarse_slice (k : Z) : slice :=
  let a := vector_of (p A) Ch_is_Ah C_to_A k in
  let b := vector_of (p B) Ch_is_Bh C_to_B k in
  let m := match Mask with
           | None => (-1, -1)
           | Some (Mm, _) => vector_of (p Mm) Ch_is_Mh C_to_M k
           end in
  mkSlice (fst a) (snd a) (fst b) (snd b) (fst m) (snd m) (vlen A).

(** Lines 73-87, 119-175 and 433-458: what a task works on in the [k]th
    vector of C. *)
Definition task_slice (t : Task.GB_task_struct) (k : Z) : slice :=
  if fine_task t then
    mkSlice (Task.pA t) (Task.pA_end t) (Task.pB t) (Task.pB_end t)
            (Task.pM t) (Task.pM_end t) (Task.len t)
  else coarse_slice k.

(** Phase 1, lines 535-544: a fine task leaves its count in
    [TaskList [taskid].pC], a coarse task in [Cp [k]]. *)
Definition phase1_step
    (st : array Task.GB_task_struct * array Z) (u : Z * Z)
  : array Task.GB_task_struct * array Z :=
  let taskid := fst u in
  let k := snd u in
  let t := fst st taskid in
  let cjnz := phase1_cjnz (i A) (i B) mask_arrays (task_slice t k) in
  if fine_task t
  then (store _ (fst st) taskid (set_pC t cjnz), snd st)
  else (fst st, store Z (snd st) k cjnz).

Definition phase1 (TaskList : array Task.GB_task_struct) (ntasks : Z)
    (Cp : array Z) : array Task.GB_task_struct * array Z :=
  fold_left phase1_step (units TaskList ntasks) (TaskList, Cp).

(** Phase 2: a task fills [Ci], [Cx] from its [pC] on, lines 100-115. *)
Fixpoint write_entries (Ci : array Z) (Cx : array ctype) (pC : Z)
    (es : list (Z * ctype)) : array Z * array ctype :=
  match es with
  | [] => (Ci, Cx)
  | (ii, v) :: es' =>
      write_entries (store Z Ci pC ii) (store ctype Cx pC v) (pC + 1) es'
  end.

Definition phase2_step (TaskList : array Task.GB_task_struct)
    (Cp : array Z) (C : array Z * array ctype) (u : Z * Z)
  : array Z * array ctype :=
  let taskid := fst u in
  let k := snd u in
  let t := TaskList taskid in
  let j := GBH Ch k in
  let pC := if fine_task t then Task.pC t else Cp k in
  let pC_end :=
    if fine_task t then Task.pC (TaskList (taskid + 1)) else Cp (k + 1) in
  let cjnz := pC_end - pC in
  write_entries (fst C) (snd C) pC (phase2_entries (task_slice t k) j cjnz).

Definition phase2 (TaskList : array Task.GB_task_struct) (ntasks : Z)
    (Cp : array Z) (Ci : array Z) (Cx : array ctype)
  : array Z * array ctype :=
  fold_left (phase2_step TaskList Cp) (units TaskList ntasks) (Ci, Cx).

(** The two phases together.  [Ci0], [Cx0] are the freshly allocated
    arrays of C, [Cp0] the workspace of the counts, [Cnvec] the number of
    vectors of C. *)
Definition emult (TaskList : array Task.GB_task_struct) (ntasks Cnvec : Z)
    (Cp0 Ci0 : array Z) (Cx0 : array ctype)
  : array Z * (array Z * array ctype) :=
  let counted := phase1 TaskList ntasks Cp0 in
  let placed := GB_task_cumsum (snd counted) Cnvec (fst counted) ntasks in
  (fst placed, phase2 (snd placed) ntasks (fst placed) Ci0 Cx0).

End Kernel.

Arguments vlen {T}.
Arguments vdim {T}.
Arguments nvec {T}.
Arguments h {T}.
Arguments p {T}.
Arguments i {T}.
Arguments x {T}.
Arguments mkSparse {T}.

(** ** Sparse matrices and their entries *)

(** The entry in row [r] of the vector named [j] of [X] is stored at offset
    [q]. *)
Definition stored_at {T : Type} (X : matrix T) (r j q : Z) : Prop :=
  exists kX, 0 <= kX < nvec X /\ GBH (h X) kX = j
             /\ p X kX <= q < p X (kX + 1) /\ i X q = r.

(** A matrix in the sparse or hypersparse format with no pending work: a
    sparse matrix holds all its [vdim] vectors, a hypersparse one those
    that [h] names in increasing order; in every vector the indices lie in
    [0, vlen) and increase. *)
Definition sparse_ok {T : Type} (X : matrix T) : Prop :=
  match h X with
  | None => nvec X = vdim X
  | Some Xh => forall k1 k2, 0 <= k1 -> k1 < k2 -> k2 < nvec X ->
                             Xh k1 < Xh k2
  end
  /\ forall k, 0 <= k < nvec X ->
               range_ok (i X) (p X k) (p X (k + 1)) 0 (vlen X).

(** M(r,j) is present and, unless the mask is structural, not zero. *)
Definition mask_true (Mask : option (matrix Z * bool)) (r j : Z) : Prop :=
  match Mask with
  | None => True
  | Some (Mm, Mask_struct) =>
      exists pm, stored_at Mm r j pm
                 /\ (Mask_struct = true \/ x Mm pm <> 0)
  end.

Definition mask_ok (Mask : option (matrix Z * bool)) (vl vd : Z) : Prop :=
  match Mask with
  | None => True
  | Some (Mm, _) => sparse_ok Mm /\ vlen Mm = vl /\ vdim Mm = vd
  end.

(** C, given by its arrays, has the entry [v] in row [r] of the vector
    named [j]. *)
Definition entry_of {T : Type} (Ch : option (array Z)) (Cnvec : Z)
    (Cp Ci : array Z) (Cx : array T) (r j : Z) (v : T) : Prop :=
  exists k q, 0 <= k < Cnvec /\ GBH Ch k = j
              /\ Cp k <= q < Cp (k + 1) /\ Ci q = r /\ Cx q = v.

Definition entry_lt {T : Type} (e1 e2 : Z * T) : Prop := fst e1 < fst e2.

(** ** What phase 0 and the slicer (both absent) hand to the template *)

(** The [k]th vector of C is found in [X] at [kX], or [kX] is negative
    and [X] has no vector of that name. *)
Definition map_ok {T : Type} (X : matrix T) (Ch : option (array Z))
    (Cnvec : Z) (same_h : bool) (C_to_X : option (array Z)) : Prop :=
  forall k, 0 <= k < Cnvec ->
    let kX := vector_index Ch same_h C_to_X k in
    (0 <= kX < nvec X /\ GBH (h X) kX = GBH Ch k)
    \/ (kX < 0
        /\ forall k', 0 <= k' < nvec X -> GBH (h X) k' <> GBH Ch k).

(** The header of C: the three maps are right, and C has a vector for
    every name that A, B (and M) all have. *)
Definition header_ok {TA TB : Type} (A : matrix TA) (B : matrix TB)
    (Mask : option (matrix Z * bool)) (Ch : option (array Z)) (Cnvec : Z)
    (Ch_is_Ah Ch_is_Bh Ch_is_Mh : bool)
    (C_to_A C_to_B C_to_M : option (array Z)) : Prop :=
  map_ok A Ch Cnvec Ch_is_Ah C_to_A
  /\ map_ok B Ch Cnvec Ch_is_Bh C_to_B
  /\ match Mask with
     | None => True
     | Some (Mm, _) => map_ok Mm Ch Cnvec Ch_is_Mh C_to_M
     end
  /\ forall j,
       (exists kA, 0 <= kA < nvec A /\ GBH (h A) kA = j) ->
       (exists kB, 0 <= kB < nvec B /\ GBH (h B) kB = j) ->
       match Mask with
       | None => True
       | Some (Mm, _) => exists kM, 0 <= kM < nvec Mm /\ GBH (h Mm) kM = j
       end ->
       exists k, 0 <= k < Cnvec /\ GBH Ch k = j.

(** The part [tlo..thi-1] of the vector [X [lo..hi-1]] holds the entries
    whose index falls in the window of [wlen] indices from [wlo] on. *)
Definition window_of (X : array Z) (lo hi tlo thi wlo wlen : Z) : Prop :=
  lo <= tlo /\ tlo <= thi /\ thi <= hi
  /\ forall q, lo <= q < hi -> (tlo <= q < thi <-> wlo <= X q < wlo + wlen).

(** A fine task whose window starts at row [wlo]. *)
Definition fine_ok {TA TB : Type} (A : matrix TA) (B : matrix TB)
    (Mask : option (matrix Z * bool)) (whole : slice) (wlo : Z)
    (t : Task.GB_task_struct) : Prop :=
  window_of (i A) (pA whole) (pA_end whole) (Task.pA t) (Task.pA_end t)
            wlo (Task.len t)
  /\ window_of (i B) (pB whole) (pB_end whole) (Task.pB t) (Task.pB_end t)
               wlo (Task.len t)
  /\ match Mask with
     | None => True
     | Some (Mm, _) =>
         window_of (i Mm) (pM whole) (pM_end whole) (Task.pM t)
                   (Task.pM_end t) wlo (Task.len t)
     end.

(** The task list: every task has vectors of C; the tasks come in the
    order of the vectors, and two tasks meet in a vector only when both are
    fine, the windows then following one another; every vector has a coarse
    task, or fine tasks whose windows cover all the rows.  [whole k] is the
    slice of a coarse task for the vector [k], and [W taskid] the first row
    of the window of a fine task. *)
Definition tasks_ok {TA TB : Type} (A : matrix TA) (B : matrix TB)
    (Mask : option (matrix Z * bool)) (whole : Z -> slice)
    (TaskList : array Task.GB_task_struct) (ntasks Cnvec : Z)
    (W : Z -> Z) : Prop :=
  (forall a, 0 <= a < ntasks ->
     let t := TaskList a in
     0 <= Task.kfirst t /\ Task.kfirst t <= task_last t
     /\ task_last t < Cnvec
     /\ (fine_task t = true ->
         fine_ok A B Mask (whole (Task.kfirst t)) (W a) t))
  /\ (forall a b, 0 <= a -> a < b -> b < ntasks ->
        task_last (TaskList a) <= Task.kfirst (TaskList b)
        /\ (task_last (TaskList a) = Task.kfirst (TaskList b) ->
            fine_task (TaskList a) = true /\ fine_task (TaskList b) = true
            /\ W a + Task.len (TaskList a) <= W b))
  /\ (forall k, 0 <= k < Cnvec ->
        (exists a, 0 <= a < ntasks /\ fine_task (TaskList a) = false
                   /\ Task.kfirst (TaskList a) <= k <= Task.klast (TaskList a))
        \/ ((exists a, 0 <= a < ntasks /\ fine_on TaskList k a = true)
            /\ forall r, 0 <= r < vlen A ->
                 exists a, 0 <= a < ntasks /\ fine_on TaskList k a = true
                           /\ W a <= r < W a + Task.len (TaskList a))).

(** The first row of the window of a task. *)
Definition window_start (TaskList : array Task.GB_task_struct)
    (W : Z -> Z) (a : Z) : Z :=
  if fine_task (TaskList a) then W a else 0.

(** Two task lists that differ in the field [pC] at most. *)
Definition same_tasks (TL1 TL2 : array Task.GB_task_struct) : Prop :=
  forall a, exists c, TL1 a = set_pC (TL2 a) c.

(** The conditions on the arrays as tests that compute. *)
Definition range_okb (X : array Z) (lo hi wlo wlen : Z) : bool :=
  (lo <=? hi) && ((hi <=? lo) || (0 <=? lo))
  && forallb (fun d =>
                let q := lo + d in
                (wlo <=? X q) && (X q <? wlo + wlen)
                && ((hi <=? q + 1) || (X q <? X (q + 1))))
             (zrange (hi - lo)).

Definition sparse_okb {T : Type} (X : matrix T) : bool :=
  match h X with
  | None => nvec X =? vdim X
  | Some Xh =>
      forallb (fun k => (nvec X <=? k + 1) || (Xh k <? Xh (k + 1)))
              (zrange (nvec X))
  end
  && forallb (fun k => range_okb (i X) (p X k) (p X (k + 1)) 0 (vlen X))
             (zrange (nvec X)).

Definition mask_okb (Mask : option (matrix Z * bool)) (vl vd : Z) : bool :=
  match Mask with
  | None => true
  | Some (Mm, _) => sparse_okb Mm && (vlen Mm =? vl) && (vdim Mm =? vd)
  end.

(** The conditions on the header and on the task list as tests. *)
Definition has_vector {T : Type} (X : matrix T) (j : Z) : bool :=
  existsb (fun kX => GBH (h X) kX =? j) (zrange (nvec X)).

Definition map_okb {T : Type} (X : matrix T) (Ch : option (array Z))
    (Cnvec : Z) (same_h : bool) (C_to_X : option (array Z)) : bool :=
  forallb (fun k =>
             let kX := vector_index Ch same_h C_to_X k in
             ((0 <=? kX) && (kX <? nvec X) && (GBH (h X) kX =? GBH Ch k))
             || ((kX <? 0) && negb (has_vector X (GBH Ch k))))
          (zrange Cnvec).

Definition header_okb {TA TB : Type} (A : matrix TA) (B : matrix TB)
    (Mask : option (matrix Z * bool)) (Ch : option (array Z)) (Cnvec : Z)
    (Ch_is_Ah Ch_is_Bh Ch_is_Mh : bool)
    (C_to_A C_to_B C_to_M : option (array Z)) : bool :=
  map_okb A Ch Cnvec Ch_is_Ah C_to_A
  && map_okb B Ch Cnvec Ch_is_Bh C_to_B
  && match Mask with
     | None => true
     | Some (Mm, _) => map_okb Mm Ch Cnvec Ch_is_Mh C_to_M
     end
  && forallb (fun kA =>
                let j := GBH (h A) kA in
                negb (has_vector B j)
                || negb (match Mask with
                         | None => true
                         | Some (Mm, _) => has_vector Mm j
                         end)
                || existsb (fun k => GBH Ch k =? j) (zrange Cnvec))
             (zrange (nvec A)).

Definition window_ofb (X : array Z) (lo hi tlo thi wlo wlen : Z) : bool :=
  (lo <=? tlo) && (tlo <=? thi) && (thi <=? hi)
  && forallb (fun d =>
                let q := lo + d in
                Bool.eqb ((tlo <=? q) && (q <? thi))
                         ((wlo <=? X q) && (X q <? wlo + wlen)))
             (zrange (hi - lo)).

Definition fine_okb {TA TB : Type} (A : matrix TA) (B : matrix TB)
    (Mask : option (matrix Z * bool)) (whole : slice) (wlo : Z)
    (t : Task.GB_task_struct) : bool :=
  window_ofb (i A) (pA whole) (pA_end whole) (Task.pA t) (Task.pA_end t)
             wlo (Task.len t)
  && window_ofb (i B) (pB whole) (pB_end whole) (Task.pB t) (Task.pB_end t)
                wlo (Task.len t)
  && match Mask with
     | None => true
     | Some (Mm, _) =>
         window_ofb (i Mm) (pM whole) (pM_end whole) (Task.pM t)
                    (Task.pM_end t) wlo (Task.len t)
     end.

Definition tasks_okb {TA TB : Type} (A : matrix TA) (B : matrix TB)
    (Mask : option (matrix Z * bool)) (whole : Z -> slice)
    (TaskList : array Task.GB_task_struct) (ntasks Cnvec : Z)
    (W : Z -> Z) : bool :=
  forallb (fun a =>
             let t := TaskList a in
             (0 <=? Task.kfirst t) && (Task.kfirst t <=? task_last t)
             && (task_last t <? Cnvec)
             && (negb (fine_task t)
                 || fine_okb A B Mask (whole (Task.kfirst t)) (W a) t))
          (zrange ntasks)
  && forallb (fun a =>
                forallb (fun b =>
                           negb (a <? b)
                           || ((task_last (TaskList a)
                                <=? Task.kfirst (TaskList b))
                               && (negb (task_last (TaskList a)
                                         =? Task.kfirst (TaskList b))
                                   || (fine_task (TaskList a)
                                       && fine_task (TaskList b)
                                       && (W a + Task.len (TaskList a)
                                           <=? W b)))))
                        (zrange ntasks))
             (zrange ntasks)
  && forallb (fun k =>
                existsb (fun a =>
                           negb (fine_task (TaskList a))
                           && (Task.kfirst (TaskList a) <=? k)
                           && (k <=? Task.klast (TaskList a)))
                        (zrange ntasks)
                || (existsb (fine_on TaskList k) (zrange ntasks)
                    && forallb (fun r =>
                                  existsb (fun a =>
                                             fine_on TaskList k a
                                             && (W a <=? r)
                                             && (r <? W a
                                                      + Task.len (TaskList a)))
                                          (zrange ntasks))
                               (zrange (vlen A))))
             (zrange Cnvec).

(** ** Samples: 4-by-3 matrices

    A = [1 . . ; . . 5 ; 2 . . ; 3 . 6] is hypersparse,
    B = [. . 7 ; . . 8 ; 4 . 0 ; 9 . 1],
    M = [. . . ; . . 1 ; 1 . . ; 0 . 1]. *)
Definition sample_A : matrix Z :=
  mkSparse 4 3 2 (Some (of_list 0 [0; 2])) (of_list 0 [0; 3; 5])
           (of_list 0 [0; 2; 3; 1; 3]) (of_list 0 [1; 2; 3; 5; 6]).
Definition sample_B : matrix Z :=
  mkSparse 4 3 3 None (of_list 0 [0; 2; 2; 6])
           (of_list 0 [2; 3; 0; 1; 2; 3]) (of_list 0 [4; 9; 7; 8; 0; 1]).
Definition sample_M : matrix Z :=
  mkSparse 4 3 3 None (of_list 0 [0; 2; 2; 4]) (of_list 0 [2; 3; 1; 3])
           (of_list 0 [1; 0; 1; 1]).

(** C takes the vectors of A: [Ch] is [Ah], and vector 1 of C is vector 2
    of B and of M. *)
Definition sample_Ch : option (array Z) := h sample_A.
Definition sample_C_to_B : option (array Z) := Some (of_list (-1) [0; 2]).
Definition sample_C_to_M : option (array Z) := Some (of_list (-1) [0; 2]).

(** One coarse task for the first vector of C; two fine tasks for the
    second, with the rows 0-1 and 2-3. *)
Definition sample_TaskList : array Task.GB_task_struct :=
  of_list (Task.mkTask 0 0 0 0 0 0 0 0 0 0)
    [ Task.mkTask 0 0 0 (-1) (-1) (-1) (-1) (-1) (-1) 0 ;
      Task.mkTask 1 (-1) 0 2 3 3 4 2 4 2 ;
      Task.mkTask 1 (-1) 0 3 4 4 5 4 6 2 ].
Definition sample_W : Z -> Z := fun taskid => if taskid =? 2 then 2 else 0.

(** The kernel of TIMES on integers, and the macros of
    FactoryKernels/GB_ew__pair_uint8.c: [GB_GETA] and [GB_GETB] expand to
    nothing, [GB_BINOP] is [z = 1]. *)
Definition times_kernel := emult Z Z Z Z Z (fun Ax q => Ax q)
  (fun Bx q => Bx q) (fun a b _ _ => a * b).
Definition pair_kernel := emult Z Z Z unit unit (fun _ _ => tt)
  (fun _ _ => tt) (fun _ _ _ _ => 1).

End Emult.

(* ===================================================================== *)
(** * GB_emult_template: the two operands in the other order              *)
(* ===================================================================== *)

Module EmultExchange.
Import Emult.

(** The slice and the hit seen with B in the place of A. *)
Definition exchange_slice (s : slice) : slice :=
  mkSlice (pB s) (pB_end s) (pA s) (pA_end s) (pM s) (pM_end s) (len s).

Definition exchange_hit (ht : hit) : hit :=
  (hit_i ht, hit_pB ht, hit_pA ht).

(** The mask entry that lets a hit through. *)
Definition mask_lets (m : mask) (s : slice) (ht : hit) : Prop :=
  exists pm, pM s <= pm < pM_end s /\ Mi m pm = hit_i ht
             /\ GB_mcast (Mx m) pm = true.

(** The first vectors of the samples: A(:,0) has rows 0, 2, 3, B(:,0) has
    rows 2, 3, and M(:,0) has rows 2, 3 with the values 1, 0. *)
Definition first_vector : slice := mkSlice 0 3 0 2 0 2 4.

Definition sample_mask : mask := mkMask (i sample_M) (Some (x sample_M)).

Definition slice_okb (Ai Bi : array Z) (M : option mask) (s : slice)
    (wlo : Z) : bool :=
  range_okb Ai (pA s) (pA_end s) wlo (len s)
  && range_okb Bi (pB s) (pB_end s) wlo (len s)
  && match M with
     | None => true
     | Some m => range_okb (Mi m) (pM s) (pM_end s) wlo (len s)
     end.

End EmultExchange.

(* ===================================================================== *)
(** * GB_shallow_op: a shallow copy with an operator applied              *)
(* ===================================================================== *)

Module ShallowOp.

(** A pointer to an array: [NULL], or the address of a block. *)
Definition pointer : Type := option Z.

(** Modelled from the spec: the enumeration [GB_Opcode] of GB.h (absent)
    numbers the unary operators as well as the binary ones.  Of the unary
    ones this function names IDENTITY only; [tag] tells the others
    apart. *)
Inductive apply_opcode : Type :=
| GB_IDENTITY_opcode
| GB_unary_opcode (tag : Z)
| GB_binary_opcode (o : GB_Opcode).

Record GrB_UnaryOp : Type := mkUnaryOp
  { unop_xtype : GrB_Type ; unop_ztype : GrB_Type ;
    unop_opcode : apply_opcode }.

Section Shallow.

(** [hyper_ratio] is a [double] that is only copied. *)
Variable ratio : Type.

Record GrB_Matrix : Type := mkMatrix
  { type : GrB_Type ; vlen : Z ; vdim : Z ;
    is_csc : bool ; is_hyper : bool ; hyper_ratio : ratio ;
    h : pointer ; p : pointer ; i : pointer ; x : pointer ;
    h_shallow : bool ; p_shallow : bool ; i_shallow : bool ;
    x_shallow : bool ;
    plen : Z ; nvec : Z ; nvec_nonempty : Z ; nzmax : Z ;
    magic : GB_magic }.

(** Modelled from the spec: [GB_new] (absent) with [GB_Ap_null] allocates
    a header with no array, stamped [GB_MAGIC2]; [GB_SAME_HYPER_AS] makes
    it hypersparse exactly when its argument holds. *)
Definition GB_new (ty : GrB_Type) (vl vd : Z) (csc hyper : bool)
    (r : ratio) : GrB_Matrix :=
  mkMatrix ty vl vd csc hyper r None None None None
           false false false false 0 0 0 0 GB_MAGIC2.

(** The arrays that freeing the matrix releases: those that are there and
    are not flagged shallow. *)
Definition owned (ptr : pointer) (shallow : bool) : list Z :=
  match ptr with
  | Some b => if shallow then [] else [b]
  | None => []
  end.

Definition owned_blocks (C : GrB_Matrix) : list Z :=
  owned (h C) (h_shallow C) ++ owned (p C) (p_shallow C)
  ++ owned (i C) (i_shallow C) ++ owned (x C) (x_shallow C).

(** Every array of the matrix, shallow or not. *)
Definition blocks (A : GrB_Matrix) : list Z :=
  owned (h A) false ++ owned (p A) false ++ owned (i A) false
  ++ owned (x A) false.

(** Modelled from the spec: [GB_Matrix_free] (absent) releases the header
    and the arrays of the matrix that are not shallow. *)
Definition GB_Matrix_free (C : GrB_Matrix) : list Z := owned_blocks C.

(** The state of the caller after the call: the status, [*Chandle], and
    the blocks released on the way. *)
Record outcome : Type := mkOutcome
  { info : GrB_Info ; Chandle : option GrB_Matrix ; freed : list Z }.

(** The callees that are absent: [GB_OPCODE_IS_POSITIONAL]; the verdict of
    [GB_new] on the memory for the header; the value of [GB_NNZ (A)]; the
    block that [GB_MALLOC] returns, or [NULL]; and the status of
    [GB_apply_op], which fills that block. *)
Variable GB_OPCODE_IS_POSITIONAL : apply_opcode -> bool.
Variable new_info : GrB_Info.
Variable anz : Z.
Variable GB_MALLOC : pointer.
Variable apply_info : GrB_Info.

Definition GB_IMAX (a b : Z) : Z := if a >? b then a else b.

Definition type_is (t : GrB_Type) (o : option GrB_Type) : bool :=
  match o with
  | Some t' => type_eqb t t'
  | None => false
  end.

Definition is_binary (o : apply_opcode) (b : GB_Opcode) : bool :=
  match o with
  | GB_binary_opcode o' => opcode_eqb o' b
  | _ => false
  end.

Definition is_identity (o : apply_opcode) : bool :=
  match o with
  | GB_IDENTITY_opcode => true
  | _ => false
  end.

(** Lines 144-147: the operator leaves the values as they are. *)
Definition pure_shallow (A : GrB_Matrix) (op_intype : option GrB_Type)
    (o : apply_opcode) (binop_bind1st : bool) : bool :=
  type_is (type A) op_intype
  && (is_identity o || is_binary o GB_ANY_opcode
      || (is_binary o GB_FIRST_opcode && negb binop_bind1st)
      || (is_binary o GB_SECOND_opcode && binop_bind1st)).

(** The opcode, the input type (when the operator is not positional) and
    the output type of the operator given, lines 49-71.  With neither
    operator the code dereferences [NULL]: there is no result. *)
Definition operator_of (op1 : option GrB_UnaryOp)
    (op2 : option GrB_BinaryOp) (binop_bind1st : bool)
  : option (apply_opcode * option GrB_Type * GrB_Type) :=
  match op1, op2 with
  | Some u, _ =>
      let o := unop_opcode u in
      Some (o,
            if GB_OPCODE_IS_POSITIONAL o then None else Some (unop_xtype u),
            unop_ztype u)
  | None, Some b =>
      let o := GB_binary_opcode (opcode b) in
      Some (o,
            if GB_OPCODE_IS_POSITIONAL o then None
            else Some (if binop_bind1st then xtype b else ytype b),
            ztype b)
  | None, None => None
  end.

Definition GB_shallow_op (C_is_csc : bool) (op1 : option GrB_UnaryOp)
    (op2 : option GrB_BinaryOp) (binop_bind1st : bool) (A : GrB_Matrix)
  : option outcome :=
  match operator_of op1 op2 binop_bind1st with
  | None => None
  | Some (o, op_intype, zt) =>
      Some
        match new_info with
        | GrB_SUCCESS =>
            (* allocate the struct for C, with the hypersparsity of A *)
            let C := GB_new zt (vlen A) (vdim A) C_is_csc
                       (match h A with Some _ => true | None => false end)
                       (hyper_ratio A) in
            (* make a shallow copy of the vector pointers *)
            let C := mkMatrix (type C) (vlen C) (vdim C) (is_csc C)
                       (is_hyper C) (hyper_ratio C)
                       (h A) (p A) (i C) (x C)
                       true true (i_shallow C) (x_shallow C)
                       (plen A) (nvec A) (nvec_nonempty A) (nzmax C)
                       GB_MAGIC in
            if nzmax A =? 0 then
              (* C->p and C->h are shallow but the rest is empty *)
              mkOutcome GrB_SUCCESS
                (Some (mkMatrix (type C) (vlen C) (vdim C) (is_csc C)
                         (is_hyper C) (hyper_ratio C)
                         (h C) (p C) None None
                         (h_shallow C) (p_shallow C) false false
                         (plen C) (nvec C) (nvec_nonempty C) 0 (magic C)))
                []
            else
              (* make a shallow copy of the pattern *)
              let C := mkMatrix (type C) (vlen C) (vdim C) (is_csc C)
                         (is_hyper C) (hyper_ratio C)
                         (h C) (p C) (i A) (x C)
                         (h_shallow C) (p_shallow C) true (x_shallow C)
                         (plen C) (nvec C) (nvec_nonempty C) (nzmax C)
                         (magic C) in
              if pure_shallow A op_intype o binop_bind1st then
                (* no work is done at all.  C is a pure shallow copy *)
                mkOutcome GrB_SUCCESS
                  (Some (mkMatrix (type C) (vlen C) (vdim C) (is_csc C)
                           (is_hyper C) (hyper_ratio C)
                           (h C) (p C) (i C) (x A)
                           (h_shallow C) (p_shallow C) (i_shallow C) true
                           (plen C) (nvec C) (nvec_nonempty C) (nzmax A)
                           (magic C)))
                  []
              else
                (* allocate new space for the numerical values of C *)
                let C := mkMatrix (type C) (vlen C) (vdim C) (is_csc C)
                           (is_hyper C) (hyper_ratio C)
                           (h C) (p C) (i C) GB_MALLOC
                           (h_shallow C) (p_shallow C) (i_shallow C) false
                           (plen C) (nvec C) (nvec_nonempty C)
                           (GB_IMAX anz 1) (magic C) in
                match x C with
                | None =>
                    (* out of memory *)
                    mkOutcome GrB_OUT_OF_MEMORY None (GB_Matrix_free C)
                | Some _ =>
                    match apply_info with
                    | GrB_SUCCESS => mkOutcome GrB_SUCCESS (Some C) []
                    | _ =>
                        (* out of memory *)
                        mkOutcome GrB_OUT_OF_MEMORY None (GB_Matrix_free C)
                    end
                end
        | e =>
            (* out of memory *)
            mkOutcome e None []
        end
  end.

End Shallow.

(** ** Samples: a 3-by-2 sparse double matrix with three entries, its
    arrays at the addresses 10, 11 and 12. *)
Definition fp64 : GrB_Type := mkType 110 GB_FP64_code.
Definition fp32 : GrB_Type := mkType 109 GB_FP32_code.

Definition sample_A : GrB_Matrix unit :=
  mkMatrix unit fp64 3 2 true false tt None (Some 10) (Some 11) (Some 12)
           false false false false 2 2 2 3 GB_MAGIC.

Definition identity_fp64 : GrB_UnaryOp :=
  mkUnaryOp fp64 fp64 GB_IDENTITY_opcode.
Definition identity_fp32 : GrB_UnaryOp :=
  mkUnaryOp fp32 fp32 GB_IDENTITY_opcode.

Definition never_positional (o : apply_opcode) : bool := false.

End ShallowOp.

(* ===================================================================== *)
(** * Demo/Program/gauss_demo.c: the semiring of Gaussian integers        *)
(* ===================================================================== *)

From Stdlib Require Import Permutation.

Module GaussDemo.

(** [int32_t]: the value of an arithmetic operation is brought back into
    the range [-2^31, 2^31) by wrapping around.  (C leaves the overflow of
    a signed operation undefined; the compilers in use wrap.) *)
Definition int32_modulus : Z := 2 ^ 32.

Definition int32_wrap (v : Z) : Z :=
  (v + 2 ^ 31) mod int32_modulus - 2 ^ 31.

Definition int32_range (v : Z) : Prop := - 2 ^ 31 <= v < 2 ^ 31.

(** The Gaussian integer: real and imaginary parts. *)
Record gauss : Type := mkGauss { real : Z ; imag : Z }.

Definition gauss_range (x : gauss) : Prop :=
  int32_range (real x) /\ int32_range (imag x).

(** addgauss: add two Gaussian integers. *)
Definition addgauss (x y : gauss) : gauss :=
  mkGauss (int32_wrap (real x + real y)) (int32_wrap (imag x + imag y)).

(** multgauss: multiply two Gaussian integers. *)
Definition multgauss (x y : gauss) : gauss :=
  mkGauss
    (int32_wrap (int32_wrap (real x * real y)
                 - int32_wrap (imag x * imag y)))
    (int32_wrap (int32_wrap (real x * imag y)
                 + int32_wrap (imag x * real y))).

(** realgauss: real part of a Gaussian integer. *)
Definition realgauss (x : gauss) : Z := real x.

(** The identity of the AddMonoid of [main], and the Gaussian integer 1. *)
Definition zero : gauss := mkGauss 0 0.
Definition one : gauss := mkGauss 1 0.

(** [GrB_Matrix_reduce_UDT] with the AddMonoid: the sum of the entries, in
    whatever order the library meets them. *)
Definition reduce (entries : list gauss) : gauss :=
  fold_left addgauss entries zero.

(** The entries A(i,j) = (i+1, 2-j) of the 4-by-4 matrix of [main], except
    A(0,0), by rows. *)
Definition demo_entries : list gauss :=
  flat_map (fun ii =>
              flat_map (fun jj =>
                          if (ii =? 0) && (jj =? 0) then []
                          else [mkGauss (ii + 1) (2 - jj)])
                       (zrange 4))
           (zrange 4).

End GaussDemo.

(* ===================================================================== *)
(** * Generated kernels: the macros of a semiring and of an operator      *)
(* ===================================================================== *)

(** ** Generated/GB_AxB__eq_gt_int8.c: the semiring (EQ, GT) on int8 *)

Module EqGtInt8.

(** An int8 value is a [Z]; the values of C are [bool]. *)
Definition GB_IDENTITY : bool := true.

(** [GB_MULTADD_NOMASK]: [t = aik > bkj ;
    Sauna_Work [i] = (Sauna_Work [i] == t)]. *)
Definition GB_MULTADD_NOMASK (work : bool) (aik bkj : Z) : bool :=
  let t := aik >? bkj in
  Bool.eqb work t.

(** [GB_MULTADD_WITH_MASK]: the cell is [Sauna_Work [i]] with its mark
    [Sauna_Mark [i]]. *)
Definition GB_MULTADD_WITH_MASK (hiwater : Z) (cell : bool * Z)
    (aik bkj : Z) : bool * Z :=
  if snd cell =? hiwater
  then (* first time C(i,j) seen *) (aik >? bkj, hiwater + 1)
  else (* C(i,j) seen before, update it *)
       (GB_MULTADD_NOMASK (fst cell) aik bkj, snd cell).

(** The macros of the dot product method. *)
Definition GB_DOT_MULT (aki bkj : Z) : bool := aki >? bkj.
Definition GB_DOT_ADD (cij t : bool) : bool := Bool.eqb cij t.
Definition GB_DOT_COPY (t : bool) : bool := t.
Definition GB_DOT_CLEAR : bool := true.

(** The macros of the heap method. *)
Definition GB_CIJ_MULT (aik bkj : Z) : bool := aik >? bkj.
Definition GB_CIJ_MULTADD (cij : bool) (aik bkj : Z) : bool :=
  let t := aik >? bkj in
  Bool.eqb cij t.
Definition GB_CIJ_CLEAR : bool := true.

(** Modelled from the spec: the loops that use the macros live in
    GB_AxB_Gustavson_meta.c and GB_AxB_dot_meta.c, which are absent.  For
    one entry C(i,j) with the products [(aik, bkj)] in the order met:
    Gustavson's method without a mask clears the cell and multiply-adds
    into it; with a mask the cell holds a stale value [stale] and the mark
    [hiwater] until the first product arrives; the dot product copies the
    first product and adds the others. *)
Definition gustavson (products : list (Z * Z)) : bool :=
  fold_left (fun w ab => GB_MULTADD_NOMASK w (fst ab) (snd ab))
            products GB_IDENTITY.

Definition gustavson_masked (hiwater : Z) (stale : bool)
    (products : list (Z * Z)) : bool :=
  fst (fold_left (fun c ab => GB_MULTADD_WITH_MASK hiwater c (fst ab) (snd ab))
                 products (stale, hiwater)).

Definition dot (products : list (Z * Z)) : option bool :=
  fold_left (fun c ab =>
               let t := GB_DOT_MULT (fst ab) (snd ab) in
               match c with
               | None => Some (GB_DOT_COPY t)
               | Some cij => Some (GB_DOT_ADD cij t)
               end)
            products None.

End EqGtInt8.

(** ** Generated/GB_binop__rdiv_fc64.c: the operator RDIV on double complex *)

Module RdivFC64.

Section Kernel.

(** [GxB_FC64_t] and its division [GB_FC64_div] (GB.h, absent). *)
Variable GxB_FC64_t : Type.
Variable GB_FC64_div : GxB_FC64_t -> GxB_FC64_t -> GxB_FC64_t.

(** [GB_BINOP (z, x, y, i, j)]: [z = GB_FC64_div (y, x)]. *)
Definition GB_BINOP (x y : GxB_FC64_t) : GxB_FC64_t := GB_FC64_div y x.

(** The memory in units of one scalar: [Cx [p]] is the cell at the address
    [Cx + p], so that arrays may overlap. *)
Definition memory : Type := Z -> GxB_FC64_t.

Definition write (m : memory) (a : Z) (v : GxB_FC64_t) : memory :=
  fun a' => if a' =? a then v else m a'.

(** [GB_bind1st__rdiv_fc64]: [Cx = op (x, Bx)].  The loop is an OpenMP
    [parallel for]; [schedule] is the order in which the iterations
    [0 .. anz-1] take place.  [GB_DISABLE] is the compile-time switch. *)
Definition GB_bind1st__rdiv_fc64 (GB_DISABLE : bool) (schedule : list Z)
    (Cx : Z) (x : GxB_FC64_t) (Bx : Z) (m : memory) : GrB_Info * memory :=
  if GB_DISABLE then (GrB_NO_VALUE, m)
  else
    (GrB_SUCCESS,
     fold_left (fun m p =>
                  let bij := m (Bx + p) in
                  write m (Cx + p) (GB_FC64_div bij x))
               schedule m).

(** [GB_bind2nd__rdiv_fc64]: [Cx = op (Ax, y)]. *)
Definition GB_bind2nd__rdiv_fc64 (GB_DISABLE : bool) (schedule : list Z)
    (Cx : Z) (Ax : Z) (y : GxB_FC64_t) (m : memory) : GrB_Info * memory :=
  if GB_DISABLE then (GrB_NO_VALUE, m)
  else
    (GrB_SUCCESS,
     fold_left (fun m p =>
                  let aij := m (Ax + p) in
                  write m (Cx + p) (GB_FC64_div y aij))
               schedule m).

(** The output array is the input array, or the two lie apart. *)
Definition aliased_or_apart (Cx Xx anz : Z) : Prop :=
  Cx = Xx \/ Cx + anz <= Xx \/ Xx + anz <= Cx.

End Kernel.

(** A stand-in for the division, on pairs of integers, to run the kernels
    on: (a, b) / (c, d) is taken to be (a - c, b - d). *)
Definition sample_div (u v : Z * Z) : Z * Z :=
  (fst u - fst v, snd u - snd v).

Definition sample_memory : memory (Z * Z) :=
  fun a => (10 * a, a).

End RdivFC64.

(* ===================================================================== *)
(** * GB_ewise: conforming A and B to the format of C                     *)
(* ===================================================================== *)

Module EwiseFormats.
Import Ewise.

(** What lines 137-161 decide: whether A and B are to be transposed, and
    the format of T. *)
Record plan : Type := mkPlan
  { A_transpose : bool ; B_transpose : bool ; T_is_csc : bool }.

(** Lines 137-161, "handle CSR and CSC formats". *)
Definition conform_formats (C_is_csc A_is_csc B_is_csc : bool)
    (A_transpose B_transpose : bool) : plan :=
  (* CSC/CSR format of T is same as C *)
  let T_is_csc := C_is_csc in
  (* Flip the sense of A_transpose *)
  let A_transpose :=
    if negb (Bool.eqb T_is_csc A_is_csc) then negb A_transpose
    else A_transpose in
  (* Flip the sense of B_transpose *)
  let B_transpose :=
    if negb (Bool.eqb T_is_csc B_is_csc) then negb B_transpose
    else B_transpose in
  if A_transpose && B_transpose
  then (* T=A'+B' is not computed.  Instead, T=A+B is computed first, and
          then C = T' is computed.  The CSC format of T and C now differ. *)
       mkPlan false false (negb T_is_csc)
  else mkPlan A_transpose B_transpose T_is_csc.

Section Operands.

Variable val : Type.

(** Modelled from the spec: [GB_transpose] (absent), called as
    [GB_transpose (&AT, NULL, T_is_csc, A, ...)], returns the matrix whose
    vectors are the rows of the vectors of [A], with the format asked
    for. *)
Definition GB_transpose (C_is_csc : bool) (A : GrB_Matrix val)
  : GrB_Matrix val :=
  mkMatrix val (type val A) (vdim val A) (vlen val A) C_is_csc
           (fun i j => content val A j i) (nnz_bound val A).

(** Lines 210-234: [A1] is [AT] when A is to be transposed, and [A]
    otherwise. *)
Definition operand (transpose T_is_csc : bool) (A : GrB_Matrix val)
  : GrB_Matrix val :=
  if transpose then GB_transpose T_is_csc A else A.

(** [GB_add] and [GB_emult] (both absent) work vector by vector and take
    their operands to have the format of T, whatever the descriptor of the
    operand says: "A is treated as if it is CSC".  This is the entry in
    row [r] and column [c] of an operand so read. *)
Definition read_as (T_is_csc : bool) (A1 : GrB_Matrix val) (r c : Z)
  : option val :=
  if T_is_csc then content val A1 r c else content val A1 c r.

(** The matrix that the caller asked for: A, or its transpose. *)
Definition requested (A : GrB_Matrix val) (transpose : bool) (r c : Z)
  : option val :=
  if transpose then entry val A c r else entry val A r c.

End Operands.

(** A 2-by-3 matrix held by row and a 3-by-2 matrix held by column, with
    the entry [10*r + c] in row [r] and column [c]; and a 2-by-3 output
    held by column. *)
Definition by_row_2x3 : GrB_Matrix Z :=
  mkMatrix Z fp64 3 2 false (fun i j => Some (10 * j + i)) 6.
Definition by_col_3x2 : GrB_Matrix Z :=
  mkMatrix Z fp64 3 2 true (fun i j => Some (10 * i + j)) 6.
Definition output_2x3 : GrB_Matrix Z :=
  mkMatrix Z fp64 2 3 true (fun _ _ => None) 0.

End EwiseFormats.

(* ===================================================================== *)
(** * The MATLAB interface: gb_export_to_mxfull, gb_export_to_mxsparse    *)
(* ===================================================================== *)

Module Matlab.

(** [ERROR (message)] is [mexErrMsgIdAndTxt], which does not return: a
    function of the interface returns a value or raises an error.  [OK
    (method)] raises the error of the library when [method] fails. *)
Inductive message : Type :=
| internal_error | unknown_type | library_error (e : GrB_Info).

Inductive outcome (T : Type) : Type :=
| Returned (v : T)
| Raised (m : message).

Arguments Returned {T}.
Arguments Raised {T}.

Inductive mxClassID : Type :=
| mxLOGICAL_CLASS | mxSINGLE_CLASS | mxDOUBLE_CLASS
| mxINT8_CLASS | mxINT16_CLASS | mxINT32_CLASS | mxINT64_CLASS
| mxUINT8_CLASS | mxUINT16_CLASS | mxUINT32_CLASS | mxUINT64_CLASS.

Inductive mxComplexity : Type := mxREAL | mxCOMPLEX.

(** A pointer to an array: [NULL], or the address of a block. *)
Definition pointer : Type := option Z.

(** The built-in types are objects of the library, told apart by their
    addresses. *)
Definition builtin (c : GB_Type_code) : GrB_Type :=
  mkType (100 + SemiringBuiltin.code_index c) c.

Definition GrB_BOOL : GrB_Type := builtin GB_BOOL_code.
Definition GrB_INT8 : GrB_Type := builtin GB_INT8_code.
Definition GrB_UINT8 : GrB_Type := builtin GB_UINT8_code.
Definition GrB_INT16 : GrB_Type := builtin GB_INT16_code.
Definition GrB_UINT16 : GrB_Type := builtin GB_UINT16_code.
Definition GrB_INT32 : GrB_Type := builtin GB_INT32_code.
Definition GrB_UINT32 : GrB_Type := builtin GB_UINT32_code.
Definition GrB_INT64 : GrB_Type := builtin GB_INT64_code.
Definition GrB_UINT64 : GrB_Type := builtin GB_UINT64_code.
Definition GrB_FP32 : GrB_Type := builtin GB_FP32_code.
Definition GrB_FP64 : GrB_Type := builtin GB_FP64_code.

(** ** gb_export_to_mxfull *)

(** A MATLAB dense matrix. *)
Record mxFull : Type := mkFull
  { full_class : mxClassID ; full_complexity : mxComplexity ;
    full_M : Z ; full_N : Z ; full_data : pointer }.

Section Full.

(** [gb_complex_type], when the interface is compiled with
    [GB_COMPLEX_TYPE]. *)
Variable gb_complex_type : option GrB_Type.

(** [X_handle] is the [void **]: [None] is a [NULL] handle.  The result is
    F and what the handle points to afterwards. *)
Definition gb_export_to_mxfull (X_handle : option pointer)
    (nrows ncols : Z) (type : option GrB_Type)
  : outcome (mxFull * pointer) :=
  match X_handle, type with
  | Some (Some X), Some ty =>
      (* allocate an empty dense matrix of the right type, then set content
         and size; tell the caller that X is exported *)
      let export cls cx :=
        Returned (mkFull cls cx nrows ncols (Some X), None) in
      if type_eqb ty GrB_BOOL then export mxLOGICAL_CLASS mxREAL
      else if type_eqb ty GrB_FP32 then export mxSINGLE_CLASS mxREAL
      else if type_eqb ty GrB_FP64 then export mxDOUBLE_CLASS mxREAL
      else if type_eqb ty GrB_INT8 then export mxINT8_CLASS mxREAL
      else if type_eqb ty GrB_INT16 then export mxINT16_CLASS mxREAL
      else if type_eqb ty GrB_INT32 then export mxINT32_CLASS mxREAL
      else if type_eqb ty GrB_INT64 then export mxINT64_CLASS mxREAL
      else if type_eqb ty GrB_UINT8 then export mxUINT8_CLASS mxREAL
      else if type_eqb ty GrB_UINT16 then export mxUINT16_CLASS mxREAL
      else if type_eqb ty GrB_UINT32 then export mxUINT32_CLASS mxREAL
      else if type_eqb ty GrB_UINT64 then export mxUINT64_CLASS mxREAL
      else
        match gb_complex_type with
        | Some ct =>
            if type_eqb ty ct then export mxDOUBLE_CLASS mxCOMPLEX
            else Raised unknown_type
        | None => Raised unknown_type
        end
  | _, _ => Raised internal_error
  end.

(** The type that a class stands for. *)
Definition exported_type (cls : mxClassID) (cx : mxComplexity)
  : option GrB_Type :=
  match cx, cls with
  | mxREAL, mxLOGICAL_CLASS => Some GrB_BOOL
  | mxREAL, mxSINGLE_CLASS => Some GrB_FP32
  | mxREAL, mxDOUBLE_CLASS => Some GrB_FP64
  | mxREAL, mxINT8_CLASS => Some GrB_INT8
  | mxREAL, mxINT16_CLASS => Some GrB_INT16
  | mxREAL, mxINT32_CLASS => Some GrB_INT32
  | mxREAL, mxINT64_CLASS => Some GrB_INT64
  | mxREAL, mxUINT8_CLASS => Some GrB_UINT8
  | mxREAL, mxUINT16_CLASS => Some GrB_UINT16
  | mxREAL, mxUINT32_CLASS => Some GrB_UINT32
  | mxREAL, mxUINT64_CLASS => Some GrB_UINT64
  | mxCOMPLEX, mxDOUBLE_CLASS => gb_complex_type
  | mxCOMPLEX, _ => None
  end.

End Full.

(** ** gb_export_to_mxsparse *)

(** A matrix of the library as the interface sees it: its type, format,
    dimensions and number of entries, whether any of its arrays is
    shallow, and its three arrays. *)
Record GrB_Matrix : Type := mkMatrix
  { type : GrB_Type ; by_col : bool ; shallow : bool ;
    nrows : Z ; ncols : Z ; nvals : Z ; nzmax : Z ;
    p : pointer ; i : pointer ; x : pointer }.

(** A MATLAB sparse matrix. *)
Record mxSparse : Type := mkMxSparse
  { sparse_class : mxClassID ; sparse_complexity : mxComplexity ;
    sparse_M : Z ; sparse_N : Z ; sparse_nzmax : Z ;
    Jc : pointer ; Ir : pointer ; sparse_data : pointer }.

Section Sparse.

Variable gb_complex_type : option GrB_Type.

Definition is_complex (ty : GrB_Type) : bool :=
  match gb_complex_type with
  | Some ct => type_eqb ty ct
  | None => false
  end.

(** [GxB_Matrix_type], [GxB_get], [GrB_Matrix_nvals], [GrB_Matrix_nrows]
    and [GrB_Matrix_ncols] read the fields of a matrix, and [GrB_free]
    clears the handle; they do not fail on a matrix.  The other callees,
    all absent: [GrB_Matrix_dup] makes a deep copy, or fails;
    [gb_typecast] makes a deep copy of the type and format asked for, or
    raises an error; [mxCreateSparse] and [mxCreateSparseLogicalMatrix]
    allocate the three arrays of the new matrix. *)
Variable GrB_Matrix_dup : GrB_Matrix -> GrB_Info * GrB_Matrix.
Variable gb_typecast : GrB_Type -> bool -> GrB_Matrix -> outcome GrB_Matrix.
Variable mx_arrays : pointer * pointer * pointer.

(** Modelled from the spec: [GxB_Matrix_export_CSC] (this version's
    signature is absent) hands over the type, the dimensions, [nzmax] and
    the three arrays of a matrix held by column. *)
Definition export_CSC (T : GrB_Matrix)
  : GrB_Type * Z * Z * Z * (pointer * pointer * pointer) :=
  (type T, nrows T, ncols T, nzmax T, (p T, i T, x T)).

Definition create (ty : GrB_Type) (m n nz : Z)
    (arrays : pointer * pointer * pointer) : mxSparse :=
  if type_eqb ty GrB_BOOL
  then mkMxSparse mxLOGICAL_CLASS mxREAL m n nz
                  (fst (fst arrays)) (snd (fst arrays)) (snd arrays)
  else if is_complex ty
  then mkMxSparse mxDOUBLE_CLASS mxCOMPLEX m n nz
                  (fst (fst arrays)) (snd (fst arrays)) (snd arrays)
  else mkMxSparse mxDOUBLE_CLASS mxREAL m n nz
                  (fst (fst arrays)) (snd (fst arrays)) (snd arrays).

(** Lines 80-197: the sparse matrix made of T, which must be deep.  [ty]
    is the variable [type] as it stands when T has been made.  The result
    is S, what the handle of the caller points to afterwards, and the
    arrays released by [gb_mxfree]. *)
Definition sparse_of (ty : GrB_Type) (T : GrB_Matrix)
  : outcome (mxSparse * option GrB_Matrix * list pointer) :=
  (* ensure T is deep *)
  if shallow T then Raised internal_error
  else if nvals T =? 0 then
    (* allocate an empty sparse matrix of the right type and size *)
    Returned (create ty (nrows T) (ncols T) 1 mx_arrays, None, [])
  else
    (* export the content of T *)
    let '(ty, m, n, nz, arrays) := export_CSC T in
    if nz =? 0 then Raised internal_error
    else
      match arrays with
      | (Some Tp, Some Ti, Some Tx) =>
          Returned
            (create ty m n nz (Some Tp, Some Ti, Some Tx), None,
             [fst (fst mx_arrays); snd (fst mx_arrays); snd mx_arrays])
      | _ => Raised internal_error
      end.

(** [A_handle] is [None] for a [NULL] handle and [Some None] for a handle
    on a [NULL] matrix. *)
Definition gb_export_to_mxsparse (A_handle : option (option GrB_Matrix))
  : outcome (mxSparse * option GrB_Matrix * list pointer) :=
  match A_handle with
  | Some (Some A) =>
      let ty := type A in
      (* typecast to a native MATLAB sparse type and free A *)
      let T :=
        if by_col A && (type_eqb ty GrB_BOOL || type_eqb ty GrB_FP64
                        || is_complex ty)
        then
          if shallow A then
            (* A is shallow so make a deep copy *)
            match GrB_Matrix_dup A with
            | (GrB_SUCCESS, T) => Returned T
            | (e, _) => Raised (library_error e)
            end
          else
            (* A is already deep; just transplant it into T *)
            Returned A
        else
          (* typecast A to double, and format by column *)
          gb_typecast GrB_FP64 true A in
      match T with
      | Raised m => Raised m
      | Returned T => sparse_of ty T
      end
  | _ => Raised internal_error
  end.

End Sparse.

(** Modelled from the spec: the two callees on a matrix that they can
    handle.  The copy is deep; its arrays are at the addresses 50, 51,
    52. *)
Definition model_dup (A : GrB_Matrix) : GrB_Info * GrB_Matrix :=
  (GrB_SUCCESS,
   mkMatrix (type A) (by_col A) false (nrows A) (ncols A) (nvals A)
            (nzmax A) (Some 50) (Some 51) (Some 52)).

Definition model_typecast (ty : GrB_Type) (csc : bool) (A : GrB_Matrix)
  : outcome GrB_Matrix :=
  Returned
    (mkMatrix ty csc false
              (nrows A) (ncols A) (nvals A) (nzmax A)
              (Some 50) (Some 51) (Some 52)).

(** A 2-by-2 boolean matrix held by row, with one entry and with none. *)
Definition bool_by_row (n : Z) : GrB_Matrix :=
  mkMatrix GrB_BOOL false false 2 2 n 1 (Some 10) (Some 11) (Some 12).

End Matlab.

(* ===================================================================== *)
(** * Properties                                                          *)
(* ===================================================================== *)

Lemma opcode_eqb_eq a b : opcode_eqb a b = true <-> a = b.
Proof. unfold opcode_eqb; destruct (GB_Opcode_eq_dec a b); split; congruence. Qed.

Lemma code_eqb_eq a b : code_eqb a b = true <-> a = b.
Proof. unfold code_eqb; destruct (GB_Type_code_eq_dec a b); split; congruence. Qed.

(* ===================================================================== *)
(** * GB_AxB_semiring_builtin: boolean renaming and flipxy                *)
(* ===================================================================== *)

Module SemiringBuiltinFacts.
Import SemiringBuiltin.

(** The switch of the source and the pair list of the specification describe
    the same rewrite. *)
Lemma flipxy_switch_spec (m : GB_Opcode) : flipxy_switch m = spec_flipxy m.
Proof. destruct m; reflexivity. Qed.

Lemma spec_flipxy_involutive (m : GB_Opcode) : spec_flipxy (spec_flipxy m) = m.
Proof. destruct m; reflexivity. Qed.

(** An opcode is moved by the rewrite exactly when it occurs in one of the
    seven pairs. *)
Lemma spec_flipxy_moves (m : GB_Opcode) :
  spec_flipxy m <> m <->
  In m (map fst flip_pairs ++ map snd flip_pairs).
Proof.
  split.
  - destruct m; cbn; intros H; try congruence; tauto.
  - intros H; cbn in H.
    repeat (destruct H as [H | H]; [subst m; cbv; discriminate | ]).
    contradiction.
Qed.

(** Rewriting the opcode does what exchanging the inputs would do: the
    operator named by the rewritten opcode, applied to (x, y), is the
    original one applied to (y, x).  For the opcodes left alone this says
    that they are commutative. *)
Lemma flipxy_switch_exchanges_inputs (m : GB_Opcode) (f : Z -> Z -> Z) :
  opcode_function m = Some f ->
  exists g, opcode_function (flipxy_switch m) = Some g
            /\ forall x y, g x y = f y x.
Proof.
  destruct m; cbn; intros H; inversion H; subst f; clear H;
    eexists; (split; [reflexivity | ]); intros x y; cbn;
    try reflexivity; try lia.
  all: unfold Z_of_bool.
  all: try (rewrite (Z.eqb_sym x y); reflexivity).
  all: try (rewrite Z.gtb_ltb; reflexivity).
  all: try (rewrite Z.geb_leb; reflexivity).
  all: try (destruct (x =? 0), (y =? 0); reflexivity).
Qed.

(** What an accepting run leaves in the four outputs. *)
Lemma builtin_accepts_outputs
    opcode_num code_num A A_is_pattern B B_is_pattern semiring flipxy out out' :
  GB_AxB_semiring_builtin opcode_num code_num A A_is_pattern B B_is_pattern
    semiring flipxy out = (true, out') ->
  out' =
    mkOutputs
      ((if flipxy then flipxy_switch else fun m => m) (renamed_mult semiring))
      (if code_eqb (code (ztype (multiply semiring))) GB_BOOL_code
       then GB_boolean_rename (opcode (op (add semiring)))
       else opcode (op (add semiring)))
      (code (xtype (multiply semiring)))
      (code (ztype (multiply semiring))).
Proof.
  unfold GB_AxB_semiring_builtin, renamed_mult.
  repeat match goal with
         | |- context [if ?c then (false, _) else _] =>
             destruct c; [discriminate | ]
         end.
  unfold set_add, set_mult, set_xycode, set_zcode; simpl.
  destruct (code_eqb (code (xtype (multiply semiring))) GB_BOOL_code); simpl;
    destruct (code_eqb (code (ztype (multiply semiring))) GB_BOOL_code); simpl;
    destruct flipxy; simpl; intros H; inversion H; reflexivity.
Qed.

(** C3.  For every semiring that [GB_AxB_semiring_builtin] accepts: when the
    multiplier's input type is boolean, the multiply opcode handed back is the
    boolean renaming of the semiring's multiply opcode, on which the flipxy
    rewrite (if requested) acts afterwards; when the monoid's output type is
    boolean, the add opcode handed back is the boolean renaming of the
    monoid's opcode.  The renaming therefore precedes both the flipxy rewrite
    and any use of the opcodes by the caller's kernel lookup.  The hypothesis
    on the two [ztype]s is the assertion made by the source for every
    semiring. *)
Theorem boolean_rename_precedes_flipxy
    opcode_num code_num A A_is_pattern B B_is_pattern semiring flipxy out out' :
  ztype (op (add semiring)) = ztype (multiply semiring) ->
  GB_AxB_semiring_builtin opcode_num code_num A A_is_pattern B B_is_pattern
    semiring flipxy out = (true, out') ->
  (code (xtype (multiply semiring)) = GB_BOOL_code ->
     mult_opcode out' =
       (if flipxy then flipxy_switch else fun m => m)
         (GB_boolean_rename (opcode (multiply semiring))))
  /\ (code (ztype (op (add semiring))) = GB_BOOL_code ->
     add_opcode out' = GB_boolean_rename (opcode (op (add semiring)))).
Proof.
  intros Hz Hrun.
  apply builtin_accepts_outputs in Hrun. subst out'.
  cbn [mult_opcode add_opcode]. unfold renamed_mult. split.
  - intros Hx. rewrite Hx. reflexivity.
  - intros Hb. rewrite <- Hz, Hb. reflexivity.
Qed.

(** The semiring (PLUS, DIV) over bool is accepted; DIV is renamed FIRST and
    PLUS is renamed LOR. *)
Lemma boolean_rename_precedes_flipxy_witness :
  let r := GB_AxB_semiring_builtin opcode_index code_index
             (mkMatrix GrB_BOOL) false (mkMatrix GrB_BOOL) false
             plus_div_bool false out0 in
  fst r = true
  /\ mult_opcode (snd r) = GB_FIRST_opcode
  /\ add_opcode (snd r) = GB_LOR_opcode.
Proof.
  cbv zeta.
  destruct (boolean_rename_precedes_flipxy opcode_index code_index
              (mkMatrix GrB_BOOL) false (mkMatrix GrB_BOOL) false
              plus_div_bool false out0
              (snd (GB_AxB_semiring_builtin opcode_index code_index
                      (mkMatrix GrB_BOOL) false (mkMatrix GrB_BOOL) false
                      plus_div_bool false out0))
              eq_refl eq_refl) as [Hm Ha].
  split; [reflexivity | split].
  - rewrite (Hm eq_refl). reflexivity.
  - rewrite (Ha eq_refl). reflexivity.
Defined.

(** C4.  For every semiring that [GB_AxB_semiring_builtin] accepts with
    flipxy requested, the multiply opcode handed back is the opcode at hand
    (after boolean renaming) with the members of the pairs FIRST/SECOND,
    LT/GT, LE/GE, ISLT/ISGT, ISLE/ISGE, DIV/RDIV and MINUS/RMINUS exchanged,
    and is that opcode itself when it belongs to none of the pairs: the
    inputs are not exchanged, the opcode is. *)
Theorem flipxy_rewrites_opcode
    opcode_num code_num A A_is_pattern B B_is_pattern semiring out out' :
  GB_AxB_semiring_builtin opcode_num code_num A A_is_pattern B B_is_pattern
    semiring true out = (true, out') ->
  mult_opcode out' = spec_flipxy (renamed_mult semiring)
  /\ (~ In (renamed_mult semiring)
          (map fst flip_pairs ++ map snd flip_pairs) ->
      mult_opcode out' = renamed_mult semiring).
Proof.
  intros Hrun.
  apply builtin_accepts_outputs in Hrun. subst out'.
  cbn [mult_opcode]. rewrite flipxy_switch_spec. split; [reflexivity | ].
  intros Hnot.
  destruct (GB_Opcode_eq_dec (spec_flipxy (renamed_mult semiring))
                             (renamed_mult semiring)) as [E | N]; [exact E | ].
  exfalso. apply Hnot. apply spec_flipxy_moves. exact N.
Qed.

(** (EQ, GT) over int8 with flipxy: GT comes back as LT. *)
Lemma flipxy_rewrites_opcode_witness :
  let r := GB_AxB_semiring_builtin opcode_index code_index
             (mkMatrix GrB_INT8) false (mkMatrix GrB_INT8) false
             eq_gt_int8 true out0 in
  fst r = true /\ mult_opcode (snd r) = GB_LT_opcode.
Proof.
  cbv zeta. split; [reflexivity | ].
  destruct (flipxy_rewrites_opcode opcode_index code_index
              (mkMatrix GrB_INT8) false (mkMatrix GrB_INT8) false
              eq_gt_int8 out0
              (snd (GB_AxB_semiring_builtin opcode_index code_index
                      (mkMatrix GrB_INT8) false (mkMatrix GrB_INT8) false
                      eq_gt_int8 true out0))
              eq_refl) as [Hm _].
  rewrite Hm. reflexivity.
Defined.

End SemiringBuiltinFacts.

(* ===================================================================== *)
(** * GB_AxB_dot: terminal exit and pattern-only operands                 *)
(* ===================================================================== *)

Module DotFacts.
Import Dot.

Section Loop.

Variable val : Type.
Variable val_eqb : val -> val -> bool.
Variable S : semiring val.
Variable flipxy : bool.
Variables cast_A cast_B : val -> val.
Variable Ai : array Z.
Variable Bi : array Z.
Variables pA_end pB_end : Z.

Local Abbreviation fadd := (function val (add_op val (sr_add val S))).
Local Abbreviation fmult := (function val (sr_multiply val S)).
Local Abbreviation loop Ax Bx :=
  (dot_loop val val_eqb S flipxy cast_A cast_B Ai Ax Bi Bx pA_end pB_end).
Local Abbreviation multadd Ax Bx :=
  (dot_multadd val S flipxy cast_A cast_B Ax Bx).

(** The loop leaves through its condition: more fuel changes nothing. *)
Lemma dot_loop_fuel Ax Bx term : forall n m pA pB w,
  (dot_fuel pA_end pB_end pA pB <= n)%nat ->
  (dot_fuel pA_end pB_end pA pB <= m)%nat ->
  loop Ax Bx term n pA pB w = loop Ax Bx term m pA pB w.
Proof.
  unfold dot_fuel.
  induction n as [| n IH]; intros m pA pB w Hn Hm.
  - destruct m as [| m]; [reflexivity | ]. cbn.
    destruct (pA <? pA_end) eqn:EA; [ | reflexivity].
    destruct (pB <? pB_end) eqn:EB; [ | reflexivity].
    apply Z.ltb_lt in EA, EB. lia.
  - destruct m as [| m]; cbn.
    + destruct (pA <? pA_end) eqn:EA; [ | reflexivity].
      destruct (pB <? pB_end) eqn:EB; [ | reflexivity].
      apply Z.ltb_lt in EA, EB. lia.
    + destruct (pA <? pA_end) eqn:EA; [ | reflexivity].
      destruct (pB <? pB_end) eqn:EB; [ | reflexivity].
      apply Z.ltb_lt in EA, EB. cbn.
      destruct (Ai pA <? Bi pB); [apply IH; lia | ].
      destruct (Bi pB <? Ai pA); [apply IH; lia | ].
      destruct (GB_DOT_TERMINAL val val_eqb term _); [reflexivity | ].
      apply IH; lia.
Qed.

Lemma multadd_exists Ax Bx pA pB w :
  cij_exists val (multadd Ax Bx pA pB w) = true.
Proof.
  unfold dot_multadd, GB_GETA, GB_GETB.
  destruct (A_is_pattern val _ _), (B_is_pattern val _ _); cbn;
    destruct (cij_exists val w) eqn:E; cbn; auto.
Qed.

Lemma multadd_reads Ax Bx pA pB w :
  exists more, reads val (multadd Ax Bx pA pB w) = reads val w ++ more.
Proof.
  unfold dot_multadd, GB_GETA, GB_GETB.
  destruct (A_is_pattern val _ _), (B_is_pattern val _ _); cbn;
    destruct (cij_exists val w); cbn;
    try rewrite <- app_assoc; eauto.
  all: exists []; symmetry; apply app_nil_r.
Qed.

Lemma multadd_absorbed Ax Bx T pA pB w :
  (forall v, fadd T v = T) ->
  cij val w = T -> cij_exists val w = true ->
  cij val (multadd Ax Bx pA pB w) = T.
Proof.
  intros Habs Hc He.
  unfold dot_multadd, GB_GETA, GB_GETB.
  destruct (A_is_pattern val _ _), (B_is_pattern val _ _); cbn;
    rewrite He; cbn; rewrite Hc; apply Habs.
Qed.

(** Once the accumulator holds an absorbing value, the full reduction keeps
    it to the end. *)
Lemma full_loop_absorbed Ax Bx T :
  (forall v, fadd T v = T) ->
  forall fuel pA pB w,
    cij val w = T -> cij_exists val w = true ->
    let r := loop Ax Bx None fuel pA pB w in
    cij val r = T /\ cij_exists val r = true
    /\ exists more, reads val r = reads val w ++ more.
Proof.
  intros Habs.
  induction fuel as [| fuel IH]; intros pA pB w Hc He; cbn.
  - repeat split; auto. exists []. symmetry; apply app_nil_r.
  - destruct ((pA <? pA_end) && (pB <? pB_end)).
    2:{ repeat split; auto. exists []. symmetry; apply app_nil_r. }
    destruct (Ai pA <? Bi pB); [apply IH; assumption | ].
    destruct (Bi pB <? Ai pA); [apply IH; assumption | ].
    destruct (IH (pA + 1) (pB + 1) (multadd Ax Bx pA pB w))
      as (H1 & H2 & more & H3).
    + apply multadd_absorbed; assumption.
    + apply multadd_exists.
    + repeat split; auto.
      destruct (multadd_reads Ax Bx pA pB w) as (m0 & Hm0).
      exists (m0 ++ more). rewrite H3, Hm0, app_assoc. reflexivity.
Qed.

(** The early exit and the full reduction agree on the cell. *)
Lemma short_circuit_loop Ax Bx T :
  (forall a b, val_eqb a b = true -> a = b) ->
  (forall v, fadd T v = T) ->
  forall fuel pA pB w,
    let r := loop Ax Bx (Some T) fuel pA pB w in
    let r' := loop Ax Bx None fuel pA pB w in
    cij val r = cij val r' /\ cij_exists val r = cij_exists val r'
    /\ exists more, reads val r' = reads val r ++ more.
Proof.
  intros Heq Habs.
  induction fuel as [| fuel IH]; intros pA pB w; cbn.
  - repeat split. exists []. symmetry; apply app_nil_r.
  - destruct ((pA <? pA_end) && (pB <? pB_end)).
    2:{ repeat split. exists []. symmetry; apply app_nil_r. }
    destruct (Ai pA <? Bi pB); [apply IH | ].
    destruct (Bi pB <? Ai pA); [apply IH | ].
    destruct (val_eqb (cij val (multadd Ax Bx pA pB w)) T) eqn:E;
      [ | apply IH].
    apply Heq in E.
    destruct (full_loop_absorbed Ax Bx T Habs fuel (pA + 1) (pB + 1)
                (multadd Ax Bx pA pB w) E (multadd_exists _ _ _ _ _))
      as (H1 & H2 & H3).
    rewrite H1, H2, E, multadd_exists. repeat split. exact H3.
Qed.

End Loop.

(** C5.  For every semiring whose additive monoid has a terminal value [T]
    with [fadd T v = T] for all [v], the dot product that leaves its loop as
    soon as the accumulator equals [T] stores the same cell (same presence,
    same value) as the reduction over all common indices [k]; the loop is
    left at the very multiply-add that produces [T], so the fetches of the
    early-exit run are an initial segment of those of the full run. *)
Theorem terminal_short_circuit
    (val : Type) (val_eqb : val -> val -> bool) (S : semiring val)
    (flipxy : bool) (cast_A cast_B : val -> val)
    (Ai : array Z) (Ax : array val) (Bi : array Z) (Bx : array val)
    (pA_end pB_end : Z) (T scratch : val) (pA pB : Z) :
  (forall a b, val_eqb a b = true <-> a = b) ->
  terminal val (sr_add val S) = Some T ->
  (forall v, function val (add_op val (sr_add val S)) T v = T) ->
  let short := dot_cij val val_eqb S flipxy cast_A cast_B
                 Ai Ax Bi Bx pA_end pB_end scratch pA pB in
  let full := dot_cij_full val val_eqb S flipxy cast_A cast_B
                 Ai Ax Bi Bx pA_end pB_end scratch pA pB in
  cij_exists val short = cij_exists val full
  /\ cij val short = cij val full
  /\ (exists more, reads val full = reads val short ++ more)
  /\ (forall fuel p q w,
        p < pA_end -> q < pB_end -> Ai p = Bi q ->
        cij val (dot_multadd val S flipxy cast_A cast_B Ax Bx p q w) = T ->
        dot_loop val val_eqb S flipxy cast_A cast_B Ai Ax Bi Bx
          pA_end pB_end (Some T) (Datatypes.S fuel) p q w
        = dot_multadd val S flipxy cast_A cast_B Ax Bx p q w).
Proof.
  intros Heq Hterm Habs short full.
  assert (Heq' : forall a b, val_eqb a b = true -> a = b)
    by (intros a b; apply Heq).
  subst short full. unfold dot_cij, dot_cij_full, dot_cij_with.
  rewrite Hterm.
  destruct (short_circuit_loop val val_eqb S flipxy cast_A cast_B Ai Bi
              pA_end pB_end Ax Bx T Heq' Habs
              (dot_fuel pA_end pB_end pA pB) pA pB
              (mkWork val scratch scratch scratch scratch false []))
    as (H1 & H2 & H3).
  repeat split; auto.
  intros fuel p q w Hp Hq Hk Hc. cbn.
  apply Z.ltb_lt in Hp, Hq. rewrite Hp, Hq. cbn.
  rewrite Hk, Z.ltb_irrefl.
  replace (val_eqb _ T) with true by (symmetry; apply Heq; exact Hc).
  reflexivity.
Qed.

(** MAX_FIRST over int8: the second common index yields 127, the loop is
    left there and the cell is 127 either way. *)
Lemma terminal_short_circuit_witness :
  let short := dot_cij Z Z.eqb max_first_int8 false (fun v => v) (fun v => v)
                 sample_Ai sample_Ax sample_Bi sample_Bx 3 4 0 0 0 in
  let full := dot_cij_full Z Z.eqb max_first_int8 false (fun v => v)
                 (fun v => v) sample_Ai sample_Ax sample_Bi sample_Bx
                 3 4 0 0 0 in
  cij Z short = 127 /\ cij Z full = 127
  /\ length (reads Z short) = 2%nat /\ length (reads Z full) = 3%nat.
Proof.
  cbv zeta.
  assert (Habs : forall v, int8_max 127 v = 127)
    by (intros v; unfold int8_max; lia).
  destruct (terminal_short_circuit Z Z.eqb max_first_int8 false
              (fun v => v) (fun v => v)
              sample_Ai sample_Ax sample_Bi sample_Bx 3 4 127 0 0 0
              Z.eqb_eq eq_refl Habs) as (_ & Hc & _).
  split; [reflexivity | ].
  split; [rewrite <- Hc; reflexivity | ].
  split; reflexivity.
Defined.

Section Pattern.

Variable val : Type.
Variable val_eqb : val -> val -> bool.
Variable S : semiring val.
Variable flipxy : bool.
Variables cast_A cast_B : val -> val.
Variable Ai : array Z.
Variable Bi : array Z.
Variables pA_end pB_end : Z.

Local Abbreviation mult := (sr_multiply val S).
Local Abbreviation loop Ax Bx :=
  (dot_loop val val_eqb S flipxy cast_A cast_B Ai Ax Bi Bx pA_end pB_end).
Local Abbreviation multadd Ax Bx :=
  (dot_multadd val S flipxy cast_A cast_B Ax Bx).
Local Abbreviation run Ax Bx :=
  (dot_cij val val_eqb S flipxy cast_A cast_B Ai Ax Bi Bx pA_end pB_end).

Lemma no_reads_app o (w : workspace val) more :
  no_reads_of val o w = true ->
  forallb (fun e => negb (is_read_of o e)) more = true ->
  forallb (fun e => negb (is_read_of o e)) (reads val w ++ more) = true.
Proof.
  unfold no_reads_of. intros H1 H2. rewrite forallb_app, H1, H2. reflexivity.
Qed.

(** When A is used by pattern only, [GB_GETA] is skipped: a multiply-add
    neither depends on [Ax] nor fetches from it. *)
Lemma multadd_A_pattern Ax Ax' Bx pA pB w :
  A_is_pattern val mult flipxy = true ->
  multadd Ax Bx pA pB w = multadd Ax' Bx pA pB w
  /\ (no_reads_of val OpA w = true ->
      no_reads_of val OpA (multadd Ax Bx pA pB w) = true).
Proof.
  intros HA. unfold dot_multadd, GB_GETA, GB_GETB. rewrite HA.
  split; [reflexivity | ]. intros Hw.
  unfold no_reads_of in *.
  unfold GB_DOT_MULT, GB_DOT_ADD, GB_DOT_COPY.
  destruct (B_is_pattern val _ _); cbn [reads cij_exists];
    destruct (cij_exists val w); cbn [reads];
    first [exact Hw | rewrite forallb_app, Hw; reflexivity].
Qed.

Lemma multadd_B_pattern Ax Bx Bx' pA pB w :
  B_is_pattern val mult flipxy = true ->
  multadd Ax Bx pA pB w = multadd Ax Bx' pA pB w
  /\ (no_reads_of val OpB w = true ->
      no_reads_of val OpB (multadd Ax Bx pA pB w) = true).
Proof.
  intros HB. unfold dot_multadd, GB_GETA, GB_GETB. rewrite HB.
  split; [reflexivity | ]. intros Hw.
  unfold no_reads_of in *.
  unfold GB_DOT_MULT, GB_DOT_ADD, GB_DOT_COPY.
  destruct (A_is_pattern val _ _); cbn [reads cij_exists];
    destruct (cij_exists val w); cbn [reads];
    first [exact Hw | rewrite forallb_app, Hw; reflexivity].
Qed.

Lemma loop_A_pattern Ax Ax' Bx term :
  A_is_pattern val mult flipxy = true ->
  forall fuel pA pB w,
    loop Ax Bx term fuel pA pB w = loop Ax' Bx term fuel pA pB w
    /\ (no_reads_of val OpA w = true ->
        no_reads_of val OpA (loop Ax Bx term fuel pA pB w) = true).
Proof.
  intros HA. induction fuel as [| fuel IH]; intros pA pB w; cbn.
  - split; auto.
  - destruct ((pA <? pA_end) && (pB <? pB_end)); [ | split; auto].
    destruct (Ai pA <? Bi pB); [apply IH | ].
    destruct (Bi pB <? Ai pA); [apply IH | ].
    destruct (multadd_A_pattern Ax Ax' Bx pA pB w HA) as [E N].
    rewrite <- E.
    destruct (GB_DOT_TERMINAL val val_eqb term _); [split; auto | ].
    destruct (IH (pA + 1) (pB + 1) (multadd Ax Bx pA pB w)) as [E' N'].
    split; auto.
Qed.

Lemma loop_B_pattern Ax Bx Bx' term :
  B_is_pattern val mult flipxy = true ->
  forall fuel pA pB w,
    loop Ax Bx term fuel pA pB w = loop Ax Bx' term fuel pA pB w
    /\ (no_reads_of val OpB w = true ->
        no_reads_of val OpB (loop Ax Bx term fuel pA pB w) = true).
Proof.
  intros HB. induction fuel as [| fuel IH]; intros pA pB w; cbn.
  - split; auto.
  - destruct ((pA <? pA_end) && (pB <? pB_end)); [ | split; auto].
    destruct (Ai pA <? Bi pB); [apply IH | ].
    destruct (Bi pB <? Ai pA); [apply IH | ].
    destruct (multadd_B_pattern Ax Bx Bx' pA pB w HB) as [E N].
    rewrite <- E.
    destruct (GB_DOT_TERMINAL val val_eqb term _); [split; auto | ].
    destruct (IH (pA + 1) (pB + 1) (multadd Ax Bx pA pB w)) as [E' N'].
    split; auto.
Qed.

Lemma A_pattern_unused scratch pA pB :
  A_is_pattern val mult flipxy = true ->
  A_unused val val_eqb S flipxy cast_A cast_B Ai Bi pA_end pB_end
    scratch pA pB.
Proof.
  intros HA. split; [exact HA | ]. intros Ax Ax' Bx.
  unfold dot_cij, dot_cij_with.
  destruct (loop_A_pattern Ax Ax' Bx (terminal val (sr_add val S)) HA
              (dot_fuel pA_end pB_end pA pB) pA pB
              (mkWork val scratch scratch scratch scratch false []))
    as [E N].
  split; [exact E | apply N; reflexivity].
Qed.

Lemma B_pattern_unused scratch pA pB :
  B_is_pattern val mult flipxy = true ->
  B_unused val val_eqb S flipxy cast_A cast_B Ai Bi pA_end pB_end
    scratch pA pB.
Proof.
  intros HB. split; [exact HB | ]. intros Ax Bx Bx'.
  unfold dot_cij, dot_cij_with.
  destruct (loop_B_pattern Ax Bx Bx' (terminal val (sr_add val S)) HB
              (dot_fuel pA_end pB_end pA pB) pA pB
              (mkWork val scratch scratch scratch scratch false []))
    as [E N].
  split; [exact E | apply N; reflexivity].
Qed.

(** A multiplier that ignores both arguments (PAIR): the cell does not
    depend on either value buffer, although both are fetched. *)
Lemma loop_constant_mult Ax Ax' Bx Bx' term :
  (forall x y x' y',
     function val mult x y = function val mult x' y') ->
  forall fuel pA pB w w',
    cij val w = cij val w' -> cij_exists val w = cij_exists val w' ->
    cij val (loop Ax Bx term fuel pA pB w)
      = cij val (loop Ax' Bx' term fuel pA pB w')
    /\ cij_exists val (loop Ax Bx term fuel pA pB w)
      = cij_exists val (loop Ax' Bx' term fuel pA pB w').
Proof.
  intros Hconst. induction fuel as [| fuel IH]; intros pA pB w w' Hc He; cbn.
  - split; assumption.
  - destruct ((pA <? pA_end) && (pB <? pB_end)); [ | split; assumption].
    destruct (Ai pA <? Bi pB); [apply IH; assumption | ].
    destruct (Bi pB <? Ai pA); [apply IH; assumption | ].
    assert (Hm : cij val (multadd Ax Bx pA pB w)
                 = cij val (multadd Ax' Bx' pA pB w')
                 /\ cij_exists val (multadd Ax Bx pA pB w)
                 = cij_exists val (multadd Ax' Bx' pA pB w')).
    { unfold dot_multadd, GB_GETA, GB_GETB, GB_DOT_MULT, GB_MULTIPLY.
      destruct (A_is_pattern val _ _), (B_is_pattern val _ _); cbn;
        rewrite <- He; destruct (cij_exists val w); cbn;
        rewrite ?Hc; split; try reflexivity;
        destruct flipxy; try (f_equal; apply Hconst); apply Hconst. }
    destruct Hm as [Hm1 Hm2].
    unfold GB_DOT_TERMINAL. rewrite <- Hm1.
    destruct term as [T | ].
    + destruct (val_eqb _ T); [split; assumption | apply IH; assumption].
    + apply IH; assumption.
Qed.

End Pattern.

(** C6 (amended).  In the dot-product engine, with flipxy off a FIRST
    multiplier makes B pattern-only and a SECOND multiplier makes A
    pattern-only; with flipxy on the roles are exchanged (FIRST: A, SECOND:
    B).  The value buffer of the pattern-only operand is never fetched, and
    two runs that differ only in that buffer yield identical results.  For a
    PAIR multiplier neither flag is set: both buffers are fetched, but as the
    multiplier ignores its arguments the cell is the same whatever the two
    value buffers hold. *)
Theorem pattern_only_noninterference
    (val : Type) (val_eqb : val -> val -> bool) (S : semiring val)
    (flipxy : bool) (cast_A cast_B : val -> val)
    (Ai Bi : array Z) (pA_end pB_end : Z) (scratch : val) (pA pB : Z) :
  let mult := sr_multiply val S in
  let run Ax Bx := dot_cij val val_eqb S flipxy cast_A cast_B
                     Ai Ax Bi Bx pA_end pB_end scratch pA pB in
  (opcode (descr val mult) = GB_FIRST_opcode ->
     if flipxy
     then A_unused val val_eqb S flipxy cast_A cast_B Ai Bi pA_end pB_end
            scratch pA pB
     else B_unused val val_eqb S flipxy cast_A cast_B Ai Bi pA_end pB_end
            scratch pA pB)
  /\ (opcode (descr val mult) = GB_SECOND_opcode ->
     if flipxy
     then B_unused val val_eqb S flipxy cast_A cast_B Ai Bi pA_end pB_end
            scratch pA pB
     else A_unused val val_eqb S flipxy cast_A cast_B Ai Bi pA_end pB_end
            scratch pA pB)
  /\ (opcode (descr val mult) = GB_PAIR_opcode ->
      A_is_pattern val mult flipxy = false
      /\ B_is_pattern val mult flipxy = false
      /\ ((forall x y x' y',
             function val mult x y = function val mult x' y') ->
          forall Ax Ax' Bx Bx',
            cij val (run Ax Bx) = cij val (run Ax' Bx')
            /\ cij_exists val (run Ax Bx) = cij_exists val (run Ax' Bx'))).
Proof.
  cbv zeta. repeat split.
  - intros Hop. destruct flipxy eqn:F.
    + apply A_pattern_unused.
      unfold A_is_pattern, pattern_flags. rewrite Hop. reflexivity.
    + apply B_pattern_unused.
      unfold B_is_pattern, pattern_flags. rewrite Hop. reflexivity.
  - intros Hop. destruct flipxy eqn:F.
    + apply B_pattern_unused.
      unfold B_is_pattern, pattern_flags. rewrite Hop. reflexivity.
    + apply A_pattern_unused.
      unfold A_is_pattern, pattern_flags. rewrite Hop. reflexivity.
  - unfold A_is_pattern, pattern_flags. rewrite H.
    destruct flipxy; reflexivity.
  - unfold B_is_pattern, pattern_flags. rewrite H.
    destruct flipxy; reflexivity.
  - unfold dot_cij, dot_cij_with.
    apply loop_constant_mult; auto.
  - unfold dot_cij, dot_cij_with.
    apply loop_constant_mult; auto.
Qed.

(** PLUS_FIRST without flipxy: B's values are never fetched. *)
Lemma pattern_only_noninterference_witness :
  B_unused Z Z.eqb plus_first false (fun v => v) (fun v => v)
    sample_Ai sample_Bi 3 4 0 0 0.
Proof.
  exact (proj1 (pattern_only_noninterference Z Z.eqb plus_first false
                  (fun v => v) (fun v => v) sample_Ai sample_Bi 3 4 0 0 0)
               eq_refl).
Defined.

(** C6 as stated fails under flipxy: the multiplier is FIRST, the two runs
    differ only in the value buffer of B, and the cells differ (7 and 9),
    because with flipxy the first argument of the multiplier is B(k,j). *)
Lemma first_flipxy_reads_B :
  opcode (descr Z (sr_multiply Z plus_first)) = GB_FIRST_opcode
  /\ B_is_pattern Z (sr_multiply Z plus_first) true = false
  /\ cij Z (dot_cij Z Z.eqb plus_first true (fun v => v) (fun v => v)
            (of_list 0 [0]) (of_list 0 [5])
            (of_list 0 [0]) (of_list 0 [7]) 1 1 0 0 0) = 7
  /\ cij Z (dot_cij Z Z.eqb plus_first true (fun v => v) (fun v => v)
            (of_list 0 [0]) (of_list 0 [5])
            (of_list 0 [0]) (of_list 0 [9]) 1 1 0 0 0) = 9.
Proof. repeat split. Qed.

End DotFacts.

(* ===================================================================== *)
(** * C += A with a FIRST accumulator                                     *)
(* ===================================================================== *)

Module DenseAccumFacts.
Import DenseAccum.

Lemma list_upd_same {T : Type} (l : list T) : forall n v,
  nth_error l n = Some v -> list_upd l n v = l.
Proof.
  induction l as [| a l IH]; intros [| n] v H; cbn in *; try discriminate.
  - congruence.
  - f_equal. apply IH. exact H.
Qed.

(** [scan] finds the offset [target] when the key occurs there and nowhere
    before it in the scanned range. *)
Lemma scan_found (l : list Z) (key target : Z) : forall n q,
  q <= target < q + Z.of_nat n ->
  nth (Z.to_nat target) l (-1) = key ->
  (forall q', q <= q' < target -> nth (Z.to_nat q') l (-1) <> key) ->
  scan l q n key = Some target.
Proof.
  induction n as [| n IH]; intros q Hr Hk Hbefore; [lia | ].
  cbn [scan].
  destruct (Z.eq_dec q target) as [-> | Hne].
  - rewrite Hk, Z.eqb_refl. reflexivity.
  - destruct (nth (Z.to_nat q) l (-1) =? key) eqn:E.
    + apply Z.eqb_eq in E. exfalso. apply (Hbefore q); [lia | exact E].
    + apply IH; [lia | exact Hk | ]. intros q' Hq'. apply Hbefore. lia.
Qed.

Section Facts.

Variable val : Type.

Lemma ensure_full_fields (C : GrB_Matrix val) :
  let C' := GB_ENSURE_FULL val C in
  x val C' = x val C /\ type val C' = type val C
  /\ vlen val C' = vlen val C /\ vdim val C' = vdim val C
  /\ iso val C' = iso val C
  /\ sparsity_control val C' = sparsity_control val C.
Proof.
  unfold GB_ENSURE_FULL, GB_convert_any_to_full.
  destruct (Z.land _ _ =? 0); cbn; [tauto | ].
  destruct (GB_IS_FULL val C); cbn; tauto.
Qed.

Lemma GBX_ensure_full (C : GrB_Matrix val) pos :
  GBX val (GB_ENSURE_FULL val C) pos = GBX val C pos.
Proof.
  unfold GBX.
  destruct (ensure_full_fields C) as (Hx & _ & _ & _ & Hi & _).
  rewrite Hx, Hi. reflexivity.
Qed.

(** Conversion to full keeps every entry of a matrix whose entries are all
    present. *)
Lemma entry_convert_full (C : GrB_Matrix val) (ii jj : Z) :
  as_if_full val C ->
  entry val (GB_convert_any_to_full val C) ii jj = entry val C ii jj.
Proof.
  intros Hfull. unfold GB_convert_any_to_full.
  destruct (GB_IS_FULL val C) eqn:F; [reflexivity | ].
  unfold entry, GBX; cbn [vlen vdim b p h i x iso].
  destruct ((0 <=? ii) && (ii <? vlen val C) && (0 <=? jj)
            && (jj <? vdim val C)) eqn:R; cbn [negb]; [ | reflexivity].
  apply andb_prop in R. destruct R as [R Hj2].
  apply andb_prop in R. destruct R as [R Hj1].
  apply andb_prop in R. destruct R as [Hi1 Hi2].
  apply Z.leb_le in Hi1, Hj1. apply Z.ltb_lt in Hi2, Hj2.
  assert (Hpos : 0 <= jj * vlen val C + ii < vlen val C * vdim val C) by nia.
  unfold as_if_full in Hfull.
  destruct (b val C) as [Cb | ].
  - rewrite (Hfull _ Hpos). reflexivity.
  - destruct (p val C) as [Cp | ]; [ | reflexivity].
    destruct Hfull as (Hp & (Ci & HCi & Hidx) & Hh).
    rewrite HCi.
    assert (Hk : match h val C with
                 | Some Ch => scan Ch 0 (Z.to_nat (nvec val C)) jj
                 | None => Some jj
                 end = Some jj).
    { destruct (h val C) as [Ch | ]; [ | reflexivity].
      destruct Hh as [Hn Hh]. apply scan_found.
      - rewrite Hn. lia.
      - apply Hh. lia.
      - intros q' Hq'. rewrite Hh; lia. }
    rewrite Hk.
    rewrite (Hp jj) by lia. rewrite (Hp (jj + 1)) by lia.
    rewrite (scan_found Ci ii (jj * vlen val C + ii)).
    + reflexivity.
    + lia.
    + rewrite Hidx by lia.
      rewrite Z.add_comm, Z.mod_add by lia. apply Z.mod_small. lia.
    + intros q' Hq'. rewrite Hidx by nia.
      replace q' with ((q' - jj * vlen val C) + jj * vlen val C) by lia.
      rewrite Z.mod_add by lia. rewrite Z.mod_small by lia. lia.
Qed.

Lemma entry_ensure_full (C : GrB_Matrix val) (ii jj : Z) :
  as_if_full val C ->
  entry val (GB_ENSURE_FULL val C) ii jj = entry val C ii jj.
Proof.
  intros Hfull. unfold GB_ENSURE_FULL.
  destruct (Z.land _ _ =? 0); [reflexivity | ].
  apply entry_convert_full. exact Hfull.
Qed.

(** With an accumulator that returns its first argument, the kernel that
    the shortcut skips would have rewritten every value with itself. *)
Lemma accum_kernel_first (fadd : val -> val -> val) cast_A
    (C A : GrB_Matrix val) :
  (forall c a, fadd c a = c) ->
  accum_kernel val fadd cast_A C A = C.
Proof.
  intros Hfirst. unfold accum_kernel.
  assert (Hfold : forall l Cx,
            fold_left (accumulate_entry val fadd cast_A A (vlen val C)) l Cx
            = Cx).
  { induction l as [| ij l IH]; intros Cx; cbn [fold_left]; [reflexivity | ].
    rewrite <- (IH Cx) at 2. f_equal.
    unfold accumulate_entry.
    destruct (entry val A (fst ij) (snd ij)); [ | reflexivity].
    destruct (nth_error Cx _) eqn:E; [ | reflexivity].
    rewrite Hfirst. apply list_upd_same. exact E. }
  rewrite Hfold. destruct C; reflexivity.
Qed.

End Facts.

(** C9 (amended).  With a FIRST accumulator [GB_dense_accum_sparse] returns
    success at once and hands C back exactly as it was.  [GB_subassign_23]
    returns success with a FIRST accumulator, and also whenever C is iso,
    after [GB_ENSURE_FULL]: the storage format of C becomes full when its
    sparsity control allows that, while its type, dimensions, iso flag,
    sparsity control and value array are untouched and, C being as-if-full,
    every entry C(i,j) keeps its value.  Skipping the kernel loses nothing,
    since an operator with first(c,a) = c rewrites each value with itself. *)
Theorem first_accum_leaves_C
    (val : Type) (C A : GrB_Matrix val) (accum : binary_function val)
    (GB_cast_factory : GB_Type_code -> GB_Type_code -> val -> val)
    (cast_A : val -> val) (jit_enabled : bool)
    (jit : GrB_Matrix val -> GrB_Matrix val -> GrB_Info * GrB_Matrix val) :
  (opcode (descr val accum) = GB_FIRST_opcode ->
     forall GBCOMPACT GB_binop_builtin GB_binop_factory slice_ok,
       GB_dense_accum_sparse val C A accum GBCOMPACT GB_binop_builtin
         GB_binop_factory GB_cast_factory slice_ok = (GrB_SUCCESS, C))
  /\ (opcode (descr val accum) = GB_FIRST_opcode \/ iso val C = true ->
      let C' := GB_ENSURE_FULL val C in
      GB_subassign_23 val C A accum GB_cast_factory jit_enabled jit
      = (GrB_SUCCESS, C')
      /\ x val C' = x val C /\ type val C' = type val C
      /\ vlen val C' = vlen val C /\ vdim val C' = vdim val C
      /\ iso val C' = iso val C
      /\ sparsity_control val C' = sparsity_control val C
      /\ (as_if_full val C ->
          forall ii jj, entry val C' ii jj = entry val C ii jj))
  /\ ((forall c a, function val accum c a = c) ->
      accum_kernel val (function val accum) cast_A C A = C).
Proof.
  split; [ | split].
  - intros Hop GBCOMPACT GB_binop_builtin GB_binop_factory slice_ok.
    unfold GB_dense_accum_sparse. rewrite Hop. reflexivity.
  - intros Hcond C'.
    destruct (ensure_full_fields val C) as (Hx & Ht & Hl & Hd & Hi & Hs).
    fold C' in Hx, Ht, Hl, Hd, Hi, Hs.
    repeat split; auto.
    + unfold GB_subassign_23. fold C'.
      destruct Hcond as [Hop | Hiso].
      * rewrite Hop. reflexivity.
      * rewrite Hi, Hiso, orb_true_r. reflexivity.
    + intros Hfull ii jj. apply entry_ensure_full. exact Hfull.
  - apply accum_kernel_first.
Qed.

(** The 2-by-1 sample: both functions succeed, and the entries survive. *)
Lemma first_accum_leaves_C_witness :
  GB_dense_accum_sparse Z dense_as_sparse one_entry accum_first
    false no_builtin no_case copy_cast true = (GrB_SUCCESS, dense_as_sparse)
  /\ fst (GB_subassign_23 Z dense_as_sparse one_entry accum_first
            copy_cast false no_jit) = GrB_SUCCESS
  /\ entry Z (snd (GB_subassign_23 Z dense_as_sparse one_entry accum_first
                     copy_cast false no_jit)) 1 0 = Some 20.
Proof.
  destruct (first_accum_leaves_C Z dense_as_sparse one_entry accum_first
              copy_cast (fun v => v) false no_jit) as (H1 & H2 & _).
  split; [exact (H1 eq_refl false no_builtin no_case true) | ].
  destruct (H2 (or_introl eq_refl)) as (Hrun & _).
  rewrite Hrun. split; reflexivity.
Defined.

(** C9 as stated fails for [GB_subassign_23]: on a C held in sparse format
    whose sparsity control allows the full format, the call with a FIRST
    accumulator releases the pattern arrays, so C is not handed back
    unchanged. *)
Lemma subassign_23_first_converts_C :
  opcode (descr Z accum_first) = GB_FIRST_opcode
  /\ fst (GB_subassign_23 Z dense_as_sparse one_entry accum_first
            copy_cast false no_jit) = GrB_SUCCESS
  /\ snd (GB_subassign_23 Z dense_as_sparse one_entry accum_first
            copy_cast false no_jit) <> dense_as_sparse
  /\ p Z dense_as_sparse = Some [0; 2]
  /\ p Z (snd (GB_subassign_23 Z dense_as_sparse one_entry accum_first
                 copy_cast false no_jit)) = None.
Proof.
  repeat split. intros H. apply (f_equal (p Z)) in H. discriminate H.
Qed.

(** The kernel does work when the accumulator is not FIRST. *)
Example accum_plus_runs :
  x Z (snd (GB_dense_accum_sparse Z dense_as_sparse one_entry accum_plus
              false no_builtin no_case copy_cast true)) = [10; 27].
Proof. reflexivity. Qed.

End DenseAccumFacts.

(* ===================================================================== *)
(** * GxB_Matrix_export_CSC finishes the pending work first               *)
(* ===================================================================== *)

Module ExportCSCFacts.
Import ExportCSC.

Section Facts.

Variable content : Type.
Variable GB_transpose_to_csc : GrB_Matrix content -> GrB_Info * GrB_Matrix content.
Variable GB_Matrix_wait : GrB_Matrix content -> GrB_Info * GrB_Matrix content.
Variable GB_convert_any_to_sparse :
  GrB_Matrix content -> GrB_Info * GrB_Matrix content.
Variable GB_export : GrB_Matrix content -> option bool -> GrB_Info * option bool.

Local Abbreviation export :=
  (GxB_Matrix_export_CSC content GB_transpose_to_csc GB_Matrix_wait
     GB_convert_any_to_sparse GB_export).

(** [GB_OK] passes control on only after a success. *)
Lemma GB_OK_success (r : GrB_Info * GrB_Matrix content) k :
  info (GB_OK content r k) = GrB_SUCCESS ->
  fst r = GrB_SUCCESS /\ GB_OK content r k = k (snd r).
Proof.
  unfold GB_OK. destruct (fst r); cbn; intros H; try discriminate H.
  split; reflexivity.
Qed.

Lemma wait_macro_clears (A r : GrB_Matrix content) :
  (forall A r, GB_Matrix_wait A = (GrB_SUCCESS, r) ->
     nzombies r = 0 /\ npending r = 0 /\ jumbled r = false
     /\ is_csc r = is_csc A) ->
  GB_MATRIX_WAIT content GB_Matrix_wait A = (GrB_SUCCESS, r) ->
  nzombies r = 0 /\ npending r = 0 /\ jumbled r = false
  /\ is_csc r = is_csc A.
Proof.
  intros Hwait. unfold GB_MATRIX_WAIT, GB_ANY_PENDING_WORK,
    GB_PENDING, GB_ZOMBIES, GB_JUMBLED.
  destruct (npending A =? 0) eqn:EP; cbn; [ | apply Hwait].
  destruct (nzombies A =? 0) eqn:EZ; cbn; [ | apply Hwait].
  destruct (jumbled A) eqn:EJ; cbn; [apply Hwait | ].
  intros H; inversion H; subst r.
  apply Z.eqb_eq in EP, EZ. auto.
Qed.

Lemma wait_if_macro_clears (A r : GrB_Matrix content) :
  (forall A r, GB_Matrix_wait A = (GrB_SUCCESS, r) ->
     nzombies r = 0 /\ npending r = 0 /\ jumbled r = false
     /\ is_csc r = is_csc A) ->
  GB_MATRIX_WAIT_IF_PENDING_OR_ZOMBIES content GB_Matrix_wait A
    = (GrB_SUCCESS, r) ->
  nzombies r = 0 /\ npending r = 0 /\ is_csc r = is_csc A
  /\ (nzombies A = 0 -> npending A = 0 -> r = A).
Proof.
  intros Hwait. unfold GB_MATRIX_WAIT_IF_PENDING_OR_ZOMBIES,
    GB_PENDING_OR_ZOMBIES, GB_PENDING, GB_ZOMBIES.
  destruct (npending A =? 0) eqn:EP; cbn.
  - destruct (nzombies A =? 0) eqn:EZ; cbn.
    + intros H; inversion H; subst r.
      apply Z.eqb_eq in EP, EZ. auto.
    + intros H. destruct (Hwait _ _ H) as (H1 & H2 & _ & H4).
      apply Z.eqb_neq in EZ. repeat split; auto. intros; contradiction.
  - intros H. destruct (Hwait _ _ H) as (H1 & H2 & _ & H4).
    apply Z.eqb_neq in EP. repeat split; auto. intros; contradiction.
Qed.

End Facts.

(** C8.  On every successful call of [GxB_Matrix_export_CSC] the matrix
    whose arrays are handed over is in sparse format, column-oriented, free
    of zombies and of pending tuples.  If the caller's [jumbled] argument is
    [NULL], all pending work was finished and the matrix is not jumbled (the
    indices of every column are sorted).  If it is not [NULL], only pending
    tuples and zombies were resolved: [*jumbled] reports the flag of the
    exported matrix, and a column-oriented matrix that had nothing pending
    but its unsorted indices is exported as jumbled as it came.  The
    hypotheses state what the callees, absent from the sources, guarantee
    (sections 4.1, 4.2 and 4.7 of the specification). *)
Theorem export_finishes_pending_work
    (content : Type)
    (GB_transpose_to_csc GB_Matrix_wait GB_convert_any_to_sparse :
       GrB_Matrix content -> GrB_Info * GrB_Matrix content)
    (GB_export : GrB_Matrix content -> option bool -> GrB_Info * option bool)
    (A : option (option (GrB_Matrix content)))
    (jumbled_arg : option bool) (desc_info : GrB_Info) :
  (forall A r, GB_transpose_to_csc A = (GrB_SUCCESS, r) -> is_csc r = true) ->
  (forall A r, GB_Matrix_wait A = (GrB_SUCCESS, r) ->
     nzombies r = 0 /\ npending r = 0 /\ jumbled r = false
     /\ is_csc r = is_csc A) ->
  (forall A r, GB_convert_any_to_sparse A = (GrB_SUCCESS, r) ->
     sparsity r = GxB_SPARSE /\ is_csc r = is_csc A
     /\ nzombies r = nzombies A /\ npending r = npending A
     /\ jumbled r = jumbled A) ->
  (forall A j o, GB_export A j = (GrB_SUCCESS, o) ->
     o = match j with None => None | Some _ => Some (jumbled A) end) ->
  let res := GxB_Matrix_export_CSC content GB_transpose_to_csc GB_Matrix_wait
               GB_convert_any_to_sparse GB_export A jumbled_arg desc_info in
  info res = GrB_SUCCESS ->
  exists A0 m,
    A = Some (Some A0) /\ exported res = Some m
    /\ sparsity m = GxB_SPARSE /\ is_csc m = true
    /\ nzombies m = 0 /\ npending m = 0
    /\ match jumbled_arg with
       | None => jumbled m = false
       | Some _ =>
           jumbled_out res = Some (jumbled m)
           /\ (is_csc A0 = true -> nzombies A0 = 0 -> npending A0 = 0 ->
               jumbled m = jumbled A0)
       end.
Proof.
  intros Htr Hwait Hsp Hex res Hok. subst res.
  unfold GxB_Matrix_export_CSC in *.
  destruct A as [[A0 | ] | ]; try discriminate Hok.
  destruct (magic A0); try discriminate Hok.
  destruct desc_info; try discriminate Hok.
  exists A0.
  apply GB_OK_success in Hok as Hstep1. destruct Hstep1 as [E1 R1].
  rewrite R1 in *. clear R1.
  set (r1 := if negb (is_csc A0) then GB_transpose_to_csc A0
             else (GrB_SUCCESS, A0)) in *.
  assert (Hcsc1 : is_csc (snd r1) = true
                  /\ (is_csc A0 = true -> snd r1 = A0)).
  { subst r1. destruct (is_csc A0) eqn:EC; cbn in *; [auto | ].
    split; [ | discriminate].
    apply (Htr A0). destruct (GB_transpose_to_csc A0); cbn in *.
    congruence. }
  destruct Hcsc1 as [Hcsc1 Hsame1].
  apply GB_OK_success in Hok as Hstep2. destruct Hstep2 as [E2 R2].
  rewrite R2 in *. clear R2.
  set (r2 := match jumbled_arg with
             | Some _ => GB_MATRIX_WAIT_IF_PENDING_OR_ZOMBIES content
                           GB_Matrix_wait (snd r1)
             | None => GB_MATRIX_WAIT content GB_Matrix_wait (snd r1)
             end) in *.
  apply GB_OK_success in Hok as Hstep3. destruct Hstep3 as [E3 R3].
  rewrite R3 in *. clear R3.
  set (r3 := GB_convert_any_to_sparse (snd r2)) in *.
  destruct (Hsp (snd r2) (snd r3)) as (S1 & S2 & S3 & S4 & S5).
  { subst r3. destruct (GB_convert_any_to_sparse (snd r2)); cbn in *.
    congruence. }
  destruct (GB_export (snd r3) jumbled_arg) as [ie oe] eqn:EE.
  cbn [fst snd] in Hok.
  destruct ie; try discriminate Hok. cbn [exported jumbled_out].
  exists (snd r3).
  assert (Er2 : r2 = (GrB_SUCCESS, snd r2))
    by (destruct r2; cbn in *; congruence).
  destruct jumbled_arg as [j | ].
  - destruct (wait_if_macro_clears content GB_Matrix_wait (snd r1) (snd r2)
                Hwait Er2) as (W1 & W2 & W3 & W4).
    repeat split; try congruence.
    + apply Hex in EE. exact EE.
    + intros C0 Z0 P0. rewrite S5.
      rewrite (Hsame1 C0) in W4. rewrite (W4 Z0 P0). reflexivity.
  - destruct (wait_macro_clears content GB_Matrix_wait (snd r1) (snd r2)
                Hwait Er2) as (W1 & W2 & W3 & W4).
    repeat split; congruence.
Qed.

Lemma model_callees_meet_their_contracts :
  (forall A r, model_transpose true A = (GrB_SUCCESS, r) -> is_csc r = true)
  /\ (forall A r, model_wait true A = (GrB_SUCCESS, r) ->
        nzombies r = 0 /\ npending r = 0 /\ jumbled r = false
        /\ is_csc r = is_csc A)
  /\ (forall A r, model_to_sparse true A = (GrB_SUCCESS, r) ->
        sparsity r = GxB_SPARSE /\ is_csc r = is_csc A
        /\ nzombies r = nzombies A /\ npending r = npending A
        /\ jumbled r = jumbled A)
  /\ (forall A j o, model_export A j = (GrB_SUCCESS, o) ->
        o = match j with None => None | Some _ => Some (jumbled A) end).
Proof.
  split; [ | split; [ | split]].
  - intros A r H. inversion H. reflexivity.
  - intros A r H. inversion H. cbn. auto.
  - intros A r H. inversion H. cbn. auto.
  - intros A j o H. inversion H. reflexivity.
Defined.

(** A row-oriented matrix with all three kinds of pending work, exported
    with [jumbled = NULL]; and a jumbled column-oriented matrix exported
    with a [jumbled] argument, which comes out jumbled. *)
Lemma export_finishes_pending_work_witness :
  (exists m,
     exported (GxB_Matrix_export_CSC unit (model_transpose true)
                 (model_wait true) (model_to_sparse true) model_export
                 (Some (Some busy_csr)) None GrB_SUCCESS) = Some m
     /\ sparsity m = GxB_SPARSE /\ is_csc m = true
     /\ nzombies m = 0 /\ npending m = 0 /\ jumbled m = false)
  /\ jumbled_out (GxB_Matrix_export_CSC unit (model_transpose true)
                 (model_wait true) (model_to_sparse true) model_export
                 (Some (Some jumbled_csc)) (Some false) GrB_SUCCESS)
     = Some true.
Proof.
  destruct model_callees_meet_their_contracts as (C1 & C2 & C3 & C4).
  split.
  - destruct (export_finishes_pending_work unit (model_transpose true)
                (model_wait true) (model_to_sparse true) model_export
                (Some (Some busy_csr)) None GrB_SUCCESS C1 C2 C3 C4 eq_refl)
      as (A0 & m & _ & Hm & H1 & H2 & H3 & H4 & H5).
    exists m. repeat split; assumption.
  - destruct (export_finishes_pending_work unit (model_transpose true)
                (model_wait true) (model_to_sparse true) model_export
                (Some (Some jumbled_csc)) (Some false) GrB_SUCCESS
                C1 C2 C3 C4 eq_refl)
      as (A0 & m & HA & Hm & _ & _ & _ & _ & Hj & Hkeep).
    inversion HA; subst A0. rewrite Hj.
    rewrite (Hkeep eq_refl eq_refl eq_refl). reflexivity.
Defined.

End ExportCSCFacts.

(* ===================================================================== *)
(** * GxB_Matrix_import_CSC takes over the caller's arrays                *)
(* ===================================================================== *)

Module ImportCSCFacts.
Import ImportCSC.

(** What the call does once [GB_IMPORT_CHECK] has passed.  It returns the
    null-pointer error, touching nothing, if the handle [Ap] is [NULL] or
    if [nvals > 0] and the handle [Ai] or [Ax] is [NULL].  On success [*Ap]
    is [NULL], and so are [*Ai] and [*Ax] for every handle that is not
    itself [NULL]; with [nvals > 0] the three arrays are now the [p], [i],
    [x] of the new matrix, with [nvals = 0] the arrays behind [Ai] and [Ax]
    are released (and [NULL] handles are accepted).  The new matrix is
    column-oriented, not hypersparse, stamped [GB_MAGIC], has [nrows] by
    [ncols] as dimensions and [nzmax = nvals].  The pointers behind the
    handles are never tested and the content of the arrays is never read,
    so the matrix satisfies the invariants of the sparse format exactly
    when what the caller passed does. *)
Theorem import_takes_ownership
    (val : Type) (new_ok : bool) (ty : GrB_Type) (nrows ncols nvals : Z)
    (Ap Ai : handle (list Z)) (Ax : handle (list val)) :
  0 <= nvals ->
  let res := GxB_Matrix_import_CSC val GrB_SUCCESS new_ok ty nrows ncols
               nvals Ap Ai Ax in
  (Ap = None \/ (nvals > 0 /\ (Ai = None \/ Ax = None)) ->
     info val res = GrB_NULL_POINTER /\ A_out val res = None
     /\ Ap_out val res = Ap /\ Ai_out val res = Ai /\ Ax_out val res = Ax)
  /\ (info val res = GrB_SUCCESS ->
      exists A,
        A_out val res = Some A
        /\ Ap <> None /\ Ap_out val res = Some None
        /\ (Ai <> None -> Ai_out val res = Some None)
        /\ (Ax <> None -> Ax_out val res = Some None)
        /\ (Ai = None \/ Ax = None -> nvals = 0)
        /\ p val A = target Ap
        /\ (nvals > 0 ->
            i val A = target Ai /\ x val A = target Ax
            /\ freed_i val res = None /\ freed_x val res = None)
        /\ (nvals = 0 ->
            i val A = None /\ x val A = None
            /\ freed_i val res = target Ai /\ freed_x val res = target Ax)
        /\ is_csc val A = true /\ is_hyper val A = false /\ h val A = None
        /\ magic val A = GB_MAGIC /\ type val A = ty
        /\ vlen val A = nrows /\ vdim val A = ncols /\ nzmax val A = nvals
        /\ matrix_ok val A
           = arrays_ok val nrows ncols nvals (target Ap) (target Ai)
               (target Ax)).
Proof.
  intros Hn res. subst res. unfold GxB_Matrix_import_CSC. split.
  - intros [-> | [Hpos Hnull]]; [cbn; auto | ].
    destruct Ap as [Ap_ptr | ]; [ | cbn; auto].
    replace (nvals >? 0) with true by (symmetry; apply Z.gtb_lt; lia).
    destruct Hnull as [-> | ->]; cbn; auto.
    destruct Ai; cbn; auto.
  - destruct Ap as [Ap_ptr | ]; [ | discriminate].
    destruct (nvals >? 0) eqn:Epos.
    + apply Z.gtb_lt in Epos.
      destruct Ai as [Ai_ptr | ]; [ | discriminate].
      destruct Ax as [Ax_ptr | ]; [ | discriminate].
      cbn [andb orb]. destruct new_ok; [ | discriminate]. cbn [negb].
      replace (nvals =? 0) with false by (symmetry; apply Z.eqb_neq; lia).
      intros _. eexists. split; [reflexivity | ].
      cbn. repeat split; try congruence; try lia.
      * intros [H | H]; discriminate H.
      * unfold matrix_ok, GB_NEW; cbn. rewrite !Z.eqb_refl. reflexivity.
    + cbn [andb]. destruct new_ok; [ | discriminate]. cbn [negb].
      assert (nvals = 0) as -> by (rewrite Z.gtb_ltb in Epos;
                                   apply Z.ltb_ge in Epos; lia).
      cbn [Z.eqb]. intros _.
      destruct Ai as [ai | ], Ax as [ax | ];
        (eexists; split; [reflexivity | ]);
        cbn; repeat split; try congruence; try lia;
        unfold matrix_ok, GB_NEW, arrays_ok; cbn; rewrite !Z.eqb_refl;
        cbn; destruct Ap_ptr; reflexivity.
Qed.

(** The 3-by-2 sample is taken over and is a valid matrix. *)
Lemma import_takes_ownership_witness :
  let res := GxB_Matrix_import_CSC Z GrB_SUCCESS true fp_type 3 2 3
               (Some (Some sample_Ap)) (Some (Some sample_Ai))
               (Some (Some sample_Ax)) in
  info Z res = GrB_SUCCESS
  /\ Ap_out Z res = Some None /\ Ai_out Z res = Some None
  /\ Ax_out Z res = Some None
  /\ exists A, A_out Z res = Some A /\ matrix_ok Z A = true
               /\ p Z A = Some sample_Ap.
Proof.
  cbv zeta.
  destruct (import_takes_ownership Z true fp_type 3 2 3
              (Some (Some sample_Ap)) (Some (Some sample_Ai))
              (Some (Some sample_Ax)) ltac:(lia)) as [_ Hok].
  destruct (Hok eq_refl)
    as (A & HA & _ & HAp & HAi & HAx & _ & Hp & _ & _ & _ & _ & _ & _ & _
        & _ & _ & _ & Hvalid).
  split; [reflexivity | ].
  split; [exact HAp | ].
  split; [apply HAi; discriminate | ].
  split; [apply HAx; discriminate | ].
  exists A. split; [exact HA | ]. split; [ | exact Hp].
  rewrite Hvalid. reflexivity.
Defined.

(** C10.  The defect: [GB_RETURN_IF_NULL (Ap)] of line 37 tests the handle
    and never the pointer behind it.  With three handles that are not
    [NULL], of which [Ap] points to a [NULL] pointer (and [nvals = 0]), the
    call does not return the null-pointer error: it succeeds, and the
    matrix it hands back is stamped [GB_MAGIC] but has no column pointers,
    so it is not a valid sparse matrix and the check asserted at line 91,
    [ASSERT_OK (GB_check ( *A, ...))], does not hold. *)
Lemma import_accepts_missing_Ap :
  let res := GxB_Matrix_import_CSC Z GrB_SUCCESS true fp_type 3 2 0
               (Some None) (Some None) (Some None) in
  info Z res = GrB_SUCCESS
  /\ exists A, A_out Z res = Some A /\ p Z A = None /\ magic Z A = GB_MAGIC
               /\ matrix_ok Z A = false.
Proof.
  cbv zeta. split; [reflexivity | ].
  eexists. split; [reflexivity | ]. repeat split.
Qed.

(** The content of arrays that are present is the caller's business: the
    import takes O(1) time and reads none of it.  Here [p] decreases. *)
Example import_accepts_unsorted_Ap :
  let res := GxB_Matrix_import_CSC Z GrB_SUCCESS true fp_type 3 2 3
               (Some (Some [0; 5; 3])) (Some (Some sample_Ai))
               (Some (Some sample_Ax)) in
  info Z res = GrB_SUCCESS
  /\ exists A, A_out Z res = Some A /\ matrix_ok Z A = false.
Proof.
  cbv zeta. split; [reflexivity | ].
  eexists. split; reflexivity.
Qed.

End ImportCSCFacts.

(* ===================================================================== *)
(** * GB_ewise: the transplant of T and the checks made up front          *)
(* ===================================================================== *)

Module EwiseFacts.
Import Ewise.

Section Finish.

Variable val : Type.
Variable GB_cast : GrB_Type -> GrB_Type -> val -> val.
Variable to_bool : GrB_Type -> val -> bool.

Lemma entry_transplant (C T : GrB_Matrix val) (ctype : GrB_Type) r c :
  entry val (snd (GB_transplant_conform val GB_cast C ctype T)) r c
  = option_map (typecast val GB_cast ctype (type val T)) (entry val T r c).
Proof.
  unfold GB_transplant_conform, entry; cbn.
  destruct (is_csc val T); reflexivity.
Qed.

Lemma entry_accum_mask (C : GrB_Matrix val) M accum T C_replace
    Mask_comp Mask_struct r c :
  entry val (snd (GB_accum_mask val GB_cast to_bool C M accum T C_replace
                    Mask_comp Mask_struct)) r c
  = protocol_cell val GB_cast (type val C) (type val T) accum C_replace
      (mask_value val to_bool M Mask_comp Mask_struct r c)
      (entry val C r c) (entry val T r c).
Proof.
  unfold GB_accum_mask, entry at 1; cbn.
  destruct (is_csc val C); reflexivity.
Qed.

End Finish.

(** C2.  In the last step of [GB_ewise], when accum is absent, T has the
    orientation of C, the mask (if any) was applied while T was built (T has
    entries only where the mask is true), and C_replace is set or C has no
    entries, T is transplanted into C with a typecast to C's type, and the
    matrix obtained has the type, the dimensions and, cell by cell, the
    entries that the masked accumulation protocol would produce.  With no
    mask, no accum and C_replace, the final C is T typecast to C's type.
    (A complemented absent mask never reaches this step: [GB_ewise] returns
    before.) *)
Theorem fast_path_transplant
    (val : Type) (GB_cast : GrB_Type -> GrB_Type -> val -> val)
    (to_bool : GrB_Type -> val -> bool)
    (C : GrB_Matrix val) (C_replace : bool) (M : option (GrB_Matrix val))
    (Mask_comp Mask_struct : bool) (accum : option (binary_function val))
    (T : GrB_Matrix val) (mask_applied : bool) :
  accum = None ->
  is_csc val C = is_csc val T ->
  vlen val T = vlen val C -> vdim val T = vdim val C ->
  (M = None -> Mask_comp = false) ->
  (M <> None ->
     mask_applied = true
     /\ forall r c, entry val T r c <> None ->
          mask_value val to_bool M Mask_comp Mask_struct r c = true) ->
  (C_replace = true
   \/ (nnz_bound val C = 0 /\ forall r c, entry val C r c = None)) ->
  let fast := GB_ewise_finish val GB_cast to_bool C C_replace M Mask_comp
                Mask_struct accum T mask_applied in
  let full := GB_accum_mask val GB_cast to_bool C M accum T C_replace
                Mask_comp Mask_struct in
  fast = GB_transplant_conform val GB_cast C (type val C) T
  /\ fst fast = GrB_SUCCESS /\ fst full = GrB_SUCCESS
  /\ type val (snd fast) = type val (snd full)
  /\ GB_NROWS val (snd fast) = GB_NROWS val (snd full)
  /\ GB_NCOLS val (snd fast) = GB_NCOLS val (snd full)
  /\ (forall r c, entry val (snd fast) r c = entry val (snd full) r c)
  /\ (M = None -> C_replace = true ->
      forall r c,
        entry val (snd fast) r c
        = option_map (typecast val GB_cast (type val C) (type val T))
                     (entry val T r c)).
Proof.
  intros Hacc Hcsc Hvlen Hvdim Hcomp Hmask Hrepl fast full.
  assert (Hfast : fast = GB_transplant_conform val GB_cast C (type val C) T).
  { subst fast. unfold GB_ewise_finish. rewrite Hacc, Hcsc, eqb_reflx.
    replace (match M with Some _ => mask_applied | None => true end)
      with true
      by (destruct M as [m | ]; [destruct Hmask; [discriminate | auto]
                                | reflexivity]).
    replace (C_replace || (nnz_bound val C =? 0)) with true; [reflexivity | ].
    destruct Hrepl as [-> | [-> _]];
      [reflexivity | symmetry; apply orb_true_r]. }
  split; [exact Hfast | ]. rewrite Hfast.
  assert (Hcells : forall r c,
            entry val (snd (GB_transplant_conform val GB_cast C (type val C) T))
                  r c
            = entry val (snd full) r c).
  { intros r c. subst full. rewrite entry_transplant, entry_accum_mask.
    unfold protocol_cell. rewrite Hacc.
    destruct (mask_value val to_bool M Mask_comp Mask_struct r c) eqn:Em;
      cbn [negb]; [reflexivity | ].
    assert (Hz : entry val T r c = None).
    { destruct M as [m | ].
      - destruct (Hmask ltac:(discriminate)) as [_ Hresp].
        destruct (entry val T r c) eqn:Ez; [ | reflexivity].
        rewrite Hresp in Em; [discriminate | ]. rewrite Ez. discriminate.
      - unfold mask_value in Em. rewrite (Hcomp eq_refl) in Em.
        discriminate. }
    rewrite Hz. cbn.
    destruct Hrepl as [-> | [_ Hempty]]; [reflexivity | ].
    destruct C_replace; [reflexivity | ]. symmetry. apply Hempty. }
  repeat split; try exact Hcells.
  - subst full. unfold GB_accum_mask, GB_transplant_conform, GB_NROWS; cbn.
    rewrite Hcsc, Hvlen, Hvdim. reflexivity.
  - subst full. unfold GB_accum_mask, GB_transplant_conform, GB_NCOLS; cbn.
    rewrite Hcsc, Hvlen, Hvdim. reflexivity.
  - intros _ _ r c. apply entry_transplant.
Qed.

(** C = (2-by-2 of sevens), T = (2-by-2 of ones), no mask, no accum,
    C_replace: the final C holds the ones. *)
Lemma fast_path_transplant_witness :
  let fast := GB_ewise_finish Z (fun _ _ v => v) (fun _ v => negb (v =? 0))
                (constant_matrix fp64 2 2 7) true None false false None
                (constant_matrix fp64 2 2 1) false in
  fst fast = GrB_SUCCESS
  /\ entry Z (snd fast) 1 1 = Some 1
  /\ entry Z (snd fast) 1 1
     = entry Z (snd (GB_accum_mask Z (fun _ _ v => v)
                       (fun _ v => negb (v =? 0))
                       (constant_matrix fp64 2 2 7) None None
                       (constant_matrix fp64 2 2 1) true false false)) 1 1.
Proof.
  cbv zeta.
  destruct (fast_path_transplant Z (fun _ _ v => v)
              (fun _ v => negb (v =? 0))
              (constant_matrix fp64 2 2 7) true None false false None
              (constant_matrix fp64 2 2 1) false
              eq_refl eq_refl eq_refl eq_refl (fun _ => eq_refl)
              (fun H => False_ind _ (H eq_refl)) (or_introl eq_refl))
    as (_ & Hs & _ & _ & _ & _ & Hcells & Hid).
  split; [exact Hs | ]. split.
  - rewrite (Hid eq_refl eq_refl). reflexivity.
  - apply Hcells.
Defined.

Section Checks.

Variable val : Type.
Variable GB_cast : GrB_Type -> GrB_Type -> val -> val.
Variable to_bool : GrB_Type -> val -> bool.
Variable check_accum : option (binary_function val) -> GrB_Info.
Variable GB_compatible :
  GrB_Type -> GrB_Matrix val -> option (GrB_Matrix val) ->
  option (binary_function val) -> GrB_Type -> GrB_Info.
Variable GB_BinaryOp_compatible :
  binary_function val -> GrB_Type -> GrB_Type -> GrB_Info.
Variable GB_Type_compatible : GrB_Type -> GrB_Type -> bool.
Variable compute_T :
  GrB_Matrix val -> bool -> option (GrB_Matrix val) -> bool -> bool ->
  option (binary_function val) -> binary_function val ->
  GrB_Matrix val -> bool -> GrB_Matrix val -> bool -> bool -> stage val.

Local Abbreviation ewise :=
  (GB_ewise val GB_cast to_bool check_accum GB_compatible
     GB_BinaryOp_compatible GB_Type_compatible compute_T).

(** Whatever stops [GB_ewise] before the dimension check has passed, stops
    it with C untouched. *)
Lemma ewise_rejects_untouched C C_replace M Mask_comp Mask_struct accum op
    A A_transpose B B_transpose eWiseAdd :
  eWiseAdd = true /\ (GB_Type_compatible (type val C) (type val A) = false
                      \/ GB_Type_compatible (type val C) (type val B) = false)
  \/ dimensions_differ val C A B A_transpose B_transpose = true ->
  let r := ewise C C_replace M Mask_comp Mask_struct accum op
             A A_transpose B B_transpose eWiseAdd in
  fst r <> GrB_SUCCESS /\ snd r = C.
Proof.
  intros Hbad. unfold GB_ewise.
  destruct (check_accum accum); cbn; try (split; [discriminate | reflexivity]).
  destruct (GB_compatible _ _ _ _ _); cbn;
    try (split; [discriminate | reflexivity]).
  destruct (GB_BinaryOp_compatible _ _ _); cbn;
    try (split; [discriminate | reflexivity]).
  destruct (eWiseAdd && negb (GB_Type_compatible (type val C) (type val A)))
    eqn:EA; cbn; [split; [discriminate | reflexivity] | ].
  destruct (eWiseAdd && negb (GB_Type_compatible (type val C) (type val B)))
    eqn:EB; cbn; [split; [discriminate | reflexivity] | ].
  destruct (dimensions_differ val C A B A_transpose B_transpose) eqn:ED;
    cbn; [split; [discriminate | reflexivity] | ].
  exfalso. destruct Hbad as [[-> [H | H]] | H]; try discriminate H.
  - rewrite H in EA. discriminate EA.
  - rewrite H in EB. discriminate EB.
Qed.

End Checks.

(** C7 (amended).  [GB_ewise] makes its checks in a fixed order: accum,
    [GB_compatible], [GB_BinaryOp_compatible], then (for eWiseAdd) the
    typecast of A and of B to C's type, then the dimensions.  A call whose
    transpose-adjusted dimensions of A, B and C disagree, or (for eWiseAdd)
    whose C type cannot be typecast from A's or B's, returns an error with C
    unchanged.  The error is the domain mismatch when the three earlier checks
    pass and the typecast is impossible, and the dimension mismatch when all
    earlier checks, the typecast included, pass and the dimensions
    disagree. *)
Theorem ewise_checks_up_front
    (val : Type) (GB_cast : GrB_Type -> GrB_Type -> val -> val)
    (to_bool : GrB_Type -> val -> bool)
    (check_accum : option (binary_function val) -> GrB_Info)
    (GB_compatible :
       GrB_Type -> GrB_Matrix val -> option (GrB_Matrix val) ->
       option (binary_function val) -> GrB_Type -> GrB_Info)
    (GB_BinaryOp_compatible :
       binary_function val -> GrB_Type -> GrB_Type -> GrB_Info)
    (GB_Type_compatible : GrB_Type -> GrB_Type -> bool)
    (compute_T :
       GrB_Matrix val -> bool -> option (GrB_Matrix val) -> bool -> bool ->
       option (binary_function val) -> binary_function val ->
       GrB_Matrix val -> bool -> GrB_Matrix val -> bool -> bool -> stage val)
    (C : GrB_Matrix val) (C_replace : bool) (M : option (GrB_Matrix val))
    (Mask_comp Mask_struct : bool) (accum : option (binary_function val))
    (op : binary_function val) (A : GrB_Matrix val) (A_transpose : bool)
    (B : GrB_Matrix val) (B_transpose : bool) (eWiseAdd : bool) :
  let r := GB_ewise val GB_cast to_bool check_accum GB_compatible
             GB_BinaryOp_compatible GB_Type_compatible compute_T
             C C_replace M Mask_comp Mask_struct accum op
             A A_transpose B B_transpose eWiseAdd in
  let domain_mismatch :=
    eWiseAdd = true
    /\ (GB_Type_compatible (type val C) (type val A) = false
        \/ GB_Type_compatible (type val C) (type val B) = false) in
  let dimension_mismatch :=
    dimensions_differ val C A B A_transpose B_transpose = true in
  let earlier_checks_pass :=
    check_accum accum = GrB_SUCCESS
    /\ GB_compatible (type val C) C M accum (ztype (descr val op))
       = GrB_SUCCESS
    /\ GB_BinaryOp_compatible op (type val A) (type val B) = GrB_SUCCESS in
  (domain_mismatch \/ dimension_mismatch ->
     fst r <> GrB_SUCCESS /\ snd r = C)
  /\ (earlier_checks_pass -> domain_mismatch ->
      r = (GrB_DOMAIN_MISMATCH, C))
  /\ (earlier_checks_pass -> ~ domain_mismatch -> dimension_mismatch ->
      r = (GrB_DIMENSION_MISMATCH, C)).
Proof.
  cbv zeta. split; [ | split].
  - apply ewise_rejects_untouched.
  - intros (H1 & H2 & H3) (-> & Hty). unfold GB_ewise.
    rewrite H1, H2, H3. cbn.
    destruct (GB_Type_compatible (type val C) (type val A)); cbn;
      [ | reflexivity].
    destruct Hty as [Hty | Hty]; [discriminate | ]. rewrite Hty. reflexivity.
  - intros (H1 & H2 & H3) Hdom Hdim. unfold GB_ewise.
    rewrite H1, H2, H3, Hdim.
    destruct eWiseAdd; cbn; [ | reflexivity].
    destruct (GB_Type_compatible (type val C) (type val A)) eqn:EA; cbn;
      [ | exfalso; apply Hdom; auto].
    destruct (GB_Type_compatible (type val C) (type val B)) eqn:EB; cbn;
      [reflexivity | exfalso; apply Hdom; auto].
Qed.

(** C = A + B with C 3-by-3 and A, B 2-by-2, all double: the dimension
    mismatch, and C untouched. *)
Lemma ewise_checks_up_front_witness :
  GB_ewise Z (fun _ _ v => v) (fun _ v => negb (v =? 0))
    model_check_accum model_compatible model_BinaryOp_compatible
    model_Type_compatible sample_compute_T
    (constant_matrix fp64 3 3 7) false None false false None plus_fp64
    (constant_matrix fp64 2 2 1) false (constant_matrix fp64 2 2 1) false
    true
  = (GrB_DIMENSION_MISMATCH, constant_matrix fp64 3 3 7).
Proof.
  destruct (ewise_checks_up_front Z (fun _ _ v => v)
              (fun _ v => negb (v =? 0))
              model_check_accum model_compatible model_BinaryOp_compatible
              model_Type_compatible sample_compute_T
              (constant_matrix fp64 3 3 7) false None false false None
              plus_fp64
              (constant_matrix fp64 2 2 1) false
              (constant_matrix fp64 2 2 1) false true) as (_ & _ & Hdim).
  apply Hdim.
  - repeat split.
  - intros [_ [H | H]]; discriminate H.
  - reflexivity.
Defined.

(** C7 as stated fails: here the dimensions disagree (C is 3-by-3, A and B
    are 2-by-2), so the claim asks for the dimension mismatch; but A and B
    have a user-defined type that cannot be typecast to C's double, and
    [GB_ewise], which tests the domains first, returns the domain
    mismatch. *)
Lemma ewise_domain_check_comes_first :
  dimensions_differ Z (constant_matrix fp64 3 3 7)
    (constant_matrix my_type 2 2 1) (constant_matrix my_type 2 2 1)
    false false = true
  /\ fst (GB_ewise Z (fun _ _ v => v) (fun _ v => negb (v =? 0))
            model_check_accum model_compatible model_BinaryOp_compatible
            model_Type_compatible sample_compute_T
            (constant_matrix fp64 3 3 7) false None false false None user_op
            (constant_matrix my_type 2 2 1) false
            (constant_matrix my_type 2 2 1) false true)
     = GrB_DOMAIN_MISMATCH
  /\ GrB_DOMAIN_MISMATCH <> GrB_DIMENSION_MISMATCH.
Proof. repeat split. discriminate. Qed.

(** The later stages do write to C: with matching operands the same call
    replaces the sevens of C by A + B. *)
Example ewise_success_writes_C :
  let r := GB_ewise Z (fun _ _ v => v) (fun _ v => negb (v =? 0))
             model_check_accum model_compatible model_BinaryOp_compatible
             model_Type_compatible sample_compute_T
             (constant_matrix fp64 2 2 7) true None false false None plus_fp64
             (constant_matrix fp64 2 2 1) false
             (constant_matrix fp64 2 2 1) false true in
  fst r = GrB_SUCCESS /\ entry Z (snd r) 0 1 = Some 2.
Proof. split; reflexivity. Qed.

End EwiseFacts.

(* ===================================================================== *)
(** * GB_emult_template computes the intersection                         *)
(* ===================================================================== *)


Module EmultFacts.
Import Emult.

(** ** Loops over [0, n) *)

Lemma in_zrange (n q : Z) : In q (zrange n) <-> 0 <= q < n.
Proof.
  unfold zrange. rewrite in_map_iff. split.
  - intros (k & <- & Hk). apply in_seq in Hk. lia.
  - intros Hq. exists (Z.to_nat q). split; [lia | ].
    apply in_seq. lia.
Qed.

Lemma length_zrange (n : Z) : length (zrange n) = Z.to_nat n.
Proof. unfold zrange. rewrite length_map, length_seq. reflexivity. Qed.

Lemma sorted_map_seq {T : Type} (R : T -> T -> Prop) (f : Z -> T) :
  forall n start,
    (forall a b, (start <= a)%nat -> (a < b)%nat -> (b < start + n)%nat ->
                 R (f (Z.of_nat a)) (f (Z.of_nat b))) ->
    StronglySorted R (map f (map Z.of_nat (seq start n))).
Proof.
  induction n as [| n IH]; intros start HR; cbn; constructor.
  - apply IH. intros a b Ha Hab Hb. apply HR; lia.
  - apply Forall_forall. intros y Hy.
    apply in_map_iff in Hy. destruct Hy as (z & <- & Hz).
    apply in_map_iff in Hz. destruct Hz as (b & <- & Hb).
    apply in_seq in Hb. apply HR; lia.
Qed.

Lemma sorted_map_zrange {T : Type} (R : T -> T -> Prop) (f : Z -> T) (n : Z) :
  (forall a b, 0 <= a -> a < b -> b < n -> R (f a) (f b)) ->
  StronglySorted R (map f (zrange n)).
Proof.
  intros HR. unfold zrange. apply sorted_map_seq.
  intros a b Ha Hab Hb. apply HR; lia.
Qed.

(** ** Sorted index arrays *)

Lemma increasing_sub X lo hi lo' hi' :
  increasing X lo hi -> lo <= lo' -> hi' <= hi -> increasing X lo' hi'.
Proof. intros H Hl Hh q1 q2 H1 H2 H3. apply H; lia. Qed.

Lemma increasing_le X lo hi q1 q2 :
  increasing X lo hi -> lo <= q1 -> q1 <= q2 -> q2 < hi -> X q1 <= X q2.
Proof.
  intros H H1 H2 H3. destruct (Z.eq_dec q1 q2) as [-> | Hne]; [lia | ].
  assert (X q1 < X q2) by (apply H; lia). lia.
Qed.

Lemma increasing_inj X lo hi q1 q2 :
  increasing X lo hi -> lo <= q1 < hi -> lo <= q2 < hi ->
  X q1 = X q2 -> q1 = q2.
Proof.
  intros H H1 H2 E.
  destruct (Z.lt_trichotomy q1 q2) as [L | [L | L]]; [ | exact L | ].
  - assert (X q1 < X q2) by (apply H; lia). lia.
  - assert (X q2 < X q1) by (apply H; lia). lia.
Qed.

(** Strictly increasing integers grow by at least one per step. *)
Lemma increasing_gap X lo hi :
  increasing X lo hi ->
  forall d q, 0 <= d -> lo <= q -> q + d < hi -> X q + d <= X (q + d).
Proof.
  intros H d q Hd. revert q. pattern d.
  apply natlike_ind; [ | | exact Hd].
  - intros q _ _. replace (q + 0) with q by lia. lia.
  - intros d' Hd' IH q Hq Hhi.
    assert (X (q + d') < X (q + Z.succ d')) by (apply H; lia).
    specialize (IH q Hq ltac:(lia)). lia.
Qed.

(** A vector with as many entries as its window has indices holds them
    all: the entry at offset [lo + k] has index [wlo + k]. *)
Lemma dense_indices X lo n wlo :
  increasing X lo (lo + n) -> in_window X lo (lo + n) wlo n ->
  forall k, 0 <= k < n -> X (lo + k) = wlo + k.
Proof.
  intros Hinc Hwin k Hk.
  pose proof (increasing_gap X lo (lo + n) Hinc k lo ltac:(lia) ltac:(lia)
                ltac:(lia)) as Hlow.
  pose proof (increasing_gap X lo (lo + n) Hinc (n - 1 - k) (lo + k)
                ltac:(lia) ltac:(lia) ltac:(lia)) as Hhigh.
  replace (lo + k + (n - 1 - k)) with (lo + (n - 1)) in Hhigh by lia.
  pose proof (Hwin lo ltac:(lia)). pose proof (Hwin (lo + (n - 1)) ltac:(lia)).
  lia.
Qed.

(** ** Binary search *)

(** The search keeps everything left of [pleft] below [i] and everything
    right of [pright] above [i], and ends on a single item. *)
Lemma trim_search_spec (i : Z) (X : array Z) (lo hi : Z) :
  increasing X lo (hi + 1) ->
  forall fuel pleft pright,
    0 <= pleft -> lo <= pleft -> pleft <= pright -> pright <= hi ->
    (Z.to_nat (pright - pleft) <= fuel)%nat ->
    (forall q, lo <= q < pleft -> X q < i) ->
    (forall q, pright < q <= hi -> i < X q) ->
    let r := GB_BINARY_TRIM_SEARCH fuel i X pleft pright in
    fst r = snd r /\ pleft <= fst r <= pright
    /\ (forall q, lo <= q < fst r -> X q < i)
    /\ (forall q, fst r < q <= hi -> i < X q).
Proof.
  intros Hinc.
  induction fuel as [| fuel IH]; intros pleft pright H0 Hlo Hle Hhi Hfuel
    Hleft Hright.
  - cbn. assert (pleft = pright) by lia. subst pright.
    repeat split; auto; lia.
  - cbn [GB_BINARY_TRIM_SEARCH].
    destruct (pleft <? pright) eqn:E.
    2:{ apply Z.ltb_ge in E. assert (pleft = pright) by lia. subst pright.
        cbn. repeat split; auto; lia. }
    apply Z.ltb_lt in E.
    rewrite Z.quot_div_nonneg by lia.
    set (pmiddle := (pleft + pright) / 2).
    assert (Hmid : pleft <= pmiddle < pright).
    { subst pmiddle. split.
      - apply Z.div_le_lower_bound; lia.
      - apply Z.div_lt_upper_bound; lia. }
    destruct (X pmiddle <? i) eqn:EX.
    + apply Z.ltb_lt in EX.
      destruct (IH (pmiddle + 1) pright) as (R1 & R2 & R3 & R4);
        try lia; auto.
      * intros q Hq.
        assert (X q <= X pmiddle) by (apply (increasing_le X lo (hi + 1));
                                      auto; lia).
        lia.
      * repeat split; auto; lia.
    + apply Z.ltb_ge in EX.
      destruct (IH pleft pmiddle) as (R1 & R2 & R3 & R4); try lia; auto.
      * intros q Hq.
        destruct (Z_le_gt_dec q pright) as [Hin | Hout].
        -- assert (X pmiddle < X q) by (apply Hinc; lia). lia.
        -- apply Hright. lia.
      * repeat split; auto; lia.
Qed.

(** [GB_BINARY_SEARCH (i, X, p, p_end-1, found)] on a sorted slice whose
    entries before [p] are already known to be below [i]. *)
Lemma binary_search_spec (i : Z) (X : array Z) (lo p p_end : Z) :
  increasing X lo p_end ->
  (lo < p_end -> 0 <= lo) -> lo <= p -> p <= p_end ->
  (forall q, lo <= q < p -> X q < i) ->
  let s := GB_BINARY_SEARCH i X p (p_end - 1) in
  p <= fst s <= p_end
  /\ (forall q, lo <= q < fst s -> X q < i)
  /\ (snd s = true -> fst s < p_end /\ X (fst s) = i)
  /\ (snd s = false -> forall q, lo <= q < p_end -> X q <> i).
Proof.
  intros Hinc H0 Hlo Hle Hleft. unfold GB_BINARY_SEARCH.
  destruct (Z.eq_dec p p_end) as [-> | Hne].
  - replace (Z.to_nat (p_end - 1 - p_end)) with 0%nat by lia. cbn.
    replace (p_end =? p_end - 1) with false by (symmetry; apply Z.eqb_neq; lia).
    cbn. repeat split; try lia; auto; try discriminate.
    intros _ q Hq. specialize (Hleft q Hq). lia.
  - destruct (trim_search_spec i X lo (p_end - 1)
                ltac:(replace (p_end - 1 + 1) with p_end by lia; exact Hinc)
                (Z.to_nat (p_end - 1 - p)) p (p_end - 1))
      as (R1 & R2 & R3 & R4); try lia; auto.
    set (r := GB_BINARY_TRIM_SEARCH _ i X p (p_end - 1)) in *.
    cbn [fst snd]. rewrite <- R1, Z.eqb_refl. cbn [andb].
    split; [lia | ]. split; [exact R3 | ]. split.
    + intros Hf. apply Z.eqb_eq in Hf. split; [lia | exact Hf].
    + intros Hnf q Hq. apply Z.eqb_neq in Hnf.
      destruct (Z.lt_trichotomy q (fst r)) as [L | [L | L]].
      * specialize (R3 q ltac:(lia)). lia.
      * subst q. exact Hnf.
      * specialize (R4 q ltac:(lia)). lia.
Qed.

(** ** The sparse loops *)

Section Loops.

Variables Ai Bi : array Z.

Lemma hit_eta (ht : hit) : ht = (hit_i ht, hit_pA ht, hit_pB ht).
Proof. destruct ht as [[a b] c]. reflexivity. Qed.

Lemma hit_ext (ht : hit) (a b c : Z) :
  a = hit_i ht -> b = hit_pA ht -> c = hit_pB ht -> (a, b, c) = ht.
Proof. intros -> -> ->. symmetry. apply hit_eta. Qed.

(** A(:,j) much denser than B(:,j): every entry of B is looked up in A. *)
Lemma A_much_denser_spec (loA pA_end pB_end : Z) :
  increasing Ai loA pA_end -> (loA < pA_end -> 0 <= loA) ->
  forall fuel pA pB,
    (Z.to_nat (pB_end - pB) <= fuel)%nat ->
    loA <= pA -> pA <= pA_end ->
    increasing Bi pB pB_end ->
    (forall q pb, loA <= q < pA -> pB <= pb < pB_end -> Ai q < Bi pb) ->
    let L := A_much_denser Ai Bi fuel pA pA_end pB pB_end in
    (forall ht, In ht L <->
       loA <= hit_pA ht < pA_end /\ pB <= hit_pB ht < pB_end
       /\ Ai (hit_pA ht) = hit_i ht /\ Bi (hit_pB ht) = hit_i ht)
    /\ StronglySorted hit_lt L.
Proof.
  intros HincA H0.
  induction fuel as [| fuel IH]; intros pA pB Hfuel HloA HpA HincB Hinv.
  - cbn. split; [ | constructor].
    intros ht. split; [contradiction | ]. intros (_ & H & _). lia.
  - cbn [A_much_denser].
    destruct (pB <? pB_end) eqn:E.
    2:{ apply Z.ltb_ge in E. split; [ | constructor].
        intros ht. split; [contradiction | ]. intros (_ & H & _). lia. }
    apply Z.ltb_lt in E.
    destruct (binary_search_spec (Bi pB) Ai loA pA pA_end HincA H0 HloA HpA)
      as (S1 & S2 & S3 & S4).
    { intros q Hq. apply Hinv; lia. }
    destruct (GB_BINARY_SEARCH (Bi pB) Ai pA (pA_end - 1)) as [pA' found].
    cbn [fst snd] in *.
    destruct (IH pA' (pB + 1)) as (IH1 & IH2); try lia.
    { apply (increasing_sub Bi pB pB_end); auto; lia. }
    { intros q pb Hq Hpb.
      assert (Ai q < Bi pB) by (apply S2; lia).
      assert (Bi pB < Bi pb) by (apply HincB; lia). lia. }
    assert (Hrest : forall ht,
              In ht (A_much_denser Ai Bi fuel pA' pA_end (pB + 1) pB_end)
              -> Bi pB < hit_i ht).
    { intros ht Hin. apply IH1 in Hin. destruct Hin as (_ & Hb & _ & <-).
      apply HincB; lia. }
    split.
    + intros ht. rewrite in_app_iff, IH1. split.
      * intros [Hin | Hin].
        -- destruct found; [ | contradiction].
           destruct Hin as [<- | []]. destruct (S3 eq_refl) as [Hlt Heq].
           unfold hit_pA, hit_pB, hit_i; cbn [fst snd].
           repeat split; auto; lia.
        -- destruct Hin as (Ha & Hb & Hc & Hd). repeat split; auto; lia.
      * intros (Ha & Hb & Hc & Hd).
        destruct (Z.eq_dec (hit_pB ht) pB) as [Epb | Npb].
        -- left. rewrite Epb in Hd.
           destruct found.
           ++ destruct (S3 eq_refl) as [Hlt Heq]. left.
              assert (Epa : pA' = hit_pA ht).
              { apply (increasing_inj Ai loA pA_end); auto; lia. }
              rewrite (hit_eta ht), <- Hd, Epb, Epa. reflexivity.
           ++ exfalso. apply (S4 eq_refl (hit_pA ht) Ha). lia.
        -- right. repeat split; auto; lia.
    + destruct found; cbn [app]; [ | exact IH2].
      constructor; [exact IH2 | ].
      apply Forall_forall. intros ht Hin. apply Hrest in Hin.
      unfold hit_lt, hit_i at 1; cbn [fst]. exact Hin.
Qed.

(** B(:,j) much denser than A(:,j): every entry of A is looked up in B. *)
Lemma B_much_denser_spec (loB pA_end pB_end : Z) :
  increasing Bi loB pB_end -> (loB < pB_end -> 0 <= loB) ->
  forall fuel pA pB,
    (Z.to_nat (pA_end - pA) <= fuel)%nat ->
    loB <= pB -> pB <= pB_end ->
    increasing Ai pA pA_end ->
    (forall q pa, loB <= q < pB -> pA <= pa < pA_end -> Bi q < Ai pa) ->
    let L := B_much_denser Ai Bi fuel pA pA_end pB pB_end in
    (forall ht, In ht L <->
       pA <= hit_pA ht < pA_end /\ loB <= hit_pB ht < pB_end
       /\ Ai (hit_pA ht) = hit_i ht /\ Bi (hit_pB ht) = hit_i ht)
    /\ StronglySorted hit_lt L.
Proof.
  intros HincB H0.
  induction fuel as [| fuel IH]; intros pA pB Hfuel HloB HpB HincA Hinv.
  - cbn. split; [ | constructor].
    intros ht. split; [contradiction | ]. intros (H & _). lia.
  - cbn [B_much_denser].
    destruct (pA <? pA_end) eqn:E.
    2:{ apply Z.ltb_ge in E. split; [ | constructor].
        intros ht. split; [contradiction | ]. intros (H & _). lia. }
    apply Z.ltb_lt in E.
    destruct (binary_search_spec (Ai pA) Bi loB pB pB_end HincB H0 HloB HpB)
      as (S1 & S2 & S3 & S4).
    { intros q Hq. apply Hinv; lia. }
    destruct (GB_BINARY_SEARCH (Ai pA) Bi pB (pB_end - 1)) as [pB' found].
    cbn [fst snd] in *.
    destruct (IH (pA + 1) pB') as (IH1 & IH2); try lia.
    { apply (increasing_sub Ai pA pA_end); auto; lia. }
    { intros q pa Hq Hpa.
      assert (Bi q < Ai pA) by (apply S2; lia).
      assert (Ai pA < Ai pa) by (apply HincA; lia). lia. }
    assert (Hrest : forall ht,
              In ht (B_much_denser Ai Bi fuel (pA + 1) pA_end pB' pB_end)
              -> Ai pA < hit_i ht).
    { intros ht Hin. apply IH1 in Hin. destruct Hin as (Ha & _ & <- & _).
      apply HincA; lia. }
    split.
    + intros ht. rewrite in_app_iff, IH1. split.
      * intros [Hin | Hin].
        -- destruct found; [ | contradiction].
           destruct Hin as [<- | []]. destruct (S3 eq_refl) as [Hlt Heq].
           unfold hit_pA, hit_pB, hit_i; cbn [fst snd].
           repeat split; auto; lia.
        -- destruct Hin as (Ha & Hb & Hc & Hd). repeat split; auto; lia.
      * intros (Ha & Hb & Hc & Hd).
        destruct (Z.eq_dec (hit_pA ht) pA) as [Epa | Npa].
        -- left. rewrite Epa in Hc.
           destruct found.
           ++ destruct (S3 eq_refl) as [Hlt Heq]. left.
              assert (Epb : pB' = hit_pB ht).
              { apply (increasing_inj Bi loB pB_end); auto; lia. }
              rewrite (hit_eta ht), <- Hc, Epa, Epb. reflexivity.
           ++ exfalso. apply (S4 eq_refl (hit_pB ht) Hb). lia.
        -- right. repeat split; auto; lia.
    + destruct found; cbn [app]; [ | exact IH2].
      constructor; [exact IH2 | ].
      apply Forall_forall. intros ht Hin. apply Hrest in Hin.
      unfold hit_lt, hit_i at 1; cbn [fst]. exact Hin.
Qed.

(** The linear-time scan of two vectors of about the same size. *)
Lemma linear_scan_spec (pA_end pB_end : Z) :
  forall fuel pA pB,
    (Z.to_nat (Z.max 0 (pA_end - pA) + Z.max 0 (pB_end - pB)) <= fuel)%nat ->
    increasing Ai pA pA_end -> increasing Bi pB pB_end ->
    let L := linear_scan Ai Bi fuel pA pA_end pB pB_end in
    (forall ht, In ht L <->
       pA <= hit_pA ht < pA_end /\ pB <= hit_pB ht < pB_end
       /\ Ai (hit_pA ht) = hit_i ht /\ Bi (hit_pB ht) = hit_i ht)
    /\ StronglySorted hit_lt L.
Proof.
  induction fuel as [| fuel IH]; intros pA pB Hfuel HincA HincB.
  - cbn. split; [ | constructor].
    intros ht. split; [contradiction | ]. intros (Ha & Hb & _). lia.
  - cbn [linear_scan].
    destruct ((pA <? pA_end) && (pB <? pB_end)) eqn:E.
    2:{ split; [ | constructor].
        intros ht. split; [contradiction | ]. intros (Ha & Hb & _).
        apply andb_false_iff in E.
        destruct E as [E | E]; apply Z.ltb_ge in E; lia. }
    apply andb_prop in E. destruct E as [EA EB].
    apply Z.ltb_lt in EA, EB.
    destruct (Ai pA <? Bi pB) eqn:E1; [ | destruct (Bi pB <? Ai pA) eqn:E2].
    + (* A(i,j) exists but not B(i,j) *)
      apply Z.ltb_lt in E1.
      destruct (IH (pA + 1) pB) as (IH1 & IH2); try lia; auto.
      { apply (increasing_sub Ai pA pA_end); auto; lia. }
      split; [ | exact IH2].
      intros ht. rewrite IH1. split.
      * intros (Ha & Hb & Hc & Hd). repeat split; auto; lia.
      * intros (Ha & Hb & Hc & Hd). repeat split; auto; try lia.
        destruct (Z.eq_dec (hit_pA ht) pA) as [Epa | Npa]; [ | lia].
        exfalso. rewrite Epa in Hc.
        assert (Bi pB <= Bi (hit_pB ht))
          by (apply (increasing_le Bi pB pB_end); auto; lia).
        lia.
    + (* B(i,j) exists but not A(i,j) *)
      apply Z.ltb_lt in E2.
      destruct (IH pA (pB + 1)) as (IH1 & IH2); try lia; auto.
      { apply (increasing_sub Bi pB pB_end); auto; lia. }
      split; [ | exact IH2].
      intros ht. rewrite IH1. split.
      * intros (Ha & Hb & Hc & Hd). repeat split; auto; lia.
      * intros (Ha & Hb & Hc & Hd). repeat split; auto; try lia.
        destruct (Z.eq_dec (hit_pB ht) pB) as [Epb | Npb]; [ | lia].
        exfalso. rewrite Epb in Hd.
        assert (Ai pA <= Ai (hit_pA ht))
          by (apply (increasing_le Ai pA pA_end); auto; lia).
        lia.
    + (* both A(i,j) and B(i,j) exist *)
      apply Z.ltb_ge in E1, E2.
      assert (Eq : Ai pA = Bi pB) by lia.
      destruct (IH (pA + 1) (pB + 1)) as (IH1 & IH2); try lia.
      { apply (increasing_sub Ai pA pA_end); auto; lia. }
      { apply (increasing_sub Bi pB pB_end); auto; lia. }
      split.
      * intros ht. cbn [In]. rewrite IH1. split.
        -- intros [<- | (Ha & Hb & Hc & Hd)].
           ++ unfold hit_pA, hit_pB, hit_i; cbn [fst snd].
              repeat split; auto; lia.
           ++ repeat split; auto; lia.
        -- intros (Ha & Hb & Hc & Hd).
           destruct (Z.eq_dec (hit_pA ht) pA) as [Epa | Npa].
           ++ left. rewrite Epa in Hc.
              assert (Epb : pB = hit_pB ht).
              { apply (increasing_inj Bi pB pB_end); auto; lia. }
              rewrite (hit_eta ht), <- Hd, Epa, <- Epb. reflexivity.
           ++ right.
              destruct (Z.eq_dec (hit_pB ht) pB) as [Epb | Npb].
              ** exfalso. rewrite Epb in Hd.
                 assert (Ai pA < Ai (hit_pA ht)) by (apply HincA; lia).
                 lia.
              ** repeat split; auto; lia.
      * constructor; [exact IH2 | ].
        apply Forall_forall. intros ht Hin. apply IH1 in Hin.
        destruct Hin as (Ha & Hb & Hc & Hd).
        unfold hit_lt, hit_i at 1; cbn [fst]. rewrite <- Hd.
        apply HincB; lia.
Qed.

(** "get A(i,j)", by direct lookup or by binary search.  Either way the
    entries left of the position returned are below [i]. *)
Lemma get_entry_spec (X : array Z) (dense : bool)
    (p_start p_end iX_first wlo wlen p i : Z) :
  range_ok X p_start p_end wlo wlen ->
  (dense = true ->
     p_end - p_start = wlen /\ (0 < wlen -> iX_first = X p_start)) ->
  wlo <= i < wlo + wlen ->
  p_start <= p -> p <= p_end ->
  (forall q, p_start <= q < p -> X q < i) ->
  let s := get_entry X dense p_start p_end iX_first p i in
  p_start <= fst s <= p_end
  /\ (forall q, p_start <= q < fst s -> X q < i)
  /\ (snd s = true -> fst s < p_end /\ X (fst s) = i)
  /\ (snd s = false -> forall q, p_start <= q < p_end -> X q <> i).
Proof.
  intros (Hle & H0 & Hinc & Hwin) Hdense Hi Hp1 Hp2 Hleft.
  unfold get_entry. destruct dense.
  - destruct (Hdense eq_refl) as [Hlen Hfirst]. cbn [fst snd].
    assert (Hidx : forall k, 0 <= k < wlen -> X (p_start + k) = wlo + k).
    { apply dense_indices.
      - replace (p_start + wlen) with p_end by lia. exact Hinc.
      - replace (p_start + wlen) with p_end by lia. exact Hwin. }
    assert (Ef : iX_first = wlo).
    { rewrite Hfirst by lia.
      replace p_start with (p_start + 0) at 1 by lia.
      rewrite Hidx by lia. lia. }
    assert (Ex : X (p_start + i - iX_first) = i).
    { replace (p_start + i - iX_first) with (p_start + (i - wlo)) by lia.
      rewrite Hidx by lia. lia. }
    split; [lia | ]. split; [ | split; [ | discriminate]].
    + intros q Hq. rewrite <- Ex. apply Hinc; lia.
    + intros _. split; [lia | exact Ex].
  - destruct (binary_search_spec i X p_start p p_end Hinc H0 Hp1 Hp2 Hleft)
      as (S1 & S2 & S3 & S4).
    split; [lia | ]. split; [exact S2 | ]. split; [exact S3 | exact S4].
Qed.

(** The masked loop: every entry of M(:,j) that is true is looked up in A
    and in B. *)
Lemma masked_spec (m : mask) (adense bdense : bool)
    (pA_start pA_end iA_first pB_start pB_end iB_first pM_end wlo wlen : Z) :
  range_ok Ai pA_start pA_end wlo wlen ->
  range_ok Bi pB_start pB_end wlo wlen ->
  (adense = true ->
     pA_end - pA_start = wlen /\ (0 < wlen -> iA_first = Ai pA_start)) ->
  (bdense = true ->
     pB_end - pB_start = wlen /\ (0 < wlen -> iB_first = Bi pB_start)) ->
  forall fuel pM pA pB,
    (Z.to_nat (pM_end - pM) <= fuel)%nat ->
    increasing (Mi m) pM pM_end -> in_window (Mi m) pM pM_end wlo wlen ->
    pA_start <= pA -> pA <= pA_end -> pB_start <= pB -> pB <= pB_end ->
    (forall q pm, pA_start <= q < pA -> pM <= pm < pM_end ->
                  Ai q < Mi m pm) ->
    (forall q pm, pB_start <= q < pB -> pM <= pm < pM_end ->
                  Bi q < Mi m pm) ->
    let L := masked Ai Bi m adense bdense pA_start pA_end iA_first
               pB_start pB_end iB_first pM_end fuel pM pA pB in
    (forall ht, In ht L <->
       pA_start <= hit_pA ht < pA_end /\ pB_start <= hit_pB ht < pB_end
       /\ Ai (hit_pA ht) = hit_i ht /\ Bi (hit_pB ht) = hit_i ht
       /\ exists pm, pM <= pm < pM_end /\ Mi m pm = hit_i ht
                     /\ GB_mcast (Mx m) pm = true)
    /\ StronglySorted hit_lt L.
Proof.
  intros HA HB HdA HdB.
  induction fuel as [| fuel IH];
    intros pM pA pB Hfuel HincM HwinM HA1 HA2 HB1 HB2 HinvA HinvB.
  - cbn. split; [ | constructor].
    intros ht. split; [contradiction | ].
    intros (_ & _ & _ & _ & pm & Hpm & _). lia.
  - cbn [masked].
    destruct (pM <? pM_end) eqn:E.
    2:{ apply Z.ltb_ge in E. split; [ | constructor].
        intros ht. split; [contradiction | ].
        intros (_ & _ & _ & _ & pm & Hpm & _). lia. }
    apply Z.ltb_lt in E.
    assert (HincM' : increasing (Mi m) (pM + 1) pM_end)
      by (apply (increasing_sub (Mi m) pM pM_end); auto; lia).
    assert (HwinM' : in_window (Mi m) (pM + 1) pM_end wlo wlen)
      by (intros q Hq; apply HwinM; lia).
    assert (Hnext : forall pm, pM + 1 <= pm < pM_end -> Mi m pM < Mi m pm)
      by (intros pm Hpm; apply HincM; lia).
    (* what the rest of the loop contributes, for any pA', pB' it starts
       from *)
    assert (Hskip : forall pA' pB',
              pA_start <= pA' -> pA' <= pA_end ->
              pB_start <= pB' -> pB' <= pB_end ->
              (forall q, pA_start <= q < pA' -> Ai q <= Mi m pM) ->
              (forall q, pB_start <= q < pB' -> Bi q <= Mi m pM) ->
              let L' := masked Ai Bi m adense bdense pA_start pA_end iA_first
                          pB_start pB_end iB_first pM_end fuel (pM + 1)
                          pA' pB' in
              (forall ht, In ht L' <->
                 pA_start <= hit_pA ht < pA_end
                 /\ pB_start <= hit_pB ht < pB_end
                 /\ Ai (hit_pA ht) = hit_i ht /\ Bi (hit_pB ht) = hit_i ht
                 /\ exists pm, pM + 1 <= pm < pM_end /\ Mi m pm = hit_i ht
                               /\ GB_mcast (Mx m) pm = true)
              /\ StronglySorted hit_lt L').
    { intros pA' pB' A1 A2 B1 B2 IA IB. apply IH; auto; try lia.
      - intros q pm Hq Hpm. specialize (IA q Hq). specialize (Hnext pm Hpm).
        lia.
      - intros q pm Hq Hpm. specialize (IB q Hq). specialize (Hnext pm Hpm).
        lia. }
    (* an entry of M that contributes nothing *)
    assert (Hnone : forall pA' pB',
              pA_start <= pA' -> pA' <= pA_end ->
              pB_start <= pB' -> pB' <= pB_end ->
              (forall q, pA_start <= q < pA' -> Ai q <= Mi m pM) ->
              (forall q, pB_start <= q < pB' -> Bi q <= Mi m pM) ->
              (forall pa pb, pA_start <= pa < pA_end ->
                             pB_start <= pb < pB_end ->
                             Ai pa = Mi m pM -> Bi pb = Mi m pM ->
                             GB_mcast (Mx m) pM = true -> False) ->
              let L' := masked Ai Bi m adense bdense pA_start pA_end iA_first
                          pB_start pB_end iB_first pM_end fuel (pM + 1)
                          pA' pB' in
              (forall ht, In ht L' <->
                 pA_start <= hit_pA ht < pA_end
                 /\ pB_start <= hit_pB ht < pB_end
                 /\ Ai (hit_pA ht) = hit_i ht /\ Bi (hit_pB ht) = hit_i ht
                 /\ exists pm, pM <= pm < pM_end /\ Mi m pm = hit_i ht
                               /\ GB_mcast (Mx m) pm = true)
              /\ StronglySorted hit_lt L').
    { intros pA' pB' A1 A2 B1 B2 IA IB Hno.
      destruct (Hskip pA' pB' A1 A2 B1 B2 IA IB) as [K1 K2].
      split; [ | exact K2].
      intros ht. rewrite K1. split.
      - intros (Ha & Hb & Hc & Hd & pm & Hpm & Hm1 & Hm2).
        repeat split; auto; try lia. exists pm. repeat split; auto; lia.
      - intros (Ha & Hb & Hc & Hd & pm & Hpm & Hm1 & Hm2).
        repeat split; auto; try lia.
        destruct (Z.eq_dec pm pM) as [-> | Hne].
        + exfalso. apply (Hno (hit_pA ht) (hit_pB ht)); auto; lia.
        + exists pm. repeat split; auto; lia. }
    destruct (GB_mcast (Mx m) pM) eqn:Em; cbn [negb].
    2:{ apply Hnone; auto.
        - intros q Hq. specialize (HinvA q pM Hq ltac:(lia)). lia.
        - intros q Hq. specialize (HinvB q pM Hq ltac:(lia)). lia.
        - intros; discriminate. }
    destruct (get_entry_spec Ai adense pA_start pA_end iA_first wlo wlen pA
                (Mi m pM) HA HdA ltac:(apply HwinM; lia) HA1 HA2)
      as (GA1 & GA2 & GA3 & GA4).
    { intros q Hq. apply HinvA; lia. }
    destruct (get_entry Ai adense pA_start pA_end iA_first pA (Mi m pM))
      as [pA' afound]. cbn [fst snd] in *.
    destruct afound; cbn [negb].
    2:{ apply Hnone; auto; try lia.
        - intros q Hq. specialize (GA2 q Hq). lia.
        - intros q Hq. specialize (HinvB q pM Hq ltac:(lia)). lia.
        - intros pa pb Hpa _ Ea _ _. apply (GA4 eq_refl pa Hpa Ea). }
    destruct (get_entry_spec Bi bdense pB_start pB_end iB_first wlo wlen pB
                (Mi m pM) HB HdB ltac:(apply HwinM; lia) HB1 HB2)
      as (GB1 & GB2 & GB3 & GB4).
    { intros q Hq. apply HinvB; lia. }
    destruct (get_entry Bi bdense pB_start pB_end iB_first pB (Mi m pM))
      as [pB' bfound]. cbn [fst snd] in *.
    destruct bfound; cbn [negb].
    2:{ apply Hnone; auto; try lia.
        - intros q Hq. specialize (GA2 q Hq). lia.
        - intros q Hq. specialize (GB2 q Hq). lia.
        - intros pa pb _ Hpb _ Eb _. apply (GB4 eq_refl pb Hpb Eb). }
    destruct (GA3 eq_refl) as [LA EA]. destruct (GB3 eq_refl) as [LB EB].
    destruct (Hskip pA' pB') as [K1 K2]; try lia.
    { intros q Hq. specialize (GA2 q Hq). lia. }
    { intros q Hq. specialize (GB2 q Hq). lia. }
    destruct HA as (_ & _ & HincA & _). destruct HB as (_ & _ & HincB & _).
    split.
    + intros ht. cbn [In]. rewrite K1. split.
      * intros [<- | (Ha & Hb & Hc & Hd & pm & Hpm & Hm1 & Hm2)].
        -- unfold hit_pA, hit_pB, hit_i; cbn [fst snd].
           repeat split; auto; try lia. exists pM. repeat split; auto; lia.
        -- repeat split; auto; try lia. exists pm. repeat split; auto; lia.
      * intros (Ha & Hb & Hc & Hd & pm & Hpm & Hm1 & Hm2).
        destruct (Z.eq_dec pm pM) as [-> | Hne].
        -- left.
           assert (Epa : pA' = hit_pA ht)
             by (apply (increasing_inj Ai pA_start pA_end); auto; lia).
           assert (Epb : pB' = hit_pB ht)
             by (apply (increasing_inj Bi pB_start pB_end); auto; lia).
           rewrite (hit_eta ht), <- Hm1, Epa, Epb. reflexivity.
        -- right. repeat split; auto; try lia.
           exists pm. repeat split; auto; lia.
    + constructor; [exact K2 | ].
      apply Forall_forall. intros ht Hin. apply K1 in Hin.
      destruct Hin as (_ & _ & _ & _ & pm & Hpm & Hm1 & _).
      unfold hit_lt, hit_i at 1; cbn [fst]. rewrite <- Hm1.
      apply Hnext. exact Hpm.
Qed.

End Loops.

(** ** One vector *)

Section OneVector.

Variables Ai Bi : array Z.
Variable s : slice.
Variable wlo : Z.
Hypothesis slice_A : range_ok Ai (pA s) (pA_end s) wlo (len s).
Hypothesis slice_B : range_ok Bi (pB s) (pB_end s) wlo (len s).

Lemma adense_facts :
  adense s = true ->
  pA_end s - pA s = len s /\ (0 < len s -> iA_first Ai s = Ai (pA s)).
Proof.
  unfold adense, iA_first, ajnz. intros H. apply Z.eqb_eq in H.
  split; [exact H | ]. intros Hpos.
  replace (pA_end s - pA s >? 0) with true; [reflexivity | ].
  symmetry. apply Z.gtb_lt. lia.
Qed.

Lemma bdense_facts :
  bdense s = true ->
  pB_end s - pB s = len s /\ (0 < len s -> iB_first Bi s = Bi (pB s)).
Proof.
  unfold bdense, iB_first, bjnz. intros H. apply Z.eqb_eq in H.
  split; [exact H | ]. intros Hpos.
  replace (pB_end s - pB s >? 0) with true; [reflexivity | ].
  symmetry. apply Z.gtb_lt. lia.
Qed.

Lemma A_dense_index :
  adense s = true ->
  forall k, 0 <= k < len s -> Ai (pA s + k) = wlo + k.
Proof.
  intros Hd. destruct (adense_facts Hd) as [Hlen _].
  destruct slice_A as (_ & _ & Hinc & Hwin).
  apply dense_indices; replace (pA s + len s) with (pA_end s) by lia; auto.
Qed.

Lemma B_dense_index :
  bdense s = true ->
  forall k, 0 <= k < len s -> Bi (pB s + k) = wlo + k.
Proof.
  intros Hd. destruct (bdense_facts Hd) as [Hlen _].
  destruct slice_B as (_ & _ & Hinc & Hwin).
  apply dense_indices; replace (pB s + len s) with (pB_end s) by lia; auto.
Qed.

Lemma iA_first_dense : adense s = true -> 0 < len s -> iA_first Ai s = wlo.
Proof.
  intros Hd Hpos. destruct (adense_facts Hd) as [_ Hf]. rewrite Hf by lia.
  replace (pA s) with (pA s + 0) by lia.
  rewrite A_dense_index by (auto; lia). lia.
Qed.

Lemma iB_first_dense : bdense s = true -> 0 < len s -> iB_first Bi s = wlo.
Proof.
  intros Hd Hpos. destruct (bdense_facts Hd) as [_ Hf]. rewrite Hf by lia.
  replace (pB s) with (pB s + 0) by lia.
  rewrite B_dense_index by (auto; lia). lia.
Qed.

(** The places where the template produces an entry are exactly the hits,
    and they come in increasing order of the row index. *)
Lemma vector_hits_spec (M : option mask) :
  slice_ok Ai Bi M s wlo ->
  (forall ht, In ht (vector_hits Ai Bi M s) <-> is_hit Ai Bi M s ht)
  /\ StronglySorted hit_lt (vector_hits Ai Bi M s).
Proof.
  intros Hok.
  pose proof slice_A as HA. pose proof slice_B as HB.
  destruct HA as (HA1 & HA2 & HA3 & HA4).
  destruct HB as (HB1 & HB2 & HB3 & HB4).
  unfold vector_hits, is_hit. destruct M as [m | ].
  - (* mask present *)
    destruct Hok as (_ & _ & HM1 & HM2 & HM3 & HM4).
    apply (masked_spec Ai Bi m (adense s) (bdense s) (pA s) (pA_end s)
             (iA_first Ai s) (pB s) (pB_end s) (iB_first Bi s) (pM_end s)
             wlo (len s) slice_A slice_B adense_facts bdense_facts);
      auto; try lia.
  - (* no mask *)
    assert (Hext : forall (L : list hit),
              ((forall ht, In ht L <->
                  pA s <= hit_pA ht < pA_end s /\ pB s <= hit_pB ht < pB_end s
                  /\ Ai (hit_pA ht) = hit_i ht /\ Bi (hit_pB ht) = hit_i ht)
               /\ StronglySorted hit_lt L) ->
              (forall ht, In ht L <->
                 pA s <= hit_pA ht < pA_end s /\ pB s <= hit_pB ht < pB_end s
                 /\ Ai (hit_pA ht) = hit_i ht /\ Bi (hit_pB ht) = hit_i ht
                 /\ True)
              /\ StronglySorted hit_lt L).
    { intros L [H1 H2]. split; [ | exact H2].
      intros ht. rewrite H1. tauto. }
    apply Hext.
    destruct (adense s) eqn:EdA; [destruct (bdense s) eqn:EdB | ];
      cbn [andb].
    + (* A(:,j) and B(:,j) dense *)
      destruct (adense_facts EdA) as [LA _].
      destruct (bdense_facts EdB) as [LB _].
      unfold both_dense, ajnz. split.
      * intros ht. rewrite in_map_iff. split.
        -- intros (k & <- & Hk). apply in_zrange in Hk.
           unfold hit_pA, hit_pB, hit_i; cbn [fst snd].
           rewrite iA_first_dense by (auto; lia).
           rewrite A_dense_index, B_dense_index by (auto; lia).
           repeat split; lia.
        -- intros (Ha & Hb & Hc & Hd).
           exists (hit_pA ht - pA s). split; [ | apply in_zrange; lia].
           rewrite iA_first_dense by (auto; lia).
           pose proof (A_dense_index EdA (hit_pA ht - pA s) ltac:(lia)) as EA.
           pose proof (B_dense_index EdB (hit_pB ht - pB s) ltac:(lia)) as EB.
           replace (pA s + (hit_pA ht - pA s)) with (hit_pA ht) in EA by lia.
           replace (pB s + (hit_pB ht - pB s)) with (hit_pB ht) in EB by lia.
           apply hit_ext; lia.
      * apply sorted_map_zrange. intros a b Ha Hab Hb.
        unfold hit_lt, hit_i; cbn [fst]. lia.
    + (* A(:,j) is dense, B(:,j) is sparse *)
      destruct (adense_facts EdA) as [LA _].
      unfold A_dense, bjnz. split.
      * intros ht. rewrite in_map_iff. split.
        -- intros (k & <- & Hk). apply in_zrange in Hk.
           unfold hit_pA, hit_pB, hit_i; cbn [fst snd].
           pose proof (HB4 (pB s + k) ltac:(lia)) as Hw.
           rewrite iA_first_dense by (auto; lia).
           replace (pA s + Bi (pB s + k) - wlo)
             with (pA s + (Bi (pB s + k) - wlo)) by lia.
           rewrite A_dense_index by (auto; lia).
           repeat split; lia.
        -- intros (Ha & Hb & Hc & Hd).
           exists (hit_pB ht - pB s). split; [ | apply in_zrange; lia].
           replace (pB s + (hit_pB ht - pB s)) with (hit_pB ht) by lia.
           rewrite iA_first_dense by (auto; lia).
           pose proof (A_dense_index EdA (hit_pA ht - pA s) ltac:(lia)) as EA.
           replace (pA s + (hit_pA ht - pA s)) with (hit_pA ht) in EA by lia.
           apply hit_ext; lia.
      * apply sorted_map_zrange. intros a b Ha Hab Hb.
        unfold hit_lt, hit_i; cbn [fst]. apply HB3; lia.
    + destruct (bdense s) eqn:EdB.
      * (* A(:,j) is sparse, B(:,j) is dense *)
        destruct (bdense_facts EdB) as [LB _].
        unfold B_dense, ajnz. split.
        -- intros ht. rewrite in_map_iff. split.
           ++ intros (k & <- & Hk). apply in_zrange in Hk.
              unfold hit_pA, hit_pB, hit_i; cbn [fst snd].
              pose proof (HA4 (pA s + k) ltac:(lia)) as Hw.
              rewrite iB_first_dense by (auto; lia).
              replace (pB s + Ai (pA s + k) - wlo)
                with (pB s + (Ai (pA s + k) - wlo)) by lia.
              rewrite B_dense_index by (auto; lia).
              repeat split; lia.
           ++ intros (Ha & Hb & Hc & Hd).
              exists (hit_pA ht - pA s). split; [ | apply in_zrange; lia].
              replace (pA s + (hit_pA ht - pA s)) with (hit_pA ht) by lia.
              rewrite iB_first_dense by (auto; lia).
              pose proof (B_dense_index EdB (hit_pB ht - pB s) ltac:(lia))
                as EB.
              replace (pB s + (hit_pB ht - pB s)) with (hit_pB ht) in EB
                by lia.
              apply hit_ext; lia.
        -- apply sorted_map_zrange. intros a b Ha Hab Hb.
           unfold hit_lt, hit_i; cbn [fst]. apply HA3; lia.
      * destruct (ajnz s >? 32 * bjnz s);
          [ | destruct (bjnz s >? 32 * ajnz s)].
        -- (* A(:,j) is much denser than B(:,j) *)
           apply (A_much_denser_spec Ai Bi (pA s)); auto;
             unfold bjnz; try lia; intros; lia.
        -- (* B(:,j) is much denser than A(:,j) *)
           apply (B_much_denser_spec Ai Bi (pB s)); auto;
             unfold ajnz; try lia; intros; lia.
        -- (* about the same number of entries *)
           apply linear_scan_spec; auto; unfold ajnz, bjnz; lia.
Qed.

Lemma no_hit_no_entry (M : option mask) :
  slice_ok Ai Bi M s wlo ->
  (forall ht, ~ is_hit Ai Bi M s ht) -> vector_hits Ai Bi M s = [].
Proof.
  intros Hok Hno. destruct (vector_hits Ai Bi M s) as [| ht L] eqn:E;
    [reflexivity | ].
  exfalso. apply (Hno ht). apply (vector_hits_spec M Hok). rewrite E. left.
  reflexivity.
Qed.

(** Phase 1 counts what phase 2 stores. *)
Lemma phase1_counts_hits (M : option mask) :
  slice_ok Ai Bi M s wlo ->
  phase1_cjnz Ai Bi M s = Z.of_nat (length (vector_hits Ai Bi M s)).
Proof.
  intros Hok.
  pose proof slice_A as HA. pose proof slice_B as HB.
  destruct HA as (HA1 & HA2 & HA3 & HA4).
  destruct HB as (HB1 & HB2 & HB3 & HB4).
  unfold phase1_cjnz.
  destruct ((ajnz s =? 0) || (bjnz s =? 0)) eqn:E0.
  { rewrite no_hit_no_entry; [reflexivity | exact Hok | ].
    intros ht (Ha & Hb & _). unfold ajnz, bjnz in E0.
    apply orb_prop in E0. destruct E0 as [E0 | E0]; apply Z.eqb_eq in E0; lia. }
  apply orb_false_elim in E0. destruct E0 as [E0a E0b].
  apply Z.eqb_neq in E0a, E0b. unfold ajnz, bjnz in E0a, E0b.
  destruct ((iA_last Ai s <? iB_first Bi s) || (iB_last Bi s <? iA_first Ai s))
    eqn:E1.
  { rewrite no_hit_no_entry; [reflexivity | exact Hok | ].
    intros ht (Ha & Hb & Hc & Hd & _).
    unfold iA_last, iA_first, iB_last, iB_first, ajnz, bjnz in E1.
    replace (pA_end s - pA s >? 0) with true in E1
      by (symmetry; apply Z.gtb_lt; lia).
    replace (pB_end s - pB s >? 0) with true in E1
      by (symmetry; apply Z.gtb_lt; lia).
    assert (Ai (pA s) <= Ai (hit_pA ht) <= Ai (pA_end s - 1))
      by (split; apply (increasing_le Ai (pA s) (pA_end s)); auto; lia).
    assert (Bi (pB s) <= Bi (hit_pB ht) <= Bi (pB_end s - 1))
      by (split; apply (increasing_le Bi (pB s) (pB_end s)); auto; lia).
    apply orb_prop in E1. destruct E1 as [E1 | E1]; apply Z.ltb_lt in E1; lia. }
  destruct M as [m | ]; [reflexivity | ].
  unfold vector_hits.
  destruct (adense s) eqn:EdA; [destruct (bdense s) eqn:EdB | ]; cbn [andb].
  - unfold both_dense. rewrite length_map, length_zrange. unfold ajnz. lia.
  - unfold A_dense. rewrite length_map, length_zrange. unfold bjnz. lia.
  - destruct (bdense s) eqn:EdB; [ | reflexivity].
    unfold B_dense. rewrite length_map, length_zrange. unfold ajnz. lia.
Qed.

End OneVector.

Section KernelFacts.

Variables atype btype ctype xtype ytype : Type.
Variable GB_GETA : array atype -> Z -> xtype.
Variable GB_GETB : array btype -> Z -> ytype.
Variable GB_BINOP : xtype -> ytype -> Z -> Z -> ctype.
Variable A : matrix atype.
Variable B : matrix btype.
Variable Mask : option (matrix Z * bool).

Local Abbreviation M := (mask_arrays Mask).
Local Abbreviation entries :=
  (phase2_entries atype btype ctype xtype ytype GB_GETA GB_GETB GB_BINOP
     A B Mask).

(** One vector of C: an index [ii] gets an entry exactly when the slice has
    a hit for it, the value is [GB_BINOP] of the two entries fetched, the
    indices come out strictly increasing, and phase 1 counted them. *)
Lemma phase2_vector_spec (s : slice) (wlo j : Z) :
  slice_ok (i A) (i B) M s wlo ->
  let es := entries s j (phase1_cjnz (i A) (i B) M s) in
  (forall ii v,
     In (ii, v) es <->
     exists pa pb,
       is_hit (i A) (i B) M s (ii, pa, pb)
       /\ v = GB_BINOP (GB_GETA (x A) pa) (GB_GETB (x B) pb) ii j)
  /\ StronglySorted entry_lt es
  /\ Z.of_nat (length es) = phase1_cjnz (i A) (i B) M s.
Proof.
  intros Hok es.
  destruct (vector_hits_spec (i A) (i B) s wlo (proj1 Hok)
              (proj1 (proj2 Hok)) M Hok) as [Hin Hsorted].
  pose proof (phase1_counts_hits (i A) (i B) s wlo (proj1 Hok)
                (proj1 (proj2 Hok)) M Hok) as Hcount.
  assert (Hes : es = map (fun ht : hit =>
                   (hit_i ht,
                    GB_BINOP (GB_GETA (x A) (hit_pA ht))
                             (GB_GETB (x B) (hit_pB ht)) (hit_i ht) j))
                  (vector_hits (i A) (i B) M s)).
  { subst es. unfold phase2_entries.
    destruct (phase1_cjnz (i A) (i B) M s =? 0) eqn:E; [ | reflexivity].
    apply Z.eqb_eq in E. rewrite E in Hcount.
    destruct (vector_hits (i A) (i B) M s); [reflexivity | ].
    cbn [length] in Hcount. lia. }
  rewrite Hes. split; [ | split].
  - intros ii v. rewrite in_map_iff. split.
    + intros (ht & Heq & Hht). inversion Heq; subst ii v.
      exists (hit_pA ht), (hit_pB ht). split; [ | reflexivity].
      rewrite <- hit_eta. apply Hin. exact Hht.
    + intros (pa & pb & Hhit & ->).
      exists (ii, pa, pb). split; [reflexivity | ]. apply Hin. exact Hhit.
  - clear Hes Hin Hcount. induction Hsorted as [| ht L HL IH HF]; cbn [map];
      constructor; [exact IH | ].
    apply Forall_forall. intros e He. apply in_map_iff in He.
    destruct He as (ht' & <- & Hht').
    rewrite Forall_forall in HF. apply (HF ht' Hht').
  - rewrite length_map. symmetry. exact Hcount.
Qed.

End KernelFacts.


(** ** The two phases over the tasks *)

Lemma zrange_succ (k : Z) : 0 <= k -> zrange (k + 1) = zrange k ++ [k].
Proof.
  intros Hk. unfold zrange.
  replace (Z.to_nat (k + 1)) with (Datatypes.S (Z.to_nat k)) by lia.
  rewrite seq_S, map_app. cbn. rewrite Z2Nat.id by lia. reflexivity.
Qed.

(** Induction upwards from [a]. *)
Lemma from_ind (P : Z -> Prop) (a : Z) :
  P a -> (forall b, a <= b -> P b -> P (b + 1)) -> forall b, a <= b -> P b.
Proof.
  intros H0 Hs b Hb. replace b with (a + (b - a)) by lia.
  assert (Hd : 0 <= b - a) by lia. revert Hd. generalize (b - a).
  intros d Hd. pattern d. apply natlike_ind; [ | | exact Hd].
  - replace (a + 0) with a by lia. exact H0.
  - intros d' Hd' IH. replace (a + Z.succ d') with (a + d' + 1) by lia.
    apply Hs; [lia | exact IH].
Qed.

Lemma cumsum_0 (count : array Z) : cumsum count 0 = 0.
Proof. reflexivity. Qed.

Lemma cumsum_succ (count : array Z) (k : Z) :
  0 <= k -> cumsum count (k + 1) = cumsum count k + count k.
Proof.
  intros Hk. unfold cumsum. rewrite zrange_succ by lia.
  rewrite map_app, fold_left_app. reflexivity.
Qed.

Lemma cumsum_ext (c1 c2 : array Z) (k : Z) :
  (forall k', 0 <= k' < k -> c1 k' = c2 k') -> cumsum c1 k = cumsum c2 k.
Proof.
  intros H. unfold cumsum. f_equal. apply map_ext_in.
  intros a Ha. apply in_zrange in Ha. apply H. exact Ha.
Qed.

Lemma cumsum_monotone (count : array Z) (n : Z) :
  (forall k, 0 <= k < n -> 0 <= count k) ->
  forall a b, 0 <= a -> a <= b -> b <= n -> cumsum count a <= cumsum count b.
Proof.
  intros Hpos a b Ha Hab. revert b Hab.
  apply (from_ind (fun b => b <= n -> cumsum count a <= cumsum count b)).
  - lia.
  - intros b Hb IH Hn. rewrite cumsum_succ by lia.
    specialize (IH ltac:(lia)). specialize (Hpos b ltac:(lia)). lia.
Qed.

(** Counts of zero add nothing. *)
Lemma cumsum_skip (count : array Z) (a : Z) :
  0 <= a ->
  forall b, a <= b ->
    (forall d, a <= d < b -> count d = 0) -> cumsum count b = cumsum count a.
Proof.
  intros Ha.
  apply (from_ind (fun b => (forall d, a <= d < b -> count d = 0) ->
                            cumsum count b = cumsum count a)).
  - reflexivity.
  - intros b Hb IH Hz. rewrite cumsum_succ by lia.
    rewrite IH by (intros d Hd; apply Hz; lia).
    rewrite (Hz b) by lia. lia.
Qed.

(** Every position below the sum falls in the share of one summand. *)
Lemma cumsum_locate (count : array Z) (x : Z) :
  0 <= x ->
  forall n, 0 <= n ->
    (forall d, 0 <= d < n -> 0 <= count d) ->
    x < cumsum count n ->
    exists d, 0 <= d < n /\ cumsum count d <= x < cumsum count (d + 1).
Proof.
  intros Hx.
  apply (from_ind (fun n => (forall d, 0 <= d < n -> 0 <= count d) ->
                            x < cumsum count n ->
                            exists d, 0 <= d < n
                              /\ cumsum count d <= x < cumsum count (d + 1))).
  - intros _ H. rewrite cumsum_0 in H. lia.
  - intros n Hn IH Hpos Hlt.
    destruct (Z_lt_le_dec x (cumsum count n)) as [L | L].
    + destruct IH as (d & Hd & Hin); [intros d Hd; apply Hpos; lia | exact L | ].
      exists d. split; [lia | exact Hin].
    + exists n. split; [lia | ]. split; [exact L | exact Hlt].
Qed.

Section Writes.

Variable ctype : Type.

Lemma write_entries_spec : forall (es : list (Z * ctype)) Ci Cx pC,
  let W := write_entries ctype Ci Cx pC es in
  (forall q, q < pC \/ pC + Z.of_nat (length es) <= q ->
             fst W q = Ci q /\ snd W q = Cx q)
  /\ (forall n e, nth_error es n = Some e ->
        fst W (pC + Z.of_nat n) = fst e /\ snd W (pC + Z.of_nat n) = snd e).
Proof.
  induction es as [| [ii v] es IH]; intros Ci Cx pC; cbn [write_entries].
  - split; [auto | ]. intros [| n] e H; discriminate H.
  - destruct (IH (store Z Ci pC ii) (store ctype Cx pC v) (pC + 1))
      as [IH1 IH2].
    cbn zeta in *. split.
    + intros q Hq. cbn [length] in Hq.
      destruct (IH1 q ltac:(lia)) as [E1 E2]. rewrite E1, E2.
      unfold store. replace (q =? pC) with false
        by (symmetry; apply Z.eqb_neq; lia).
      split; reflexivity.
    + intros [| n] e He; cbn [nth_error] in He.
      * inversion He; subst e. cbn [fst snd].
        replace (pC + Z.of_nat 0) with pC by lia.
        destruct (IH1 pC ltac:(lia)) as [E1 E2]. rewrite E1, E2.
        unfold store. rewrite Z.eqb_refl. split; reflexivity.
      * replace (pC + Z.of_nat (Datatypes.S n))
          with (pC + 1 + Z.of_nat n) by lia.
        apply IH2. exact He.
Qed.

(** Writers are named by keys of any kind: here the pairs of a task and a
    vector. *)
Variable K : Type.
Variable K_eq_dec : forall a b : K, {a = b} + {a <> b}.
Variable start : K -> Z.
Variable E : K -> list (Z * ctype).

(** Writers that fill disjoint parts of [Ci], [Cx] do not disturb one
    another: whatever one of them wrote is there at the end. *)
Lemma fold_write_spec : forall ks Ci Cx,
  (forall k1 k2, In k1 ks -> In k2 ks -> k1 <> k2 ->
     start k1 + Z.of_nat (length (E k1)) <= start k2
     \/ start k2 + Z.of_nat (length (E k2)) <= start k1) ->
  let W := fold_left
             (fun C k => write_entries ctype (fst C) (snd C) (start k) (E k))
             ks (Ci, Cx) in
  forall k n e, In k ks -> nth_error (E k) n = Some e ->
    fst W (start k + Z.of_nat n) = fst e
    /\ snd W (start k + Z.of_nat n) = snd e.
Proof.
  induction ks as [| k0 ks IH] using rev_ind; intros Ci Cx Hapart W.
  - intros k n e [].
  - subst W. rewrite fold_left_app. cbn [fold_left].
    set (W0 := fold_left
                 (fun C k =>
                    write_entries ctype (fst C) (snd C) (start k) (E k))
                 ks (Ci, Cx)).
    destruct (write_entries_spec (E k0) (fst W0) (snd W0) (start k0))
      as [W1 W2].
    cbn zeta in W1, W2.
    intros k n e Hk He.
    destruct (K_eq_dec k k0) as [-> | Hne]; [apply W2; exact He | ].
    apply in_app_or in Hk. destruct Hk as [Hk | [Hk | []]];
      [ | congruence].
    assert (Hlt : (n < length (E k))%nat)
      by (apply nth_error_Some; rewrite He; discriminate).
    destruct (W1 (start k + Z.of_nat n)) as [E1 E2].
    { destruct (Hapart k k0) as [Ha | Ha]; try lia; try exact Hne.
      - apply in_or_app. left. exact Hk.
      - apply in_or_app. right. left. reflexivity. }
    rewrite E1, E2. apply (IH Ci Cx); [ | exact Hk | exact He].
    intros k1 k2 H1 H2. apply Hapart; apply in_or_app; left; assumption.
Qed.

End Writes.

Lemma sorted_nth_error {T : Type} (R : T -> T -> Prop) (l : list T) :
  StronglySorted R l ->
  forall n1 n2 a b, (n1 < n2)%nat ->
    nth_error l n1 = Some a -> nth_error l n2 = Some b -> R a b.
Proof.
  induction 1 as [| x l Hs IH HF]; intros n1 n2 a b Hlt H1 H2.
  - destruct n1; discriminate H1.
  - destruct n2 as [| n2]; [lia | ]. cbn in H2.
    destruct n1 as [| n1]; cbn in H1.
    + inversion H1; subst x. rewrite Forall_forall in HF. apply HF.
      eapply nth_error_In. exact H2.
    + apply (IH n1 n2); auto. lia.
Qed.

(** ** Headers *)

Lemma GBH_inj {T : Type} (X : matrix T) (k1 k2 : Z) :
  sparse_ok X -> 0 <= k1 < nvec X -> 0 <= k2 < nvec X ->
  GBH (h X) k1 = GBH (h X) k2 -> k1 = k2.
Proof.
  intros [Hh _] H1 H2. unfold GBH. destruct (h X) as [Xh | ]; [ | auto].
  intros E. destruct (Z.lt_trichotomy k1 k2) as [L | [L | L]]; [ | exact L | ].
  - specialize (Hh k1 k2). lia.
  - specialize (Hh k2 k1). lia.
Qed.

Section Header.

Variable T : Type.
Variable X : matrix T.
Variable Ch : option (array Z).
Variable Cnvec : Z.
Variable same_h : bool.
Variable C_to_X : option (array Z).
Hypothesis HX : sparse_ok X.
Hypothesis Hmap : map_ok X Ch Cnvec same_h C_to_X.

Local Abbreviation Xlo k := (fst (vector_of Ch (p X) same_h C_to_X k)).
Local Abbreviation Xhi k := (snd (vector_of Ch (p X) same_h C_to_X k)).

(** A coarse task gets a whole vector of [X], or nothing. *)
Lemma vector_of_ok (k : Z) :
  0 <= k < Cnvec -> range_ok (i X) (Xlo k) (Xhi k) 0 (vlen X).
Proof.
  intros Hk. unfold vector_of. destruct (Hmap k Hk) as [[Hr _] | [Hneg _]].
  - replace (vector_index Ch same_h C_to_X k >=? 0) with true
      by (symmetry; apply Z.geb_le; lia).
    cbn [fst snd]. apply HX. exact Hr.
  - replace (vector_index Ch same_h C_to_X k >=? 0) with false
      by (symmetry; rewrite Z.geb_leb; apply Z.leb_gt; lia).
    cbn [fst snd]. unfold range_ok, increasing, in_window.
    repeat split; intros; lia.
Qed.

Lemma vector_of_stored (k r q : Z) :
  0 <= k < Cnvec ->
  (Xlo k <= q < Xhi k /\ i X q = r) <-> stored_at X r (GBH Ch k) q.
Proof.
  intros Hk. unfold vector_of, stored_at.
  destruct (Hmap k Hk) as [[Hr Hn] | [Hneg Hno]].
  - replace (vector_index Ch same_h C_to_X k >=? 0) with true
      by (symmetry; apply Z.geb_le; lia).
    cbn [fst snd]. split.
    + intros [Hq Hi]. exists (vector_index Ch same_h C_to_X k). auto.
    + intros (kX & HkX & Hname & Hq & Hi).
      assert (kX = vector_index Ch same_h C_to_X k) as <-
        by (apply (GBH_inj X); auto; congruence).
      auto.
  - replace (vector_index Ch same_h C_to_X k >=? 0) with false
      by (symmetry; rewrite Z.geb_leb; apply Z.leb_gt; lia).
    cbn [fst snd]. split; [lia | ].
    intros (kX & HkX & Hname & _). exfalso. apply (Hno kX HkX Hname).
Qed.

End Header.

(** A part of a vector cut out by a window of rows. *)
Lemma window_range_ok (X : array Z) (lo hi tlo thi w0 l0 wlo wlen : Z) :
  range_ok X lo hi w0 l0 -> window_of X lo hi tlo thi wlo wlen ->
  range_ok X tlo thi wlo wlen.
Proof.
  intros (H1 & H2 & H3 & H4) (L1 & L2 & L3 & Hw). unfold range_ok.
  split; [exact L2 | ]. split; [lia | ]. split.
  - apply (increasing_sub X lo hi); auto.
  - intros q Hq. apply Hw; lia.
Qed.

(** ** Task lists *)

Lemma in_task_vectors (t : Task.GB_task_struct) (k : Z) :
  In k (task_vectors t) <-> Task.kfirst t <= k <= task_last t.
Proof.
  unfold task_vectors. rewrite in_map_iff. split.
  - intros (d & <- & Hd). apply in_zrange in Hd. lia.
  - intros Hk. exists (k - Task.kfirst t). split; [lia | ].
    apply in_zrange. lia.
Qed.

Lemma in_units (TaskList : array Task.GB_task_struct) (ntasks a k : Z) :
  In (a, k) (units TaskList ntasks)
  <-> 0 <= a < ntasks
      /\ Task.kfirst (TaskList a) <= k <= task_last (TaskList a).
Proof.
  unfold units. rewrite in_flat_map. split.
  - intros (a' & Ha & Hin). apply in_map_iff in Hin.
    destruct Hin as (k' & Heq & Hk'). inversion Heq; subst a' k'.
    apply in_zrange in Ha. apply in_task_vectors in Hk'. auto.
  - intros [Ha Hk]. exists a. split; [apply in_zrange; exact Ha | ].
    apply in_map. apply in_task_vectors. exact Hk.
Qed.

(** Phase 1 and the cumulative sum change the field [pC] of the
    descriptors and nothing else. *)
Lemma same_tasks_refl (TL : array Task.GB_task_struct) : same_tasks TL TL.
Proof. intros a. exists (Task.pC (TL a)). destruct (TL a); reflexivity. Qed.

Lemma same_tasks_units (TL1 TL2 : array Task.GB_task_struct) (ntasks : Z) :
  same_tasks TL1 TL2 -> units TL1 ntasks = units TL2 ntasks.
Proof.
  intros H. unfold units. apply flat_map_ext. intros a.
  destruct (H a) as [c ->]. reflexivity.
Qed.

Lemma same_tasks_fine_on (TL1 TL2 : array Task.GB_task_struct) (k a : Z) :
  same_tasks TL1 TL2 -> fine_on TL1 k a = fine_on TL2 k a.
Proof. intros H. unfold fine_on. destruct (H a) as [c ->]. reflexivity. Qed.

Lemma fine_on_spec (TL : array Task.GB_task_struct) (k a : Z) :
  fine_on TL k a = true
  <-> fine_task (TL a) = true /\ Task.kfirst (TL a) = k.
Proof. unfold fine_on. rewrite andb_true_iff, Z.eqb_eq. tauto. Qed.

Lemma existsb_same {T : Type} (f g : T -> bool) (l : list T) :
  (forall a, In a l -> f a = g a) -> existsb f l = existsb g l.
Proof.
  induction l as [| a l IH]; intros H; cbn; [reflexivity | ].
  rewrite (H a) by (left; reflexivity).
  rewrite IH by (intros b Hb; apply H; right; exact Hb). reflexivity.
Qed.

Lemma fold_left_same {S T : Type} (f g : S -> T -> S) (l : list T) :
  (forall acc a, In a l -> f acc a = g acc a) ->
  forall acc, fold_left f l acc = fold_left g l acc.
Proof.
  induction l as [| a l IH]; intros H acc; cbn; [reflexivity | ].
  rewrite (H acc a) by (left; reflexivity).
  apply IH. intros acc' b Hb. apply H. right. exact Hb.
Qed.

Lemma unit_eq_dec (u1 u2 : Z * Z) : {u1 = u2} + {u1 <> u2}.
Proof. decide equality; apply Z.eq_dec. Qed.

Section Tasks.

Variables atype btype ctype xtype ytype : Type.
Variable GB_GETA : array atype -> Z -> xtype.
Variable GB_GETB : array btype -> Z -> ytype.
Variable GB_BINOP : xtype -> ytype -> Z -> Z -> ctype.
Variable A : matrix atype.
Variable B : matrix btype.
Variable Mask : option (matrix Z * bool).
Variable Ch : option (array Z).
Variables Ch_is_Ah Ch_is_Bh Ch_is_Mh : bool.
Variables C_to_A C_to_B C_to_M : option (array Z).
Variable TaskList : array Task.GB_task_struct.
Variables ntasks Cnvec : Z.
Variable W : Z -> Z.

Local Abbreviation whole :=
  (coarse_slice atype btype A B Mask Ch Ch_is_Ah Ch_is_Bh Ch_is_Mh
     C_to_A C_to_B C_to_M).
Local Abbreviation slice_of :=
  (task_slice atype btype A B Mask Ch Ch_is_Ah Ch_is_Bh Ch_is_Mh
     C_to_A C_to_B C_to_M).
Local Abbreviation Mk := (mask_arrays Mask).
Local Abbreviation count_of s := (phase1_cjnz (i A) (i B) Mk s).

Hypothesis HA : sparse_ok A.
Hypothesis HB : sparse_ok B.
Hypothesis Hvlen : vlen B = vlen A.
Hypothesis HM : mask_ok Mask (vlen A) (vdim A).
Hypothesis Hhead :
  header_ok A B Mask Ch Cnvec Ch_is_Ah Ch_is_Bh Ch_is_Mh
            C_to_A C_to_B C_to_M.
Hypothesis Htasks : tasks_ok A B Mask whole TaskList ntasks Cnvec W.

(** *** The slices of the tasks *)

Lemma coarse_slice_ok (k : Z) :
  0 <= k < Cnvec -> slice_ok (i A) (i B) Mk (whole k) 0.
Proof.
  intros Hk. destruct Hhead as (HmA & HmB & HmM & _).
  unfold coarse_slice, slice_ok. cbn [pA pA_end pB pB_end pM pM_end len].
  split; [apply (vector_of_ok atype A Ch Cnvec); assumption | ]. split.
  - rewrite <- Hvlen. apply (vector_of_ok btype B Ch Cnvec); assumption.
  - unfold mask_arrays, mask_ok in *.
    destruct Mask as [[Mm st] | ]; [ | exact I].
    cbn [Mi]. destruct HM as (HMm & Hl & _). rewrite <- Hl.
    apply (vector_of_ok Z Mm Ch Cnvec); assumption.
Qed.

Lemma is_hit_coarse (k r pa pb : Z) :
  0 <= k < Cnvec ->
  is_hit (i A) (i B) Mk (whole k) (r, pa, pb)
  <-> stored_at A r (GBH Ch k) pa /\ stored_at B r (GBH Ch k) pb
      /\ mask_true Mask r (GBH Ch k).
Proof.
  intros Hk. destruct Hhead as (HmA & HmB & HmM & _).
  pose proof (vector_of_stored atype A Ch Cnvec Ch_is_Ah C_to_A HA HmA
                k r pa Hk) as SA.
  pose proof (vector_of_stored btype B Ch Cnvec Ch_is_Bh C_to_B HB HmB
                k r pb Hk) as SB.
  unfold is_hit, coarse_slice.
  cbn [pA pA_end pB pB_end pM pM_end len hit_i hit_pA hit_pB fst snd].
  unfold hit_i, hit_pA, hit_pB; cbn [fst snd].
  rewrite <- SA, <- SB.
  unfold mask_arrays, mask_true, mask_ok in *.
  destruct Mask as [[Mm st] | ]; [ | tauto].
  cbn [Mi Mx]. destruct HM as (HMm & _).
  assert (Hm : forall pm,
            GB_mcast (if st then None else Some (x Mm)) pm = true
            <-> st = true \/ x Mm pm <> 0).
  { intros pm. destruct st; cbn.
    - split; auto.
    - rewrite negb_true_iff, Z.eqb_neq. split; [auto | ].
      intros [H | H]; [discriminate | exact H]. }
  split.
  - intros (Ha & Hb & Hc & Hd & pm & Hpm & E & Hv).
    repeat split; auto; try lia.
    exists pm. rewrite <- Hm. split; [ | exact Hv].
    apply (vector_of_stored Z Mm Ch Cnvec Ch_is_Mh C_to_M HMm HmM
             k r pm Hk). auto.
  - intros ((Ha & Hc) & (Hb & Hd) & pm & Hst & Hv).
    apply (vector_of_stored Z Mm Ch Cnvec Ch_is_Mh C_to_M HMm HmM
             k r pm Hk) in Hst.
    repeat split; auto; try lia.
    exists pm. rewrite Hm. tauto.
Qed.

(** The slice of a task in one of its vectors. *)
Lemma unit_slice_ok (a k : Z) :
  In (a, k) (units TaskList ntasks) ->
  slice_ok (i A) (i B) Mk (slice_of (TaskList a) k)
           (window_start TaskList W a).
Proof.
  intros Hu. apply in_units in Hu. destruct Hu as [Ha Hk].
  destruct Htasks as (Hwf & _). destruct (Hwf a Ha) as (H0 & H1 & H2 & Hf).
  unfold task_slice, window_start, task_last in *.
  destruct (fine_task (TaskList a)) eqn:Ef.
  - destruct (Hf eq_refl) as (WA & WB & WM).
    pose proof (coarse_slice_ok (Task.kfirst (TaskList a)) ltac:(lia))
      as (OA & OB & OM).
    unfold slice_ok. cbn [pA pA_end pB pB_end pM pM_end len].
    split; [exact (window_range_ok _ _ _ _ _ _ _ _ _ OA WA) | ].
    split; [exact (window_range_ok _ _ _ _ _ _ _ _ _ OB WB) | ].
    unfold mask_arrays in *. destruct Mask as [[Mm st] | ]; [ | exact I].
    cbn [Mi] in *. exact (window_range_ok _ _ _ _ _ _ _ _ _ OM WM).
  - apply coarse_slice_ok. lia.
Qed.

(** A fine task finds the hits of its vector that fall in its window. *)
Lemma is_hit_fine (a r pa pb : Z) :
  0 <= a < ntasks -> fine_task (TaskList a) = true ->
  let t := TaskList a in
  is_hit (i A) (i B) Mk (slice_of t (Task.kfirst t)) (r, pa, pb)
  <-> is_hit (i A) (i B) Mk (whole (Task.kfirst t)) (r, pa, pb)
      /\ W a <= r < W a + Task.len t.
Proof.
  intros Ha Ef t. subst t. destruct Htasks as (Hwf & _).
  destruct (Hwf a Ha) as (_ & _ & _ & Hf).
  destruct (Hf Ef) as ((A1 & A2 & A3 & WA) & (B1 & B2 & B3 & WB) & WM).
  unfold task_slice. rewrite Ef. unfold is_hit.
  cbn [pA pA_end pB pB_end pM pM_end len].
  unfold hit_i, hit_pA, hit_pB; cbn [fst snd].
  set (t := TaskList a) in *.
  set (s := whole (Task.kfirst t)) in *.
  split.
  - intros (Ha' & Hb' & Ea & Eb & Hm).
    assert (Hwin : W a <= r < W a + Task.len t)
      by (rewrite <- Ea; apply WA; lia).
    split; [ | exact Hwin].
    split; [lia | ]. split; [lia | ]. split; [exact Ea | ].
    split; [exact Eb | ].
    unfold mask_arrays in *. destruct Mask as [[Mm st] | ]; [ | exact I].
    cbn [Mi Mx] in *. destruct WM as (M1 & M2 & M3 & _).
    destruct Hm as (pm & Hpm & Em & Hv). exists pm.
    split; [lia | auto].
  - intros ((Ha' & Hb' & Ea & Eb & Hm) & Hwin).
    split; [apply WA; [exact Ha' | rewrite Ea; exact Hwin] | ].
    split; [apply WB; [exact Hb' | rewrite Eb; exact Hwin] | ].
    split; [exact Ea | ]. split; [exact Eb | ].
    unfold mask_arrays in *. destruct Mask as [[Mm st] | ]; [ | exact I].
    cbn [Mi Mx] in *. destruct WM as (_ & _ & _ & WM).
    destruct Hm as (pm & Hpm & Em & Hv). exists pm.
    split; [apply WM; [exact Hpm | rewrite Em; exact Hwin] | auto].
Qed.

(** *** Phase 1 *)

Local Abbreviation step1 :=
  (phase1_step atype btype A B Mask Ch Ch_is_Ah Ch_is_Bh Ch_is_Mh
     C_to_A C_to_B C_to_M).

Lemma fine_slice_any (t : Task.GB_task_struct) (k k' : Z) :
  fine_task t = true -> slice_of t k = slice_of t k'.
Proof. intros Ef. unfold task_slice. rewrite Ef. reflexivity. Qed.

Lemma coarse_slice_whole (t : Task.GB_task_struct) (k : Z) :
  fine_task t = false -> slice_of t k = whole k.
Proof. intros Ef. unfold task_slice. rewrite Ef. reflexivity. Qed.

(** Whatever the order of the tasks, phase 1 leaves the count of a fine
    task in its [pC] and the count of a vector with a coarse task in
    [Cp]. *)
Lemma phase1_fold (Cp0 : array Z) : forall us,
  let st := fold_left step1 us (TaskList, Cp0) in
  same_tasks (fst st) TaskList
  /\ (forall a k, In (a, k) us -> fine_task (TaskList a) = true ->
        Task.pC (fst st a) = count_of (slice_of (TaskList a) k))
  /\ (forall a k, In (a, k) us -> fine_task (TaskList a) = false ->
        snd st k = count_of (whole k)).
Proof.
  induction us as [| [a0 k0] us IH] using rev_ind; intros st.
  - subst st. cbn. split; [apply same_tasks_refl | ].
    split; intros a k [].
  - subst st. rewrite fold_left_app. cbn [fold_left].
    set (st := fold_left step1 us (TaskList, Cp0)) in *.
    cbn zeta in IH. destruct IH as (Hsame & Hfine & Hcoarse).
    unfold phase1_step. cbn [fst snd].
    destruct (Hsame a0) as [c0 E0]. rewrite E0.
    change (fine_task (set_pC (TaskList a0) c0))
      with (fine_task (TaskList a0)).
    change (slice_of (set_pC (TaskList a0) c0) k0)
      with (slice_of (TaskList a0) k0).
    destruct (fine_task (TaskList a0)) eqn:Ef; cbn [fst snd].
    + split; [ | split].
      * intros a. unfold store. destruct (a =? a0) eqn:Ea.
        -- apply Z.eqb_eq in Ea. subst a. eexists. reflexivity.
        -- apply Hsame.
      * intros a k Hin Efa. unfold store. destruct (a =? a0) eqn:Ea.
        -- apply Z.eqb_eq in Ea. subst a. cbn [Task.pC set_pC].
           f_equal. apply fine_slice_any. exact Ef.
        -- apply Hfine; [ | exact Efa].
           apply in_app_or in Hin. destruct Hin as [Hin | [Hin | []]];
             [exact Hin | ].
           inversion Hin; subst. rewrite Z.eqb_refl in Ea. discriminate.
      * intros a k Hin Efa. apply (Hcoarse a); [ | exact Efa].
        apply in_app_or in Hin. destruct Hin as [Hin | [Hin | []]];
          [exact Hin | ].
        inversion Hin; subst. congruence.
    + split; [exact Hsame | split].
      * intros a k Hin Efa. apply Hfine; [ | exact Efa].
        apply in_app_or in Hin. destruct Hin as [Hin | [Hin | []]];
          [exact Hin | ].
        inversion Hin; subst. congruence.
      * intros a k Hin Efa. unfold store. destruct (k =? k0) eqn:Ek.
        -- apply Z.eqb_eq in Ek. subst k. f_equal.
           apply coarse_slice_whole. exact Ef.
        -- apply (Hcoarse a); [ | exact Efa].
           apply in_app_or in Hin. destruct Hin as [Hin | [Hin | []]];
             [exact Hin | ].
           inversion Hin; subst. rewrite Z.eqb_refl in Ek. discriminate.
Qed.

(** *** The order of the tasks *)

Lemma task_wf (a : Z) :
  0 <= a < ntasks ->
  0 <= Task.kfirst (TaskList a)
  /\ Task.kfirst (TaskList a) <= task_last (TaskList a)
  /\ task_last (TaskList a) < Cnvec.
Proof.
  intros Ha. destruct Htasks as (Hwf & _).
  destruct (Hwf a Ha) as (H0 & H1 & H2 & _). auto.
Qed.

Lemma task_last_fine (a k : Z) :
  fine_on TaskList k a = true -> task_last (TaskList a) = k.
Proof.
  intros Hf. apply fine_on_spec in Hf. destruct Hf as [Ef Ek].
  unfold task_last. rewrite Ef. exact Ek.
Qed.

(** A vector with a coarse task has no fine task. *)
Lemma coarse_not_fine (a b k : Z) :
  0 <= a < ntasks -> fine_task (TaskList a) = false ->
  Task.kfirst (TaskList a) <= k <= task_last (TaskList a) ->
  0 <= b < ntasks -> fine_on TaskList k b = true -> False.
Proof.
  intros Ha Ea Hk Hb Hfb. destruct Htasks as (_ & Hord & _).
  pose proof (task_last_fine b k Hfb) as Lb.
  apply fine_on_spec in Hfb. destruct Hfb as [Eb Kb].
  destruct (Z.lt_trichotomy a b) as [L | [L | L]].
  - destruct (Hord a b ltac:(lia) L ltac:(lia)) as [H1 H2].
    destruct H2 as (E & _); [lia | congruence].
  - subst b. congruence.
  - destruct (Hord b a ltac:(lia) L ltac:(lia)) as [H1 H2].
    destruct H2 as (_ & E & _); [lia | congruence].
Qed.

(** Two tasks that share a vector are fine tasks of that vector. *)
Lemma same_vector_fine (a1 a2 k : Z) :
  In (a1, k) (units TaskList ntasks) -> In (a2, k) (units TaskList ntasks) ->
  a1 < a2 ->
  fine_on TaskList k a1 = true /\ fine_on TaskList k a2 = true.
Proof.
  intros H1 H2 L. apply in_units in H1, H2.
  destruct H1 as [Ha1 Hk1], H2 as [Ha2 Hk2].
  destruct Htasks as (_ & Hord & _).
  destruct (Hord a1 a2 ltac:(lia) L ltac:(lia)) as [Hle Heq].
  destruct Heq as (E1 & E2 & _); [lia | ].
  unfold task_last in *. rewrite E1 in *. rewrite E2 in *.
  split; apply fine_on_spec; split; auto; lia.
Qed.

(** The vector of a unit. *)
Lemma unit_vector (a k : Z) :
  In (a, k) (units TaskList ntasks) -> 0 <= k < Cnvec.
Proof.
  intros Hu. apply in_units in Hu. destruct Hu as [Ha Hk].
  pose proof (task_wf a Ha). lia.
Qed.

Lemma fine_unit (a k : Z) :
  In (a, k) (units TaskList ntasks) -> fine_task (TaskList a) = true ->
  k = Task.kfirst (TaskList a).
Proof.
  intros Hu Ef. apply in_units in Hu. destruct Hu as [Ha Hk].
  unfold task_last in Hk. rewrite Ef in Hk. lia.
Qed.

Lemma fine_on_unit (a k : Z) :
  0 <= a < ntasks -> fine_on TaskList k a = true ->
  In (a, k) (units TaskList ntasks).
Proof.
  intros Ha Hf. apply in_units. split; [exact Ha | ].
  pose proof (task_last_fine a k Hf).
  apply fine_on_spec in Hf. lia.
Qed.

(** Every vector of C has a task. *)
Lemma covered_by (k : Z) :
  0 <= k < Cnvec ->
  exists a, In (a, k) (units TaskList ntasks).
Proof.
  intros Hk. destruct Htasks as (_ & _ & Hcov).
  destruct (Hcov k Hk) as [(a & Ha & Ef & Hr) | ((a & Ha & Hf) & _)].
  - exists a. apply in_units. unfold task_last. rewrite Ef. auto.
  - exists a. apply fine_on_unit; assumption.
Qed.

(** The task after the last one of the vector [k] starts with the vector
    [k + 1], and there is none after the last vector. *)
Lemma last_task_last_vector (a k : Z) :
  In (a, k) (units TaskList ntasks) -> task_last (TaskList a) = k ->
  a + 1 = ntasks -> k + 1 = Cnvec.
Proof.
  intros Hu Hl Hn. pose proof (unit_vector a k Hu) as Hk.
  destruct (Z.eq_dec (k + 1) Cnvec) as [E | NE]; [exact E | exfalso].
  destruct (covered_by (k + 1) ltac:(lia)) as [b Hb].
  apply in_units in Hu, Hb. destruct Htasks as (_ & Hord & _).
  destruct (Z.eq_dec b a) as [-> | Hne]; [lia | ].
  destruct (Hord b a ltac:(lia) ltac:(lia) ltac:(lia)) as [Hle _].
  lia.
Qed.

Lemma next_task_next_vector (a k : Z) :
  In (a, k) (units TaskList ntasks) -> task_last (TaskList a) = k ->
  a + 1 < ntasks -> fine_on TaskList k (a + 1) = false ->
  Task.kfirst (TaskList (a + 1)) = k + 1.
Proof.
  intros Hu Hl Hn Hnf. pose proof (unit_vector a k Hu) as Hk.
  apply in_units in Hu. destruct Hu as [Ha Hka].
  destruct Htasks as (_ & Hord & _).
  pose proof (task_wf (a + 1) ltac:(lia)) as (W0 & W1 & W2).
  destruct (Hord a (a + 1) ltac:(lia) ltac:(lia) Hn) as [Hle Heq].
  assert (Hgt : k < Task.kfirst (TaskList (a + 1))).
  { destruct (Z.eq_dec (Task.kfirst (TaskList (a + 1))) k) as [E | NE];
      [ | lia].
    destruct Heq as (_ & Eb & _); [lia | ].
    assert (fine_on TaskList k (a + 1) = true)
      by (apply fine_on_spec; auto).
    congruence. }
  destruct (Z.eq_dec (Task.kfirst (TaskList (a + 1))) (k + 1)) as [E | NE];
    [exact E | exfalso].
  destruct (covered_by (k + 1) ltac:(lia)) as [b Hb].
  apply in_units in Hb. destruct Hb as [Hb Hkb].
  destruct (Z.lt_trichotomy b a) as [L | [L | L]].
  - destruct (Hord b a ltac:(lia) L ltac:(lia)) as [H1 _]. lia.
  - subst b. lia.
  - destruct (Z.eq_dec b (a + 1)) as [-> | Hne]; [lia | ].
    destruct (Hord (a + 1) b ltac:(lia) ltac:(lia) ltac:(lia)) as [H1 _].
    lia.
Qed.

(** No fine task of the vector [k] comes after one that does not have
    [k], once [k] has been left. *)
Lemma no_fine_after (a b k : Z) :
  0 <= a -> a < b -> b < ntasks ->
  k < task_last (TaskList a) -> fine_on TaskList k b = false.
Proof.
  intros Ha L Hb Hk. destruct (fine_on TaskList k b) eqn:Hf; [ | reflexivity].
  exfalso. destruct Htasks as (_ & Hord & _).
  destruct (Hord a b Ha L Hb) as [Hle _].
  apply fine_on_spec in Hf. lia.
Qed.

Lemma no_fine_before (a b k : Z) :
  0 <= b -> b < a -> a < ntasks ->
  Task.kfirst (TaskList a) < k -> fine_on TaskList k b = false.
Proof.
  intros Hb L Ha Hk. destruct (fine_on TaskList k b) eqn:Hf; [ | reflexivity].
  exfalso. destruct Htasks as (_ & Hord & _).
  destruct (Hord b a Hb L Ha) as [Hle _].
  pose proof (task_last_fine b k Hf). lia.
Qed.

(** *** The counts and the positions *)

Variable Cp0 : array Z.

Local Abbreviation counted :=
  (phase1 atype btype A B Mask Ch Ch_is_Ah Ch_is_Bh Ch_is_Mh
     C_to_A C_to_B C_to_M TaskList ntasks Cp0).
Local Abbreviation placed :=
  (GB_task_cumsum (snd counted) Cnvec (fst counted) ntasks).
Local Abbreviation Cp := (fst placed).
Local Abbreviation TL2 := (snd placed).

(** What a fine task counts, what the fine tasks of the vector [k] add up
    to, and what the vector [k] holds. *)
Local Abbreviation task_count a :=
  (count_of (slice_of (TaskList a) (Task.kfirst (TaskList a)))).
Local Abbreviation fine_share k :=
  (fun a => if fine_on TaskList k a then task_count a else 0).
Local Abbreviation vector_total :=
  (fun k => if existsb (fine_on TaskList k) (zrange ntasks)
            then cumsum (fine_share k) ntasks
            else count_of (whole k)).

Lemma count_nonneg (a k : Z) :
  In (a, k) (units TaskList ntasks) ->
  0 <= count_of (slice_of (TaskList a) k).
Proof.
  intros Hu. pose proof (unit_slice_ok a k Hu) as Hok.
  rewrite (phase1_counts_hits (i A) (i B) _ _ (proj1 Hok)
             (proj1 (proj2 Hok)) Mk Hok).
  lia.
Qed.

Lemma counted_spec :
  same_tasks (fst counted) TaskList
  /\ (forall a, 0 <= a < ntasks -> fine_task (TaskList a) = true ->
        Task.pC (fst counted a) = task_count a)
  /\ (forall k, 0 <= k < Cnvec ->
        existsb (fine_on TaskList k) (zrange ntasks) = false ->
        snd counted k = count_of (whole k)).
Proof.
  unfold phase1.
  destruct (phase1_fold Cp0 (units TaskList ntasks)) as (S & F & C).
  split; [exact S | split].
  - intros a Ha Ef. apply F; [ | exact Ef].
    apply in_units. pose proof (task_wf a Ha). lia.
  - intros k Hk Hnone. destruct Htasks as (_ & _ & Hcov).
    destruct (Hcov k Hk) as [(a & Ha & Ef & Hr) | ((a & Ha & Hf) & _)].
    + apply (C a); [ | exact Ef]. apply in_units.
      unfold task_last. rewrite Ef. auto.
    + assert (existsb (fine_on TaskList k) (zrange ntasks) = true).
      { apply existsb_exists. exists a. split; [ | exact Hf].
        apply in_zrange. exact Ha. }
      congruence.
Qed.

Lemma fine_count_counted (k n : Z) :
  n <= ntasks -> fine_count (fst counted) k n = cumsum (fine_share k) n.
Proof.
  intros Hn. destruct counted_spec as (S & F & _).
  unfold fine_count. apply cumsum_ext. intros a Ha.
  rewrite (same_tasks_fine_on _ TaskList k a S).
  destruct (fine_on TaskList k a) eqn:Hf; [ | reflexivity].
  apply fine_on_spec in Hf. apply F; [lia | tauto].
Qed.

Lemma Cp_spec (k : Z) : k <= Cnvec -> Cp k = cumsum vector_total k.
Proof.
  intros Hk. destruct counted_spec as (S & _ & C).
  unfold GB_task_cumsum. cbn [fst]. apply cumsum_ext. intros k' Hk'.
  unfold vector_count.
  rewrite (existsb_same (fine_on (fst counted) k') (fine_on TaskList k'))
    by (intros a _; apply same_tasks_fine_on; exact S).
  destruct (existsb (fine_on TaskList k') (zrange ntasks)) eqn:Ex.
  - apply fine_count_counted. lia.
  - apply C; [lia | exact Ex].
Qed.

Lemma fine_share_nonneg (k a : Z) : 0 <= a < ntasks -> 0 <= fine_share k a.
Proof.
  intros Ha. cbn beta. destruct (fine_on TaskList k a) eqn:Hf; [ | lia].
  pose proof (fine_on_unit a k Ha Hf) as Hu.
  apply fine_on_spec in Hf. destruct Hf as [_ <-].
  apply count_nonneg. exact Hu.
Qed.

Lemma vector_total_nonneg (k : Z) : 0 <= k < Cnvec -> 0 <= vector_total k.
Proof.
  intros Hk. cbn beta.
  destruct (existsb (fine_on TaskList k) (zrange ntasks)) eqn:Ex.
  - apply existsb_exists in Ex. destruct Ex as (a & Ha & _).
    apply in_zrange in Ha.
    change 0 with (cumsum (fine_share k) 0) at 1.
    apply (cumsum_monotone (fine_share k) ntasks); try lia.
    intros d Hd. apply fine_share_nonneg. exact Hd.
  - pose proof (coarse_slice_ok k Hk) as Hok.
    rewrite (phase1_counts_hits (i A) (i B) _ _ (proj1 Hok)
               (proj1 (proj2 Hok)) Mk Hok).
    lia.
Qed.

Lemma Cp_succ (k : Z) :
  0 <= k < Cnvec -> Cp (k + 1) = Cp k + vector_total k.
Proof.
  intros Hk. rewrite !Cp_spec by lia. apply cumsum_succ. lia.
Qed.

Lemma Cp_monotone (k1 k2 : Z) :
  0 <= k1 -> k1 <= k2 -> k2 <= Cnvec -> Cp k1 <= Cp k2.
Proof.
  intros H1 H12 H2. rewrite !Cp_spec by lia.
  apply (cumsum_monotone vector_total Cnvec); auto.
  apply vector_total_nonneg.
Qed.

Lemma placed_task (a : Z) :
  0 <= a < ntasks ->
  TL2 a = set_pC (TaskList a)
            (Cp (Task.kfirst (TaskList a))
             + if fine_task (TaskList a)
               then cumsum (fine_share (Task.kfirst (TaskList a))) a
               else 0).
Proof.
  intros Ha. destruct counted_spec as (S & _ & _).
  unfold GB_task_cumsum at 1. cbn [snd].
  replace ((0 <=? a) && (a <? ntasks)) with true
    by (symmetry; apply andb_true_iff; split;
        [apply Z.leb_le | apply Z.ltb_lt]; lia).
  destruct (S a) as [c E]. rewrite E.
  change (fine_task (set_pC (TaskList a) c)) with (fine_task (TaskList a)).
  change (Task.kfirst (set_pC (TaskList a) c))
    with (Task.kfirst (TaskList a)).
  destruct (fine_task (TaskList a)).
  - rewrite fine_count_counted by lia. reflexivity.
  - rewrite Z.add_0_r. reflexivity.
Qed.

Lemma placed_end : Task.pC (TL2 ntasks) = Cp Cnvec.
Proof.
  unfold GB_task_cumsum at 1. cbn [snd].
  replace ((0 <=? ntasks) && (ntasks <? ntasks)) with false
    by (symmetry; apply andb_false_iff; right; apply Z.ltb_ge; lia).
  rewrite Z.eqb_refl. reflexivity.
Qed.

Lemma placed_same : same_tasks TL2 TaskList.
Proof.
  intros a. destruct counted_spec as (S & _ & _).
  unfold GB_task_cumsum. cbn [snd]. destruct (S a) as [c E]. rewrite E.
  destruct ((0 <=? a) && (a <? ntasks));
    [destruct (fine_task (set_pC (TaskList a) c)) | destruct (a =? ntasks)];
    eexists; reflexivity.
Qed.

(** Where a task starts to write in one of its vectors. *)
Local Abbreviation unit_start a k :=
  (Cp k%Z
   + if fine_task (TaskList a) then cumsum (fine_share k%Z) a else 0).

Lemma fine_total (a k : Z) :
  0 <= a < ntasks -> fine_on TaskList k a = true ->
  vector_total k = cumsum (fine_share k) ntasks.
Proof.
  intros Ha Hf. cbn beta.
  replace (existsb (fine_on TaskList k) (zrange ntasks)) with true;
    [reflexivity | ].
  symmetry. apply existsb_exists. exists a. split; [ | exact Hf].
  apply in_zrange. exact Ha.
Qed.

Lemma coarse_total (a k : Z) :
  In (a, k) (units TaskList ntasks) -> fine_task (TaskList a) = false ->
  vector_total k = count_of (whole k).
Proof.
  intros Hu Ef. cbn beta.
  destruct (existsb (fine_on TaskList k) (zrange ntasks)) eqn:Ex;
    [exfalso | reflexivity].
  apply existsb_exists in Ex. destruct Ex as (b & Hb & Hf).
  apply in_zrange in Hb. apply in_units in Hu. destruct Hu as [Ha Hk].
  exact (coarse_not_fine a b k Ha Ef Hk Hb Hf).
Qed.

(** [pC] and [pC_end] of lines 100-115. *)
Lemma unit_pC (a k : Z) :
  In (a, k) (units TaskList ntasks) ->
  (if fine_task (TL2 a) then Task.pC (TL2 a) else Cp k) = unit_start a k.
Proof.
  intros Hu. pose proof Hu as Hin. apply in_units in Hin.
  destruct Hin as [Ha Hk]. rewrite (placed_task a Ha).
  change (fine_task (set_pC (TaskList a) ?c)) with (fine_task (TaskList a)).
  destruct (fine_task (TaskList a)) eqn:Ef; [ | lia].
  rewrite <- (fine_unit a k Hu Ef). reflexivity.
Qed.

Lemma unit_pC_end (a k : Z) :
  In (a, k) (units TaskList ntasks) ->
  (if fine_task (TL2 a) then Task.pC (TL2 (a + 1)) else Cp (k + 1))
  = unit_start a k + count_of (slice_of (TaskList a) k).
Proof.
  intros Hu. pose proof Hu as Hin. apply in_units in Hin.
  destruct Hin as [Ha Hk]. pose proof (unit_vector a k Hu) as Hkv.
  rewrite (placed_task a Ha).
  change (fine_task (set_pC (TaskList a) ?c)) with (fine_task (TaskList a)).
  destruct (fine_task (TaskList a)) eqn:Ef.
  - pose proof (fine_unit a k Hu Ef) as Ek.
    assert (Hf : fine_on TaskList k a = true)
      by (apply fine_on_spec; auto).
    assert (Hnext : cumsum (fine_share k) (a + 1)
                    = cumsum (fine_share k) a
                      + count_of (slice_of (TaskList a) k)).
    { rewrite cumsum_succ by lia. cbn beta. rewrite Hf. rewrite <- Ek.
      reflexivity. }
    rewrite <- Z.add_assoc, <- Hnext.
    pose proof (task_last_fine a k Hf) as Hlast.
    destruct (Z.eq_dec (a + 1) ntasks) as [En | Hn].
    + assert (E1 : Task.pC (TL2 (a + 1)) = Cp Cnvec)
        by (rewrite En; apply placed_end).
      assert (E2 : cumsum (fine_share k) (a + 1)
                   = cumsum (fine_share k) ntasks)
        by (rewrite En; reflexivity).
      pose proof (last_task_last_vector a k Hu Hlast En) as E3.
      rewrite E1, E2, <- (f_equal Cp E3).
      rewrite (Cp_succ k Hkv), (fine_total a k Ha Hf). reflexivity.
    + rewrite (placed_task (a + 1)) by lia. cbn [Task.pC set_pC].
      destruct (fine_on TaskList k (a + 1)) eqn:Hfn.
      * apply fine_on_spec in Hfn. destruct Hfn as [-> ->]. reflexivity.
      * pose proof (next_task_next_vector a k Hu Hlast ltac:(lia) Hfn)
          as Enext.
        rewrite Enext, (Cp_succ k Hkv), (fine_total a k Ha Hf).
        pose proof (task_wf (a + 1) ltac:(lia)) as (_ & Wn & _).
        rewrite (cumsum_skip (fine_share k) (a + 1) ltac:(lia) ntasks
                   ltac:(lia)).
        2:{ intros d Hd. cbn beta.
            destruct (Z.eq_dec d (a + 1)) as [-> | Hne];
              [rewrite Hfn; reflexivity | ].
            rewrite (no_fine_after (a + 1) d k) by lia. reflexivity. }
        destruct (fine_task (TaskList (a + 1))); [ | lia].
        rewrite (cumsum_skip (fine_share (k + 1)) 0 ltac:(lia) (a + 1)
                   ltac:(lia)).
        2:{ intros d Hd. cbn beta.
            destruct (Z.eq_dec d a) as [-> | Hne].
            - destruct (fine_on TaskList (k + 1) a) eqn:Hfa;
                [ | reflexivity].
              apply fine_on_spec in Hfa. lia.
            - rewrite (no_fine_before a d (k + 1)) by lia. reflexivity. }
        rewrite cumsum_0. lia.
  - rewrite (Cp_succ k Hkv), (coarse_total a k Hu Ef).
    rewrite (coarse_slice_whole (TaskList a) k Ef). lia.
Qed.

(** *** Phase 2 *)

Variable Ci0 : array Z.
Variable Cx0 : array ctype.

Local Abbreviation entries :=
  (phase2_entries atype btype ctype xtype ytype GB_GETA GB_GETB GB_BINOP
     A B Mask).
Local Abbreviation unit_entries a k :=
  (entries (slice_of (TaskList a) k%Z) (GBH Ch k%Z)
           (count_of (slice_of (TaskList a) k%Z))).
Local Abbreviation result :=
  (emult atype btype ctype xtype ytype GB_GETA GB_GETB GB_BINOP A B Mask
     Ch Ch_is_Ah Ch_is_Bh Ch_is_Mh C_to_A C_to_B C_to_M
     TaskList ntasks Cnvec Cp0 Ci0 Cx0).
Local Abbreviation Ci := (fst (snd result)).
Local Abbreviation Cx := (snd (snd result)).

(** What one task puts into one of its vectors. *)
Lemma unit_entries_spec (a k : Z) :
  In (a, k) (units TaskList ntasks) ->
  (forall ii v,
     In (ii, v) (unit_entries a k) <->
     exists pa pb,
       is_hit (i A) (i B) Mk (slice_of (TaskList a) k) (ii, pa, pb)
       /\ v = GB_BINOP (GB_GETA (x A) pa) (GB_GETB (x B) pb) ii (GBH Ch k))
  /\ StronglySorted entry_lt (unit_entries a k)
  /\ Z.of_nat (length (unit_entries a k))
     = count_of (slice_of (TaskList a) k).
Proof.
  intros Hu.
  exact (phase2_vector_spec atype btype ctype xtype ytype GB_GETA GB_GETB
           GB_BINOP A B Mask (slice_of (TaskList a) k)
           (window_start TaskList W a) (GBH Ch k) (unit_slice_ok a k Hu)).
Qed.

Lemma unit_hit (a k r pa pb : Z) :
  In (a, k) (units TaskList ntasks) ->
  is_hit (i A) (i B) Mk (slice_of (TaskList a) k) (r, pa, pb)
  <-> (stored_at A r (GBH Ch k) pa /\ stored_at B r (GBH Ch k) pb
       /\ mask_true Mask r (GBH Ch k))
      /\ (fine_task (TaskList a) = true ->
          W a <= r < W a + Task.len (TaskList a)).
Proof.
  intros Hu. pose proof (unit_vector a k Hu) as Hk.
  destruct (fine_task (TaskList a)) eqn:Ef.
  - pose proof (fine_unit a k Hu Ef) as Ek. apply in_units in Hu.
    rewrite Ek at 1. rewrite (is_hit_fine a r pa pb (proj1 Hu) Ef).
    rewrite <- Ek. rewrite (is_hit_coarse k r pa pb Hk). tauto.
  - rewrite (coarse_slice_whole (TaskList a) k Ef).
    rewrite (is_hit_coarse k r pa pb Hk).
    split; [intros H; split; [exact H | discriminate] | tauto].
Qed.

(** The part of [Ci], [Cx] of a task lies in the part of its vector, and
    the fine tasks of a vector follow one another. *)
Lemma fine_end (a k : Z) :
  0 <= a < ntasks -> fine_on TaskList k a = true ->
  unit_start a k + count_of (slice_of (TaskList a) k)
  = Cp k + cumsum (fine_share k) (a + 1).
Proof.
  intros Ha Hf. rewrite cumsum_succ by lia. cbn beta. rewrite Hf.
  apply fine_on_spec in Hf. destruct Hf as [Ef Ek]. rewrite Ef, Ek. lia.
Qed.

Lemma fine_start (a k : Z) :
  fine_on TaskList k a = true ->
  unit_start a k = Cp k + cumsum (fine_share k) a.
Proof.
  intros Hf. apply fine_on_spec in Hf. destruct Hf as [Ef Ek].
  rewrite Ef. reflexivity.
Qed.

Lemma fine_share_monotone (k a b : Z) :
  0 <= a -> a <= b -> b <= ntasks ->
  cumsum (fine_share k) a <= cumsum (fine_share k) b.
Proof.
  intros Ha Hab Hb.
  apply (cumsum_monotone (fine_share k) ntasks); auto.
  intros d Hd. apply fine_share_nonneg. exact Hd.
Qed.

Lemma unit_segment (a k : Z) :
  In (a, k) (units TaskList ntasks) ->
  Cp k <= unit_start a k
  /\ unit_start a k + count_of (slice_of (TaskList a) k) <= Cp (k + 1).
Proof.
  intros Hu. pose proof (unit_vector a k Hu) as Hk.
  pose proof Hu as Hin. apply in_units in Hin. destruct Hin as [Ha _].
  destruct (fine_task (TaskList a)) eqn:Ef.
  - assert (Hf : fine_on TaskList k a = true)
      by (apply fine_on_spec; split; [exact Ef | ];
          symmetry; apply (fine_unit a k Hu Ef)).
    pose proof (fine_end a k Ha Hf) as He. rewrite Ef in He. rewrite He.
    rewrite (Cp_succ k Hk), (fine_total a k Ha Hf).
    pose proof (fine_share_monotone k 0 a ltac:(lia) ltac:(lia) ltac:(lia)).
    pose proof (fine_share_monotone k (a + 1) ntasks ltac:(lia) ltac:(lia)
                  ltac:(lia)).
    rewrite cumsum_0 in *. lia.
  - rewrite (Cp_succ k Hk), (coarse_total a k Hu Ef).
    rewrite (coarse_slice_whole (TaskList a) k Ef). lia.
Qed.

Lemma fine_segments_ordered (a1 a2 k : Z) :
  0 <= a1 -> a1 < a2 -> a2 < ntasks ->
  fine_on TaskList k a1 = true -> fine_on TaskList k a2 = true ->
  unit_start a1 k + count_of (slice_of (TaskList a1) k) <= unit_start a2 k.
Proof.
  intros H1 L H2 F1 F2.
  pose proof (fine_end a1 k ltac:(lia) F1) as He.
  pose proof (fine_start a2 k F2) as Hs.
  rewrite He, Hs.
  pose proof (fine_share_monotone k (a1 + 1) a2 ltac:(lia) ltac:(lia)
                ltac:(lia)).
  lia.
Qed.

Lemma units_apart (a1 k1 a2 k2 : Z) :
  In (a1, k1) (units TaskList ntasks) ->
  In (a2, k2) (units TaskList ntasks) -> (a1, k1) <> (a2, k2) ->
  unit_start a1 k1 + Z.of_nat (length (unit_entries a1 k1))
  <= unit_start a2 k2
  \/ unit_start a2 k2 + Z.of_nat (length (unit_entries a2 k2))
     <= unit_start a1 k1.
Proof.
  intros H1 H2 Hne.
  destruct (unit_entries_spec a1 k1 H1) as (_ & _ & ->).
  destruct (unit_entries_spec a2 k2 H2) as (_ & _ & ->).
  pose proof (unit_segment a1 k1 H1) as [S1 T1].
  pose proof (unit_segment a2 k2 H2) as [S2 T2].
  pose proof (unit_vector a1 k1 H1) as V1.
  pose proof (unit_vector a2 k2 H2) as V2.
  destruct (Z.lt_trichotomy k1 k2) as [L | [L | L]].
  - left. pose proof (Cp_monotone (k1 + 1) k2 ltac:(lia) ltac:(lia)
                        ltac:(lia)). lia.
  - subst k2. pose proof H1 as I1. pose proof H2 as I2.
    apply in_units in I1, I2.
    destruct (Z.lt_trichotomy a1 a2) as [La | [La | La]].
    + left. destruct (same_vector_fine a1 a2 k1 H1 H2 La) as [F1 F2].
      apply fine_segments_ordered; auto; lia.
    + subst a2. contradiction.
    + right. destruct (same_vector_fine a2 a1 k1 H2 H1 La) as [F2 F1].
      apply fine_segments_ordered; auto; lia.
  - right. pose proof (Cp_monotone (k2 + 1) k1 ltac:(lia) ltac:(lia)
                         ltac:(lia)). lia.
Qed.

(** Every position of a vector of C belongs to one task. *)
Lemma position_unit (k q : Z) :
  0 <= k < Cnvec -> Cp k <= q < Cp (k + 1) ->
  exists a, In (a, k) (units TaskList ntasks)
            /\ unit_start a k <= q
               < unit_start a k + count_of (slice_of (TaskList a) k).
Proof.
  intros Hk Hq. destruct Htasks as (_ & _ & Hcov).
  destruct (Hcov k Hk) as [(a & Ha & Ef & Hr) | ((a & Ha & Hf) & _)].
  - assert (Hu : In (a, k) (units TaskList ntasks))
      by (apply in_units; unfold task_last; rewrite Ef; auto).
    exists a. split; [exact Hu | ].
    rewrite (Cp_succ k Hk), (coarse_total a k Hu Ef) in Hq.
    rewrite Ef, (coarse_slice_whole (TaskList a) k Ef). lia.
  - rewrite (Cp_succ k Hk), (fine_total a k Ha Hf) in Hq.
    destruct (cumsum_locate (fine_share k) (q - Cp k) ltac:(lia) ntasks
                ltac:(lia)) as (d & Hd & Hin).
    { intros d Hd. apply fine_share_nonneg. exact Hd. }
    { lia. }
    rewrite cumsum_succ in Hin by lia. cbn beta in Hin.
    destruct (fine_on TaskList k d) eqn:Hfd; [ | lia].
    exists d. split; [apply fine_on_unit; assumption | ].
    pose proof (fine_end d k Hd Hfd) as He.
    rewrite cumsum_succ in He by lia. cbn beta in He. rewrite Hfd in He.
    pose proof (fine_start d k Hfd) as Hs.
    apply fine_on_spec in Hfd. destruct Hfd as [Efd Ekd].
    rewrite Efd in *. rewrite Ekd in *. lia.
Qed.

(** Phase 2 is a sequence of writes, one for each task and vector. *)
Lemma phase2_writes :
  snd result
  = fold_left
      (fun C u =>
         write_entries ctype (fst C) (snd C)
                       (unit_start (fst u) (snd u))
                       (unit_entries (fst u) (snd u)))
      (units TaskList ntasks) (Ci0, Cx0).
Proof.
  unfold emult. cbn [snd]. unfold phase2.
  rewrite (same_tasks_units TL2 TaskList ntasks placed_same).
  apply fold_left_same. intros C [a k] Hu. unfold phase2_step.
  cbn [fst snd]. rewrite (unit_pC a k Hu), (unit_pC_end a k Hu).
  destruct (placed_same a) as [c E]. rewrite E.
  change (slice_of (set_pC (TaskList a) c) k) with (slice_of (TaskList a) k).
  f_equal. f_equal. lia.
Qed.

Lemma written (a k : Z) (n : nat) (e : Z * ctype) :
  In (a, k) (units TaskList ntasks) ->
  nth_error (unit_entries a k) n = Some e ->
  Ci (unit_start a k + Z.of_nat n) = fst e
  /\ Cx (unit_start a k + Z.of_nat n) = snd e.
Proof.
  intros Hu He. rewrite phase2_writes.
  apply (fold_write_spec ctype (Z * Z) unit_eq_dec
           (fun u => unit_start (fst u) (snd u))
           (fun u => unit_entries (fst u) (snd u))
           (units TaskList ntasks) Ci0 Cx0) with (k := (a, k));
    [ | exact Hu | exact He].
  intros [a1 k1] [a2 k2] H1 H2 Hne. cbn [fst snd].
  apply units_apart; assumption.
Qed.

(** A position of C and what is stored there. *)
Lemma cell (k q : Z) :
  0 <= k < Cnvec -> Cp k <= q < Cp (k + 1) ->
  exists a n,
    In (a, k) (units TaskList ntasks)
    /\ q = unit_start a k + Z.of_nat n
    /\ nth_error (unit_entries a k) n = Some (Ci q, Cx q).
Proof.
  intros Hk Hq. destruct (position_unit k q Hk Hq) as (a & Hu & Hin).
  destruct (unit_entries_spec a k Hu) as (_ & _ & Hl).
  exists a, (Z.to_nat (q - unit_start a k)). split; [exact Hu | ].
  split; [lia | ].
  destruct (nth_error (unit_entries a k) (Z.to_nat (q - unit_start a k)))
    as [e | ] eqn:En.
  - destruct (written a k _ e Hu En) as [E1 E2].
    replace (unit_start a k + Z.of_nat (Z.to_nat (q - unit_start a k)))
      with q in E1, E2 by lia.
    rewrite E1, E2. destruct e; reflexivity.
  - apply nth_error_None in En. lia.
Qed.


(** *** What phase 2 leaves alone *)

Lemma fold_write_frame (start : Z * Z -> Z) (E : Z * Z -> list (Z * ctype))
    (q : Z) : forall (ks : list (Z * Z)) (Ci1 : array Z) (Cx1 : array ctype),
  (forall u, In u ks ->
     q < start u \/ start u + Z.of_nat (length (E u)) <= q) ->
  let Wr := fold_left
              (fun C u => write_entries ctype (fst C) (snd C) (start u) (E u))
              ks (Ci1, Cx1) in
  fst Wr q = Ci1 q /\ snd Wr q = Cx1 q.
Proof.
  induction ks as [| u ks IH]; intros Ci1 Cx1 Hout; cbn [fold_left].
  - split; reflexivity.
  - cbn zeta. cbn [fst snd].
    destruct (write_entries_spec ctype (E u) Ci1 Cx1 (start u)) as [W1 _].
    cbn zeta in W1.
    destruct (W1 q (Hout u (or_introl eq_refl))) as [E1 E2].
    destruct (write_entries ctype Ci1 Cx1 (start u) (E u)) as [Ci2 Cx2].
    cbn [fst snd] in E1, E2. rewrite <- E1, <- E2.
    apply (IH Ci2 Cx2). intros u' Hu'. apply Hout. right. exact Hu'.
Qed.

(** Outside the offsets of the entries of C the two arrays keep what they
    held before the call. *)
Lemma phase2_frame (q : Z) :
  q < 0 \/ Cp Cnvec <= q -> Ci q = Ci0 q /\ Cx q = Cx0 q.
Proof.
  intros Hq. rewrite phase2_writes.
  apply (fold_write_frame (fun u => unit_start (fst u) (snd u))
           (fun u => unit_entries (fst u) (snd u)) q
           (units TaskList ntasks) Ci0 Cx0).
  intros [a k] Hu. cbn [fst snd].
  pose proof (unit_vector a k Hu) as Hk.
  destruct (unit_segment a k Hu) as [S1 S2].
  destruct (unit_entries_spec a k Hu) as (_ & _ & Hl). rewrite Hl.
  pose proof (Cp_monotone 0 k ltac:(lia) ltac:(lia) ltac:(lia)) as M1.
  pose proof (Cp_monotone (k + 1) Cnvec ltac:(lia) ltac:(lia) ltac:(lia))
    as M2.
  assert (Z0 : Cp 0 = 0) by (rewrite Cp_spec by lia; apply cumsum_0).
  lia.
Qed.
(** *** One vector of C *)

Lemma stored_row {T : Type} (X : matrix T) (r j q : Z) :
  sparse_ok X -> stored_at X r j q -> 0 <= r < vlen X.
Proof.
  intros [_ HX] (kX & HkX & _ & Hq & <-).
  destruct (HX kX HkX) as (_ & _ & _ & Hw). specialize (Hw q Hq). lia.
Qed.

Lemma vector_sorted (k : Z) :
  0 <= k < Cnvec -> increasing Ci (Cp k) (Cp (k + 1)).
Proof.
  intros Hk q1 q2 H1 H12 H2.
  destruct (cell k q1 Hk ltac:(lia)) as (a1 & n1 & Hu1 & Eq1 & N1).
  destruct (cell k q2 Hk ltac:(lia)) as (a2 & n2 & Hu2 & Eq2 & N2).
  destruct (unit_entries_spec a1 k Hu1) as (Hin1 & Hs1 & Hl1).
  destruct (unit_entries_spec a2 k Hu2) as (Hin2 & Hs2 & Hl2).
  assert (Hn1 : (n1 < length (unit_entries a1 k))%nat)
    by (apply nth_error_Some; rewrite N1; discriminate).
  assert (Hn2 : (n2 < length (unit_entries a2 k))%nat)
    by (apply nth_error_Some; rewrite N2; discriminate).
  destruct (Z.lt_trichotomy a1 a2) as [L | [L | L]].
  - destruct (same_vector_fine a1 a2 k Hu1 Hu2 L) as [F1 F2].
    apply nth_error_In in N1, N2. apply Hin1 in N1. apply Hin2 in N2.
    destruct N1 as (pa1 & pb1 & Hh1 & _), N2 as (pa2 & pb2 & Hh2 & _).
    apply (unit_hit a1 k _ _ _ Hu1) in Hh1.
    apply (unit_hit a2 k _ _ _ Hu2) in Hh2.
    pose proof (task_last_fine a1 k F1) as Hlast.
    apply fine_on_spec in F1, F2. destruct F1 as [E1 K1], F2 as [E2 K2].
    destruct Hh1 as [_ Hw1], Hh2 as [_ Hw2].
    specialize (Hw1 E1). specialize (Hw2 E2).
    apply in_units in Hu1, Hu2. destruct Htasks as (_ & Hord & _).
    destruct (Hord a1 a2 ltac:(lia) L ltac:(lia)) as [_ Hwin].
    destruct Hwin as (_ & _ & Hwin); lia.
  - subst a2.
    apply (sorted_nth_error entry_lt (unit_entries a1 k) Hs1 n1 n2
             (Ci q1, Cx q1) (Ci q2, Cx q2)); auto.
    lia.
  - exfalso. destruct (same_vector_fine a2 a1 k Hu2 Hu1 L) as [F2 F1].
    apply in_units in Hu1, Hu2.
    pose proof (fine_segments_ordered a2 a1 k ltac:(lia) L ltac:(lia)
                  F2 F1).
    lia.
Qed.

Lemma vector_entries (k r : Z) (v : ctype) :
  0 <= k < Cnvec ->
  (exists q, Cp k <= q < Cp (k + 1) /\ Ci q = r /\ Cx q = v)
  <-> (exists pa pb,
         stored_at A r (GBH Ch k) pa /\ stored_at B r (GBH Ch k) pb
         /\ mask_true Mask r (GBH Ch k)
         /\ v = GB_BINOP (GB_GETA (x A) pa) (GB_GETB (x B) pb) r
                         (GBH Ch k)).
Proof.
  intros Hk. split.
  - intros (q & Hq & Er & Ev).
    destruct (cell k q Hk Hq) as (a & n & Hu & _ & N).
    destruct (unit_entries_spec a k Hu) as (Hin & _ & _).
    apply nth_error_In in N. rewrite Er, Ev in N. apply Hin in N.
    destruct N as (pa & pb & Hhit & Hv). exists pa, pb.
    apply (unit_hit a k _ _ _ Hu) in Hhit. tauto.
  - intros (pa & pb & Sa & Sb & Sm & Hv).
    assert (Hunit : exists a,
              In (a, k) (units TaskList ntasks)
              /\ is_hit (i A) (i B) Mk (slice_of (TaskList a) k)
                        (r, pa, pb)).
    { destruct Htasks as (_ & _ & Hcov).
      destruct (Hcov k Hk) as [(a & Ha & Ef & Hr) | (_ & Hrows)].
      - assert (Hu : In (a, k) (units TaskList ntasks))
          by (apply in_units; unfold task_last; rewrite Ef; auto).
        exists a. split; [exact Hu | ]. apply (unit_hit a k _ _ _ Hu).
        split; [tauto | ]. intros E. congruence.
      - destruct (Hrows r (stored_row A r _ pa HA Sa)) as (a & Ha & Hf & Hw).
        pose proof (fine_on_unit a k Ha Hf) as Hu.
        exists a. split; [exact Hu | ]. apply (unit_hit a k _ _ _ Hu).
        split; [tauto | ]. intros _. exact Hw. }
    destruct Hunit as (a & Hu & Hhit).
    destruct (unit_entries_spec a k Hu) as (Hin & _ & Hl).
    assert (Hinl : In (r, v) (unit_entries a k))
      by (apply Hin; exists pa, pb; auto).
    apply In_nth_error in Hinl. destruct Hinl as [n Hn].
    assert (Hlt : (n < length (unit_entries a k))%nat)
      by (apply nth_error_Some; rewrite Hn; discriminate).
    destruct (written a k n (r, v) Hu Hn) as [E1 E2].
    destruct (unit_segment a k Hu) as [S1 S2].
    exists (unit_start a k + Z.of_nat n). split; [lia | ]. auto.
Qed.

Lemma vector_length (k : Z) : 0 <= k < Cnvec -> Cp k <= Cp (k + 1).
Proof. intros Hk. apply Cp_monotone; lia. Qed.

Lemma first_position : Cp 0 = 0.
Proof.
  destruct (Z_le_gt_dec 0 Cnvec) as [L | L].
  - rewrite Cp_spec by lia. apply cumsum_0.
  - reflexivity.
Qed.

End Tasks.

(** ** The computable tests are sound *)

Lemma chain_increasing (X : array Z) (lo hi : Z) :
  (forall q, lo <= q -> q + 1 < hi -> X q < X (q + 1)) ->
  increasing X lo hi.
Proof.
  intros Hstep q1 q2 Hlo Hlt Hhi. revert Hhi.
  apply (from_ind (fun q2 => q2 < hi -> X q1 < X q2) (q1 + 1)); [ | | lia].
  - intros Hb. apply Hstep; lia.
  - intros b Hb IH Hn. specialize (IH ltac:(lia)).
    specialize (Hstep b ltac:(lia) Hn). lia.
Qed.

Lemma range_okb_sound (X : array Z) (lo hi wlo wlen : Z) :
  range_okb X lo hi wlo wlen = true -> range_ok X lo hi wlo wlen.
Proof.
  unfold range_okb. intros H.
  apply andb_prop in H. destruct H as [H H3].
  apply andb_prop in H. destruct H as [H1 H2].
  apply Z.leb_le in H1.
  rewrite forallb_forall in H3.
  assert (Hq : forall q, lo <= q < hi ->
            wlo <= X q < wlo + wlen /\ (q + 1 < hi -> X q < X (q + 1))).
  { intros q Hq. specialize (H3 (q - lo)).
    replace (lo + (q - lo)) with q in H3 by lia.
    cbn zeta in H3.
    specialize (H3 ltac:(apply in_zrange; lia)).
    apply andb_prop in H3. destruct H3 as [H3 H4].
    apply andb_prop in H3. destruct H3 as [H3a H3b].
    apply Z.leb_le in H3a. apply Z.ltb_lt in H3b.
    split; [lia | ]. intros Hn.
    apply orb_prop in H4. destruct H4 as [H4 | H4].
    - apply Z.leb_le in H4. lia.
    - apply Z.ltb_lt in H4. exact H4. }
  split; [exact H1 | ]. split; [ | split].
  - intros Hlt. apply orb_prop in H2. destruct H2 as [H2 | H2].
    + apply Z.leb_le in H2. lia.
    + apply Z.leb_le in H2. exact H2.
  - apply chain_increasing. intros q Hlo Hn. apply Hq; lia.
  - intros q Hq'. apply Hq. exact Hq'.
Qed.

Lemma sparse_okb_sound {T : Type} (X : matrix T) :
  sparse_okb X = true -> sparse_ok X.
Proof.
  unfold sparse_okb, sparse_ok. intros H.
  apply andb_prop in H. destruct H as [H1 H2].
  rewrite forallb_forall in H2. split.
  - destruct (h X) as [Xh | ]; [ | apply Z.eqb_eq; exact H1].
    rewrite forallb_forall in H1.
    apply (chain_increasing Xh 0 (nvec X)). intros q Hlo Hn.
    specialize (H1 q ltac:(apply in_zrange; lia)).
    apply orb_prop in H1. destruct H1 as [H1 | H1].
    + apply Z.leb_le in H1. lia.
    + apply Z.ltb_lt in H1. exact H1.
  - intros k Hk. apply range_okb_sound. apply H2. apply in_zrange. exact Hk.
Qed.

Lemma mask_okb_sound (Mask : option (matrix Z * bool)) (vl vd : Z) :
  mask_okb Mask vl vd = true -> mask_ok Mask vl vd.
Proof.
  unfold mask_okb, mask_ok. destruct Mask as [[Mm st] | ]; [ | auto].
  intros H. apply andb_prop in H. destruct H as [H H3].
  apply andb_prop in H. destruct H as [H1 H2].
  apply Z.eqb_eq in H2, H3. split; [ | auto].
  apply sparse_okb_sound. exact H1.
Qed.

Lemma has_vector_spec {T : Type} (X : matrix T) (j : Z) :
  has_vector X j = true <-> exists kX, 0 <= kX < nvec X /\ GBH (h X) kX = j.
Proof.
  unfold has_vector. rewrite existsb_exists. split.
  - intros (kX & Hin & E). apply in_zrange in Hin. apply Z.eqb_eq in E.
    exists kX. auto.
  - intros (kX & Hin & E). exists kX. split; [apply in_zrange; exact Hin | ].
    apply Z.eqb_eq. exact E.
Qed.

Lemma map_okb_sound {T : Type} (X : matrix T) (Ch : option (array Z))
    (Cnvec : Z) (same_h : bool) (C_to_X : option (array Z)) :
  map_okb X Ch Cnvec same_h C_to_X = true ->
  map_ok X Ch Cnvec same_h C_to_X.
Proof.
  unfold map_okb, map_ok. rewrite forallb_forall. intros H k Hk.
  specialize (H k ltac:(apply in_zrange; exact Hk)). cbv zeta in *.
  apply orb_prop in H. destruct H as [H | H].
  - left. apply andb_prop in H. destruct H as [H H3].
    apply andb_prop in H. destruct H as [H1 H2].
    apply Z.leb_le in H1. apply Z.ltb_lt in H2. apply Z.eqb_eq in H3. auto.
  - right. apply andb_prop in H. destruct H as [H1 H2].
    apply Z.ltb_lt in H1. split; [exact H1 | ].
    intros k' Hk' E. apply negb_true_iff in H2.
    assert (has_vector X (GBH Ch k) = true)
      by (apply has_vector_spec; exists k'; auto).
    congruence.
Qed.

Lemma header_okb_sound {TA TB : Type} (A : matrix TA) (B : matrix TB)
    (Mask : option (matrix Z * bool)) (Ch : option (array Z)) (Cnvec : Z)
    (Ch_is_Ah Ch_is_Bh Ch_is_Mh : bool)
    (C_to_A C_to_B C_to_M : option (array Z)) :
  header_okb A B Mask Ch Cnvec Ch_is_Ah Ch_is_Bh Ch_is_Mh
             C_to_A C_to_B C_to_M = true ->
  header_ok A B Mask Ch Cnvec Ch_is_Ah Ch_is_Bh Ch_is_Mh
            C_to_A C_to_B C_to_M.
Proof.
  unfold header_okb, header_ok. intros H.
  apply andb_prop in H. destruct H as [H H4].
  apply andb_prop in H. destruct H as [H H3].
  apply andb_prop in H. destruct H as [H1 H2].
  split; [apply map_okb_sound; exact H1 | ].
  split; [apply map_okb_sound; exact H2 | ].
  split; [destruct Mask as [[Mm st] | ];
          [apply map_okb_sound; exact H3 | exact I] | ].
  intros j (kA & HkA & EA) HBj HMj. rewrite forallb_forall in H4.
  specialize (H4 kA ltac:(apply in_zrange; exact HkA)). cbv zeta in H4.
  rewrite EA in H4.
  apply has_vector_spec in HBj. rewrite HBj in H4. cbn [negb orb] in H4.
  assert (HM' : match Mask with
                | None => true
                | Some (Mm, _) => has_vector Mm j
                end = true).
  { destruct Mask as [[Mm st] | ]; [ | reflexivity].
    apply has_vector_spec. exact HMj. }
  rewrite HM' in H4. cbn [negb orb] in H4.
  apply existsb_exists in H4. destruct H4 as (k & Hk & E).
  apply in_zrange in Hk. apply Z.eqb_eq in E. exists k. auto.
Qed.

Lemma window_ofb_sound (X : array Z) (lo hi tlo thi wlo wlen : Z) :
  window_ofb X lo hi tlo thi wlo wlen = true ->
  window_of X lo hi tlo thi wlo wlen.
Proof.
  unfold window_ofb, window_of. intros H.
  apply andb_prop in H. destruct H as [H H4].
  apply andb_prop in H. destruct H as [H H3].
  apply andb_prop in H. destruct H as [H1 H2].
  apply Z.leb_le in H1, H2, H3. rewrite forallb_forall in H4.
  repeat (split; [assumption | ]).
  intros q Hq. specialize (H4 (q - lo) ltac:(apply in_zrange; lia)).
  cbv zeta in H4. replace (lo + (q - lo)) with q in H4 by lia.
  apply Bool.eqb_prop in H4.
  rewrite <- Z.leb_le, <- Z.ltb_lt, <- andb_true_iff, H4.
  rewrite andb_true_iff, Z.leb_le, Z.ltb_lt. tauto.
Qed.

Lemma fine_okb_sound {TA TB : Type} (A : matrix TA) (B : matrix TB)
    (Mask : option (matrix Z * bool)) (whole : slice) (wlo : Z)
    (t : Task.GB_task_struct) :
  fine_okb A B Mask whole wlo t = true -> fine_ok A B Mask whole wlo t.
Proof.
  unfold fine_okb, fine_ok. intros H.
  apply andb_prop in H. destruct H as [H H3].
  apply andb_prop in H. destruct H as [H1 H2].
  split; [apply window_ofb_sound; exact H1 | ].
  split; [apply window_ofb_sound; exact H2 | ].
  destruct Mask as [[Mm st] | ]; [apply window_ofb_sound; exact H3 | exact I].
Qed.

Lemma tasks_okb_sound {TA TB : Type} (A : matrix TA) (B : matrix TB)
    (Mask : option (matrix Z * bool)) (whole : Z -> slice)
    (TaskList : array Task.GB_task_struct) (ntasks Cnvec : Z)
    (W : Z -> Z) :
  tasks_okb A B Mask whole TaskList ntasks Cnvec W = true ->
  tasks_ok A B Mask whole TaskList ntasks Cnvec W.
Proof.
  unfold tasks_okb, tasks_ok. intros H.
  apply andb_prop in H. destruct H as [H H3].
  apply andb_prop in H. destruct H as [H1 H2].
  rewrite forallb_forall in H1, H2, H3. split; [ | split].
  - intros a Ha. specialize (H1 a ltac:(apply in_zrange; exact Ha)).
    cbv zeta in *.
    apply andb_prop in H1. destruct H1 as [H1 F].
    apply andb_prop in H1. destruct H1 as [H1 L3].
    apply andb_prop in H1. destruct H1 as [L1 L2].
    apply Z.leb_le in L1, L2. apply Z.ltb_lt in L3.
    repeat (split; [assumption | ]).
    intros Ef. rewrite Ef in F. cbn [negb orb] in F.
    apply fine_okb_sound. exact F.
  - intros a b Ha L Hb.
    specialize (H2 a ltac:(apply in_zrange; lia)).
    rewrite forallb_forall in H2.
    specialize (H2 b ltac:(apply in_zrange; lia)).
    replace (a <? b) with true in H2 by (symmetry; apply Z.ltb_lt; exact L).
    cbn [negb orb] in H2.
    apply andb_prop in H2. destruct H2 as [L1 L2]. apply Z.leb_le in L1.
    split; [exact L1 | ]. intros E.
    replace (task_last (TaskList a) =? Task.kfirst (TaskList b)) with true
      in L2 by (symmetry; apply Z.eqb_eq; exact E).
    cbn [negb orb] in L2.
    apply andb_prop in L2. destruct L2 as [L2 L4].
    apply andb_prop in L2. destruct L2 as [L2 L3].
    apply Z.leb_le in L4. auto.
  - intros k Hk. specialize (H3 k ltac:(apply in_zrange; exact Hk)).
    apply orb_prop in H3. destruct H3 as [H3 | H3].
    + left. apply existsb_exists in H3. destruct H3 as (a & Ha & H3).
      apply in_zrange in Ha.
      apply andb_prop in H3. destruct H3 as [H3 L2].
      apply andb_prop in H3. destruct H3 as [Ef L1].
      apply negb_true_iff in Ef. apply Z.leb_le in L1, L2.
      exists a. auto.
    + right. apply andb_prop in H3. destruct H3 as [H3 H4].
      split.
      * apply existsb_exists in H3. destruct H3 as (a & Ha & H3).
        apply in_zrange in Ha. exists a. auto.
      * intros r Hr. rewrite forallb_forall in H4.
        specialize (H4 r ltac:(apply in_zrange; exact Hr)).
        apply existsb_exists in H4. destruct H4 as (a & Ha & H4).
        apply in_zrange in Ha.
        apply andb_prop in H4. destruct H4 as [H4 L2].
        apply andb_prop in H4. destruct H4 as [Hf L1].
        apply Z.leb_le in L1. apply Z.ltb_lt in L2.
        exists a. auto.
Qed.

(** ** Element-wise multiply is the intersection *)

(** C1.  Element-wise multiply computes the intersection.  A and B are
    sparse or hypersparse matrices of equal shape with sorted vectors, M is
    an optional mask of that shape (not complemented; valued or
    structural); the header of C and the task list, with coarse and fine
    tasks, are as phase 0 and the slicer make them.  Then the two phases of
    the template produce a matrix C, given by [Cp], [Ci], [Cx], such that:
    [Cp] starts at 0 and does not decrease; in every vector the row indices
    strictly increase; and C has an entry with value [v] in row [r] of the
    vector [j] if and only if A(r,j) and B(r,j) are both present (and, with
    a mask, M(r,j) is present and true), [v] being [GB_BINOP] applied to the
    two entries fetched.  In particular a position absent from A or from B
    yields no entry of C. *)
Theorem emult_is_intersection
    (atype btype ctype xtype ytype : Type)
    (GB_GETA : array atype -> Z -> xtype)
    (GB_GETB : array btype -> Z -> ytype)
    (GB_BINOP : xtype -> ytype -> Z -> Z -> ctype)
    (A : matrix atype) (B : matrix btype) (Mask : option (matrix Z * bool))
    (Ch : option (array Z)) (Ch_is_Ah Ch_is_Bh Ch_is_Mh : bool)
    (C_to_A C_to_B C_to_M : option (array Z))
    (TaskList : array Task.GB_task_struct) (ntasks Cnvec : Z) (W : Z -> Z)
    (Cp0 Ci0 : array Z) (Cx0 : array ctype) :
  sparse_ok A -> sparse_ok B ->
  vlen B = vlen A -> vdim B = vdim A ->
  mask_ok Mask (vlen A) (vdim A) ->
  header_ok A B Mask Ch Cnvec Ch_is_Ah Ch_is_Bh Ch_is_Mh
            C_to_A C_to_B C_to_M ->
  tasks_ok A B Mask
           (coarse_slice atype btype A B Mask Ch Ch_is_Ah Ch_is_Bh Ch_is_Mh
              C_to_A C_to_B C_to_M)
           TaskList ntasks Cnvec W ->
  let C := emult atype btype ctype xtype ytype GB_GETA GB_GETB GB_BINOP
             A B Mask Ch Ch_is_Ah Ch_is_Bh Ch_is_Mh C_to_A C_to_B C_to_M
             TaskList ntasks Cnvec Cp0 Ci0 Cx0 in
  let Cp := fst C in
  let Ci := fst (snd C) in
  let Cx := snd (snd C) in
  Cp 0 = 0
  /\ (forall k, 0 <= k < Cnvec ->
        Cp k <= Cp (k + 1) /\ increasing Ci (Cp k) (Cp (k + 1)))
  /\ (forall r j v,
        entry_of Ch Cnvec Cp Ci Cx r j v
        <-> exists pa pb,
              stored_at A r j pa /\ stored_at B r j pb
              /\ mask_true Mask r j
              /\ v = GB_BINOP (GB_GETA (x A) pa) (GB_GETB (x B) pb) r j)
  /\ (forall r j v,
        (forall pa, ~ stored_at A r j pa)
        \/ (forall pb, ~ stored_at B r j pb) ->
        ~ entry_of Ch Cnvec Cp Ci Cx r j v).
Proof.
  intros HA HB Hvlen Hvdim HM Hhead Htasks C Cp Ci Cx.
  assert (Hvec : forall k r v, 0 <= k < Cnvec ->
            (exists q, Cp k <= q < Cp (k + 1) /\ Ci q = r /\ Cx q = v)
            <-> (exists pa pb,
                   stored_at A r (GBH Ch k) pa /\ stored_at B r (GBH Ch k) pb
                   /\ mask_true Mask r (GBH Ch k)
                   /\ v = GB_BINOP (GB_GETA (x A) pa) (GB_GETB (x B) pb) r
                                   (GBH Ch k))).
  { intros k r v Hk.
    exact (vector_entries atype btype ctype xtype ytype GB_GETA GB_GETB
             GB_BINOP A B Mask Ch Ch_is_Ah Ch_is_Bh Ch_is_Mh
             C_to_A C_to_B C_to_M TaskList ntasks Cnvec W
             HA HB Hvlen HM Hhead Htasks Cp0 Ci0 Cx0 k r v Hk). }
  assert (Hall : forall r j v,
            entry_of Ch Cnvec Cp Ci Cx r j v
            <-> exists pa pb,
                  stored_at A r j pa /\ stored_at B r j pb
                  /\ mask_true Mask r j
                  /\ v = GB_BINOP (GB_GETA (x A) pa) (GB_GETB (x B) pb)
                                  r j).
  { intros r j v. unfold entry_of. split.
    - intros (k & q & Hk & <- & Hq & Er & Ev).
      apply (Hvec k r v Hk). exists q. auto.
    - intros (pa & pb & Sa & Sb & Sm & Hv).
      destruct Hhead as (_ & _ & _ & Hcomplete).
      destruct (Hcomplete j) as (k & Hk & Ej).
      + destruct Sa as (kA & HkA & Hn & _). exists kA. auto.
      + destruct Sb as (kB & HkB & Hn & _). exists kB. auto.
      + unfold mask_true in Sm. destruct Mask as [[Mm st] | ]; [ | exact I].
        destruct Sm as (pm & (kM & HkM & Hn & _) & _). exists kM. auto.
      + subst j. destruct (proj2 (Hvec k r v Hk)) as (q & Hq & Er & Ev).
        { exists pa, pb. auto. }
        exists k, q. auto. }
  split; [reflexivity | ]. split; [ | split; [exact Hall | ]].
  - intros k Hk. split.
    + exact (vector_length atype btype A B Mask Ch Ch_is_Ah Ch_is_Bh
               Ch_is_Mh C_to_A C_to_B C_to_M TaskList ntasks Cnvec W
               HA HB Hvlen HM Hhead Htasks Cp0 k Hk).
    + exact (vector_sorted atype btype ctype xtype ytype GB_GETA GB_GETB
               GB_BINOP A B Mask Ch Ch_is_Ah Ch_is_Bh Ch_is_Mh
               C_to_A C_to_B C_to_M TaskList ntasks Cnvec W
               HA HB Hvlen HM Hhead Htasks Cp0 Ci0 Cx0 k Hk).
  - intros r j v Habsent Hentry. apply Hall in Hentry.
    destruct Hentry as (pa & pb & Sa & Sb & _).
    destruct Habsent as [H | H]; [exact (H pa Sa) | exact (H pb Sb)].
Qed.

Lemma stored_at_test {T : Type} (X : matrix T) (r j kX q : Z) :
  (0 <=? kX) && (kX <? nvec X) && (GBH (h X) kX =? j)
  && (p X kX <=? q) && (q <? p X (kX + 1)) && (i X q =? r) = true ->
  stored_at X r j q.
Proof.
  intros H. repeat (apply andb_prop in H; destruct H as [H ?]).
  exists kX.
  repeat match goal with
         | E : (_ <=? _) = true |- _ => apply Z.leb_le in E
         | E : (_ <? _) = true |- _ => apply Z.ltb_lt in E
         | E : (_ =? _) = true |- _ => apply Z.eqb_eq in E
         end.
  auto.
Qed.

(** The 4-by-3 samples under the valued mask, a hypersparse A, one coarse
    and two fine tasks: C(3,2) = A(3,2) * B(3,2) = 6 is there, and C(3,0),
    where M(3,0) is an explicit zero, is not. *)
Lemma emult_is_intersection_witness :
  let C := times_kernel sample_A sample_B (Some (sample_M, false))
             sample_Ch true false false None sample_C_to_B sample_C_to_M
             sample_TaskList 3 2 (fun _ => 0) (fun _ => 0) (fun _ => 0) in
  entry_of sample_Ch 2 (fst C) (fst (snd C)) (snd (snd C)) 3 2 6
  /\ forall v, ~ entry_of sample_Ch 2 (fst C) (fst (snd C)) (snd (snd C))
                          3 0 v.
Proof.
  cbv zeta.
  destruct (emult_is_intersection Z Z Z Z Z (fun Ax q => Ax q)
              (fun Bx q => Bx q) (fun a b _ _ => a * b)
              sample_A sample_B (Some (sample_M, false))
              sample_Ch true false false None sample_C_to_B sample_C_to_M
              sample_TaskList 3 2 sample_W
              (fun _ => 0) (fun _ => 0) (fun _ => 0)
              (sparse_okb_sound sample_A eq_refl)
              (sparse_okb_sound sample_B eq_refl)
              eq_refl eq_refl
              (mask_okb_sound (Some (sample_M, false)) 4 3 eq_refl)
              (header_okb_sound sample_A sample_B (Some (sample_M, false))
                 sample_Ch 2 true false false None sample_C_to_B
                 sample_C_to_M eq_refl)
              (tasks_okb_sound sample_A sample_B (Some (sample_M, false))
                 (coarse_slice Z Z sample_A sample_B
                    (Some (sample_M, false)) sample_Ch true false false
                    None sample_C_to_B sample_C_to_M)
                 sample_TaskList 3 2 sample_W eq_refl))
    as (_ & _ & Hiff & _).
  split.
  - apply Hiff. exists 4, 5.
    split; [apply (stored_at_test sample_A 3 2 1 4); reflexivity | ].
    split; [apply (stored_at_test sample_B 3 2 2 5); reflexivity | ].
    split; [ | reflexivity].
    exists 3. split; [apply (stored_at_test sample_M 3 2 2 3); reflexivity | ].
    right. discriminate.
  - intros v Hentry. apply Hiff in Hentry.
    destruct Hentry as (pa & pb & _ & _ & (pm & Hst & Hval) & _).
    destruct Hst as (kM & HkM & Hname & Hpm & Hi).
    cbn in Hname. subst kM.
    change (p sample_M 0) with 0 in Hpm.
    change (p sample_M (0 + 1)) with 2 in Hpm.
    assert (Hcase : pm = 0 \/ pm = 1) by lia.
    destruct Hcase as [-> | ->].
    + discriminate Hi.
    + destruct Hval as [Hval | Hval]; [discriminate | ].
      apply Hval. reflexivity.
Defined.

(** The arrays of C on the samples, without mask. *)
Example emult_sample_arrays :
  let C := times_kernel sample_A sample_B None
             sample_Ch true false false None sample_C_to_B sample_C_to_M
             sample_TaskList 3 2 (fun _ => 0) (fun _ => 0) (fun _ => 0) in
  map (fst C) [0; 1; 2] = [0; 2; 4]
  /\ map (fst (snd C)) [0; 1; 2; 3] = [2; 3; 1; 3]
  /\ map (snd (snd C)) [0; 1; 2; 3] = [8; 27; 40; 6].
Proof. repeat split. Qed.

(** The kernel built from FactoryKernels/GB_ew__pair_uint8.c: its fetch
    macros expand to nothing, so its result is the same whatever the value
    arrays of A and B hold. *)
Lemma pair_kernel_ignores_values
    (vl vd nv : Z) (Ah Bh : option (array Z)) (Ap Ai Bp Bi : array Z)
    (Ax Ax' Bx Bx' : array Z)
    (Mask : option (matrix Z * bool))
    (Ch : option (array Z)) (Ch_is_Ah Ch_is_Bh Ch_is_Mh : bool)
    (C_to_A C_to_B C_to_M : option (array Z))
    (TaskList : array Task.GB_task_struct) (ntasks Cnvec : Z)
    (Cp0 Ci0 Cx0 : array Z) :
  pair_kernel (mkSparse vl vd nv Ah Ap Ai Ax) (mkSparse vl vd nv Bh Bp Bi Bx)
    Mask Ch Ch_is_Ah Ch_is_Bh Ch_is_Mh C_to_A C_to_B C_to_M
    TaskList ntasks Cnvec Cp0 Ci0 Cx0
  = pair_kernel (mkSparse vl vd nv Ah Ap Ai Ax')
      (mkSparse vl vd nv Bh Bp Bi Bx')
      Mask Ch Ch_is_Ah Ch_is_Bh Ch_is_Mh C_to_A C_to_B C_to_M
      TaskList ntasks Cnvec Cp0 Ci0 Cx0.
Proof. reflexivity. Qed.

End EmultFacts.

(* ===================================================================== *)
(** * GB_AxB_semiring_builtin: operands, outputs and symmetry             *)
(* ===================================================================== *)

Module SemiringBuiltinLaws.
Import SemiringBuiltin.

Lemma type_eqb_eq (s t : GrB_Type) : type_eqb s t = true <-> s = t.
Proof.
  unfold type_eqb. destruct s as [sa sc], t as [ta tc]; cbn. split.
  - intros H. apply andb_prop in H. destruct H as [Ha Hc].
    apply Z.eqb_eq in Ha. apply code_eqb_eq in Hc. congruence.
  - intros H. inversion H; subst.
    rewrite Z.eqb_refl. cbn. apply code_eqb_eq. reflexivity.
Qed.

Lemma type_eqb_sym (s t : GrB_Type) : type_eqb s t = type_eqb t s.
Proof.
  destruct (type_eqb s t) eqn:E.
  - apply type_eqb_eq in E. subst t. symmetry. apply type_eqb_eq. reflexivity.
  - destruct (type_eqb t s) eqn:E'; [ | reflexivity].
    apply type_eqb_eq in E'. subst t.
    rewrite (proj2 (type_eqb_eq s s) eq_refl) in E. discriminate.
Qed.

(** X1.  The flipxy switch undoes itself, and it does not matter whether an
    opcode is renamed for boolean inputs before or after it is flipped: the
    two rewriting blocks of the function commute. *)
Theorem flipxy_switch_involutive_and_commutes (m : GB_Opcode) :
  flipxy_switch (flipxy_switch m) = m
  /\ GB_boolean_rename (flipxy_switch m) = flipxy_switch (GB_boolean_rename m)
  /\ GB_boolean_rename (GB_boolean_rename m) = GB_boolean_rename m.
Proof. destruct m; repeat split. Qed.

(** X2.  Passing the two matrices in the other order, with [flipxy] negated, does
    not change the verdict of [GB_AxB_semiring_builtin].  On acceptance the
    add opcode and the two type codes are the same, and the multiply opcode
    is the one of the other call with the flipxy switch applied to it; on
    rejection the outputs are the same. *)
Theorem exchanging_operands_flips_multiply
    (opcode_num : GB_Opcode -> Z) (code_num : GB_Type_code -> Z)
    (A : GrB_Matrix) (A_is_pattern : bool)
    (B : GrB_Matrix) (B_is_pattern : bool)
    (semiring : GrB_Semiring) (flipxy : bool) (out : outputs) :
  let r1 := GB_AxB_semiring_builtin opcode_num code_num
              A A_is_pattern B B_is_pattern semiring flipxy out in
  let r2 := GB_AxB_semiring_builtin opcode_num code_num
              B B_is_pattern A A_is_pattern semiring (negb flipxy) out in
  fst r1 = fst r2
  /\ add_opcode (snd r1) = add_opcode (snd r2)
  /\ xycode (snd r1) = xycode (snd r2)
  /\ zcode (snd r1) = zcode (snd r2)
  /\ mult_opcode (snd r1)
     = if fst r1 then flipxy_switch (mult_opcode (snd r2))
       else mult_opcode (snd r2).
Proof.
  cbv zeta. unfold GB_AxB_semiring_builtin.
  rewrite (type_eqb_sym (type B) (type A)).
  destruct A_is_pattern, B_is_pattern, flipxy; cbn [negb andb orb];
    repeat match goal with
           | |- context [type_eqb ?a ?b] => destruct (type_eqb a b)
           | |- context [?a >=? ?b] => destruct (a >=? b)
           | |- context [code_eqb ?a ?b] => destruct (code_eqb a b)
           end;
    cbn; repeat split;
    try (destruct (GB_boolean_rename (opcode (multiply semiring)));
         reflexivity);
    try (destruct (opcode (multiply semiring)); reflexivity).
Qed.

(** X3.  What acceptance tells the caller about its operands: an operand whose
    values are used has exactly the type of the multiplier input it is
    passed as (the second input for A under flipxy, the first otherwise),
    and that type is built in; two operands whose values are both used have
    the same type, so the multiplier has equal input types; and neither
    operator of the semiring is user-defined. *)
Theorem builtin_accepts_matching_types
    (opcode_num : GB_Opcode -> Z) (code_num : GB_Type_code -> Z)
    (A : GrB_Matrix) (A_is_pattern : bool)
    (B : GrB_Matrix) (B_is_pattern : bool)
    (semiring : GrB_Semiring) (flipxy : bool) (out out' : outputs) :
  GB_AxB_semiring_builtin opcode_num code_num A A_is_pattern B B_is_pattern
    semiring flipxy out = (true, out') ->
  let mult := multiply semiring in
  (A_is_pattern = false ->
     type A = (if flipxy then ytype mult else xtype mult)
     /\ code_num (code (type A)) < code_num GB_UCT_code)
  /\ (B_is_pattern = false ->
     type B = (if flipxy then xtype mult else ytype mult)
     /\ code_num (code (type B)) < code_num GB_UCT_code)
  /\ (A_is_pattern = false -> B_is_pattern = false ->
     type A = type B /\ xtype mult = ytype mult)
  /\ opcode_num (opcode (op (add semiring))) < opcode_num GB_USER_C_opcode
  /\ opcode_num (opcode mult) < opcode_num GB_USER_C_opcode.
Proof.
  intros Hrun mult. subst mult. unfold GB_AxB_semiring_builtin in Hrun.
  destruct (negb A_is_pattern &&
            (negb (type_eqb (type A)
                     (if flipxy then ytype (multiply semiring)
                      else xtype (multiply semiring)))
             || (code_num (code (type A)) >=? code_num GB_UCT_code)))
    eqn:EA; [discriminate | ].
  destruct (negb B_is_pattern &&
            (negb (type_eqb (type B)
                     (if flipxy then xtype (multiply semiring)
                      else ytype (multiply semiring)))
             || (code_num (code (type B)) >=? code_num GB_UCT_code)))
    eqn:EB; [discriminate | ].
  destruct (negb A_is_pattern && negb B_is_pattern
            && negb (type_eqb (type A) (type B))) eqn:EAB; [discriminate | ].
  cbn [add_opcode mult_opcode set_add set_mult] in Hrun.
  destruct ((opcode_num (opcode (op (add semiring)))
               >=? opcode_num GB_USER_C_opcode)
            || (opcode_num (opcode (multiply semiring))
                  >=? opcode_num GB_USER_C_opcode)) eqn:EU; [discriminate | ].
  clear Hrun.
  apply orb_false_elim in EU. destruct EU as [EU1 EU2].
  rewrite Z.geb_leb in EU1, EU2. apply Z.leb_gt in EU1, EU2.
  assert (HA : A_is_pattern = false ->
               type A = (if flipxy then ytype (multiply semiring)
                         else xtype (multiply semiring))
               /\ code_num (code (type A)) < code_num GB_UCT_code).
  { intros ->. cbn [negb andb] in EA.
    apply orb_false_elim in EA. destruct EA as [E1 E2].
    apply negb_false_iff in E1. apply type_eqb_eq in E1.
    rewrite Z.geb_leb in E2. apply Z.leb_gt in E2. auto. }
  assert (HB : B_is_pattern = false ->
               type B = (if flipxy then xtype (multiply semiring)
                         else ytype (multiply semiring))
               /\ code_num (code (type B)) < code_num GB_UCT_code).
  { intros ->. cbn [negb andb] in EB.
    apply orb_false_elim in EB. destruct EB as [E1 E2].
    apply negb_false_iff in E1. apply type_eqb_eq in E1.
    rewrite Z.geb_leb in E2. apply Z.leb_gt in E2. auto. }
  assert (HAB : A_is_pattern = false -> B_is_pattern = false ->
                type A = type B).
  { intros -> ->. cbn [negb andb] in EAB.
    apply negb_false_iff in EAB. apply type_eqb_eq in EAB. exact EAB. }
  split; [exact HA | ]. split; [exact HB | ].
  split; [ | split; assumption].
  intros Ea Eb. split; [exact (HAB Ea Eb) | ].
  destruct (HA Ea) as [TA _], (HB Eb) as [TB _].
  pose proof (HAB Ea Eb) as E. rewrite TA, TB in E.
  destruct flipxy; congruence.
Qed.

(** (EQ, GT) over int8 is accepted for two int8 matrices. *)
Lemma builtin_accepts_matching_types_witness :
  type (mkMatrix GrB_INT8) = xtype (multiply eq_gt_int8)
  /\ type (mkMatrix GrB_INT8) = type (mkMatrix GrB_INT8)
  /\ opcode_index (opcode (multiply eq_gt_int8))
     < opcode_index GB_USER_C_opcode.
Proof.
  destruct (builtin_accepts_matching_types opcode_index code_index
              (mkMatrix GrB_INT8) false (mkMatrix GrB_INT8) false
              eq_gt_int8 false out0
              (snd (GB_AxB_semiring_builtin opcode_index code_index
                      (mkMatrix GrB_INT8) false (mkMatrix GrB_INT8) false
                      eq_gt_int8 false out0))
              eq_refl) as (HA & _ & HAB & _ & Hm).
  split; [exact (proj1 (HA eq_refl)) | ].
  split; [exact (proj1 (HAB eq_refl eq_refl)) | exact Hm].
Defined.

(** X4.  The four outputs are written, never read: the verdict does not depend
    on what the caller left in them, an accepting call overwrites all four,
    and a rejecting call leaves the two type codes as they were and the two
    opcodes at the opcodes of the semiring. *)
Theorem builtin_outputs_overwritten
    (opcode_num : GB_Opcode -> Z) (code_num : GB_Type_code -> Z)
    (A : GrB_Matrix) (A_is_pattern : bool)
    (B : GrB_Matrix) (B_is_pattern : bool)
    (semiring : GrB_Semiring) (flipxy : bool) (out1 out2 : outputs) :
  let r1 := GB_AxB_semiring_builtin opcode_num code_num
              A A_is_pattern B B_is_pattern semiring flipxy out1 in
  let r2 := GB_AxB_semiring_builtin opcode_num code_num
              A A_is_pattern B B_is_pattern semiring flipxy out2 in
  fst r1 = fst r2
  /\ (fst r1 = true -> snd r1 = snd r2)
  /\ (fst r1 = false ->
      xycode (snd r1) = xycode out1 /\ zcode (snd r1) = zcode out1
      /\ mult_opcode (snd r1) = opcode (multiply semiring)
      /\ add_opcode (snd r1) = opcode (op (add semiring))).
Proof.
  cbv zeta. unfold GB_AxB_semiring_builtin.
  cbn [add_opcode mult_opcode set_add set_mult].
  repeat match goal with
         | |- context [if ?c then (false, _) else _] =>
             destruct c; [cbn; repeat split; discriminate | ]
         end.
  cbn. split; [reflexivity | ]. split; [ | discriminate].
  intros _.
  destruct (code_eqb (code (xtype (multiply semiring))) GB_BOOL_code),
           (code_eqb (code (ztype (multiply semiring))) GB_BOOL_code),
           flipxy; reflexivity.
Qed.

(** X5.  An operand used by pattern only is not inspected: the result is the
    same whatever its type, user-defined types included. *)
Theorem pattern_operand_is_not_inspected
    (opcode_num : GB_Opcode -> Z) (code_num : GB_Type_code -> Z)
    (A A' : GrB_Matrix) (B B' : GrB_Matrix) (other_is_pattern : bool)
    (semiring : GrB_Semiring) (flipxy : bool) (out : outputs) :
  GB_AxB_semiring_builtin opcode_num code_num A true B other_is_pattern
    semiring flipxy out
  = GB_AxB_semiring_builtin opcode_num code_num A' true B other_is_pattern
      semiring flipxy out
  /\ GB_AxB_semiring_builtin opcode_num code_num A other_is_pattern B true
       semiring flipxy out
     = GB_AxB_semiring_builtin opcode_num code_num A other_is_pattern B' true
         semiring flipxy out.
Proof.
  unfold GB_AxB_semiring_builtin. cbn [negb andb]. split; [reflexivity | ].
  rewrite !andb_false_r. reflexivity.
Qed.

End SemiringBuiltinLaws.

(* ===================================================================== *)
(** * GB_AxB_dot: the pattern flags and the built-in kernels              *)
(* ===================================================================== *)

Module DotDispatch.
Import SemiringBuiltin.

(** X6.  [GB_AxB_dot] hands the flags it computes from the multiplier and
    [flipxy] to [GB_AxB_semiring_builtin], and launches the kernel named by
    the opcodes that come back; every kernel gets A as the first and B as
    the second input of its multiplier.  The two agree: when the call
    accepts the semiring and A is flagged as used by pattern only, the
    kernel is the one of SECOND, which takes its value from B; when B is
    flagged, it is the one of FIRST, which takes its value from A.  And the
    two flags are never both set. *)
Theorem pattern_flags_agree_with_builtin_kernel
    (val : Type) (opcode_num : GB_Opcode -> Z) (code_num : GB_Type_code -> Z)
    (A B : GrB_Matrix) (add_monoid : GrB_Monoid)
    (mult : binary_function val) (flipxy : bool) (out out' : outputs) :
  GB_AxB_semiring_builtin opcode_num code_num
    A (Dot.A_is_pattern val mult flipxy)
    B (Dot.B_is_pattern val mult flipxy)
    (mkSemiring add_monoid (descr val mult)) flipxy out = (true, out') ->
  (Dot.A_is_pattern val mult flipxy = true ->
     mult_opcode out' = GB_SECOND_opcode)
  /\ (Dot.B_is_pattern val mult flipxy = true ->
     mult_opcode out' = GB_FIRST_opcode)
  /\ Dot.A_is_pattern val mult flipxy && Dot.B_is_pattern val mult flipxy
     = false.
Proof.
  intros Hrun.
  apply SemiringBuiltinFacts.builtin_accepts_outputs in Hrun. subst out'.
  cbn [mult_opcode]. unfold renamed_mult. cbn [multiply].
  unfold Dot.A_is_pattern, Dot.B_is_pattern, Dot.pattern_flags, opcode_eqb.
  destruct (GB_Opcode_eq_dec (opcode (descr val mult)) GB_FIRST_opcode)
    as [E1 | N1];
    destruct (GB_Opcode_eq_dec (opcode (descr val mult)) GB_SECOND_opcode)
      as [E2 | N2]; try congruence.
  - rewrite E1.
    destruct flipxy, (code_eqb (code (xtype (descr val mult))) GB_BOOL_code);
      cbn; repeat split; congruence.
  - rewrite E2.
    destruct flipxy, (code_eqb (code (xtype (descr val mult))) GB_BOOL_code);
      cbn; repeat split; congruence.
  - destruct flipxy; cbn; repeat split; congruence.
Qed.

(** PLUS-FIRST over int64 without flipxy: B is used by pattern only, may
    have any type, and the FIRST kernel is chosen. *)
Lemma pattern_flags_agree_with_builtin_kernel_witness :
  let r := GB_AxB_semiring_builtin opcode_index code_index
             (mkMatrix Dot.int_type) (Dot.A_is_pattern Z Dot.fn_first false)
             (mkMatrix GrB_BOOL) (Dot.B_is_pattern Z Dot.fn_first false)
             (mkSemiring (mkMonoid (Dot.int_binop GB_PLUS_opcode))
                         (descr Z Dot.fn_first))
             false out0 in
  fst r = true /\ Dot.B_is_pattern Z Dot.fn_first false = true
  /\ mult_opcode (snd r) = GB_FIRST_opcode.
Proof.
  cbv zeta. split; [reflexivity | ]. split; [reflexivity | ].
  apply (pattern_flags_agree_with_builtin_kernel Z opcode_index code_index
           (mkMatrix Dot.int_type) (mkMatrix GrB_BOOL)
           (mkMonoid (Dot.int_binop GB_PLUS_opcode)) Dot.fn_first false out0
           _ eq_refl).
  reflexivity.
Defined.

End DotDispatch.

(* ===================================================================== *)
(** * GB_emult_template: counts, the mask, and the order of the operands  *)
(* ===================================================================== *)

Module EmultLaws.
Import Emult EmultExchange.

Lemma slice_okb_sound (Ai Bi : array Z) (M : option mask) (s : slice)
    (wlo : Z) :
  slice_okb Ai Bi M s wlo = true -> slice_ok Ai Bi M s wlo.
Proof.
  unfold slice_okb, slice_ok. intros H.
  apply andb_prop in H. destruct H as [H H3].
  apply andb_prop in H. destruct H as [H1 H2].
  split; [apply EmultFacts.range_okb_sound; exact H1 | ].
  split; [apply EmultFacts.range_okb_sound; exact H2 | ].
  destruct M as [m | ]; [ | exact I].
  apply EmultFacts.range_okb_sound. exact H3.
Qed.

Lemma slice_ok_unmasked (Ai Bi : array Z) (M : option mask) (s : slice)
    (wlo : Z) :
  slice_ok Ai Bi M s wlo -> slice_ok Ai Bi None s wlo.
Proof.
  intros (H1 & H2 & _). split; [exact H1 | split; [exact H2 | exact I]].
Qed.

Lemma hits_spec (Ai Bi : array Z) (M : option mask) (s : slice) (wlo : Z) :
  slice_ok Ai Bi M s wlo ->
  (forall ht, In ht (vector_hits Ai Bi M s) <-> is_hit Ai Bi M s ht)
  /\ StronglySorted hit_lt (vector_hits Ai Bi M s).
Proof.
  intros Hok.
  exact (EmultFacts.vector_hits_spec Ai Bi s wlo (proj1 Hok)
           (proj1 (proj2 Hok)) M Hok).
Qed.

(** Hits that come in increasing order of the row index, each of them
    found at some offset of an increasing vector, are no more than the
    vector has offsets. *)
Lemma sorted_hits_bounded (X : array Z) (hi : Z) : forall (l : list hit) lo,
  lo <= hi -> increasing X lo hi ->
  StronglySorted hit_lt l ->
  (forall ht, In ht l -> exists q, lo <= q < hi /\ X q = hit_i ht) ->
  Z.of_nat (length l) <= hi - lo.
Proof.
  induction l as [| h0 l IH]; intros lo Hle Hinc Hs Hat; [cbn; lia | ].
  inversion Hs as [| ? ? Hs' HF]; subst.
  destruct (Hat h0 (or_introl eq_refl)) as (q0 & Hq0 & E0).
  assert (Hl : Z.of_nat (length l) <= hi - (q0 + 1)).
  { apply IH; [lia | | exact Hs' | ].
    - apply (EmultFacts.increasing_sub X lo hi); [exact Hinc | lia | lia].
    - intros ht Hht. destruct (Hat ht (or_intror Hht)) as (q & Hq & E).
      exists q. split; [ | exact E].
      rewrite Forall_forall in HF. specialize (HF ht Hht).
      unfold hit_lt in HF.
      destruct (Z_lt_le_dec q0 q) as [L | L]; [lia | exfalso].
      assert (X q <= X q0).
      { destruct (Z.eq_dec q q0) as [-> | Hne]; [lia | ].
        assert (X q < X q0) by (apply Hinc; lia). lia. }
      lia. }
  cbn [length]. lia.
Qed.

(** X7.  Phase 1 and phase 2 agree, and the intersection is no larger than its
    operands: on a slice with sorted vectors, the count of phase 1 is the
    number of entries that phase 2 produces, and it is at most the number
    of entries of A(:,j), of B(:,j) and, under a mask, of M(:,j) in the
    slice. *)
Theorem phase1_count_is_exact_and_bounded
    (Ai Bi : array Z) (M : option mask) (s : slice) (wlo : Z) :
  slice_ok Ai Bi M s wlo ->
  phase1_cjnz Ai Bi M s = Z.of_nat (length (vector_hits Ai Bi M s))
  /\ phase1_cjnz Ai Bi M s <= ajnz s
  /\ phase1_cjnz Ai Bi M s <= bjnz s
  /\ match M with
     | None => True
     | Some _ => phase1_cjnz Ai Bi M s <= pM_end s - pM s
     end.
Proof.
  intros Hok.
  pose proof (EmultFacts.phase1_counts_hits Ai Bi s wlo (proj1 Hok)
                (proj1 (proj2 Hok)) M Hok) as Hcount.
  destruct (hits_spec Ai Bi M s wlo Hok) as [Hin Hs].
  destruct Hok as (HA & HB & HM).
  split; [exact Hcount | ]. rewrite Hcount. unfold ajnz, bjnz.
  split; [ | split].
  - destruct HA as (H1 & _ & H3 & _).
    apply (sorted_hits_bounded Ai); auto.
    intros ht Hht. apply Hin in Hht. destruct Hht as (Ha & _ & Ea & _).
    exists (hit_pA ht). auto.
  - destruct HB as (H1 & _ & H3 & _).
    apply (sorted_hits_bounded Bi); auto.
    intros ht Hht. apply Hin in Hht. destruct Hht as (_ & Hb & _ & Eb & _).
    exists (hit_pB ht). auto.
  - destruct M as [m | ]; [ | exact I].
    destruct HM as (H1 & _ & H3 & _).
    apply (sorted_hits_bounded (Mi m)); auto.
    intros ht Hht. apply Hin in Hht.
    destruct Hht as (_ & _ & _ & _ & pm & Hpm & Em & _).
    exists pm. auto.
Qed.

(** In the first vectors of the samples two rows are common to A and B. *)
Lemma phase1_count_is_exact_and_bounded_witness :
  slice_ok (i sample_A) (i sample_B) None first_vector 0
  /\ phase1_cjnz (i sample_A) (i sample_B) None first_vector = 2
  /\ 2 <= bjnz first_vector.
Proof.
  pose proof (slice_okb_sound (i sample_A) (i sample_B) None first_vector 0
                eq_refl) as Hok.
  split; [exact Hok | ].
  destruct (phase1_count_is_exact_and_bounded (i sample_A) (i sample_B)
              None first_vector 0 Hok) as (Hc & _ & Hb & _).
  split; [rewrite Hc; reflexivity | ].
  change 2 with (phase1_cjnz (i sample_A) (i sample_B) None first_vector).
  exact Hb.
Defined.

(** X8.  A mask only removes entries: the places where the masked template
    produces an entry are those of the unmasked template at which the mask
    has an entry that is true. *)
Theorem mask_only_removes_hits
    (Ai Bi : array Z) (m : mask) (s : slice) (wlo : Z) (ht : hit) :
  slice_ok Ai Bi (Some m) s wlo ->
  In ht (vector_hits Ai Bi (Some m) s)
  <-> In ht (vector_hits Ai Bi None s) /\ mask_lets m s ht.
Proof.
  intros Hok.
  destruct (hits_spec Ai Bi (Some m) s wlo Hok) as [Hm _].
  destruct (hits_spec Ai Bi None s wlo
              (slice_ok_unmasked Ai Bi (Some m) s wlo Hok)) as [Hn _].
  rewrite Hm, Hn. unfold is_hit, mask_lets. tauto.
Qed.

(** Under the valued mask of the samples row 2 stays and row 3, where the
    mask holds a zero, goes. *)
Lemma mask_only_removes_hits_witness :
  slice_ok (i sample_A) (i sample_B) (Some sample_mask) first_vector 0
  /\ In (2, 1, 0) (vector_hits (i sample_A) (i sample_B) None first_vector)
  /\ mask_lets sample_mask first_vector (2, 1, 0).
Proof.
  pose proof (slice_okb_sound (i sample_A) (i sample_B) (Some sample_mask)
                first_vector 0 eq_refl) as Hok.
  split; [exact Hok | ].
  apply (mask_only_removes_hits (i sample_A) (i sample_B) sample_mask
           first_vector 0 (2, 1, 0) Hok).
  left. reflexivity.
Defined.

(** Two lists in strictly increasing order with the same members are the
    same list. *)
Lemma sorted_lists_equal (l1 l2 : list hit) :
  StronglySorted hit_lt l1 -> StronglySorted hit_lt l2 ->
  (forall ht, In ht l1 <-> In ht l2) -> l1 = l2.
Proof.
  intros H1. revert l2.
  induction H1 as [| h1 t1 Hs1 IH HF1]; intros l2 H2 Hsame.
  - destruct l2 as [| h2 t2]; [reflexivity | ].
    destruct (proj2 (Hsame h2) (or_introl eq_refl)).
  - destruct H2 as [| h2 t2 Hs2 HF2].
    + destruct (proj1 (Hsame h1) (or_introl eq_refl)).
    + rewrite Forall_forall in HF1, HF2.
      assert (E : h1 = h2).
      { destruct (proj1 (Hsame h1) (or_introl eq_refl)) as [E | Hin1];
          [congruence | ].
        destruct (proj2 (Hsame h2) (or_introl eq_refl)) as [E | Hin2];
          [congruence | ].
        specialize (HF1 h2 Hin2). specialize (HF2 h1 Hin1).
        unfold hit_lt in *. lia. }
      subst h2. f_equal. apply IH; [exact Hs2 | ].
      intros ht. split; intros Hin.
      * destruct (proj1 (Hsame ht) (or_intror Hin)) as [E | Hin2];
          [ | exact Hin2].
        subst ht. specialize (HF1 h1 Hin). unfold hit_lt in HF1. lia.
      * destruct (proj2 (Hsame ht) (or_intror Hin)) as [E | Hin1];
          [ | exact Hin1].
        subst ht. specialize (HF2 h1 Hin). unfold hit_lt in HF2. lia.
Qed.

Lemma sorted_map_exchange (l : list hit) :
  StronglySorted hit_lt l -> StronglySorted hit_lt (map exchange_hit l).
Proof.
  induction 1 as [| h0 l Hs IH HF]; cbn [map]; constructor; [exact IH | ].
  rewrite Forall_forall in *. intros e He. apply in_map_iff in He.
  destruct He as (ht & <- & Hht). exact (HF ht Hht).
Qed.

(** X9.  The template treats its two operands alike, its case analysis
    notwithstanding (A dense, B dense, A much denser, B much denser, the
    scan, and the mask that searches A before B): with B in the place of A
    it finds the same places in the same order, each with its two offsets
    exchanged. *)
Theorem exchanging_operands_exchanges_offsets
    (Ai Bi : array Z) (M : option mask) (s : slice) (wlo : Z) :
  slice_ok Ai Bi M s wlo ->
  vector_hits Bi Ai M (exchange_slice s)
  = map exchange_hit (vector_hits Ai Bi M s).
Proof.
  intros Hok.
  assert (Hok' : slice_ok Bi Ai M (exchange_slice s) wlo).
  { destruct Hok as (HA & HB & HM). unfold slice_ok, exchange_slice; cbn.
    auto. }
  destruct (hits_spec Ai Bi M s wlo Hok) as [Hin Hs].
  destruct (hits_spec Bi Ai M (exchange_slice s) wlo Hok') as [Hin' Hs'].
  apply sorted_lists_equal;
    [exact Hs' | apply sorted_map_exchange; exact Hs | ].
  intros ht. rewrite Hin', in_map_iff. split.
  - intros Hhit. exists (exchange_hit ht). split.
    + destruct ht as [[r pb] pa]. reflexivity.
    + apply Hin. destruct ht as [[r pb] pa].
      unfold is_hit, exchange_slice, exchange_hit, hit_i, hit_pA, hit_pB
        in *.
      cbn in *. tauto.
  - intros (h0 & <- & Hh0). apply Hin in Hh0. destruct h0 as [[r pa] pb].
    unfold is_hit, exchange_slice, exchange_hit, hit_i, hit_pA, hit_pB in *.
    cbn in *. tauto.
Qed.

(** On the first vectors of the samples: rows 2 and 3, at the offsets 1, 2
    of A and 0, 1 of B. *)
Lemma exchanging_operands_exchanges_offsets_witness :
  slice_ok (i sample_A) (i sample_B) None first_vector 0
  /\ vector_hits (i sample_B) (i sample_A) None (exchange_slice first_vector)
     = [(2, 0, 1); (3, 1, 2)].
Proof.
  pose proof (slice_okb_sound (i sample_A) (i sample_B) None first_vector 0
                eq_refl) as Hok.
  split; [exact Hok | ].
  rewrite (exchanging_operands_exchanges_offsets (i sample_A) (i sample_B)
             None first_vector 0 Hok).
  reflexivity.
Defined.

Lemma write_entries_pattern (T1 T2 : Type) (f : hit -> T1) (g : hit -> T2) :
  forall (hits : list hit) (Ci : array Z) (Cx1 : array T1) (Cx2 : array T2)
         (pC : Z),
    fst (write_entries T1 Ci Cx1 pC (map (fun ht => (hit_i ht, f ht)) hits))
    = fst (write_entries T2 Ci Cx2 pC
             (map (fun ht => (hit_i ht, g ht)) hits)).
Proof.
  induction hits as [| ht hits IH]; intros Ci Cx1 Cx2 pC; cbn [map];
    [reflexivity | ].
  cbn [write_entries]. apply IH.
Qed.

(** X10.  The pattern of C = A.*B is settled by the patterns of A and B (and by
    the mask): two runs of the template on matrices with the same [h],
    [p] and [i], whatever their types and values and whatever the operator
    of the kernel, produce the same [Cp] and the same [Ci]. *)
Theorem pattern_of_C_ignores_values
    (atype atype' btype btype' ctype ctype' xtype xtype' ytype ytype' : Type)
    (GB_GETA : array atype -> Z -> xtype)
    (GB_GETA' : array atype' -> Z -> xtype')
    (GB_GETB : array btype -> Z -> ytype)
    (GB_GETB' : array btype' -> Z -> ytype')
    (GB_BINOP : xtype -> ytype -> Z -> Z -> ctype)
    (GB_BINOP' : xtype' -> ytype' -> Z -> Z -> ctype')
    (vl vd nvA nvB : Z) (Ah Bh : option (array Z)) (Ap Ai Bp Bi : array Z)
    (Ax : array atype) (Ax' : array atype')
    (Bx : array btype) (Bx' : array btype')
    (Mask : option (matrix Z * bool))
    (Ch : option (array Z)) (Ch_is_Ah Ch_is_Bh Ch_is_Mh : bool)
    (C_to_A C_to_B C_to_M : option (array Z))
    (TaskList : array Task.GB_task_struct) (ntasks Cnvec : Z)
    (Cp0 Ci0 : array Z) (Cx0 : array ctype) (Cx0' : array ctype') :
  let C := emult atype btype ctype xtype ytype GB_GETA GB_GETB GB_BINOP
             (mkSparse vl vd nvA Ah Ap Ai Ax) (mkSparse vl vd nvB Bh Bp Bi Bx)
             Mask Ch Ch_is_Ah Ch_is_Bh Ch_is_Mh C_to_A C_to_B C_to_M
             TaskList ntasks Cnvec Cp0 Ci0 Cx0 in
  let C' := emult atype' btype' ctype' xtype' ytype' GB_GETA' GB_GETB'
              GB_BINOP'
              (mkSparse vl vd nvA Ah Ap Ai Ax')
              (mkSparse vl vd nvB Bh Bp Bi Bx')
              Mask Ch Ch_is_Ah Ch_is_Bh Ch_is_Mh C_to_A C_to_B C_to_M
              TaskList ntasks Cnvec Cp0 Ci0 Cx0' in
  fst C = fst C' /\ fst (snd C) = fst (snd C').
Proof.
  cbv zeta. unfold emult. cbn [fst snd]. split; [reflexivity | ].
  change (phase1 atype' btype' (mkSparse vl vd nvA Ah Ap Ai Ax')
            (mkSparse vl vd nvB Bh Bp Bi Bx') Mask Ch Ch_is_Ah Ch_is_Bh
            Ch_is_Mh C_to_A C_to_B C_to_M TaskList ntasks Cp0)
    with (phase1 atype btype (mkSparse vl vd nvA Ah Ap Ai Ax)
            (mkSparse vl vd nvB Bh Bp Bi Bx) Mask Ch Ch_is_Ah Ch_is_Bh
            Ch_is_Mh C_to_A C_to_B C_to_M TaskList ntasks Cp0).
  set (placed := GB_task_cumsum _ Cnvec _ ntasks).
  unfold phase2. generalize (units (snd placed) ntasks). intros l.
  assert (H : forall (C1 : array Z * array ctype)
                     (C2 : array Z * array ctype'),
            fst C1 = fst C2 ->
            fst (fold_left
                   (phase2_step atype btype ctype xtype ytype GB_GETA
                      GB_GETB GB_BINOP (mkSparse vl vd nvA Ah Ap Ai Ax)
                      (mkSparse vl vd nvB Bh Bp Bi Bx) Mask Ch Ch_is_Ah
                      Ch_is_Bh Ch_is_Mh C_to_A C_to_B C_to_M (snd placed)
                      (fst placed)) l C1)
            = fst (fold_left
                     (phase2_step atype' btype' ctype' xtype' ytype'
                        GB_GETA' GB_GETB' GB_BINOP'
                        (mkSparse vl vd nvA Ah Ap Ai Ax')
                        (mkSparse vl vd nvB Bh Bp Bi Bx') Mask Ch Ch_is_Ah
                        Ch_is_Bh Ch_is_Mh C_to_A C_to_B C_to_M (snd placed)
                        (fst placed)) l C2));
    [ | apply H; reflexivity].
  induction l as [| u l IH]; intros C1 C2 E; cbn [fold_left]; [exact E | ].
  apply IH. unfold phase2_step, phase2_entries. cbv zeta. rewrite E.
  match goal with
  | |- context [if ?c then _ else _] => destruct c; [reflexivity | ]
  end.
  match goal with
  | |- fst (write_entries _ ?Ci ?Cx1 ?pC (map ?F ?hits))
       = fst (write_entries _ _ ?Cx2 _ (map ?G _)) =>
      exact (write_entries_pattern _ _ (fun ht => snd (F ht))
               (fun ht => snd (G ht)) hits Ci Cx1 Cx2 pC)
  end.
Qed.

(** X11.  The template writes the entries of C and nothing else: for a valid
    header and task list, the arrays [Ci] and [Cx] are as they were before
    the call at every offset below 0 and at every offset from [Cp [Cnvec]],
    the number of entries of C, on. *)
Theorem emult_writes_only_its_entries
    (atype btype ctype xtype ytype : Type)
    (GB_GETA : array atype -> Z -> xtype)
    (GB_GETB : array btype -> Z -> ytype)
    (GB_BINOP : xtype -> ytype -> Z -> Z -> ctype)
    (A : matrix atype) (B : matrix btype) (Mask : option (matrix Z * bool))
    (Ch : option (array Z)) (Ch_is_Ah Ch_is_Bh Ch_is_Mh : bool)
    (C_to_A C_to_B C_to_M : option (array Z))
    (TaskList : array Task.GB_task_struct) (ntasks Cnvec : Z) (W : Z -> Z)
    (Cp0 Ci0 : array Z) (Cx0 : array ctype) (q : Z) :
  sparse_ok A -> sparse_ok B ->
  vlen B = vlen A ->
  mask_ok Mask (vlen A) (vdim A) ->
  header_ok A B Mask Ch Cnvec Ch_is_Ah Ch_is_Bh Ch_is_Mh
            C_to_A C_to_B C_to_M ->
  tasks_ok A B Mask
           (coarse_slice atype btype A B Mask Ch Ch_is_Ah Ch_is_Bh Ch_is_Mh
              C_to_A C_to_B C_to_M)
           TaskList ntasks Cnvec W ->
  let C := emult atype btype ctype xtype ytype GB_GETA GB_GETB GB_BINOP
             A B Mask Ch Ch_is_Ah Ch_is_Bh Ch_is_Mh C_to_A C_to_B C_to_M
             TaskList ntasks Cnvec Cp0 Ci0 Cx0 in
  q < 0 \/ fst C Cnvec <= q ->
  fst (snd C) q = Ci0 q /\ snd (snd C) q = Cx0 q.
Proof.
  intros HA HB Hvlen HM Hhead Htasks C Hq. subst C.
  apply (EmultFacts.phase2_frame atype btype ctype xtype ytype
           GB_GETA GB_GETB GB_BINOP A B Mask Ch Ch_is_Ah Ch_is_Bh Ch_is_Mh
           C_to_A C_to_B C_to_M TaskList ntasks Cnvec W
           HA HB Hvlen HM Hhead Htasks Cp0 Ci0 Cx0 q).
  exact Hq.
Qed.

(** On the samples (no mask) C has four entries; the fifth cell of [Ci] and
    of [Cx] keeps what the arrays held before. *)
Lemma emult_writes_only_its_entries_witness :
  let C := times_kernel sample_A sample_B None
             sample_Ch true false false None sample_C_to_B sample_C_to_M
             sample_TaskList 3 2 (fun _ => 0) (fun _ => -1) (fun _ => -1) in
  fst C 2 = 4 /\ fst (snd C) 4 = -1 /\ snd (snd C) 4 = -1.
Proof.
  cbv zeta. split; [reflexivity | ].
  apply (emult_writes_only_its_entries Z Z Z Z Z
           (fun Ax q => Ax q) (fun Bx q => Bx q) (fun a b _ _ => a * b)
           sample_A sample_B None
           sample_Ch true false false None sample_C_to_B sample_C_to_M
           sample_TaskList 3 2 sample_W
           (fun _ => 0) (fun _ => -1) (fun _ => -1) 4
           (EmultFacts.sparse_okb_sound sample_A eq_refl)
           (EmultFacts.sparse_okb_sound sample_B eq_refl)
           eq_refl
           (EmultFacts.mask_okb_sound None 4 3 eq_refl)
           (EmultFacts.header_okb_sound sample_A sample_B None
              sample_Ch 2 true false false None sample_C_to_B
              sample_C_to_M eq_refl)
           (EmultFacts.tasks_okb_sound sample_A sample_B None
              (coarse_slice Z Z sample_A sample_B None sample_Ch true false
                 false None sample_C_to_B sample_C_to_M)
              sample_TaskList 3 2 sample_W eq_refl)).
  right. cbv. discriminate.
Defined.

End EmultLaws.

(* ===================================================================== *)
(** * GB_shallow_op: what is shared, what is owned, what is released      *)
(* ===================================================================== *)

Module ShallowOpFacts.
Import ShallowOp.

Section Facts.

Variable ratio : Type.
Variable GB_OPCODE_IS_POSITIONAL : apply_opcode -> bool.
Variable new_info : GrB_Info.
Variable anz : Z.
Variable GB_MALLOC : pointer.
Variable apply_info : GrB_Info.

Local Abbreviation shallow_op :=
  (GB_shallow_op ratio GB_OPCODE_IS_POSITIONAL new_info anz GB_MALLOC
     apply_info).

(** X12.  The matrix that a successful call returns shares its vector
    pointers, its hyperlist and (unless A has no room for entries) its
    pattern with A and is flagged accordingly; the only array it can own is
    the block that the call itself allocated for the values.  [GB_MALLOC]
    hands out a block that is not in use, so none of the arrays of A is
    owned by C: freeing C releases nothing of A.  A call that returns a
    matrix has released nothing. *)
Theorem shallow_copy_owns_only_new_values
    (C_is_csc : bool) (op1 : option GrB_UnaryOp) (op2 : option GrB_BinaryOp)
    (binop_bind1st : bool) (A C : GrB_Matrix ratio) (r : outcome ratio) :
  (forall b, GB_MALLOC = Some b -> ~ In b (blocks ratio A)) ->
  shallow_op C_is_csc op1 op2 binop_bind1st A = Some r ->
  Chandle ratio r = Some C ->
  info ratio r = GrB_SUCCESS /\ freed ratio r = []
  /\ p ratio C = p ratio A /\ p_shallow ratio C = true
  /\ h ratio C = h ratio A /\ h_shallow ratio C = true
  /\ (nzmax ratio A = 0 ->
      i ratio C = None /\ x ratio C = None /\ nzmax ratio C = 0)
  /\ (nzmax ratio A <> 0 ->
      i ratio C = i ratio A /\ i_shallow ratio C = true)
  /\ (forall b, In b (owned_blocks ratio C) ->
        GB_MALLOC = Some b /\ x ratio C = Some b
        /\ x_shallow ratio C = false)
  /\ (forall b, In b (GB_Matrix_free ratio C) -> ~ In b (blocks ratio A)).
Proof.
  intros Hfresh Hrun HC.
  assert (Hown : forall b, In b (owned_blocks ratio C) ->
            GB_MALLOC = Some b /\ x ratio C = Some b
            /\ x_shallow ratio C = false).
  { unfold GB_shallow_op in Hrun.
    destruct (operator_of _ _ _ _) as [[[o op_intype] zt] | ];
      [ | discriminate Hrun].
    injection Hrun as Hrun. subst r.
    destruct new_info; try discriminate HC.
    destruct (nzmax ratio A =? 0).
    - cbn in HC. injection HC as <-.
      unfold owned_blocks; cbn.
      destruct (h ratio A), (p ratio A); cbn; contradiction.
    - destruct (pure_shallow ratio A _ _ binop_bind1st).
      + cbn in HC. injection HC as <-.
        unfold owned_blocks; cbn.
        destruct (h ratio A), (p ratio A), (i ratio A), (x ratio A);
          cbn; contradiction.
      + cbn [x] in HC. destruct GB_MALLOC as [blk | ]; [ | discriminate HC].
        destruct apply_info; try discriminate HC.
        cbn in HC. injection HC as <-.
        unfold owned_blocks; cbn.
        destruct (h ratio A), (p ratio A), (i ratio A); cbn;
          intros b [<- | []]; repeat split; reflexivity. }
  assert (Hshared : info ratio r = GrB_SUCCESS /\ freed ratio r = []
            /\ p ratio C = p ratio A /\ p_shallow ratio C = true
            /\ h ratio C = h ratio A /\ h_shallow ratio C = true
            /\ (nzmax ratio A = 0 ->
                i ratio C = None /\ x ratio C = None /\ nzmax ratio C = 0)
            /\ (nzmax ratio A <> 0 ->
                i ratio C = i ratio A /\ i_shallow ratio C = true)).
  { unfold GB_shallow_op in Hrun.
    destruct (operator_of _ _ _ _) as [[[o op_intype] zt] | ];
      [ | discriminate Hrun].
    injection Hrun as Hrun. subst r.
    destruct new_info; try discriminate HC.
    destruct (nzmax ratio A =? 0) eqn:Enz.
    - apply Z.eqb_eq in Enz. cbn in HC. injection HC as <-. cbn.
      repeat split; try reflexivity; congruence.
    - apply Z.eqb_neq in Enz.
      destruct (pure_shallow ratio A _ _ binop_bind1st).
      + cbn in HC. injection HC as <-. cbn.
        repeat split; try reflexivity; congruence.
      + cbn [x] in HC. destruct GB_MALLOC as [blk | ]; [ | discriminate HC].
        destruct apply_info; try discriminate HC.
        cbn in HC. injection HC as <-. cbn.
        repeat split; try reflexivity; congruence. }
  destruct Hshared as (S1 & S2 & S3 & S4 & S5 & S6 & S7 & S8).
  do 8 (split; [assumption | ]).
  split; [exact Hown | ].
  intros b Hb. apply Hfresh. exact (proj1 (Hown b Hb)).
Qed.

(** X13.  With an operator, the outcome of the call once the header is there:
    when A has room for entries, the values of C are those of A, shared,
    exactly when the operator is IDENTITY, ANY, FIRST applied to (A, y) or
    SECOND applied to (x, A) and its input type is the type of A; otherwise
    they are a new block of [max (anz, 1)] cells that [GB_apply_op] has
    filled.  In both cases C has the output type of the operator, the
    dimensions and the hypersparsity of A, the orientation asked for, and
    is stamped valid. *)
Theorem values_shared_iff_pure_shallow
    (C_is_csc : bool) (op1 : option GrB_UnaryOp) (op2 : option GrB_BinaryOp)
    (binop_bind1st : bool) (A C : GrB_Matrix ratio) (r : outcome ratio)
    (o : apply_opcode) (op_intype : option GrB_Type) (zt : GrB_Type) :
  shallow_op C_is_csc op1 op2 binop_bind1st A = Some r ->
  Chandle ratio r = Some C ->
  operator_of GB_OPCODE_IS_POSITIONAL op1 op2 binop_bind1st
  = Some (o, op_intype, zt) ->
  nzmax ratio A <> 0 ->
  x_shallow ratio C = pure_shallow ratio A op_intype o binop_bind1st
  /\ (x_shallow ratio C = true ->
      x ratio C = x ratio A /\ nzmax ratio C = nzmax ratio A)
  /\ (x_shallow ratio C = false ->
      x ratio C = GB_MALLOC /\ GB_MALLOC <> None
      /\ apply_info = GrB_SUCCESS /\ nzmax ratio C = GB_IMAX anz 1)
  /\ type ratio C = zt
  /\ vlen ratio C = vlen ratio A /\ vdim ratio C = vdim ratio A
  /\ is_csc ratio C = C_is_csc
  /\ (is_hyper ratio C = true <-> h ratio A <> None)
  /\ plen ratio C = plen ratio A /\ nvec ratio C = nvec ratio A
  /\ nvec_nonempty ratio C = nvec_nonempty ratio A
  /\ magic ratio C = GB_MAGIC.
Proof.
  intros Hrun HC Hop Hnz. unfold GB_shallow_op in Hrun. rewrite Hop in Hrun.
  injection Hrun as Hrun. subst r.
  destruct new_info; try discriminate HC.
  replace (nzmax ratio A =? 0) with false in HC
    by (symmetry; apply Z.eqb_neq; exact Hnz).
  assert (Hh : forall hp : pointer,
            (match hp with Some _ => true | None => false end) = true
            <-> hp <> None)
    by (intros [b | ]; split; congruence).
  destruct (pure_shallow ratio A op_intype o binop_bind1st).
  - cbn in HC. injection HC as <-. cbn.
    repeat split; try reflexivity; try discriminate; apply Hh.
  - cbn [x] in HC. destruct GB_MALLOC as [blk | ]; [ | discriminate HC].
    destruct apply_info; try discriminate HC.
    cbn in HC. injection HC as <-. cbn.
    repeat split; try reflexivity; try discriminate; apply Hh.
Qed.

(** X14.  A call that fails hands no matrix back and releases exactly what
    it allocated: nothing when the header could not be had (the status is
    then the one of [GB_new]), and otherwise the block for the values, if
    there is one, the status being out of memory.  [GB_MALLOC] hands out a
    block that is not in use, so no array of A is released; and no block
    is lost. *)
Theorem failed_shallow_op_releases_what_it_took
    (C_is_csc : bool) (op1 : option GrB_UnaryOp) (op2 : option GrB_BinaryOp)
    (binop_bind1st : bool) (A : GrB_Matrix ratio) (r : outcome ratio) :
  (forall b, GB_MALLOC = Some b -> ~ In b (blocks ratio A)) ->
  shallow_op C_is_csc op1 op2 binop_bind1st A = Some r ->
  info ratio r <> GrB_SUCCESS ->
  Chandle ratio r = None
  /\ (new_info <> GrB_SUCCESS ->
      info ratio r = new_info /\ freed ratio r = [])
  /\ (new_info = GrB_SUCCESS ->
      info ratio r = GrB_OUT_OF_MEMORY
      /\ freed ratio r = owned GB_MALLOC false
      /\ (GB_MALLOC = None \/ apply_info <> GrB_SUCCESS))
  /\ (forall b, In b (freed ratio r) ->
        GB_MALLOC = Some b /\ ~ In b (blocks ratio A)).
Proof.
  intros Hfresh Hrun Hfail.
  assert (Hmain : Chandle ratio r = None
            /\ (new_info <> GrB_SUCCESS ->
                info ratio r = new_info /\ freed ratio r = [])
            /\ (new_info = GrB_SUCCESS ->
                info ratio r = GrB_OUT_OF_MEMORY
                /\ freed ratio r = owned GB_MALLOC false
                /\ (GB_MALLOC = None \/ apply_info <> GrB_SUCCESS))).
  { unfold GB_shallow_op in Hrun.
    destruct (operator_of _ _ _ _) as [[[o op_intype] zt] | ];
      [ | discriminate Hrun].
    injection Hrun as Hrun. subst r.
    destruct new_info;
      try (cbn; split; [reflexivity | ];
           split; [intros _; split; reflexivity | discriminate]).
    destruct (nzmax ratio A =? 0); [cbn in Hfail; congruence | ].
    destruct (pure_shallow ratio A _ _ binop_bind1st);
      [cbn in Hfail; congruence | ].
    cbn [x] in *. destruct GB_MALLOC as [blk | ].
    - destruct apply_info; try (cbn in Hfail; congruence).
      all: cbn; split; [reflexivity | ]; split; [congruence | ]; intros _.
      all: split; [reflexivity | ].
      all: unfold GB_Matrix_free, owned_blocks; cbn.
      all: split; [ | right; discriminate].
      all: destruct (h ratio A), (p ratio A), (i ratio A); reflexivity.
    - cbn. split; [reflexivity | ]. split; [congruence | ]. intros _.
      split; [reflexivity | ].
      unfold GB_Matrix_free, owned_blocks; cbn.
      split; [ | left; reflexivity].
      destruct (h ratio A), (p ratio A), (i ratio A); reflexivity. }
  destruct Hmain as (M1 & M2 & M3).
  split; [exact M1 | ]. split; [exact M2 | ]. split; [exact M3 | ].
  intros b Hb.
  assert (Hm : GB_MALLOC = Some b).
  { destruct (GrB_Info_eq_dec new_info GrB_SUCCESS) as [E | N].
    - destruct (M3 E) as (_ & Hf & _). rewrite Hf in Hb.
      destruct GB_MALLOC as [blk | ]; cbn in Hb; [ | contradiction].
      destruct Hb as [<- | []]. reflexivity.
    - destruct (M2 N) as (_ & Hf). rewrite Hf in Hb. contradiction. }
  split; [exact Hm | exact (Hfresh b Hm)].
Qed.

End Facts.

(** The identity of float applied to the double sample: the values are a
    new block, at address 20, and that is all the copy owns. *)
Lemma shallow_copy_owns_only_new_values_witness :
  exists r C,
    GB_shallow_op unit never_positional GrB_SUCCESS 3 (Some 20) GrB_SUCCESS
      true (Some identity_fp32) None false sample_A = Some r
    /\ Chandle unit r = Some C
    /\ owned_blocks unit C = [20]
    /\ p unit C = Some 10 /\ p_shallow unit C = true
    /\ ~ In 20 (blocks unit sample_A).
Proof.
  eexists. eexists. split; [reflexivity | ]. split; [reflexivity | ].
  split; [reflexivity | ].
  assert (Hfresh : forall b : Z,
            Some 20 = Some b -> ~ In b (blocks unit sample_A)).
  { intros b E. injection E as <-. cbn. intros H.
    repeat (destruct H as [H | H]; [discriminate H | ]). exact H. }
  destruct (shallow_copy_owns_only_new_values unit never_positional
              GrB_SUCCESS 3 (Some 20) GrB_SUCCESS true (Some identity_fp32)
              None false sample_A _ _ Hfresh eq_refl eq_refl)
    as (_ & _ & Hp & Hps & _ & _ & _ & _ & _ & Hapart).
  split; [exact Hp | ]. split; [exact Hps | ].
  apply Hapart. left. reflexivity.
Defined.

(** The identity of double applied to the double sample: a pure shallow
    copy. *)
Lemma values_shared_iff_pure_shallow_witness :
  exists r C,
    GB_shallow_op unit never_positional GrB_SUCCESS 3 (Some 20) GrB_SUCCESS
      true (Some identity_fp64) None false sample_A = Some r
    /\ Chandle unit r = Some C
    /\ x_shallow unit C = true /\ x unit C = Some 12.
Proof.
  eexists. eexists. split; [reflexivity | ]. split; [reflexivity | ].
  destruct (values_shared_iff_pure_shallow unit never_positional
              GrB_SUCCESS 3 (Some 20) GrB_SUCCESS true (Some identity_fp64)
              None false sample_A _ _ _ _ _ eq_refl eq_refl eq_refl
              ltac:(discriminate))
    as (Hs & Hx & _).
  split; [exact Hs | exact (proj1 (Hx Hs))].
Defined.

(** [GB_apply_op] runs out of memory: the new block is released, and
    nothing else. *)
Lemma failed_shallow_op_releases_what_it_took_witness :
  exists r,
    GB_shallow_op unit never_positional GrB_SUCCESS 3 (Some 20)
      GrB_OUT_OF_MEMORY true (Some identity_fp32) None false sample_A
    = Some r
    /\ Chandle unit r = None /\ freed unit r = [20]
    /\ ~ In 20 (blocks unit sample_A).
Proof.
  eexists. split; [reflexivity | ].
  assert (Hfresh : forall b : Z,
            Some 20 = Some b -> ~ In b (blocks unit sample_A)).
  { intros b E. injection E as <-. cbn. intros H.
    repeat (destruct H as [H | H]; [discriminate H | ]). exact H. }
  destruct (failed_shallow_op_releases_what_it_took unit never_positional
              GrB_SUCCESS 3 (Some 20) GrB_OUT_OF_MEMORY true
              (Some identity_fp32) None false sample_A _ Hfresh eq_refl
              ltac:(discriminate))
    as (Hc & _ & Hf & Hapart).
  split; [exact Hc | ].
  split; [exact (proj1 (proj2 (Hf eq_refl))) | ].
  apply Hapart. left. reflexivity.
Defined.

End ShallowOpFacts.

(* ===================================================================== *)
(** * gauss_demo.c: the operators form a commutative semiring             *)
(* ===================================================================== *)

Module GaussDemoFacts.
Import GaussDemo.

Local Abbreviation M := int32_modulus.

#[local] Existing Instances eqm_setoid Zplus_eqm Zminus_eqm Zmult_eqm.

Lemma int32_wrap_eqm (v : Z) : eqm M (int32_wrap v) v.
Proof.
  unfold eqm, int32_wrap, int32_modulus.
  rewrite Zminus_mod, Zmod_mod, <- Zminus_mod. f_equal. lia.
Qed.

Lemma int32_wrap_congr (a b : Z) : eqm M a b -> int32_wrap a = int32_wrap b.
Proof.
  unfold eqm, int32_wrap, int32_modulus. intros H.
  f_equal. rewrite Zplus_mod, H, <- Zplus_mod. reflexivity.
Qed.

Lemma int32_wrap_range (v : Z) : int32_range (int32_wrap v).
Proof.
  unfold int32_range, int32_wrap, int32_modulus.
  pose proof (Z.mod_pos_bound (v + 2 ^ 31) (2 ^ 32) ltac:(lia)). lia.
Qed.

Lemma int32_wrap_id (v : Z) : int32_range v -> int32_wrap v = v.
Proof.
  unfold int32_range, int32_wrap, int32_modulus. intros H.
  rewrite Z.mod_small by lia. lia.
Qed.

Lemma eqm_of_eq (a b : Z) : a = b -> eqm M a b.
Proof. intros ->. reflexivity. Qed.

Lemma gauss_eq (x y : gauss) :
  real x = real y -> imag x = imag y -> x = y.
Proof. destruct x, y; cbn; congruence. Qed.

Lemma addgauss_comm (x y : gauss) : addgauss x y = addgauss y x.
Proof. apply gauss_eq; cbn [addgauss multgauss real imag]; (apply int32_wrap_congr; rewrite ?int32_wrap_eqm;
      apply eqm_of_eq; ring). Qed.

Lemma addgauss_assoc (x y z : gauss) :
  addgauss x (addgauss y z) = addgauss (addgauss x y) z.
Proof. apply gauss_eq; cbn [addgauss multgauss real imag]; (apply int32_wrap_congr; rewrite ?int32_wrap_eqm;
      apply eqm_of_eq; ring). Qed.

(** X15.  [addgauss] with [zero] is a commutative monoid on the Gaussian integers
    with int32 parts, as [GrB_Monoid_new] expects of its arguments; the sum
    that [GrB_Matrix_reduce_UDT] returns therefore does not depend on the
    order in which the entries are met. *)
Theorem addgauss_is_a_commutative_monoid (x y z : gauss)
    (l l' : list gauss) :
  gauss_range x ->
  Permutation l l' ->
  addgauss x (addgauss y z) = addgauss (addgauss x y) z
  /\ addgauss x y = addgauss y x
  /\ addgauss zero x = x /\ addgauss x zero = x
  /\ gauss_range (addgauss x y)
  /\ reduce l = reduce l'.
Proof.
  intros [Hr Hi] Hperm.
  split; [apply addgauss_assoc | ]. split; [apply addgauss_comm | ].
  split; [ | split; [ | split]].
  - apply gauss_eq; cbn [addgauss zero real imag]; rewrite Z.add_0_l;
      apply int32_wrap_id; assumption.
  - apply gauss_eq; cbn [addgauss zero real imag]; rewrite Z.add_0_r;
      apply int32_wrap_id; assumption.
  - split; cbn [addgauss real imag]; apply int32_wrap_range.
  - unfold reduce. generalize zero.
    induction Hperm as [| a l1 l2 Hp IH | a b l1 | l1 l2 l3 H1 IH1 H2 IH2];
      intros s; cbn.
    + reflexivity.
    + apply IH.
    + f_equal. rewrite <- !addgauss_assoc. f_equal. apply addgauss_comm.
    + rewrite IH1. apply IH2.
Qed.

(** The sum of the matrix of the demo is (39, 6), by rows or backwards. *)
Lemma addgauss_is_a_commutative_monoid_witness :
  gauss_range (mkGauss 3 (-1))
  /\ addgauss zero (mkGauss 3 (-1)) = mkGauss 3 (-1)
  /\ reduce (rev demo_entries) = mkGauss 39 6.
Proof.
  assert (Hrange : gauss_range (mkGauss 3 (-1)))
    by (split; cbn; unfold int32_range; lia).
  split; [exact Hrange | ].
  destruct (addgauss_is_a_commutative_monoid (mkGauss 3 (-1)) zero zero
              demo_entries (rev demo_entries) Hrange
              (Permutation_rev demo_entries))
    as (_ & _ & Hid & _ & _ & Hsum).
  split; [exact Hid | ]. rewrite <- Hsum. reflexivity.
Defined.

(** X16.  [multgauss] is associative and commutative, distributes over
    [addgauss] on both sides, has [one] as its identity and [zero] as its
    annihilator: with the AddMonoid it forms the commutative semiring that
    [GrB_Semiring_new] is given, wrap-around included. *)
Theorem multgauss_forms_a_semiring (x y z : gauss) :
  gauss_range x ->
  multgauss x (multgauss y z) = multgauss (multgauss x y) z
  /\ multgauss x y = multgauss y x
  /\ multgauss x (addgauss y z) = addgauss (multgauss x y) (multgauss x z)
  /\ multgauss (addgauss y z) x = addgauss (multgauss y x) (multgauss z x)
  /\ multgauss one x = x /\ multgauss x one = x
  /\ multgauss zero x = zero /\ multgauss x zero = zero
  /\ gauss_range (multgauss x y).
Proof.
  intros [Hr Hi].
  assert (H1 : multgauss one x = x).
  { apply gauss_eq; cbn [multgauss one real imag].
    - rewrite <- (int32_wrap_id (real x) Hr) at 2. (apply int32_wrap_congr; rewrite ?int32_wrap_eqm;
      apply eqm_of_eq; ring).
    - rewrite <- (int32_wrap_id (imag x) Hi) at 2. (apply int32_wrap_congr; rewrite ?int32_wrap_eqm;
      apply eqm_of_eq; ring). }
  assert (Hc : forall a b, multgauss a b = multgauss b a)
    by (intros a b; apply gauss_eq; cbn [addgauss multgauss real imag]; (apply int32_wrap_congr; rewrite ?int32_wrap_eqm;
      apply eqm_of_eq; ring)).
  split; [apply gauss_eq; cbn [addgauss multgauss real imag]; (apply int32_wrap_congr; rewrite ?int32_wrap_eqm;
      apply eqm_of_eq; ring) | ].
  split; [apply Hc | ].
  split; [apply gauss_eq; cbn [addgauss multgauss real imag]; (apply int32_wrap_congr; rewrite ?int32_wrap_eqm;
      apply eqm_of_eq; ring) | ].
  split; [apply gauss_eq; cbn [addgauss multgauss real imag]; (apply int32_wrap_congr; rewrite ?int32_wrap_eqm;
      apply eqm_of_eq; ring) | ].
  split; [exact H1 | ]. split; [rewrite Hc; exact H1 | ].
  split; [apply gauss_eq; cbn; rewrite ?Z.mul_0_r; reflexivity | ].
  split; [apply gauss_eq; cbn; rewrite ?Z.mul_0_r; reflexivity | ].
  split; cbn [multgauss real imag]; apply int32_wrap_range.
Qed.

(** (1 + 2i)(3 - i) = 5 + 5i, and 2^16 (1 + i) squared wraps around to 0. *)
Lemma multgauss_forms_a_semiring_witness :
  gauss_range (mkGauss 1 2)
  /\ multgauss (mkGauss 3 (-1)) (mkGauss 1 2) = mkGauss 5 5
  /\ multgauss (mkGauss 65536 65536) (mkGauss 65536 65536) = zero.
Proof.
  assert (Hrange : gauss_range (mkGauss 1 2))
    by (split; cbn; unfold int32_range; lia).
  split; [exact Hrange | ].
  destruct (multgauss_forms_a_semiring (mkGauss 1 2) (mkGauss 3 (-1)) zero
              Hrange) as (_ & Hc & _).
  split; [rewrite <- Hc; reflexivity | reflexivity].
Defined.

End GaussDemoFacts.

(* ===================================================================== *)
(** * Generated kernels: the methods agree, and work in place             *)
(* ===================================================================== *)

Module EqGtInt8Facts.
Import EqGtInt8.

Lemma multadd_swap (w : bool) (a b : Z * Z) :
  GB_MULTADD_NOMASK (GB_MULTADD_NOMASK w (fst a) (snd a)) (fst b) (snd b)
  = GB_MULTADD_NOMASK (GB_MULTADD_NOMASK w (fst b) (snd b)) (fst a) (snd a).
Proof.
  unfold GB_MULTADD_NOMASK. cbv zeta.
  destruct w, (fst a >? snd a), (fst b >? snd b); reflexivity.
Qed.

Lemma multadd_fold_perm (l l' : list (Z * Z)) :
  Permutation l l' ->
  forall w,
    fold_left (fun w ab => GB_MULTADD_NOMASK w (fst ab) (snd ab)) l w
    = fold_left (fun w ab => GB_MULTADD_NOMASK w (fst ab) (snd ab)) l' w.
Proof.
  induction 1 as [| a l1 l2 Hp IH | a b l1 | l1 l2 l3 H1 IH1 H2 IH2];
    intros w; cbn [fold_left].
  - reflexivity.
  - apply IH.
  - rewrite multadd_swap. reflexivity.
  - rewrite IH1. apply IH2.
Qed.

Lemma dot_fold (l : list (Z * Z)) : forall cij,
  fold_left (fun c ab =>
               let t := GB_DOT_MULT (fst ab) (snd ab) in
               match c with
               | None => Some (GB_DOT_COPY t)
               | Some cij => Some (GB_DOT_ADD cij t)
               end) l (Some cij)
  = Some (fold_left (fun w ab => GB_MULTADD_NOMASK w (fst ab) (snd ab))
                    l cij).
Proof.
  induction l as [| ab l IH]; intros cij; cbn [fold_left]; [reflexivity | ].
  cbv zeta. rewrite IH. reflexivity.
Qed.

Lemma masked_fold (hiwater : Z) (l : list (Z * Z)) : forall w,
  fold_left (fun c ab => GB_MULTADD_WITH_MASK hiwater c (fst ab) (snd ab))
            l (w, hiwater + 1)
  = (fold_left (fun w ab => GB_MULTADD_NOMASK w (fst ab) (snd ab)) l w,
     hiwater + 1).
Proof.
  induction l as [| ab l IH]; intros w; cbn [fold_left]; [reflexivity | ].
  unfold GB_MULTADD_WITH_MASK at 2. cbn [fst snd].
  replace (hiwater + 1 =? hiwater) with false
    by (symmetry; apply Z.eqb_neq; lia).
  apply IH.
Qed.

(** X17.  The methods of the semiring (EQ, GT) compute the same C(i,j): for
    products that are not none, met in any two orders, the dot product
    (which copies the first product), Gustavson's method without a mask
    (which starts from the identity, true) and with a mask (which
    overwrites a stale cell at the first product) agree.  The monoid has no
    absorbing value, which is why [GB_DOT_TERMINAL] is empty. *)
Theorem eq_gt_methods_agree
    (products products' : list (Z * Z)) (hiwater : Z) (stale : bool) :
  products <> [] ->
  Permutation products products' ->
  dot products' = Some (gustavson products)
  /\ gustavson_masked hiwater stale products' = gustavson products
  /\ (forall cij, exists t, GB_DOT_ADD cij t <> cij).
Proof.
  intros Hne Hperm. unfold gustavson.
  rewrite (multadd_fold_perm products products' Hperm).
  destruct products' as [| ab l'].
  - apply Permutation_sym, Permutation_nil in Hperm. contradiction.
  - split; [ | split].
    + unfold dot. cbn [fold_left]. cbv zeta. rewrite dot_fold.
      f_equal. f_equal. unfold GB_DOT_COPY, GB_DOT_MULT, GB_MULTADD_NOMASK,
        GB_IDENTITY. cbv zeta. destruct (fst ab >? snd ab); reflexivity.
    + unfold gustavson_masked. cbn [fold_left].
      unfold GB_MULTADD_WITH_MASK at 2. cbn [fst snd].
      rewrite Z.eqb_refl, masked_fold. cbn [fst]. f_equal.
      unfold GB_MULTADD_NOMASK, GB_IDENTITY. cbv zeta.
      destruct (fst ab >? snd ab); reflexivity.
    + intros cij. exists false. destruct cij; discriminate.
Qed.

(** Three products, one of them false: the result is false either way,
    a stale true in the cell notwithstanding. *)
Lemma eq_gt_methods_agree_witness :
  dot [(0, 5); (3, 1); (7, 2)] = Some false
  /\ gustavson_masked 8 true [(0, 5); (3, 1); (7, 2)] = false.
Proof.
  destruct (eq_gt_methods_agree [(7, 2); (3, 1); (0, 5)]
              [(0, 5); (3, 1); (7, 2)] 8 true ltac:(discriminate)
              (Permutation_rev [(7, 2); (3, 1); (0, 5)]))
    as (Hd & Hm & _).
  split; [rewrite Hd; reflexivity | rewrite Hm; reflexivity].
Defined.

End EqGtInt8Facts.

Module RdivFC64Facts.
Import RdivFC64.

Lemma NoDup_zrange (n : Z) : NoDup (zrange n).
Proof.
  unfold zrange. generalize 0%nat.
  induction (Z.to_nat n) as [| k IH]; intros s; cbn; constructor.
  - rewrite in_map_iff. intros (d & Hd & Hin). apply in_seq in Hin. lia.
  - apply IH.
Qed.

Section Loop.

Variable T : Type.
Variable f : T -> T.
Variables Cx Xx anz : Z.

Local Abbreviation loop :=
  (fold_left (fun (m : memory T) p => write T m (Cx + p) (f (m (Xx + p))))).

(** Iterations that read and write at their own offset only do not disturb
    one another. *)
Lemma loop_spec : forall (schedule : list Z) (m : memory T),
  NoDup schedule -> (forall p, In p schedule -> 0 <= p < anz) ->
  aliased_or_apart Cx Xx anz ->
  (forall p, In p schedule -> loop schedule m (Cx + p) = f (m (Xx + p)))
  /\ (forall a, (forall p, In p schedule -> a <> Cx + p) ->
                loop schedule m a = m a).
Proof.
  induction schedule as [| p0 s IH] using rev_ind; intros m Hnd Hin Hal.
  - split; [intros p [] | reflexivity].
  - apply NoDup_remove in Hnd. rewrite app_nil_r in Hnd.
    destruct Hnd as [Hnd Hnot].
    destruct (IH m Hnd) as [IH1 IH2]; [ | exact Hal | ].
    { intros p Hp. apply Hin. apply in_or_app. left. exact Hp. }
    assert (Hread : loop s m (Xx + p0) = m (Xx + p0)).
    { apply IH2. intros q Hq E.
      pose proof (Hin q ltac:(apply in_or_app; left; exact Hq)).
      pose proof (Hin p0 ltac:(apply in_or_app; right; left; reflexivity)).
      destruct Hal as [-> | Hal]; [ | lia].
      assert (q = p0) by lia. subst q. contradiction. }
    rewrite fold_left_app. cbn [fold_left].
    set (ms := fold_left _ s m) in *. unfold write. split.
    + intros p Hp. apply in_app_or in Hp.
      destruct (Z.eqb_spec (Cx + p) (Cx + p0)) as [E | N].
      * assert (p = p0) by lia. subst p. rewrite Hread. reflexivity.
      * destruct Hp as [Hp | [Hp | []]]; [apply IH1; exact Hp | congruence].
    + intros a Ha.
      destruct (Z.eqb_spec a (Cx + p0)) as [E | N].
      * exfalso. apply (Ha p0); [ | exact E].
        apply in_or_app. right. left. reflexivity.
      * apply IH2. intros p Hp. apply Ha. apply in_or_app. left. exact Hp.
Qed.

End Loop.

(** X18.  The two bind kernels of RDIV work in place and in parallel: when the
    output array is the input array, or lies apart from it, then whatever
    the order of the [anz] iterations, cell [p] of the output holds the
    operator applied to the scalar and to what cell [p] of the input held
    before the call (rdiv (x, b) = b / x and rdiv (a, y) = y / a), and no
    cell outside the output array changes. *)
Theorem bind_kernels_work_in_place
    (GxB_FC64_t : Type)
    (GB_FC64_div : GxB_FC64_t -> GxB_FC64_t -> GxB_FC64_t)
    (schedule : list Z) (Cx Xx anz : Z) (scalar : GxB_FC64_t)
    (m : memory GxB_FC64_t) :
  Permutation schedule (zrange anz) ->
  aliased_or_apart Cx Xx anz ->
  let r1 := GB_bind1st__rdiv_fc64 GxB_FC64_t GB_FC64_div false schedule
              Cx scalar Xx m in
  let r2 := GB_bind2nd__rdiv_fc64 GxB_FC64_t GB_FC64_div false schedule
              Cx Xx scalar m in
  fst r1 = GrB_SUCCESS /\ fst r2 = GrB_SUCCESS
  /\ (forall p, 0 <= p < anz ->
        snd r1 (Cx + p) = GB_BINOP GxB_FC64_t GB_FC64_div scalar (m (Xx + p))
        /\ snd r2 (Cx + p)
           = GB_BINOP GxB_FC64_t GB_FC64_div (m (Xx + p)) scalar)
  /\ (forall a, a < Cx \/ Cx + anz <= a ->
        snd r1 a = m a /\ snd r2 a = m a).
Proof.
  intros Hperm Hal r1 r2. subst r1 r2.
  unfold GB_bind1st__rdiv_fc64, GB_bind2nd__rdiv_fc64, GB_BINOP.
  cbn [fst snd].
  assert (Hnd : NoDup schedule)
    by (apply (Permutation_NoDup (Permutation_sym Hperm));
        apply NoDup_zrange).
  assert (Hin : forall p, In p schedule <-> 0 <= p < anz).
  { intros p. rewrite <- EmultFacts.in_zrange. split; intros H.
    - apply (Permutation_in _ Hperm H).
    - apply (Permutation_in _ (Permutation_sym Hperm) H). }
  destruct (loop_spec GxB_FC64_t (fun bij => GB_FC64_div bij scalar)
              Cx Xx anz schedule m Hnd (fun p Hp => proj1 (Hin p) Hp) Hal)
    as [A1 A2].
  destruct (loop_spec GxB_FC64_t (fun aij => GB_FC64_div scalar aij)
              Cx Xx anz schedule m Hnd (fun p Hp => proj1 (Hin p) Hp) Hal)
    as [B1 B2].
  split; [reflexivity | ]. split; [reflexivity | ]. split.
  - intros p Hp. split; [apply A1 | apply B1]; apply Hin; exact Hp.
  - intros a Ha. split; [apply A2 | apply B2]; intros p Hp E;
      apply Hin in Hp; lia.
Qed.

(** Three cells updated in place, last iteration first. *)
Lemma bind_kernels_work_in_place_witness :
  let r := GB_bind1st__rdiv_fc64 (Z * Z) sample_div false [2; 0; 1]
             100 (1, 1) 100 sample_memory in
  snd r 101 = (1009, 100) /\ snd r 103 = sample_memory 103.
Proof.
  cbv zeta.
  assert (Hperm : Permutation [2; 0; 1] (zrange 3)).
  { change (zrange 3) with [0; 1; 2].
    apply (perm_trans (l' := [0; 2; 1]));
      [apply perm_swap | apply perm_skip; apply perm_swap]. }
  destruct (bind_kernels_work_in_place (Z * Z) sample_div [2; 0; 1]
              100 100 3 (1, 1) sample_memory Hperm (or_introl eq_refl))
    as (_ & _ & Hcell & Hout).
  split.
  - change 101 with (100 + 1). rewrite (proj1 (Hcell 1 ltac:(lia))).
    reflexivity.
  - exact (proj1 (Hout 103 ltac:(lia))).
Defined.

End RdivFC64Facts.

(* ===================================================================== *)
(** * GB_ewise: the transposes that are carried out are those asked for   *)
(* ===================================================================== *)

Module EwiseFormatsFacts.
Import Ewise EwiseFormats.

(** X19.  Whatever the formats of C, A and B and whatever transposes the caller
    asks for, [GB_ewise] never transposes both A and B, and the operands
    that [GB_add] or [GB_emult] receive, read in the format of T, are the
    matrices asked for: A or A', and B or B'.  T has the format of C unless
    both operands would have had to be transposed; then neither is, T has
    the other format, and T is not transplanted into C but handed to
    [GB_accum_mask]. *)
Theorem operands_are_the_requested_matrices
    (val : Type) (GB_cast : GrB_Type -> GrB_Type -> val -> val)
    (to_bool : GrB_Type -> val -> bool)
    (C A B : GrB_Matrix val) (A_transpose_in B_transpose_in : bool)
    (r c : Z) :
  let pl := conform_formats (is_csc val C) (is_csc val A) (is_csc val B)
              A_transpose_in B_transpose_in in
  let A1 := operand val (A_transpose pl) (T_is_csc pl) A in
  let B1 := operand val (B_transpose pl) (T_is_csc pl) B in
  A_transpose pl && B_transpose pl = false
  /\ read_as val (T_is_csc pl) A1 r c = requested val A A_transpose_in r c
  /\ read_as val (T_is_csc pl) B1 r c = requested val B B_transpose_in r c
  /\ (T_is_csc pl <> is_csc val C ->
      A1 = A /\ B1 = B
      /\ forall T C_replace M Mask_comp Mask_struct accum mask_applied,
           is_csc val T = T_is_csc pl ->
           GB_ewise_finish val GB_cast to_bool C C_replace M Mask_comp
             Mask_struct accum T mask_applied
           = GB_accum_mask val GB_cast to_bool C M accum T C_replace
               Mask_comp Mask_struct).
Proof.
  cbv zeta. unfold conform_formats, operand, read_as, requested, entry.
  destruct (is_csc val C) eqn:EC, (is_csc val A) eqn:EA,
           (is_csc val B) eqn:EB,
           A_transpose_in, B_transpose_in; cbn;
    (split; [reflexivity | ]);
    (split; [reflexivity | ]);
    (split; [reflexivity | ]);
    intros H; try congruence.
  all: split; [reflexivity | ]; split; [reflexivity | ].
  all: intros T C_replace M Mask_comp Mask_struct accum mask_applied ET.
  all: unfold GB_ewise_finish; rewrite EC, ET; cbn.
  all: rewrite andb_false_r; reflexivity.
Qed.

(** X20.  The dimensions that the checks of lines 98-115 compare are those of
    the matrices asked for; when they pass, the operands that reach
    [GB_add] or [GB_emult] have vectors of the same length and the same
    number of them, and these are the ones of C when T has the format of
    C, and the ones of C exchanged when it has not. *)
Theorem checked_dimensions_conform
    (val : Type) (C A B : GrB_Matrix val)
    (A_transpose_in B_transpose_in : bool) :
  dimensions_differ val C A B A_transpose_in B_transpose_in = false ->
  let pl := conform_formats (is_csc val C) (is_csc val A) (is_csc val B)
              A_transpose_in B_transpose_in in
  let A1 := operand val (A_transpose pl) (T_is_csc pl) A in
  let B1 := operand val (B_transpose pl) (T_is_csc pl) B in
  vlen val A1 = vlen val B1 /\ vdim val A1 = vdim val B1
  /\ (vlen val A1, vdim val A1)
     = if Bool.eqb (T_is_csc pl) (is_csc val C)
       then (vlen val C, vdim val C) else (vdim val C, vlen val C).
Proof.
  unfold dimensions_differ, GB_NROWS, GB_NCOLS. intros H.
  repeat (apply orb_false_elim in H; destruct H as [H ?]).
  repeat match goal with
         | E : negb _ = false |- _ =>
             apply negb_false_iff in E; apply Z.eqb_eq in E
         end.
  cbv zeta. unfold conform_formats, operand, GB_transpose.
  destruct (is_csc val C), (is_csc val A), (is_csc val B),
           A_transpose_in, B_transpose_in; cbn in *;
    repeat split; congruence.
Qed.

(** C = A + B' with C 2-by-3 held by column, A 2-by-3 held by row and B
    3-by-2 held by column: neither is transposed, both have two vectors of
    length 3, and T is held by row. *)
Lemma checked_dimensions_conform_witness :
  let pl := conform_formats true false true false true in
  dimensions_differ Z output_2x3 by_row_2x3 by_col_3x2 false true = false
  /\ T_is_csc pl = false
  /\ vlen Z (operand Z (A_transpose pl) (T_is_csc pl) by_row_2x3)
     = vlen Z (operand Z (B_transpose pl) (T_is_csc pl) by_col_3x2)
  /\ vdim Z (operand Z (A_transpose pl) (T_is_csc pl) by_row_2x3) = 2.
Proof.
  cbv zeta. split; [reflexivity | ]. split; [reflexivity | ].
  destruct (checked_dimensions_conform Z output_2x3 by_row_2x3 by_col_3x2
              false true eq_refl) as (H1 & _ & H3).
  split; [exact H1 | ].
  exact (f_equal snd H3).
Defined.

End EwiseFormatsFacts.

(* ===================================================================== *)
(** * Import and export: failures                                         *)
(* ===================================================================== *)

Module ImportCSCFailures.
Import ImportCSC.



End ImportCSCFailures.

Module ExportCSCFailures.
Import ExportCSC.

(** X22.  [GxB_Matrix_export_CSC] does nothing that is not needed, and nothing
    after a failure.  A [NULL] handle, a [NULL] or invalid matrix, or a bad
    descriptor ends the call before any of the four callees runs; a matrix
    that is held by column is not transposed; and when the transposition
    fails, its status is returned, nothing is exported, and neither the
    pending work is finished nor the format converted. *)
Theorem export_stops_at_the_first_failure
    (content : Type)
    (transpose transpose' wait wait' to_sparse to_sparse' :
       GrB_Matrix content -> GrB_Info * GrB_Matrix content)
    (export export' :
       GrB_Matrix content -> option bool -> GrB_Info * option bool)
    (A : option (option (GrB_Matrix content))) (jumbled_arg : option bool)
    (desc_info : GrB_Info) :
  let run := GxB_Matrix_export_CSC content transpose wait to_sparse export
               A jumbled_arg desc_info in
  ((A = None \/ A = Some None \/ desc_info <> GrB_SUCCESS
    \/ (exists A0, A = Some (Some A0) /\ magic A0 <> GB_MAGIC)) ->
   info run <> GrB_SUCCESS /\ exported run = None
   /\ run = GxB_Matrix_export_CSC content transpose' wait' to_sparse'
              export' A jumbled_arg desc_info)
  /\ (forall A0, A = Some (Some A0) -> is_csc A0 = true ->
      run = GxB_Matrix_export_CSC content transpose' wait to_sparse export
              A jumbled_arg desc_info)
  /\ (forall A0, A = Some (Some A0) -> magic A0 = GB_MAGIC ->
      desc_info = GrB_SUCCESS -> is_csc A0 = false ->
      fst (transpose A0) <> GrB_SUCCESS ->
      run = failed content (fst (transpose A0))
      /\ run = GxB_Matrix_export_CSC content transpose wait' to_sparse'
                 export' A jumbled_arg desc_info).
Proof.
  cbv zeta. unfold GxB_Matrix_export_CSC. split; [ | split].
  - intros [-> | [-> | [Hd | (A0 & -> & Hm)]]].
    + cbn. repeat split. discriminate.
    + cbn. repeat split. discriminate.
    + destruct A as [[A0 | ] | ]; cbn; try (repeat split; discriminate).
      destruct (magic A0); cbn; try (repeat split; discriminate).
      destruct desc_info; cbn; try (repeat split; discriminate).
      contradiction.
    + destruct (magic A0); cbn; try (repeat split; discriminate).
      contradiction.
  - intros A0 -> Hcsc. rewrite Hcsc. reflexivity.
  - intros A0 -> Hm -> Hcsc Hfail. rewrite Hm, Hcsc. cbn [negb].
    unfold GB_OK. destruct (fst (transpose A0)); try (split; reflexivity).
    contradiction.
Qed.

End ExportCSCFailures.

(* ===================================================================== *)
(** * The MATLAB interface: what is handed to MATLAB                      *)
(* ===================================================================== *)

Module MatlabFacts.
Import Matlab.

Lemma mxfull_returns (gb_complex_type : option GrB_Type)
    (X_handle : option pointer) (nrows ncols : Z) (ty : option GrB_Type)
    (F : mxFull) (h : pointer) :
  gb_export_to_mxfull gb_complex_type X_handle nrows ncols ty
  = Returned (F, h) ->
  h = None /\ X_handle = Some (full_data F) /\ full_data F <> None
  /\ full_M F = nrows /\ full_N F = ncols
  /\ exported_type gb_complex_type (full_class F) (full_complexity F) = ty.
Proof.
  unfold gb_export_to_mxfull.
  destruct X_handle as [[X | ] | ]; try discriminate.
  destruct ty as [ty | ]; try discriminate.
  repeat match goal with
         | |- context [if type_eqb ty ?t then _ else _] =>
             destruct (type_eqb ty t) eqn:?E
         end;
    try (match goal with
         | E : type_eqb ty ?t = true |- _ =>
             apply SemiringBuiltinLaws.type_eqb_eq in E; subst ty
         end;
         intros H; inversion H; subst; cbn;
         repeat split; discriminate).
  destruct gb_complex_type as [ct | ]; [ | discriminate].
  destruct (type_eqb ty ct) eqn:Ec; [ | discriminate].
  apply SemiringBuiltinLaws.type_eqb_eq in Ec. subst ct.
  intros H; inversion H; subst; cbn. repeat split; discriminate.
Qed.

(** X23.  [gb_export_to_mxfull] hands the array over as it is: the dense matrix
    returned has the dimensions given and holds the caller's array, the
    caller's pointer is cleared, and the class of the matrix tells the type
    of the array, no two types being exported as the same class. *)
Theorem mxfull_class_tells_the_type
    (gb_complex_type : option GrB_Type)
    (X1 X2 : option pointer) (nrows1 ncols1 nrows2 ncols2 : Z)
    (type1 type2 : option GrB_Type) (F1 F2 : mxFull) (h1 h2 : pointer) :
  gb_export_to_mxfull gb_complex_type X1 nrows1 ncols1 type1
  = Returned (F1, h1) ->
  gb_export_to_mxfull gb_complex_type X2 nrows2 ncols2 type2
  = Returned (F2, h2) ->
  h1 = None /\ X1 = Some (full_data F1) /\ full_data F1 <> None
  /\ full_M F1 = nrows1 /\ full_N F1 = ncols1
  /\ (full_class F1 = full_class F2 ->
      full_complexity F1 = full_complexity F2 -> type1 = type2).
Proof.
  intros H1 H2.
  apply mxfull_returns in H1, H2.
  destruct H1 as (A1 & A2 & A3 & A4 & A5 & A6).
  destruct H2 as (_ & _ & _ & _ & _ & B6).
  repeat split; try assumption.
  intros Ec Ex. rewrite <- A6, <- B6, Ec, Ex. reflexivity.
Qed.

(** An int16 array and a uint16 array: two different classes. *)
Lemma mxfull_class_tells_the_type_witness :
  exists F1 F2,
    gb_export_to_mxfull None (Some (Some 7)) 2 3 (Some GrB_INT16)
    = Returned (F1, None)
    /\ gb_export_to_mxfull None (Some (Some 8)) 2 3 (Some GrB_UINT16)
       = Returned (F2, None)
    /\ full_data F1 = Some 7 /\ full_class F1 <> full_class F2.
Proof.
  eexists. eexists. split; [reflexivity | ]. split; [reflexivity | ].
  destruct (mxfull_class_tells_the_type None (Some (Some 7))
              (Some (Some 8)) 2 3 2 3 (Some GrB_INT16) (Some GrB_UINT16)
              _ _ _ _ eq_refl eq_refl) as (_ & _ & _ & _ & _ & Hinj).
  split; [reflexivity | ].
  intros Ec. specialize (Hinj Ec eq_refl). discriminate Hinj.
Defined.

(** X24.  The class of the sparse matrix that [gb_export_to_mxsparse] returns:
    it is logical exactly when A is boolean and is held by column or has
    no entry.  A boolean matrix held by row is typecast to double, and
    comes out as a double matrix when it has entries, but as a logical one
    when it has none.  In every case the caller's handle is cleared.
    [gb_typecast] and [GrB_Matrix_dup] are taken to return a matrix of the
    type asked for, with the entries of their argument. *)
Theorem mxsparse_is_logical_iff
    (gb_complex_type : option GrB_Type)
    (GrB_Matrix_dup : GrB_Matrix -> GrB_Info * GrB_Matrix)
    (gb_typecast : GrB_Type -> bool -> GrB_Matrix -> outcome GrB_Matrix)
    (mx_arrays : pointer * pointer * pointer)
    (A : GrB_Matrix) (S : mxSparse) (h : option GrB_Matrix)
    (freed : list pointer) :
  (forall ty csc A0 T, gb_typecast ty csc A0 = Returned T ->
     type T = ty /\ nvals T = nvals A0) ->
  (forall A0 T, GrB_Matrix_dup A0 = (GrB_SUCCESS, T) ->
     type T = type A0 /\ nvals T = nvals A0) ->
  gb_export_to_mxsparse gb_complex_type GrB_Matrix_dup gb_typecast mx_arrays
    (Some (Some A)) = Returned (S, h, freed) ->
  h = None
  /\ (sparse_class S = mxLOGICAL_CLASS
      <-> type A = GrB_BOOL /\ (by_col A = true \/ nvals A = 0)).
Proof.
  intros Hcast Hdup. unfold gb_export_to_mxsparse.
  assert (Hcreate : forall ty m n nz arr,
            sparse_class (create gb_complex_type ty m n nz arr)
            = mxLOGICAL_CLASS <-> ty = GrB_BOOL).
  { intros ty m n nz arr. unfold create.
    destruct (type_eqb ty GrB_BOOL) eqn:Eb.
    - apply SemiringBuiltinLaws.type_eqb_eq in Eb. cbn. tauto.
    - assert (ty <> GrB_BOOL).
      { intros ->.
        rewrite (proj2 (SemiringBuiltinLaws.type_eqb_eq _ _) eq_refl) in Eb.
        discriminate. }
      destruct (is_complex gb_complex_type ty); cbn; split;
        intros; try discriminate; contradiction. }
  assert (Hfinish : forall T,
            nvals T = nvals A ->
            (nvals A <> 0 -> (type T = GrB_BOOL <->
                              type A = GrB_BOOL /\ by_col A = true)) ->
            sparse_of gb_complex_type mx_arrays (type A) T
            = Returned (S, h, freed) ->
            h = None
            /\ (sparse_class S = mxLOGICAL_CLASS
                <-> type A = GrB_BOOL
                    /\ (by_col A = true \/ nvals A = 0))).
  { intros T Hn Htype. unfold sparse_of.
    destruct (shallow T); [discriminate | ].
    rewrite Hn. destruct (Z.eqb_spec (nvals A) 0) as [E0 | N0].
    - intros H. inversion H; subst. split; [reflexivity | ].
      rewrite Hcreate. tauto.
    - unfold export_CSC. destruct (nzmax T =? 0); [discriminate | ].
      destruct (p T), (i T), (x T); try discriminate.
      intros H. inversion H; subst. split; [reflexivity | ].
      rewrite Hcreate, (Htype N0).
      split; [tauto | ]. intros [Hb [Hc | Hz]]; [tauto | contradiction]. }
  destruct (by_col A && (type_eqb (type A) GrB_BOOL
                         || type_eqb (type A) GrB_FP64
                         || is_complex gb_complex_type (type A))) eqn:Enat.
  - apply andb_prop in Enat. destruct Enat as [Ecol _].
    destruct (shallow A).
    + destruct (GrB_Matrix_dup A) as [e T] eqn:Ed.
      destruct e; try discriminate.
      destruct (Hdup A T Ed) as [Ht Hn].
      apply (Hfinish T Hn). rewrite Ht. tauto.
    + apply (Hfinish A eq_refl). tauto.
  - destruct (gb_typecast GrB_FP64 true A) as [T | m] eqn:Et;
      [ | discriminate].
    destruct (Hcast GrB_FP64 true A T Et) as [Ht Hn].
    assert (Hrow : type A = GrB_BOOL -> by_col A = false).
    { intros Eb. rewrite Eb in Enat.
      rewrite (proj2 (SemiringBuiltinLaws.type_eqb_eq _ _) eq_refl) in Enat.
      cbn [orb] in Enat. rewrite andb_true_r in Enat. exact Enat. }
    apply (Hfinish T Hn). rewrite Ht. intros _.
    assert (Hne : GrB_FP64 <> GrB_BOOL) by discriminate.
    split; [intros E; contradiction | ].
    intros [Eb Ec]. rewrite (Hrow Eb) in Ec. discriminate.
Qed.

(** A boolean matrix held by row with no entry is exported as a logical
    matrix. *)
Lemma mxsparse_is_logical_iff_witness :
  exists S freed,
    gb_export_to_mxsparse None model_dup model_typecast
      (Some 60, Some 61, Some 62) (Some (Some (bool_by_row 0)))
    = Returned (S, None, freed)
    /\ sparse_class S = mxLOGICAL_CLASS.
Proof.
  eexists. eexists. split; [reflexivity | ].
  apply (mxsparse_is_logical_iff None model_dup model_typecast
           (Some 60, Some 61, Some 62) (bool_by_row 0) _ None []).
  - intros ty csc A0 T H. inversion H. split; reflexivity.
  - intros A0 T H. inversion H. split; reflexivity.
  - reflexivity.
  - split; [reflexivity | right; reflexivity].
Defined.

(** The same matrix with one entry is exported as a double matrix, at the
    arrays of the typecast copy; the arrays that MATLAB had allocated are
    released. *)
Example mxsparse_bool_by_row_is_double :
  gb_export_to_mxsparse None model_dup model_typecast
    (Some 60, Some 61, Some 62) (Some (Some (bool_by_row 1)))
  = Returned (mkMxSparse mxDOUBLE_CLASS mxREAL 2 2 1
                (Some 50) (Some 51) (Some 52),
              None, [Some 60; Some 61; Some 62]).
Proof. reflexivity. Qed.

End MatlabFacts.
